(** * LatinIME native dictionary core: a shallow embedding and its properties

    The development follows the layout of the C++ sources:

    - [Defines]                         constants of [defines.h];
    - [ProbabilityUtils]                the probability codec;
    - [PolicyProbability]               [DynamicPatriciaTriePolicy::getProbability];
    - [CharUtils], [DicNodeCharUtils]   [appendTwoWords] of [dic_node_utils.cpp];
    - [MultiBigramMap]                  [multi_bigram_map.h];
    - [Float32], [DicNode], [DicNodeUtils]
                                        the bigram cost of [dic_node_utils.cpp];
    - [Mem], [BigramDictionary]         [bigram_dictionary.cpp];
    - [IntArrayView]                    [int_array_view.h];
    - [DynamicPatriciaTrie]             [dynamic_patricia_trie_policy.cpp] and
                                        [dynamic_patricia_trie_writing_helper.cpp],
                                        over a buffer of typed fields.

    Integers of the program ([int], [int16_t]) are modelled as [Z]; buffers
    of code points are lists of [Z] indexed from [0]. *)

From Stdlib Require Import ZArith Lia Bool.
From Stdlib Require Import Floats.SpecFloat.
From stdpp Require Import base option list gmap.

Local Open Scope Z_scope.

(* ===================================================================== *)
(** * Constants *)
(* ===================================================================== *)

Module Defines.

(** Modelled from the spec: the [defines.h] of the jni tree is not among the
    sources; the interface section fixes [MAX_WORD_LENGTH = 48]. *)
Definition MAX_WORD_LENGTH : Z := 48.

(** Modelled from the spec: probabilities range over [0..255]. *)
Definition MAX_PROBABILITY : Z := 255.

(** Modelled from the spec: [NOT_A_DICT_POS] is encoded as [0]. *)
Definition NOT_A_DICT_POS : Z := 0.

(** The C macro [min(a,b) ((a)<(b)?(a):(b))] of [defines.h]. *)
Definition min (a b : Z) : Z := if a <? b then a else b.

Lemma min_spec a b : min a b = Z.min a b.
Proof. unfold min. destruct (Z.ltb_spec a b); lia. Qed.

End Defines.

(* ===================================================================== *)
(** * ProbabilityUtils *)
(* ===================================================================== *)

Module ProbabilityUtils.
Import Defines.

Section Codec.

(** [NOT_A_PROBABILITY] is declared in the absent [defines.h]; no value is
    needed, it is kept as a parameter. *)
Variable NOT_A_PROBABILITY : Z.

(** Nearest integer to [n / 16], a tie going up. *)
Definition roundSixteenths (n : Z) : Z := (n + 8) / 16.

(** Modelled from the spec: [ProbabilityUtils::backoff] is not among the
    sources.  [backoff(uni)] is [uni - 8] clamped to be at least [0] when
    [uni] is not [NOT_A_PROBABILITY], else [NOT_A_PROBABILITY]. *)
Definition backoff (unigramProbability : Z) : Z :=
  if decide (unigramProbability = NOT_A_PROBABILITY) then NOT_A_PROBABILITY
  else Z.max (unigramProbability - 8) 0.

(** Modelled from the spec: [ProbabilityUtils::computeProbabilityForBigram]
    is not among the sources.  It maps [bi] to the weight [(bi + 1) / 16] and
    returns [round(uni + (MAX_PROBABILITY - uni) * w(bi))]; when either
    operand is [NOT_A_PROBABILITY] it returns [backoff(uni)].  The rounded
    quantity is [(16 * uni + (MAX_PROBABILITY - uni) * (bi + 1)) / 16]. *)
Definition computeProbabilityForBigram (unigramProbability bigramProbability : Z) : Z :=
  if decide (unigramProbability = NOT_A_PROBABILITY) then backoff unigramProbability
  else if decide (bigramProbability = NOT_A_PROBABILITY) then backoff unigramProbability
  else roundSixteenths (16 * unigramProbability
                        + (MAX_PROBABILITY - unigramProbability) * (bigramProbability + 1)).

End Codec.

Lemma roundSixteenths_nearest n :
  -8 <= n - 16 * roundSixteenths n < 8.
Proof.
  unfold roundSixteenths.
  pose proof (Z.div_mod (n + 8) 16 ltac:(lia)).
  pose proof (Z.mod_pos_bound (n + 8) 16 ltac:(lia)).
  lia.
Qed.

End ProbabilityUtils.

(* ===================================================================== *)
(** * DynamicPatriciaTriePolicy: probability composition *)
(* ===================================================================== *)

Module PolicyProbability.
Import Defines ProbabilityUtils.

Section GetProbability.
Variable NOT_A_PROBABILITY : Z.

(** [DynamicPatriciaTriePolicy::getProbability]
    (dynamic_patricia_trie_policy.cpp, l. 138-149). *)
Definition getProbability (unigramProbability bigramProbability : Z) : Z :=
  if decide (unigramProbability = NOT_A_PROBABILITY) then NOT_A_PROBABILITY
  else if decide (bigramProbability = NOT_A_PROBABILITY) then
    backoff NOT_A_PROBABILITY unigramProbability
  else
    computeProbabilityForBigram NOT_A_PROBABILITY unigramProbability bigramProbability.

End GetProbability.

(** C5.  For all integers [uni] and [bi], [getProbability uni bi] is
    [NOT_A_PROBABILITY] when [uni] is; it is [max (uni - 8) 0] when [uni] is
    valid and [bi] is [NOT_A_PROBABILITY]; and when both are valid it is the
    integer nearest to [uni + (MAX_PROBABILITY - uni) * (bi + 1) / 16]
    (written with the common denominator 16, a tie rounding up). *)
Theorem getProbability_three_cases (NOT_A_PROBABILITY uni bi : Z) :
  let r := getProbability NOT_A_PROBABILITY uni bi in
  (uni = NOT_A_PROBABILITY ∧ r = NOT_A_PROBABILITY)
  ∨ (uni ≠ NOT_A_PROBABILITY ∧ bi = NOT_A_PROBABILITY ∧ r = Z.max (uni - 8) 0)
  ∨ (uni ≠ NOT_A_PROBABILITY ∧ bi ≠ NOT_A_PROBABILITY
     ∧ r = roundSixteenths (16 * uni + (MAX_PROBABILITY - uni) * (bi + 1))
     ∧ -8 <= 16 * uni + (MAX_PROBABILITY - uni) * (bi + 1) - 16 * r < 8).
Proof.
  intros r. subst r. unfold getProbability.
  destruct (decide (uni = NOT_A_PROBABILITY)) as [Hu|Hu]; [left; done|].
  right.
  destruct (decide (bi = NOT_A_PROBABILITY)) as [Hb|Hb].
  - left. unfold backoff. rewrite decide_False by done. done.
  - right. unfold computeProbabilityForBigram.
    rewrite !decide_False by done.
    repeat split; try done; apply roundSixteenths_nearest.
Qed.

(** X13.  For a unigram probability in [0, MAX_PROBABILITY] that is not
    [NOT_A_PROBABILITY], [getProbability] returns a probability in
    [0, MAX_PROBABILITY]: without a bigram probability it is at most the
    unigram probability, and with a bigram probability in [0, 15] it is at
    least the unigram probability. *)
Theorem getProbability_range (NOT_A_PROBABILITY uni bi : Z) :
  uni ≠ NOT_A_PROBABILITY → 0 <= uni <= MAX_PROBABILITY →
  bi = NOT_A_PROBABILITY ∨ 0 <= bi <= 15 →
  let r := getProbability NOT_A_PROBABILITY uni bi in
  0 <= r <= MAX_PROBABILITY
  ∧ (bi = NOT_A_PROBABILITY → r <= uni)
  ∧ (bi ≠ NOT_A_PROBABILITY → uni <= r).
Proof.
  intros Hu Hrange Hbi r. subst r. unfold getProbability, MAX_PROBABILITY in *.
  rewrite decide_False by done.
  destruct (decide (bi = NOT_A_PROBABILITY)) as [Hb|Hb].
  - unfold backoff. rewrite decide_False by done. lia.
  - destruct Hbi as [?|Hbi]; [done|].
    unfold computeProbabilityForBigram, roundSixteenths, MAX_PROBABILITY.
    rewrite !decide_False by done.
    assert (H1 : 0 <= (255 - uni) * (bi + 1) <= 16 * (255 - uni)) by nia.
    split; [split|split; [done|intros _]].
    + apply Z.div_pos; lia.
    + assert ((16 * uni + (255 - uni) * (bi + 1) + 8) / 16 < 256)
        by (apply Z.div_lt_upper_bound; lia).
      lia.
    + apply Z.div_le_lower_bound; lia.
Qed.

(** The theorem at unigram probability 100 and bigram probability 3. *)
Lemma getProbability_range_witness :
  let r := getProbability (-1) 100 3 in
  0 <= r <= MAX_PROBABILITY ∧ (3 = -1 → r <= 100) ∧ (3 ≠ -1 → 100 <= r).
Proof.
  apply (getProbability_range (-1) 100 3); [lia|unfold MAX_PROBABILITY; lia|lia].
Defined.

End PolicyProbability.

(* ===================================================================== *)
(** * CharUtils *)
(* ===================================================================== *)

Module CharUtils.

(** The prefix of a buffer up to, and not including, its first [0]: the
    word a null-terminated buffer holds. *)
Fixpoint prefixToZero (src : list Z) : list Z :=
  match src with
  | [] => []
  | c :: rest => if decide (c = 0) then [] else c :: prefixToZero rest
  end.

(** Modelled from the spec: [CharUtils::getCodePointCount] is not among the
    sources; a code point [0] terminates a word buffer, so the count of a
    buffer of [arraySize] entries is the length of its prefix up to the
    first [0]. *)
Definition getCodePointCount (arraySize : nat) (codePoints : list Z) : nat :=
  length (prefixToZero (take arraySize codePoints)).

Lemma prefixToZero_take src :
  prefixToZero src = take (length (prefixToZero src)) src.
Proof.
  induction src as [|c rest IH]; simpl; [done|].
  destruct (decide (c = 0)); simpl; [done|]. by rewrite <- IH.
Qed.

Lemma prefixToZero_length src : (length (prefixToZero src) <= length src)%nat.
Proof.
  induction src as [|c rest IH]; simpl; [lia|].
  destruct (decide (c = 0)); simpl; lia.
Qed.

(** A word without [0] followed by a [0] is read back as that word. *)
Lemma prefixToZero_app_zero (w rest : list Z) :
  Forall (λ c, c ≠ 0) w → prefixToZero (w ++ 0 :: rest) = w.
Proof.
  induction 1 as [|c w Hc _ IH]; simpl.
  - done.
  - rewrite decide_False by done. by rewrite IH.
Qed.

End CharUtils.

(* ===================================================================== *)
(** * DicNodeUtils: char utils *)
(* ===================================================================== *)

Module DicNodeCharUtils.
Import Defines CharUtils.

(** The scanning loop of [appendTwoWords]:
    [for (i = 0; i < length; ++i) { if (src[i] == 0) break; actual = i + 1; }].
    [fuel] counts the iterations left, [i] is the loop index.  A read past
    the end of the list stands for a read outside the caller's buffer and
    stops the scan. *)
Fixpoint scanLoop (src : list Z) (fuel : nat) (i : nat) (actualLength : Z) : Z :=
  match fuel with
  | O => actualLength
  | S fuel' =>
      match src !! i with
      | Some c => if decide (c = 0) then actualLength
                  else scanLoop src fuel' (S i) (Z.of_nat i + 1)
      | None => actualLength
      end
  end.

Definition scan (src : list Z) (length : Z) : Z :=
  scanLoop src (Z.to_nat length) 0%nat 0.

(** [memmove(dest + at, src, n * sizeof(dest[0]))] on disjoint buffers. *)
Definition memmoveInto (dest : list Z) (at_ : nat) (src : list Z) (n : nat) : list Z :=
  take at_ dest ++ take n src ++ drop (at_ + n) dest.

(** [DicNodeUtils::appendTwoWords] (dic_node_utils.cpp, l. 111-135).
    [src1 = None] is the null pointer.  The result is the buffer [dest]
    after the call and the returned length. *)
Definition appendTwoWords (src0 : list Z) (length0 : Z)
    (src1 : option (list Z)) (length1 : Z) (dest : list Z) : list Z * Z :=
  let actualLength0 := scan src0 length0 in
  let actualLength0 := min actualLength0 MAX_WORD_LENGTH in
  let dest := memmoveInto dest 0 src0 (Z.to_nat actualLength0) in
  match src1 with
  | None => (dest, actualLength0)
  | Some src1 =>
      if decide (length1 = 0) then (dest, actualLength0)
      else
        let actualLength1 := scan src1 length1 in
        let actualLength1 := min actualLength1 (MAX_WORD_LENGTH - actualLength0) in
        let dest := memmoveInto dest (Z.to_nat actualLength0) src1 (Z.to_nat actualLength1) in
        (dest, actualLength0 + actualLength1)
  end.

(** What the claim describes for one source: the first [length] entries,
    cut at the first [0]. *)
Definition wordOf (src : list Z) (length : Z) : list Z :=
  prefixToZero (take (Z.to_nat length) src).

Definition wordOfOpt (src : option (list Z)) (length : Z) : list Z :=
  match src with None => [] | Some s => wordOf s length end.

Lemma scanLoop_spec src fuel i :
  (i <= length src)%nat →
  ∀ acc, acc = Z.of_nat i →
  scanLoop src fuel i acc
  = Z.of_nat i + Z.of_nat (length (prefixToZero (take fuel (drop i src)))).
Proof.
  revert i. induction fuel as [|fuel IH]; intros i Hi acc ->; simpl.
  - lia.
  - destruct (src !! i) as [c|] eqn:Hc.
    + rewrite (drop_S _ _ _ Hc). simpl.
      destruct (decide (c = 0)); simpl; [lia|].
      rewrite IH; [|apply lookup_lt_Some in Hc; lia|lia].
      lia.
    + apply lookup_ge_None in Hc.
      rewrite drop_ge by lia. simpl. lia.
Qed.

Lemma scan_spec src len : scan src len = Z.of_nat (length (wordOf src len)).
Proof.
  unfold scan, wordOf.
  rewrite scanLoop_spec with (i := 0%nat); [|lia|done].
  rewrite drop_0. lia.
Qed.

Lemma wordOf_take src len :
  wordOf src len = take (length (wordOf src len)) src.
Proof.
  unfold wordOf.
  rewrite prefixToZero_take at 1.
  rewrite take_take. f_equal.
  pose proof (prefixToZero_length (take (Z.to_nat len) src)) as H.
  rewrite length_take in H. lia.
Qed.

(** The first [min (scan src len) cap] entries of [src] are the word of
    [src] cut to [cap]. *)
Lemma take_scan_min src len cap :
  0 <= cap →
  take (Z.to_nat (min (scan src len) cap)) src = take (Z.to_nat cap) (wordOf src len)
  ∧ Z.to_nat (min (scan src len) cap) = length (take (Z.to_nat cap) (wordOf src len)).
Proof.
  intros Hcap. rewrite min_spec, scan_spec.
  set (w := wordOf src len).
  assert (Hn : Z.to_nat (Z.min (Z.of_nat (length w)) cap)
               = (length w `min` Z.to_nat cap)%nat) by lia.
  rewrite Hn, length_take. split; [|lia].
  transitivity (take (Z.to_nat cap) (take (length w) src)).
  - rewrite take_take. f_equal. lia.
  - f_equal. symmetry. apply wordOf_take.
Qed.

(** C10.  [appendTwoWords] writes to [dest] the prefix of [src0] up to its
    first [0] (within [length0] entries) cut to [MAX_WORD_LENGTH], followed
    by the like prefix of [src1] cut to the space left; it leaves the rest
    of [dest] alone and returns the number of code points written, which is
    at most [MAX_WORD_LENGTH]. *)
Theorem appendTwoWords_writes_both_prefixes
    (src0 : list Z) (length0 : Z) (src1 : option (list Z)) (length1 : Z)
    (dest : list Z) :
  (Z.to_nat MAX_WORD_LENGTH <= length dest)%nat →
  let w0 := take (Z.to_nat MAX_WORD_LENGTH) (wordOf src0 length0) in
  let w1 := take (Z.to_nat MAX_WORD_LENGTH - length w0) (wordOfOpt src1 length1) in
  let '(dest', ret) := appendTwoWords src0 length0 src1 length1 dest in
  ret = Z.of_nat (length (w0 ++ w1))
  ∧ take (Z.to_nat ret) dest' = w0 ++ w1
  ∧ drop (Z.to_nat ret) dest' = drop (Z.to_nat ret) dest
  ∧ length dest' = length dest
  ∧ 0 <= ret <= MAX_WORD_LENGTH.
Proof.
  intros Hdest w0 w1. unfold appendTwoWords.
  assert (Hmax : 0 < MAX_WORD_LENGTH) by (unfold MAX_WORD_LENGTH; lia).
  destruct (take_scan_min src0 length0 MAX_WORD_LENGTH) as [Ht0 Hl0];
    [unfold MAX_WORD_LENGTH; lia|].
  fold w0 in Ht0, Hl0.
  set (a0 := min (scan src0 length0) MAX_WORD_LENGTH) in *.
  assert (Hw0 : (length w0 <= Z.to_nat MAX_WORD_LENGTH)%nat).
  { unfold w0. rewrite length_take. lia. }
  assert (Ha0 : a0 = Z.of_nat (length w0)).
  { assert (0 <= a0)
      by (unfold a0; rewrite min_spec, scan_spec; unfold MAX_WORD_LENGTH; lia).
    lia. }
  assert (Hd1 : memmoveInto dest 0 src0 (Z.to_nat a0) = w0 ++ drop (length w0) dest).
  { unfold memmoveInto. rewrite take_0, Ht0, Hl0. done. }
  rewrite Hd1.
  assert (Hnone : w1 = [] →
    a0 = Z.of_nat (length (w0 ++ w1))
    ∧ take (Z.to_nat a0) (w0 ++ drop (length w0) dest) = w0 ++ w1
    ∧ drop (Z.to_nat a0) (w0 ++ drop (length w0) dest) = drop (Z.to_nat a0) dest
    ∧ length (w0 ++ drop (length w0) dest) = length dest
    ∧ 0 <= a0 <= MAX_WORD_LENGTH).
  { intros ->. rewrite app_nil_r, Hl0.
    rewrite take_app_length, drop_app_length, length_app, length_drop.
    repeat split; try done; lia. }
  destruct src1 as [s1|]; [|apply Hnone; unfold w1; simpl; by rewrite take_nil].
  destruct (decide (length1 = 0)) as [->|Hlen1].
  { apply Hnone. unfold w1, wordOfOpt, wordOf. simpl. by rewrite take_nil. }
  destruct (take_scan_min s1 length1 (MAX_WORD_LENGTH - a0)) as [Ht1 Hl1]; [lia|].
  assert (Hcap : Z.to_nat (MAX_WORD_LENGTH - a0)
                 = (Z.to_nat MAX_WORD_LENGTH - length w0)%nat) by lia.
  rewrite Hcap in Ht1, Hl1. simpl in w1. fold w1 in Ht1, Hl1.
  set (a1 := min (scan s1 length1) (MAX_WORD_LENGTH - a0)) in *.
  assert (Hw1 : (length w1 <= Z.to_nat MAX_WORD_LENGTH - length w0)%nat).
  { unfold w1. rewrite length_take. lia. }
  assert (Ha1 : a1 = Z.of_nat (length w1)).
  { assert (0 <= a1) by (unfold a1; rewrite min_spec, scan_spec; lia). lia. }
  unfold memmoveInto. rewrite Ht1, Hl0, Hl1, take_app_length.
  rewrite drop_app_ge by lia.
  rewrite drop_drop.
  replace (length w0 + (length w0 + length w1 - length w0))%nat
    with (length w0 + length w1)%nat by lia.
  replace (Z.to_nat (a0 + a1)) with (length w0 + length w1)%nat by lia.
  rewrite !app_assoc, <- length_app.
  rewrite take_app_length, drop_app_length.
  rewrite !length_app, length_drop.
  repeat split; try done; lia.
Qed.

(** The theorem at concrete buffers: ["ab\0c"] and ["xy"] into a buffer of
    [MAX_WORD_LENGTH] entries. *)
Lemma appendTwoWords_writes_both_prefixes_witness :
  let dest := replicate 48 7 in
  let '(dest', ret) := appendTwoWords [97; 98; 0; 99] 4 (Some [120; 121]) 2 dest in
  ret = 4
  ∧ take (Z.to_nat ret) dest' = [97; 98; 120; 121]
  ∧ drop (Z.to_nat ret) dest' = drop (Z.to_nat ret) dest
  ∧ length dest' = length dest
  ∧ 0 <= ret <= MAX_WORD_LENGTH.
Proof.
  apply (appendTwoWords_writes_both_prefixes
           [97; 98; 0; 99] 4 (Some [120; 121]) 2 (replicate 48 7)).
  vm_compute. lia.
Defined.

End DicNodeCharUtils.

(* ===================================================================== *)
(** * MultiBigramMap (multi_bigram_map.h) *)
(* ===================================================================== *)

Module MultiBigramMap.
Import Defines ProbabilityUtils.

(** [MultiBigramMap::BigramMap]: a [hash_map_compat<int, int>] and a bloom
    filter.  The filter is kept as the set of bits that are set. *)
Record BigramMap := mkBigramMap {
  mBigramMap : gmap Z Z;
  mBloomFilter : gset nat;
}.

Definition emptyBigramMap : BigramMap := mkBigramMap ∅ ∅.

Section WithDictionary.

Variable NOT_A_PROBABILITY : Z.

(** [MAX_CACHED_PREV_WORDS_IN_BIGRAM_MAP] is defined in the absent
    multi_bigram_map.cpp; kept as a parameter. *)
Variable MAX_CACHED_PREV_WORDS_IN_BIGRAM_MAP : nat.

(** The dictionary at hand, through the two things this class reads from
    it: [getStructurePolicy()->getBigramsPositionOfNode], and the run of
    [BinaryDictionaryBigramsIterator] from a list position, given as the
    pairs [(getBigramPos(), getProbability())] in the order [next()] yields
    them.  The iterator class is not among the sources. *)
Variable getBigramsPositionOfNode : Z → Z.
Variable bigramsIt : Z → list (Z * Z).

(** [BloomFilter] is not among the sources: the bit a position is hashed to
    is a parameter; [setInFilter] sets that bit, [isInFilter] tests it. *)
Variable filterBit : Z → nat.

Definition setInFilter (position : Z) (filter : gset nat) : gset nat :=
  {[ filterBit position ]} ∪ filter.

Definition isInFilter (position : Z) (filter : gset nat) : bool :=
  bool_decide (filterBit position ∈ filter).

(** One turn of the loop of [BigramMap::init]:
    [mBigramMap[pos] = probability; mBloomFilter.setInFilter(pos)]. *)
Definition initStep (bm : BigramMap) (entry : Z * Z) : BigramMap :=
  mkBigramMap (<[entry.1 := entry.2]> (mBigramMap bm))
              (setInFilter entry.1 (mBloomFilter bm)).

(** [BigramMap::init] (l. 69-78). *)
Definition init (bm : BigramMap) (nodePos : Z) : BigramMap :=
  let bigramsListPos := getBigramsPositionOfNode nodePos in
  foldl initStep bm (bigramsIt bigramsListPos).

(** [BigramMap::getBigramProbability] (l. 80-92). *)
Definition getBigramProbabilityOfMap (bm : BigramMap)
    (nextWordPosition unigramProbability : Z) : Z :=
  if isInFilter nextWordPosition (mBloomFilter bm) then
    match mBigramMap bm !! nextWordPosition with
    | Some bigramProbability =>
        computeProbabilityForBigram NOT_A_PROBABILITY unigramProbability bigramProbability
    | None => backoff NOT_A_PROBABILITY unigramProbability
    end
  else backoff NOT_A_PROBABILITY unigramProbability.

(** The loop of [readBigramProbabilityFromBinaryDictionary] over the
    entries the iterator yields. *)
Fixpoint scanBigrams (entries : list (Z * Z)) (nextWordPosition unigramProbability : Z) : Z :=
  match entries with
  | [] => backoff NOT_A_PROBABILITY unigramProbability
  | (bigramPos, probability) :: rest =>
      if decide (bigramPos = nextWordPosition) then
        computeProbabilityForBigram NOT_A_PROBABILITY unigramProbability probability
      else scanBigrams rest nextWordPosition unigramProbability
  end.

(** [MultiBigramMap::readBigramProbabilityFromBinaryDictionary] (l. 107-121). *)
Definition readBigramProbabilityFromBinaryDictionary
    (nodePos nextWordPosition unigramProbability : Z) : Z :=
  let bigramsListPos := getBigramsPositionOfNode nodePos in
  scanBigrams (bigramsIt bigramsListPos) nextWordPosition unigramProbability.

(** [MultiBigramMap::addBigramsForWordPosition] (l. 102-105):
    [mBigramMaps[position]] creates the entry when it is absent. *)
Definition addBigramsForWordPosition (mBigramMaps : gmap Z BigramMap) (position : Z)
    : gmap Z BigramMap :=
  <[position := init (default emptyBigramMap (mBigramMaps !! position)) position]> mBigramMaps.

(** [MultiBigramMap::getBigramProbability] (l. 41-55); the result is the
    cache after the call and the returned probability. *)
Definition getBigramProbability (mBigramMaps : gmap Z BigramMap)
    (wordPosition nextWordPosition unigramProbability : Z) : gmap Z BigramMap * Z :=
  match mBigramMaps !! wordPosition with
  | Some bm => (mBigramMaps, getBigramProbabilityOfMap bm nextWordPosition unigramProbability)
  | None =>
      if decide (size mBigramMaps < MAX_CACHED_PREV_WORDS_IN_BIGRAM_MAP)%nat then
        let mBigramMaps := addBigramsForWordPosition mBigramMaps wordPosition in
        (mBigramMaps,
         getBigramProbabilityOfMap (default emptyBigramMap (mBigramMaps !! wordPosition))
                                   nextWordPosition unigramProbability)
      else
        (mBigramMaps,
         readBigramProbabilityFromBinaryDictionary wordPosition nextWordPosition
                                                   unigramProbability)
  end.

(** A cache as a run of queries on this dictionary builds it: every cached
    previous word holds the map [init] reads from its bigram list. *)
Definition cacheOfDictionary (mBigramMaps : gmap Z BigramMap) : Prop :=
  ∀ wordPosition bm,
    mBigramMaps !! wordPosition = Some bm → bm = init emptyBigramMap wordPosition.

(** The first entry for a target, at which the linear scan returns. *)
Fixpoint firstEntry (entries : list (Z * Z)) (target : Z) : option Z :=
  match entries with
  | [] => None
  | (t, p) :: rest => if decide (t = target) then Some p else firstEntry rest target
  end.

(** The last entry for a target, which is what the hash map keeps. *)
Fixpoint lastEntry (entries : list (Z * Z)) (target : Z) : option Z :=
  match entries with
  | [] => None
  | (t, p) :: rest =>
      match lastEntry rest target with
      | Some q => Some q
      | None => if decide (t = target) then Some p else None
      end
  end.

Lemma lastEntry_elem entries target p :
  lastEntry entries target = Some p → (target, p) ∈ entries.
Proof.
  induction entries as [|[t q] rest IH]; simpl; [done|].
  destruct (lastEntry rest target) as [r|].
  - intros [= ->]. right. by apply IH.
  - destruct (decide (t = target)) as [->|]; [|done].
    intros [= ->]. left.
Qed.

Lemma lastEntry_None entries target p :
  lastEntry entries target = None → (target, p) ∉ entries.
Proof.
  induction entries as [|[t q] rest IH]; simpl.
  - intros _ H. inversion H.
  - destruct (lastEntry rest target) as [r|]; [done|].
    destruct (decide (t = target)) as [->|Hne]; [done|].
    intros _ H. apply elem_of_cons in H as [[= ? ?]|H]; [congruence|].
    by apply IH.
Qed.

Lemma foldl_initStep_map entries bm target :
  mBigramMap (foldl initStep bm entries) !! target
  = match lastEntry entries target with
    | Some p => Some p
    | None => mBigramMap bm !! target
    end.
Proof.
  revert bm. induction entries as [|[t p] rest IH]; intros bm; simpl; [done|].
  rewrite IH. destruct (lastEntry rest target); [done|]. simpl.
  destruct (decide (t = target)) as [->|Hne].
  - by rewrite lookup_insert_eq.
  - by rewrite lookup_insert_ne.
Qed.

Lemma foldl_initStep_filter_mono entries bm bit :
  bit ∈ mBloomFilter bm → bit ∈ mBloomFilter (foldl initStep bm entries).
Proof.
  revert bm. induction entries as [|[t p] rest IH]; intros bm Hin; simpl; [done|].
  apply IH. simpl. unfold setInFilter. set_solver.
Qed.

(** The bloom filter has no false negative for the targets of the list. *)
Lemma foldl_initStep_filter entries bm target p :
  (target, p) ∈ entries →
  filterBit target ∈ mBloomFilter (foldl initStep bm entries).
Proof.
  revert bm. induction entries as [|[t q] rest IH]; intros bm Hin; simpl.
  - inversion Hin.
  - apply elem_of_cons in Hin as [[= <- <-]|Hin].
    + apply foldl_initStep_filter_mono. simpl. unfold setInFilter. set_solver.
    + by apply IH.
Qed.

Lemma scanBigrams_firstEntry entries next uni :
  scanBigrams entries next uni
  = match firstEntry entries next with
    | Some p => computeProbabilityForBigram NOT_A_PROBABILITY uni p
    | None => backoff NOT_A_PROBABILITY uni
    end.
Proof.
  induction entries as [|[t p] rest IH]; simpl; [done|].
  by destruct (decide (t = next)).
Qed.

(** The cached map of a previous word answers as the linear scan does for a
    target whose first and last entries of the list carry one probability. *)
Lemma init_answers_as_scan wordPosition next uni :
  firstEntry (bigramsIt (getBigramsPositionOfNode wordPosition)) next
  = lastEntry (bigramsIt (getBigramsPositionOfNode wordPosition)) next →
  getBigramProbabilityOfMap (init emptyBigramMap wordPosition) next uni
  = readBigramProbabilityFromBinaryDictionary wordPosition next uni.
Proof.
  intros Hsame.
  unfold getBigramProbabilityOfMap, readBigramProbabilityFromBinaryDictionary, init.
  rewrite scanBigrams_firstEntry, Hsame.
  set (entries := bigramsIt (getBigramsPositionOfNode wordPosition)).
  rewrite foldl_initStep_map. simpl. rewrite lookup_empty.
  destruct (lastEntry entries next) as [p|] eqn:Hlast.
  - unfold isInFilter. rewrite bool_decide_eq_true_2; [done|].
    eapply foldl_initStep_filter, lastEntry_elem, Hlast.
  - by destruct (isInFilter _ _).
Qed.

(** The empty cache, as the constructor and [clear] leave it. *)
Lemma cacheOfDictionary_empty : cacheOfDictionary ∅.
Proof. intros w bm H. by rewrite lookup_empty in H. Qed.

End WithDictionary.

(** A list that names a target once at most lists it with the same
    probability first and last. *)
Lemma firstEntry_lastEntry_once (entries : list (Z * Z)) (target : Z) :
  (∀ p q, (target, p) ∈ entries → (target, q) ∈ entries → p = q) →
  firstEntry entries target = lastEntry entries target.
Proof.
  induction entries as [|[t p] rest IH]; simpl; intros Hone; [done|].
  assert (Hrest : ∀ a b, (target, a) ∈ rest → (target, b) ∈ rest → a = b).
  { intros a b Ha Hb. apply Hone; by right. }
  destruct (decide (t = target)) as [->|Hne].
  - destruct (lastEntry rest target) as [q|] eqn:Hq; [|done].
    apply lastEntry_elem in Hq. f_equal. apply Hone; [left|by right].
  - rewrite (IH Hrest). by destruct (lastEntry rest target).
Qed.

(** C3 (amended).  When the bigram list of the previous word lists the
    queried next word with the same probability first and last (as a list
    that names it once does), whatever the list holds for other targets, and
    the cache is one that queries on this dictionary have built,
    [getBigramProbability] returns what the linear scan
    [readBigramProbabilityFromBinaryDictionary] returns, whichever of its
    three paths is taken, and leaves such a cache. *)
Theorem getBigramProbability_equals_linear_scan
    (NOT_A_PROBABILITY : Z) (maxCached : nat)
    (getBigramsPositionOfNode : Z → Z) (bigramsIt : Z → list (Z * Z))
    (filterBit : Z → nat) (mBigramMaps : gmap Z BigramMap)
    (wordPosition nextWordPosition unigramProbability : Z) :
  cacheOfDictionary getBigramsPositionOfNode bigramsIt filterBit mBigramMaps →
  firstEntry (bigramsIt (getBigramsPositionOfNode wordPosition)) nextWordPosition
  = lastEntry (bigramsIt (getBigramsPositionOfNode wordPosition)) nextWordPosition →
  let r := getBigramProbability NOT_A_PROBABILITY maxCached getBigramsPositionOfNode
             bigramsIt filterBit mBigramMaps wordPosition nextWordPosition
             unigramProbability in
  r.2 = readBigramProbabilityFromBinaryDictionary NOT_A_PROBABILITY
          getBigramsPositionOfNode bigramsIt wordPosition nextWordPosition
          unigramProbability
  ∧ cacheOfDictionary getBigramsPositionOfNode bigramsIt filterBit r.1.
Proof.
  intros Hcache Hsame r. subst r. unfold getBigramProbability.
  destruct (mBigramMaps !! wordPosition) as [bm|] eqn:Hlook; simpl.
  - split; [|done]. rewrite (Hcache _ _ Hlook). by apply init_answers_as_scan.
  - destruct (decide (size mBigramMaps < maxCached)%nat); simpl; [|done].
    unfold addBigramsForWordPosition. rewrite Hlook, lookup_insert_eq. simpl.
    split; [by apply init_answers_as_scan|].
    intros w bm Hw. destruct (decide (wordPosition = w)) as [->|Hne].
    + rewrite lookup_insert_eq in Hw. by injection Hw as <-.
    + rewrite lookup_insert_ne in Hw by done. by apply Hcache.
Qed.

(** A dictionary for the examples: the word at position [1] has its bigram
    list at [101]. *)
Definition exampleBigramsPosition (nodePos : Z) : Z := nodePos + 100.

Definition exampleBigrams (listPos : Z) : list (Z * Z) :=
  if decide (listPos = 101) then [(5, 3); (9, 7)] else [].

(** The same, with the other target, [9], listed with two probabilities. *)
Definition exampleBigramsOther (listPos : Z) : list (Z * Z) :=
  if decide (listPos = 101) then [(5, 3); (9, 2); (9, 7)] else [].

(** The same, with the target [5] listed twice. *)
Definition exampleBigramsTwice (listPos : Z) : list (Z * Z) :=
  if decide (listPos = 101) then [(5, 3); (5, 7)] else [].

Definition exampleFilterBit (position : Z) : nat := Z.to_nat (position `mod` 256).

(** The theorem for the target [5] on the dictionary whose list names the
    other target twice, from the empty cache. *)
Lemma getBigramProbability_equals_linear_scan_witness :
  let r := getBigramProbability (-1) 25 exampleBigramsPosition exampleBigramsOther
             exampleFilterBit ∅ 1 5 100 in
  r.2 = readBigramProbabilityFromBinaryDictionary (-1) exampleBigramsPosition
          exampleBigramsOther 1 5 100
  ∧ cacheOfDictionary exampleBigramsPosition exampleBigramsOther exampleFilterBit r.1.
Proof.
  apply (getBigramProbability_equals_linear_scan (-1) 25 exampleBigramsPosition
           exampleBigramsOther exampleFilterBit ∅ 1 5 100).
  - apply cacheOfDictionary_empty.
  - reflexivity.
Defined.

(** C3 as stated fails: with the target [5] listed twice, the hash map keeps
    the last probability and the linear scan returns at the first. *)
Lemma getBigramProbability_differs_on_repeated_target :
  (getBigramProbability (-1) 25 exampleBigramsPosition exampleBigramsTwice
     exampleFilterBit ∅ 1 5 100).2 = 178
  ∧ readBigramProbabilityFromBinaryDictionary (-1) exampleBigramsPosition
      exampleBigramsTwice 1 5 100 = 139
  ∧ (getBigramProbability (-1) 25 exampleBigramsPosition exampleBigramsTwice
       exampleFilterBit ∅ 1 5 100).2
    ≠ readBigramProbabilityFromBinaryDictionary (-1) exampleBigramsPosition
        exampleBigramsTwice 1 5 100.
Proof. vm_compute. repeat split; done. Qed.

(** ** The cache of previous words *)

Section Cache.

Variable NOT_A_PROBABILITY : Z.
Variable MAX_CACHED_PREV_WORDS_IN_BIGRAM_MAP : nat.
Variable getBigramsPositionOfNode : Z → Z.
Variable bigramsIt : Z → list (Z * Z).
Variable filterBit : Z → nat.

Abbreviation query :=
  (getBigramProbability NOT_A_PROBABILITY MAX_CACHED_PREV_WORDS_IN_BIGRAM_MAP
     getBigramsPositionOfNode bigramsIt filterBit).

(** A target the list does not name is scanned to the end. *)
Lemma scanBigrams_absent entries next uni :
  (∀ p, (next, p) ∉ entries) →
  scanBigrams NOT_A_PROBABILITY entries next uni = backoff NOT_A_PROBABILITY uni.
Proof.
  induction entries as [|[t p] rest IH]; intros Habsent; simpl; [done|].
  destruct (decide (t = next)) as [->|Hne].
  - exfalso. apply (Habsent p). left.
  - apply IH. intros q Hq. apply (Habsent q). by right.
Qed.

(** The scan returns at an entry of the list. *)
Lemma scanBigrams_listed entries next uni p0 :
  (next, p0) ∈ entries →
  ∃ p, (next, p) ∈ entries
       ∧ scanBigrams NOT_A_PROBABILITY entries next uni
         = computeProbabilityForBigram NOT_A_PROBABILITY uni p.
Proof.
  induction entries as [|[t q] rest IH]; intros Hin; simpl; [inversion Hin|].
  destruct (decide (t = next)) as [->|Hne].
  - exists q. split; [left|done].
  - apply elem_of_cons in Hin as [[= ? ?]|Hin]; [congruence|].
    destruct (IH Hin) as (p & Hp & Hscan). exists p. split; [by right|done].
Qed.

(** What the map of a previous word answers: the bloom filter may hold the
    bit of a target that is not listed, the hash map does not hold it. *)
Lemma init_answer wordPosition next uni :
  let entries := bigramsIt (getBigramsPositionOfNode wordPosition) in
  getBigramProbabilityOfMap NOT_A_PROBABILITY filterBit
    (init getBigramsPositionOfNode bigramsIt filterBit emptyBigramMap wordPosition)
    next uni
  = match lastEntry entries next with
    | Some p => computeProbabilityForBigram NOT_A_PROBABILITY uni p
    | None => backoff NOT_A_PROBABILITY uni
    end.
Proof.
  intros entries. unfold getBigramProbabilityOfMap, init. fold entries.
  rewrite foldl_initStep_map. simpl. rewrite lookup_empty.
  destruct (lastEntry entries next) as [p|] eqn:Hlast.
  - unfold isInFilter. rewrite bool_decide_eq_true_2; [done|].
    eapply (foldl_initStep_filter getBigramsPositionOfNode bigramsIt),
      lastEntry_elem, Hlast.
  - by destruct (isInFilter _ _ _).
Qed.

End Cache.

(** X5.  A query never drops or changes the map cached for a previous word,
    caches at most the previous word it is asked about, and keeps the cache
    within [MAX_CACHED_PREV_WORDS_IN_BIGRAM_MAP] previous words. *)
Theorem getBigramProbability_cache_bounded
    (NOT_A_PROBABILITY : Z) (maxCached : nat)
    (getBigramsPositionOfNode : Z → Z) (bigramsIt : Z → list (Z * Z))
    (filterBit : Z → nat) (mBigramMaps : gmap Z BigramMap)
    (wordPosition nextWordPosition unigramProbability : Z) :
  (size mBigramMaps ≤ maxCached)%nat →
  let r := getBigramProbability NOT_A_PROBABILITY maxCached getBigramsPositionOfNode
             bigramsIt filterBit mBigramMaps wordPosition nextWordPosition
             unigramProbability in
  (size r.1 ≤ maxCached)%nat
  ∧ (∀ w bm, mBigramMaps !! w = Some bm → r.1 !! w = Some bm)
  ∧ (∀ w, w ≠ wordPosition → r.1 !! w = mBigramMaps !! w).
Proof.
  intros Hsize r. subst r. unfold getBigramProbability.
  destruct (mBigramMaps !! wordPosition) as [bm|] eqn:Hlook; simpl; [done|].
  destruct (decide (size mBigramMaps < maxCached)%nat) as [Hroom|Hfull]; simpl; [|done].
  unfold addBigramsForWordPosition. rewrite Hlook. simpl.
  split; [|split].
  - rewrite map_size_insert_None by done. lia.
  - intros w bm Hw. rewrite lookup_insert_ne; [done|]. intros <-. congruence.
  - intros w Hw. by rewrite lookup_insert_ne.
Qed.

(** The theorem on the example dictionary, from the empty cache. *)
Lemma getBigramProbability_cache_bounded_witness :
  let r := getBigramProbability (-1) 25 exampleBigramsPosition exampleBigrams
             exampleFilterBit ∅ 1 5 100 in
  (size r.1 ≤ 25)%nat
  ∧ (∀ w bm, (∅ : gmap Z BigramMap) !! w = Some bm → r.1 !! w = Some bm)
  ∧ (∀ w, w ≠ 1 → r.1 !! w = (∅ : gmap Z BigramMap) !! w).
Proof.
  apply (getBigramProbability_cache_bounded (-1) 25 exampleBigramsPosition
           exampleBigrams exampleFilterBit ∅ 1 5 100).
  rewrite map_size_empty. lia.
Defined.

(** X6.  Asking again changes nothing: after a query for a previous word,
    the same query returns the same probability, and no query for that
    previous word changes the cache any more. *)
Theorem getBigramProbability_again
    (NOT_A_PROBABILITY : Z) (maxCached : nat)
    (getBigramsPositionOfNode : Z → Z) (bigramsIt : Z → list (Z * Z))
    (filterBit : Z → nat) (mBigramMaps : gmap Z BigramMap)
    (wordPosition nextWordPosition unigramProbability : Z) :
  let query := getBigramProbability NOT_A_PROBABILITY maxCached getBigramsPositionOfNode
                 bigramsIt filterBit in
  let r := query mBigramMaps wordPosition nextWordPosition unigramProbability in
  query r.1 wordPosition nextWordPosition unigramProbability = r
  ∧ ∀ next uni, (query r.1 wordPosition next uni).1 = r.1.
Proof.
  intros query r. subst query r. unfold getBigramProbability.
  destruct (mBigramMaps !! wordPosition) as [bm|] eqn:Hlook; simpl.
  - rewrite Hlook. done.
  - destruct (decide (size mBigramMaps < maxCached)%nat) as [Hroom|Hfull]; simpl.
    + set (maps := addBigramsForWordPosition getBigramsPositionOfNode bigramsIt
                     filterBit mBigramMaps wordPosition).
      assert (Hcached : maps !! wordPosition
                = Some (init getBigramsPositionOfNode bigramsIt filterBit
                          emptyBigramMap wordPosition)).
      { unfold maps, addBigramsForWordPosition. by rewrite Hlook, lookup_insert_eq. }
      rewrite Hcached. done.
    + rewrite Hlook. split; [|intros next uni]; by rewrite decide_False.
Qed.

(** X7.  With a cache that queries on the dictionary have built, the
    probability returned for a next word that the previous word's bigram
    list does not name is [backoff(unigram)] on each of the three paths,
    whatever the bloom filter holds; for a next word the list names it is
    the unigram probability composed with a probability listed for it. *)
Theorem getBigramProbability_of_listed_target
    (NOT_A_PROBABILITY : Z) (maxCached : nat)
    (getBigramsPositionOfNode : Z → Z) (bigramsIt : Z → list (Z * Z))
    (filterBit : Z → nat) (mBigramMaps : gmap Z BigramMap)
    (wordPosition nextWordPosition unigramProbability : Z) :
  cacheOfDictionary getBigramsPositionOfNode bigramsIt filterBit mBigramMaps →
  let entries := bigramsIt (getBigramsPositionOfNode wordPosition) in
  let r := getBigramProbability NOT_A_PROBABILITY maxCached getBigramsPositionOfNode
             bigramsIt filterBit mBigramMaps wordPosition nextWordPosition
             unigramProbability in
  ((∀ p, (nextWordPosition, p) ∉ entries)
   → r.2 = backoff NOT_A_PROBABILITY unigramProbability)
  ∧ (∀ p0, (nextWordPosition, p0) ∈ entries →
       ∃ p, (nextWordPosition, p) ∈ entries
            ∧ r.2 = computeProbabilityForBigram NOT_A_PROBABILITY unigramProbability p).
Proof.
  intros Hcache entries r.
  assert (Hmap :
    getBigramProbabilityOfMap NOT_A_PROBABILITY filterBit
      (init getBigramsPositionOfNode bigramsIt filterBit emptyBigramMap wordPosition)
      nextWordPosition unigramProbability
    = match lastEntry entries nextWordPosition with
      | Some p => computeProbabilityForBigram NOT_A_PROBABILITY unigramProbability p
      | None => backoff NOT_A_PROBABILITY unigramProbability
      end) by apply init_answer.
  assert (Hcached :
    ((∀ p, (nextWordPosition, p) ∉ entries) →
     getBigramProbabilityOfMap NOT_A_PROBABILITY filterBit
       (init getBigramsPositionOfNode bigramsIt filterBit emptyBigramMap wordPosition)
       nextWordPosition unigramProbability
     = backoff NOT_A_PROBABILITY unigramProbability)
    ∧ (∀ p0, (nextWordPosition, p0) ∈ entries →
       ∃ p, (nextWordPosition, p) ∈ entries
            ∧ getBigramProbabilityOfMap NOT_A_PROBABILITY filterBit
                (init getBigramsPositionOfNode bigramsIt filterBit emptyBigramMap
                   wordPosition)
                nextWordPosition unigramProbability
              = computeProbabilityForBigram NOT_A_PROBABILITY unigramProbability p)).
  { rewrite Hmap. destruct (lastEntry entries nextWordPosition) as [p|] eqn:Hlast.
    - apply lastEntry_elem in Hlast. split.
      + intros Habsent. by destruct (Habsent p).
      + intros _ _. by exists p.
    - split; [done|]. intros p0 Hp0. by destruct (lastEntry_None _ _ p0 Hlast). }
  subst r. unfold getBigramProbability.
  destruct (mBigramMaps !! wordPosition) as [bm|] eqn:Hlook; simpl.
  - by rewrite (Hcache _ _ Hlook).
  - destruct (decide (size mBigramMaps < maxCached)%nat); simpl.
    + unfold addBigramsForWordPosition. rewrite Hlook, lookup_insert_eq. simpl. done.
    + unfold readBigramProbabilityFromBinaryDictionary. fold entries. split.
      * apply scanBigrams_absent.
      * apply scanBigrams_listed.
Qed.

(** The theorem on the example dictionary, from the empty cache. *)
Lemma getBigramProbability_of_listed_target_witness :
  let entries := exampleBigrams (exampleBigramsPosition 1) in
  let r := getBigramProbability (-1) 25 exampleBigramsPosition exampleBigrams
             exampleFilterBit ∅ 1 261 100 in
  ((∀ p, (261, p) ∉ entries) → r.2 = backoff (-1) 100)
  ∧ (∀ p0, (261, p0) ∈ entries →
       ∃ p, (261, p) ∈ entries ∧ r.2 = computeProbabilityForBigram (-1) 100 p).
Proof.
  apply (getBigramProbability_of_listed_target (-1) 25 exampleBigramsPosition
           exampleBigrams exampleFilterBit ∅ 1 261 100).
  apply cacheOfDictionary_empty.
Defined.

End MultiBigramMap.

(* ===================================================================== *)
(** * DicNodeUtils: scoring utils (dic_node_utils.cpp) *)
(* ===================================================================== *)

(** The C [float], IEEE binary32, on the Standard Library's specification of
    floating-point operations. *)
Module Float32.

Definition prec : Z := 24.
Definition emax : Z := 128.

(** [static_cast<float>(n)] for an [int] [n]. *)
Definition ofInt (n : Z) : spec_float := binary_normalize prec emax n 0 false.

(** [x / y] on floats. *)
Definition div (x y : spec_float) : spec_float := SFdiv prec emax x y.

End Float32.

(** What [DicNodeUtils] reads of a [DicNode]; [dic_node.h] is not among the
    sources, the accessors are kept as fields. *)
Module DicNode.

Record t := mk {
  hasMultipleWords : bool;
  isValidMultipleWordSuggestion : bool;
  getProbability : Z;
  getPtNodePos : Z;
  getPrevWordTerminalPtNodePos : Z;
}.

End DicNode.

Module DicNodeUtils.
Import Defines.

Section Scoring.

Variable NOT_A_PROBABILITY : Z.

(** [static_cast<float>(MAX_VALUE_FOR_WEIGHTING)]; the macro is declared in
    the absent [defines.h]. *)
Variable MAX_VALUE_FOR_WEIGHTING : spec_float.

Variable MAX_CACHED_PREV_WORDS_IN_BIGRAM_MAP : nat.
Variable getBigramsPositionOfNode : Z → Z.
Variable bigramsIt : Z → list (Z * Z).
Variable filterBit : Z → nat.

(** [multiBigramMap->getBigramProbability(...)] on the dictionary at hand. *)
Definition multiBigramMapProbability :=
  MultiBigramMap.getBigramProbability NOT_A_PROBABILITY
    MAX_CACHED_PREV_WORDS_IN_BIGRAM_MAP getBigramsPositionOfNode bigramsIt filterBit.

(** [DicNodeUtils::getBigramNodeProbability] (l. 86-104).  The argument
    [multiBigramMap] is [None] for the null pointer; the cache comes back
    with the probability. *)
Definition getBigramNodeProbability (dicNode : DicNode.t)
    (multiBigramMap : option (gmap Z MultiBigramMap.BigramMap))
    : option (gmap Z MultiBigramMap.BigramMap) * Z :=
  let unigramProbability := DicNode.getProbability dicNode in
  let ptNodePos := DicNode.getPtNodePos dicNode in
  let prevWordTerminalPtNodePos := DicNode.getPrevWordTerminalPtNodePos dicNode in
  if decide (NOT_A_DICT_POS = ptNodePos ∨ NOT_A_DICT_POS = prevWordTerminalPtNodePos) then
    (multiBigramMap,
     PolicyProbability.getProbability NOT_A_PROBABILITY unigramProbability NOT_A_PROBABILITY)
  else
    match multiBigramMap with
    | Some maps =>
        let r := multiBigramMapProbability maps prevWordTerminalPtNodePos ptNodePos
                   unigramProbability in
        (Some r.1, r.2)
    | None =>
        (None,
         PolicyProbability.getProbability NOT_A_PROBABILITY unigramProbability
           NOT_A_PROBABILITY)
    end.

(** [DicNodeUtils::getBigramNodeImprobability] (l. 72-84). *)
Definition getBigramNodeImprobability (dicNode : DicNode.t)
    (multiBigramMap : option (gmap Z MultiBigramMap.BigramMap))
    : option (gmap Z MultiBigramMap.BigramMap) * spec_float :=
  if DicNode.hasMultipleWords dicNode && negb (DicNode.isValidMultipleWordSuggestion dicNode)
  then (multiBigramMap, MAX_VALUE_FOR_WEIGHTING)
  else
    let r := getBigramNodeProbability dicNode multiBigramMap in
    let probability := r.2 in
    let cost := Float32.div (Float32.ofInt (MAX_PROBABILITY - probability))
                            (Float32.ofInt MAX_PROBABILITY) in
    (r.1, cost).

(** The probability C7 names: composed through the [MultiBigramMap] (the
    one passed in; an empty one when none is) as soon as the previous word's
    terminal position is a position, and [getProbability(unigram,
    NOT_A_PROBABILITY)] otherwise. *)
Definition claimedProbability (dicNode : DicNode.t)
    (multiBigramMap : option (gmap Z MultiBigramMap.BigramMap)) : Z :=
  if decide (DicNode.getPrevWordTerminalPtNodePos dicNode ≠ NOT_A_DICT_POS) then
    (multiBigramMapProbability (default ∅ multiBigramMap)
       (DicNode.getPrevWordTerminalPtNodePos dicNode) (DicNode.getPtNodePos dicNode)
       (DicNode.getProbability dicNode)).2
  else
    PolicyProbability.getProbability NOT_A_PROBABILITY (DicNode.getProbability dicNode)
      NOT_A_PROBABILITY.

(** The cost C7 names. *)
Definition claimedImprobability (dicNode : DicNode.t)
    (multiBigramMap : option (gmap Z MultiBigramMap.BigramMap)) : spec_float :=
  if DicNode.hasMultipleWords dicNode && negb (DicNode.isValidMultipleWordSuggestion dicNode)
  then MAX_VALUE_FOR_WEIGHTING
  else Float32.div (Float32.ofInt (MAX_PROBABILITY - claimedProbability dicNode multiBigramMap))
                   (Float32.ofInt MAX_PROBABILITY).

End Scoring.

(** C7 (amended).  A [DicNode] with several words that is not a valid
    multiple-word suggestion costs [MAX_VALUE_FOR_WEIGHTING].  Any other
    costs the float [(MAX_PROBABILITY - p) / MAX_PROBABILITY], where [p] is
    composed by the [MultiBigramMap] exactly when a map is passed and both
    the node's position and the previous word's terminal position differ
    from [NOT_A_DICT_POS], and is [getProbability(unigram,
    NOT_A_PROBABILITY)] in every other case. *)
Theorem getBigramNodeImprobability_cost
    (NOT_A_PROBABILITY : Z) (MAX_VALUE_FOR_WEIGHTING : spec_float) (maxCached : nat)
    (getBigramsPositionOfNode : Z → Z) (bigramsIt : Z → list (Z * Z))
    (filterBit : Z → nat) (dicNode : DicNode.t)
    (multiBigramMap : option (gmap Z MultiBigramMap.BigramMap)) :
  let cost := (getBigramNodeImprobability NOT_A_PROBABILITY MAX_VALUE_FOR_WEIGHTING
                 maxCached getBigramsPositionOfNode bigramsIt filterBit dicNode
                 multiBigramMap).2 in
  let unigram := DicNode.getProbability dicNode in
  let p :=
    match multiBigramMap with
    | Some maps =>
        if decide (DicNode.getPtNodePos dicNode ≠ NOT_A_DICT_POS
                   ∧ DicNode.getPrevWordTerminalPtNodePos dicNode ≠ NOT_A_DICT_POS)
        then (MultiBigramMap.getBigramProbability NOT_A_PROBABILITY maxCached
                getBigramsPositionOfNode bigramsIt filterBit maps
                (DicNode.getPrevWordTerminalPtNodePos dicNode)
                (DicNode.getPtNodePos dicNode) unigram).2
        else PolicyProbability.getProbability NOT_A_PROBABILITY unigram NOT_A_PROBABILITY
    | None => PolicyProbability.getProbability NOT_A_PROBABILITY unigram NOT_A_PROBABILITY
    end in
  cost = if DicNode.hasMultipleWords dicNode
            && negb (DicNode.isValidMultipleWordSuggestion dicNode)
         then MAX_VALUE_FOR_WEIGHTING
         else Float32.div (Float32.ofInt (MAX_PROBABILITY - p))
                          (Float32.ofInt MAX_PROBABILITY).
Proof.
  intros cost unigram p. subst cost p unigram.
  unfold getBigramNodeImprobability, getBigramNodeProbability, multiBigramMapProbability.
  destruct (DicNode.hasMultipleWords dicNode
            && negb (DicNode.isValidMultipleWordSuggestion dicNode)); [done|].
  simpl. do 2 f_equal. f_equal.
  destruct (decide (NOT_A_DICT_POS = DicNode.getPtNodePos dicNode
                    ∨ NOT_A_DICT_POS = DicNode.getPrevWordTerminalPtNodePos dicNode))
    as [Hor|Hnor]; destruct multiBigramMap as [maps|]; simpl; try done.
  - rewrite decide_False; [done|]. intros [? ?]. destruct Hor; congruence.
  - rewrite decide_True; [done|]. split; intros Heq; apply Hnor; [by left|by right].
Qed.

(** A terminal [DicNode] at position [5], of unigram probability [100],
    after the previous word at position [1]. *)
Definition exampleDicNode : DicNode.t := DicNode.mk false false 100 5 1.

(** C7 as stated fails when no [MultiBigramMap] is passed: the previous
    word's position is a position and its bigram list holds the node, yet
    the probability is the backed-off unigram [92], not the [139] the map
    composes. *)
Lemma getBigramNodeImprobability_without_map :
  let cost := (getBigramNodeImprobability (-1) (Float32.ofInt 10000000) 25
                 MultiBigramMap.exampleBigramsPosition MultiBigramMap.exampleBigrams
                 MultiBigramMap.exampleFilterBit exampleDicNode None).2 in
  DicNode.getPrevWordTerminalPtNodePos exampleDicNode ≠ NOT_A_DICT_POS
  ∧ cost = Float32.div (Float32.ofInt (MAX_PROBABILITY - 92)) (Float32.ofInt MAX_PROBABILITY)
  ∧ claimedProbability (-1) 25 MultiBigramMap.exampleBigramsPosition
      MultiBigramMap.exampleBigrams MultiBigramMap.exampleFilterBit exampleDicNode None = 139
  ∧ cost ≠ claimedImprobability (-1) (Float32.ofInt 10000000) 25
             MultiBigramMap.exampleBigramsPosition MultiBigramMap.exampleBigrams
             MultiBigramMap.exampleFilterBit exampleDicNode None.
Proof. vm_compute. repeat split; done. Qed.

End DicNodeUtils.

(* ===================================================================== *)
(** * Arrays of [int] *)
(* ===================================================================== *)

(** An [int] array is a list; an access outside of it is undefined in C
    and is [None] here. *)
Module Mem.

Definition store (a : list Z) (i : nat) (v : Z) : option (list Z) :=
  if decide (i < length a)%nat then Some (<[i := v]> a) else None.

(** [memmove(a + dst, a + src, n * sizeof(a[0]))]. *)
Definition memmove (a : list Z) (dst src n : nat) : option (list Z) :=
  if decide (src + n <= length a ∧ dst + n <= length a)%nat
  then Some (take dst a ++ take n (drop src a) ++ drop (dst + n) a)
  else None.

Lemma store_Some a i v a' :
  store a i v = Some a' → (i < length a)%nat ∧ a' = <[i := v]> a.
Proof.
  unfold store. destruct (decide _) as [Hb|]; [|done].
  intros [= <-]. done.
Qed.

Lemma memmove_Some a dst src n a' :
  memmove a dst src n = Some a' →
  (src + n <= length a ∧ dst + n <= length a)%nat
  ∧ a' = take dst a ++ take n (drop src a) ++ drop (dst + n) a.
Proof.
  unfold memmove. destruct (decide _) as [Hb|]; [|done].
  intros [= <-]. done.
Qed.

Lemma memmove_defined a dst src n :
  (src + n <= length a)%nat → (dst + n <= length a)%nat →
  is_Some (memmove a dst src n).
Proof. intros. unfold memmove. rewrite decide_True by done. by eexists. Qed.

Lemma store_defined a i v : (i < length a)%nat → store a i v = Some (<[i := v]> a).
Proof. intros. unfold store. by rewrite decide_True. Qed.

Lemma memmove_length a dst src n a' :
  memmove a dst src n = Some a' → length a' = length a.
Proof.
  intros [[? ?] ->]%memmove_Some.
  rewrite !length_app, !length_take, !length_drop. lia.
Qed.

(** Entry [i] after a move of [n] entries from [src] up to [dst = src + d]. *)
Lemma memmove_lookup a dst src n a' i :
  memmove a dst src n = Some a' →
  a' !! i = if decide (dst <= i < dst + n)%nat then a !! (src + (i - dst))%nat
            else a !! i.
Proof.
  intros [[? ?] ->]%memmove_Some.
  case_decide as Hi.
  - rewrite lookup_app_r by (rewrite length_take; lia).
    rewrite length_take.
    rewrite lookup_app_l by (rewrite length_take, length_drop; lia).
    rewrite lookup_take_lt by lia. rewrite lookup_drop. f_equal. lia.
  - destruct (decide (i < dst)%nat).
    + rewrite lookup_app_l by (rewrite length_take; lia).
      by rewrite lookup_take_lt by lia.
    + rewrite lookup_app_r by (rewrite length_take; lia).
      rewrite length_take.
      rewrite lookup_app_r by (rewrite length_take, length_drop; lia).
      rewrite length_take, length_drop, lookup_drop. f_equal. lia.
Qed.

End Mem.

(* ===================================================================== *)
(** * IntArrayView (int_array_view.h) *)
(* ===================================================================== *)

(** A view does not own the integers it shows: it is a pointer and a size.
    The memory the pointer points into is a list of [int], the pointer is an
    index into it, [None] being [nullptr]; a read outside of the memory is
    undefined in C++ and is [None] here. *)
Module IntArrayView.

Record t := mk {
  mPtr : option nat;
  mSize : nat;
}.

(** [IntArrayView()]. *)
Definition emptyView : t := mk None 0.

(** [IntArrayView(ptr, size)]. *)
Definition fromPtr (ptr size : nat) : t := mk (Some ptr) size.

(** [singleElementView(ptr)] (l. 67-69). *)
Definition singleElementView (ptr : nat) : t := fromPtr ptr 1.

Definition size (v : t) : nat := mSize v.
Definition empty (v : t) : bool := bool_decide (size v = 0%nat).
Definition data (v : t) : option nat := mPtr v.
Definition begin_ (v : t) : option nat := mPtr v.

(** [end()]: [mPtr + mSize]. *)
Definition end_ (v : t) : option nat := (λ p, p + mSize v)%nat <$> mPtr v.

(** [operator[]] (l. 71-74); the index is asserted to be below the size. *)
Definition at_ (mem : list Z) (v : t) (index : nat) : option Z :=
  if decide (index < mSize v)%nat then
    ptr ← mPtr v; mem !! (ptr + index)%nat
  else None.

(** [std::find(first, last, value)] over [count = last - first] entries:
    the position of the first entry equal to [value], or [last]. *)
Fixpoint find (mem : list Z) (first count : nat) (value : Z) : option nat :=
  match count with
  | O => Some first
  | S count' =>
      c ← mem !! first;
      if decide (c = value) then Some first
      else find mem (S first) count' value
  end.

(** [contains] (l. 96-98): [std::find(begin(), end(), value) != end()].
    The empty view holds [nullptr], where [find] has nothing to read. *)
Definition contains (mem : list Z) (v : t) (value : Z) : option bool :=
  match begin_ v, end_ v with
  | Some first, Some last =>
      it ← find mem first (last - first) value;
      Some (bool_decide (it ≠ last))
  | _, _ => if decide (mSize v = 0%nat) then Some false else None
  end.

(** [limit] (l. 101-103). *)
Definition limit (v : t) (maxSize : nat) : t :=
  mk (mPtr v) (maxSize `min` mSize v).

(** [skip] (l. 105-110). *)
Definition skip (v : t) (n : nat) : t :=
  if decide (mSize v <= n)%nat then emptyView
  else mk ((λ p, p + n)%nat <$> mPtr v) (mSize v - n).

(** The integers a view shows, when all of them can be read. *)
Definition read (mem : list Z) (v : t) : option (list Z) :=
  match mPtr v with
  | Some ptr =>
      if decide (ptr + mSize v <= length mem)%nat
      then Some (take (mSize v) (drop ptr mem)) else None
  | None => if decide (mSize v = 0%nat) then Some [] else None
  end.

(** [copyToArray] (l. 112-116): [buffer] is the [std::array<int, N>], the
    result is the array after the call.  [mSize + offset <= N] is asserted;
    [memmove] copies the [mSize] integers of the view. *)
Definition copyToArray (mem : list Z) (v : t) (buffer : list Z) (offset : nat)
    : option (list Z) :=
  if decide (mSize v + offset <= length buffer)%nat then
    src ← read mem v;
    Some (take offset buffer ++ src ++ drop (offset + mSize v) buffer)
  else None.

(** A view into [mem]: all of its integers are in the memory. *)
Definition validIn (mem : list Z) (v : t) : Prop :=
  ∃ ptr, mPtr v = Some ptr ∧ (ptr + mSize v <= length mem)%nat.

Lemma find_spec mem first count value :
  (first + count <= length mem)%nat →
  ∃ it, find mem first count value = Some it
        ∧ (first <= it <= first + count)%nat
        ∧ (it ≠ first + count ↔ value ∈ take count (drop first mem))%nat.
Proof.
  revert first. induction count as [|count IH]; intros first Hin; simpl.
  - exists first. split; [done|]. split; [lia|]. rewrite take_0.
    split; [lia|]. intros H. inversion H.
  - destruct (mem !! first) as [c|] eqn:Hc; [|apply lookup_ge_None in Hc; lia].
    simpl. rewrite (drop_S _ _ _ Hc). simpl.
    destruct (decide (c = value)) as [->|Hne].
    + exists first. split; [done|]. split; [lia|]. split; [intros _; left|lia].
    + destruct (IH (S first)) as (it & Hfind & Hrange & Hiff); [lia|].
      exists it. split; [done|]. split; [lia|].
      replace (first + S count)%nat with (S first + count)%nat by lia.
      rewrite Hiff. rewrite elem_of_cons. split; [by right|].
      intros [->|H]; [done|done].
Qed.

Lemma at_read mem v l index :
  read mem v = Some l → at_ mem v index = l !! index.
Proof.
  unfold read, at_. destruct (mPtr v) as [ptr|]; simpl.
  - destruct (decide (ptr + mSize v <= length mem)%nat); [|done]. intros [= <-].
    destruct (decide (index < mSize v)%nat).
    + by rewrite lookup_take_lt, lookup_drop.
    + by rewrite lookup_take_ge by lia.
  - destruct (decide (mSize v = 0%nat)); [|done]. intros [= <-].
    by destruct (decide _).
Qed.

(** X1.  [limit(n)] and [skip(n)] split a view: its entry [i] is entry [i]
    of [limit(n)] when [i < n] and entry [i - n] of [skip(n)] otherwise, and
    the two sizes add up to the size of the view. *)
Theorem limit_skip_split (mem : list Z) (v : t) (n : nat) :
  (size (limit v n) + size (skip v n) = size v)%nat
  ∧ ∀ i, at_ mem v i = if decide (i < n)%nat then at_ mem (limit v n) i
                       else at_ mem (skip v n) (i - n).
Proof.
  split.
  - unfold size, limit, skip. destruct (decide (mSize v <= n)%nat); simpl; lia.
  - intros i. unfold at_, limit, skip.
    destruct (decide (i < n)%nat) as [Hi|Hi]; simpl.
    + destruct (decide (i < mSize v)%nat), (decide (i < n `min` mSize v)%nat);
        try done; lia.
    + destruct (decide (mSize v <= n)%nat); simpl.
      * rewrite !decide_False by lia. done.
      * destruct (decide (i < mSize v)%nat), (decide (i - n < mSize v - n)%nat);
          try done; try lia.
        destruct (mPtr v) as [ptr|]; simpl; [|done]. f_equal. lia.
Qed.

(** X2.  Views compose: skipping twice skips the sum, limiting twice limits
    to the smaller size, and limiting what was skipped shows the integers
    that skipping what was limited to the sum shows. *)
Theorem skip_limit_compose (mem : list Z) (v : t) (n m : nat) :
  skip (skip v n) m = skip v (n + m)
  ∧ limit (limit v n) m = limit v (n `min` m)
  ∧ size (limit (skip v n) m) = size (skip (limit v (n + m)) n)
  ∧ ∀ i, at_ mem (limit (skip v n) m) i = at_ mem (skip (limit v (n + m)) n) i.
Proof.
  split; [|split; [|split]].
  - unfold skip at 2 3. destruct (decide (mSize v <= n)%nat) as [Hn|Hn].
    + rewrite (decide_True _ _ (P := (mSize v <= n + m)%nat)) by lia.
      unfold skip. by rewrite decide_True by (simpl; lia).
    + unfold skip. simpl. destruct (decide (mSize v - n <= m)%nat).
      * by rewrite decide_True by lia.
      * rewrite decide_False by lia.
        replace (mSize v - n - m)%nat with (mSize v - (n + m))%nat by lia.
        destruct (mPtr v) as [p|]; simpl; [|done].
        by replace (p + n + m)%nat with (p + (n + m))%nat by lia.
  - unfold limit. simpl. f_equal. lia.
  - unfold size, limit, skip. simpl.
    destruct (decide (mSize v <= n)%nat), (decide ((n + m) `min` mSize v <= n)%nat);
      simpl; lia.
  - intros i. unfold at_, limit, skip. simpl.
    destruct (decide (mSize v <= n)%nat), (decide ((n + m) `min` mSize v <= n)%nat);
      simpl; try lia.
    + by destruct (decide (i < m `min` 0)%nat).
    + destruct (decide (i < m `min` (mSize v - n))%nat); [lia|done].
    + destruct (decide (i < m `min` (mSize v - n))%nat),
               (decide (i < (n + m) `min` mSize v - n)%nat); try done; lia.
Qed.

(** X3.  On a view into the memory, [contains] is defined and is true
    exactly for the integers the view shows. *)
Theorem contains_iff_shown (mem : list Z) (v : t) (value : Z) :
  validIn mem v →
  ∃ l, read mem v = Some l
       ∧ contains mem v value = Some (bool_decide (value ∈ l)).
Proof.
  intros (ptr & Hptr & Hin). unfold read, contains, begin_, end_. rewrite Hptr. simpl.
  rewrite decide_True by done. eexists. split; [done|].
  replace (ptr + mSize v - ptr)%nat with (mSize v) by lia.
  destruct (find_spec mem ptr (mSize v) value Hin) as (it & -> & _ & Hiff). simpl.
  f_equal. apply bool_decide_ext. done.
Qed.

(** The theorem on the view of three integers at index 1 of five. *)
Lemma contains_iff_shown_witness :
  ∃ l, read [7; 1; 2; 3; 9] (fromPtr 1 3) = Some l
       ∧ contains [7; 1; 2; 3; 9] (fromPtr 1 3) 9 = Some (bool_decide (9 ∈ l)).
Proof.
  apply (contains_iff_shown [7; 1; 2; 3; 9] (fromPtr 1 3) 9).
  exists 1%nat. split; [reflexivity|simpl; lia].
Defined.

(** X4.  [copyToArray] with [mSize + offset <= N], from a view into the
    memory: the array keeps its size, the view of [mSize] integers at
    [offset] of the array shows what the view shows, and the other entries
    of the array are left as they were. *)
Theorem copyToArray_then_view (mem : list Z) (v : t) (buffer : list Z) (offset : nat) :
  validIn mem v → (mSize v + offset <= length buffer)%nat →
  ∃ buffer', copyToArray mem v buffer offset = Some buffer'
    ∧ length buffer' = length buffer
    ∧ read buffer' (fromPtr offset (mSize v)) = read mem v
    ∧ ∀ i, (i < offset ∨ offset + mSize v <= i)%nat → buffer' !! i = buffer !! i.
Proof.
  intros (ptr & Hptr & Hin) Hroom. unfold copyToArray, read. rewrite Hptr. simpl.
  rewrite decide_True by done. rewrite decide_True by done. simpl.
  eexists. split; [done|].
  set (src := take (mSize v) (drop ptr mem)).
  assert (Hsrc : length src = mSize v).
  { unfold src. rewrite length_take, length_drop. lia. }
  assert (Hlen : length (take offset buffer ++ src ++ drop (offset + mSize v) buffer)
                 = length buffer).
  { rewrite !length_app, length_take, length_drop. lia. }
  split; [done|]. split.
  - rewrite Hlen. rewrite decide_True by lia. f_equal.
    rewrite drop_app_length' by (rewrite length_take; lia).
    rewrite take_app_length' by done. done.
  - intros i [Hi|Hi].
    + rewrite lookup_app_l by (rewrite length_take; lia).
      by rewrite lookup_take_lt.
    + rewrite lookup_app_r by (rewrite length_take; lia).
      rewrite lookup_app_r by (rewrite length_take; lia).
      rewrite length_take, lookup_drop. f_equal. lia.
Qed.

(** The theorem on the same view, copied to index 2 of an array of six. *)
Lemma copyToArray_then_view_witness :
  ∃ buffer', copyToArray [7; 1; 2; 3; 9] (fromPtr 1 3) (replicate 6 0) 2 = Some buffer'
    ∧ length buffer' = length (replicate 6 0)
    ∧ read buffer' (fromPtr 2 (mSize (fromPtr 1 3))) = read [7; 1; 2; 3; 9] (fromPtr 1 3)
    ∧ ∀ i, (i < 2 ∨ 2 + mSize (fromPtr 1 3) <= i)%nat
           → buffer' !! i = replicate 6 0 !! i.
Proof.
  apply (copyToArray_then_view [7; 1; 2; 3; 9] (fromPtr 1 3) (replicate 6 0) 2).
  - exists 1%nat. split; [reflexivity|simpl; lia].
  - simpl. lia.
Defined.

End IntArrayView.

(* ===================================================================== *)
(** * BigramDictionary (bigram_dictionary.cpp) *)
(* ===================================================================== *)

Module BigramDictionary.
Import CharUtils.

(** The three output arrays of [getPredictions]. *)
Record Results := mkResults {
  bigramProbability : list Z;
  bigramCodePoints : list Z;
  outputTypes : list Z;
}.

(** [MAX_WORD_LENGTH] as an index. *)
Definition MAX_WORD_LENGTH : nat := Z.to_nat Defines.MAX_WORD_LENGTH.

Section AddWordBigram.

(** [MAX_RESULTS] and [Dictionary::KIND_PREDICTION] are declared in headers
    that are not among the sources; they are parameters. *)
Variable MAX_RESULTS : nat.
Variable KIND_PREDICTION : Z.

(** The test of the insertion loop at [insertAt]:
    [probability > bigramProbability[insertAt]
     || (bigramProbability[insertAt] == probability
         && length < getCodePointCount(MAX_WORD_LENGTH,
                bigramCodePoints + insertAt * MAX_WORD_LENGTH))]. *)
Definition goesBefore (probability : Z) (length : nat) (r : Results) (insertAt : nat)
    : option bool :=
  bp ← bigramProbability r !! insertAt;
  Some (bool_decide (probability > bp)
        || (bool_decide (bp = probability)
            && bool_decide (length < getCodePointCount MAX_WORD_LENGTH
                                       (drop (insertAt * MAX_WORD_LENGTH)
                                             (bigramCodePoints r)))%nat)).

(** [while (insertAt < MAX_RESULTS) { if (...) break; insertAt++; }];
    [fuel] is [MAX_RESULTS - insertAt]. *)
Fixpoint findInsertAt (probability : Z) (length : nat) (r : Results)
    (fuel insertAt : nat) : option nat :=
  match fuel with
  | O => Some insertAt
  | S fuel' =>
      b ← goesBefore probability length r insertAt;
      if b : bool then Some insertAt
      else findInsertAt probability length r fuel' (S insertAt)
  end.

(** [while (length--) { *dest++ = *word++; }], [dest] being [a + at_] and
    [word] being [word + i]. *)
Fixpoint copyWord (a : list Z) (at_ : nat) (word : list Z) (i length : nat)
    : option (list Z) :=
  match length with
  | O => Some a
  | S length' =>
      c ← word !! i;
      a ← Mem.store a at_ c;
      copyWord a (S at_) word (S i) length'
  end.

(** [BigramDictionary::addWordBigram] (l. 42-85).  The result is the
    buffer [word] and the arrays after the call. *)
Definition addWordBigram (word : list Z) (length : Z) (probability : Z) (r : Results)
    : option (list Z * Results) :=
  if decide (length < 0) then None else
  let length := Z.to_nat length in
  word ← Mem.store word length 0;
  insertAt ← findInsertAt probability length r MAX_RESULTS 0;
  if decide (MAX_RESULTS <= insertAt)%nat then Some (word, r) else
  bp ← Mem.memmove (bigramProbability r) (insertAt + 1) insertAt
                   (MAX_RESULTS - insertAt - 1);
  bp ← Mem.store bp insertAt probability;
  ot ← Mem.store (outputTypes r) insertAt KIND_PREDICTION;
  cps ← Mem.memmove (bigramCodePoints r) ((insertAt + 1) * MAX_WORD_LENGTH)
                    (insertAt * MAX_WORD_LENGTH)
                    ((MAX_RESULTS - insertAt - 1) * MAX_WORD_LENGTH);
  cps ← copyWord cps (insertAt * MAX_WORD_LENGTH) word 0 length;
  cps ← Mem.store cps (insertAt * MAX_WORD_LENGTH + length) 0;
  Some (word, mkResults bp cps ot).

(** ** The kept entries *)

(** The word held by slot [i] of the output words. *)
Definition wordInSlot (cps : list Z) (i : nat) : list Z :=
  prefixToZero (take MAX_WORD_LENGTH (drop (i * MAX_WORD_LENGTH) cps)).

(** The kept entries, best first: probability and word of every slot. *)
Definition keptAt (r : Results) (i : nat) : Z * list Z :=
  (default 0 (bigramProbability r !! i), wordInSlot (bigramCodePoints r) i).

Definition kept (r : Results) : list (Z * list Z) :=
  keptAt r <$> seq 0 MAX_RESULTS.

(** Arrays of [MAX_RESULTS] entries and slots. *)
Definition wellSized (r : Results) : Prop :=
  length (bigramProbability r) = MAX_RESULTS
  ∧ length (bigramCodePoints r) = (MAX_RESULTS * MAX_WORD_LENGTH)%nat
  ∧ length (outputTypes r) = MAX_RESULTS.

(** Entry [a] may stand before entry [b]: a higher probability, or the
    same probability and no more code points. *)
Definition rankedBefore (a b : Z * list Z) : Prop :=
  a.1 > b.1 ∨ (a.1 = b.1 ∧ (length a.2 <= length b.2)%nat).

(** Probability descending, and among equal probabilities the word with
    fewer code points first. *)
Definition ranked (entries : list (Z * list Z)) : Prop :=
  ∀ i j a b, (i < j)%nat → entries !! i = Some a → entries !! j = Some b →
             rankedBefore a b.

(** The insertion the spec describes, on the entries: the candidate goes
    before the first entry it beats (a higher probability, or the same
    probability and fewer code points). *)
Fixpoint insertRanked (p : Z) (w : list Z) (entries : list (Z * list Z))
    : list (Z * list Z) :=
  match entries with
  | [] => [(p, w)]
  | e :: rest =>
      if decide (p > e.1 ∨ (e.1 = p ∧ (length w < length e.2)%nat))
      then (p, w) :: e :: rest
      else e :: insertRanked p w rest
  end.

(** *** The search *)

(** Index of the first entry the candidate beats, or the length. *)
Fixpoint firstBeaten (p : Z) (n : nat) (entries : list (Z * list Z)) : nat :=
  match entries with
  | [] => O
  | e :: rest =>
      if decide (p > e.1 ∨ (e.1 = p ∧ (n < length e.2)%nat)) then O
      else S (firstBeaten p n rest)
  end.

Lemma firstBeaten_le p n entries : (firstBeaten p n entries <= length entries)%nat.
Proof.
  induction entries as [|e rest IH]; simpl; [lia|].
  destruct (decide _); lia.
Qed.

Lemma insertRanked_firstBeaten p w entries :
  insertRanked p w entries
  = take (firstBeaten p (length w) entries) entries
    ++ (p, w) :: drop (firstBeaten p (length w) entries) entries.
Proof.
  induction entries as [|e rest IH]; simpl; [done|].
  destruct (decide _); simpl; [done|]. by rewrite IH.
Qed.

Lemma findInsertAt_firstBeaten p n r fuel i :
  (i + fuel <= length (bigramProbability r))%nat →
  findInsertAt p n r fuel i
  = Some (i + firstBeaten p n (keptAt r <$> seq i fuel))%nat.
Proof.
  revert i. induction fuel as [|fuel IH]; intros i Hlen; simpl.
  - f_equal. lia.
  - unfold goesBefore.
    destruct (bigramProbability r !! i) as [bp|] eqn:Hbp; simpl;
      [|apply lookup_ge_None in Hbp; lia].
    unfold wordInSlot, getCodePointCount.
    destruct (decide (p > bp ∨ bp = p ∧ _)) as [Hc|Hc].
    + replace (_ || _) with true; [f_equal; lia|].
      symmetry. destruct Hc as [Hc|[Hc1 Hc2]].
      * by rewrite (bool_decide_eq_true_2 _ Hc).
      * rewrite (bool_decide_eq_true_2 _ Hc1), (bool_decide_eq_true_2 _ Hc2).
        by rewrite orb_true_r.
    + replace (_ || _) with false.
      * rewrite IH by lia. f_equal. unfold fmap. lia.
      * symmetry. apply orb_false_iff. split.
        -- apply bool_decide_eq_false_2. tauto.
        -- apply andb_false_iff.
           destruct (decide (bp = p)); [right|left]; apply bool_decide_eq_false_2; tauto.
Qed.

(** *** Ranking is kept by the insertion and by dropping the last *)

Lemma rankedBefore_trans a b c :
  rankedBefore a b → rankedBefore b c → rankedBefore a c.
Proof. unfold rankedBefore. intros [?|[? ?]] [?|[? ?]]; [left|left|left|right]; lia. Qed.

Lemma ranked_cons e entries :
  ranked (e :: entries) ↔ (∀ b, b ∈ entries → rankedBefore e b) ∧ ranked entries.
Proof.
  split.
  - intros H. split.
    + intros b [j Hj]%list_elem_of_lookup. by apply (H 0%nat (S j) e b); [lia| |].
    + intros i j a b Hij Ha Hb. by apply (H (S i) (S j) a b); [lia| |].
  - intros [Hhd Htl] i j a b Hij Ha Hb.
    destruct j as [|j]; [lia|]. simpl in Hb.
    destruct i as [|i]; simpl in Ha.
    + injection Ha as <-. apply Hhd. by eapply list_elem_of_lookup_2.
    + by apply (Htl i j a b); [lia| |].
Qed.

Lemma elem_of_insertRanked p w entries b :
  b ∈ insertRanked p w entries → b = (p, w) ∨ b ∈ entries.
Proof.
  induction entries as [|e rest IH]; simpl.
  - intros ->%list_elem_of_singleton. by left.
  - destruct (decide _).
    + intros [->|H]%elem_of_cons; [by left|by right].
    + intros [->|H]%elem_of_cons; [right; by left|].
      destruct (IH H) as [->|?]; [by left|right; by right].
Qed.

Lemma ranked_insertRanked p w entries :
  ranked entries → ranked (insertRanked p w entries).
Proof.
  induction entries as [|e rest IH]; simpl; intros Hr.
  - apply ranked_cons. split; [|by intros i j a b _ H; destruct i].
    intros b Hb. inversion Hb.
  - apply ranked_cons in Hr as [Hhd Htl].
    destruct (decide _) as [Hc|Hc].
    + assert (Hpe : rankedBefore (p, w) e).
      { unfold rankedBefore; simpl. destruct Hc as [?|[? ?]]; [by left|right; lia]. }
      apply ranked_cons. split.
      * intros b [->|Hb]%elem_of_cons; [done|].
        eapply rankedBefore_trans; [exact Hpe|by apply Hhd].
      * apply ranked_cons. by split.
    + apply ranked_cons. split; [|by apply IH].
      intros b [->|Hb]%elem_of_insertRanked; [|by apply Hhd].
      unfold rankedBefore; simpl.
      destruct (decide (e.1 > p)); [by left|right].
      split; lia.
Qed.

Lemma ranked_take n entries : ranked entries → ranked (take n entries).
Proof.
  intros Hr i j a b Hij Ha Hb.
  apply lookup_take_Some in Ha as [Ha _], Hb as [Hb _]. by eapply Hr.
Qed.

(** *** The writes *)

Lemma copyWord_Some a at_ word i n :
  (at_ + n <= length a)%nat → (i + n <= length word)%nat →
  copyWord a at_ word i n
  = Some (take at_ a ++ take n (drop i word) ++ drop (at_ + n) a).
Proof.
  revert a at_ i. induction n as [|n IH]; intros a at_ i Ha Hw; simpl.
  - rewrite Nat.add_0_r, take_drop. done.
  - destruct (word !! i) as [c|] eqn:Hc; [|apply lookup_ge_None in Hc; lia].
    simpl. unfold Mem.store. rewrite decide_True by lia. simpl.
    rewrite IH by (rewrite ?length_insert; lia).
    f_equal.
    rewrite (take_S_r (<[at_:=c]> a) at_ c) by (apply list_lookup_insert_eq; lia).
    rewrite take_insert_ge by lia.
    rewrite drop_insert_lt by lia.
    rewrite (drop_S word c i Hc). simpl.
    rewrite <- app_assoc. simpl.
    by replace (at_ + S n)%nat with (S (at_ + n)) by lia.
Qed.

Lemma copyWord_lookup a at_ word n a' x :
  (at_ + n <= length a)%nat → (n <= length word)%nat →
  copyWord a at_ word 0 n = Some a' →
  a' !! x = if decide (at_ <= x < at_ + n)%nat then word !! (x - at_)%nat else a !! x.
Proof.
  intros Ha Hw. rewrite copyWord_Some by lia. intros [= <-]. rewrite drop_0.
  case_decide as Hx.
  - rewrite lookup_app_r by (rewrite length_take; lia).
    rewrite length_take.
    rewrite lookup_app_l by (rewrite length_take; lia).
    rewrite lookup_take_lt by lia. f_equal. lia.
  - destruct (decide (x < at_)%nat).
    + rewrite lookup_app_l by (rewrite length_take; lia).
      by rewrite lookup_take_lt by lia.
    + rewrite lookup_app_r by (rewrite length_take; lia).
      rewrite length_take.
      rewrite lookup_app_r by (rewrite length_take; lia).
      rewrite length_take, lookup_drop. f_equal. lia.
Qed.

Lemma wordInSlot_ext (a b : list Z) i i' :
  (∀ j, (j < MAX_WORD_LENGTH)%nat →
        a !! (i * MAX_WORD_LENGTH + j)%nat = b !! (i' * MAX_WORD_LENGTH + j)%nat) →
  wordInSlot a i = wordInSlot b i'.
Proof.
  intros H. unfold wordInSlot. f_equal. apply list_eq. intros j.
  destruct (decide (j < MAX_WORD_LENGTH)%nat).
  - rewrite !lookup_take_lt, !lookup_drop by done. by apply H.
  - by rewrite !lookup_take_ge by lia.
Qed.

(** A buffer that agrees with [w] on its first [n] entries and holds [0]
    next is read back as the first [n] entries of [w]. *)
Lemma prefixToZero_written (l w : list Z) n :
  (n <= length w)%nat →
  Forall (λ c, c ≠ 0) (take n w) →
  (∀ j, (j < n)%nat → l !! j = w !! j) →
  l !! n = Some 0 →
  prefixToZero l = take n w.
Proof.
  intros Hn Hnz Hagree Hzero.
  rewrite <- (take_drop_middle l n 0 Hzero).
  replace (take n l) with (take n w); [by apply prefixToZero_app_zero|].
  apply list_eq. intros j. destruct (decide (j < n)%nat).
  - rewrite !lookup_take_lt by done. symmetry. by apply Hagree.
  - by rewrite !lookup_take_ge by lia.
Qed.

(** A candidate [addWordBigram] is defined on: a length below
    [MAX_WORD_LENGTH], a buffer that holds [word[length]], and no [0]
    among the code points of the word. *)
Definition candidateOk (word : list Z) (length : Z) : Prop :=
  0 <= length < Z.of_nat MAX_WORD_LENGTH
  ∧ (Z.to_nat length < List.length word)%nat
  ∧ Forall (λ c, c ≠ 0) (take (Z.to_nat length) word).

Lemma kept_length r : length (kept r) = MAX_RESULTS.
Proof. unfold kept. by rewrite length_fmap, length_seq. Qed.

Lemma kept_lookup r i :
  kept r !! i = if decide (i < MAX_RESULTS)%nat then Some (keptAt r i) else None.
Proof.
  unfold kept. rewrite list_lookup_fmap.
  case_decide.
  - by rewrite lookup_seq_lt.
  - by rewrite lookup_seq_ge by lia.
Qed.

(** One call refines the ranked insertion: the kept entries afterwards are
    the entries before with the candidate inserted at its rank, cut to
    [MAX_RESULTS]. *)
Lemma addWordBigram_refines word len p r :
  wellSized r → candidateOk word len →
  ∃ word' r',
    addWordBigram word len p r = Some (word', r')
    ∧ wellSized r'
    ∧ kept r' = take MAX_RESULTS (insertRanked p (take (Z.to_nat len) word) (kept r)).
Proof.
  intros (Hbp & Hcps & Hot) (Hlen & Hword & Hnz).
  unfold addWordBigram. rewrite decide_False by lia.
  set (n := Z.to_nat len) in *.
  assert (Hn : (n < MAX_WORD_LENGTH)%nat) by lia.
  rewrite Mem.store_defined by done. simpl.
  set (word' := <[n:=0]> word).
  rewrite findInsertAt_firstBeaten by lia. simpl. fold (kept r).
  rewrite insertRanked_firstBeaten.
  rewrite length_take, Nat.min_l by lia.
  set (k := firstBeaten p n (kept r)).
  assert (Hk : (k <= MAX_RESULTS)%nat).
  { pose proof (firstBeaten_le p n (kept r)) as Hle.
    by rewrite kept_length in Hle. }
  destruct (decide (MAX_RESULTS <= k)%nat) as [Hfull|Hroom].
  { exists word', r. split; [done|]. split; [done|].
    rewrite take_app_le by (rewrite length_take, kept_length; lia).
    rewrite take_take, Nat.min_r by lia.
    rewrite take_ge; [done|]. rewrite kept_length. lia. }
  change MAX_WORD_LENGTH with 48%nat in *.
  destruct (Mem.memmove_defined (bigramProbability r) (k + 1) k (MAX_RESULTS - k - 1))
    as [bp1 Hbp1]; [lia|lia|].
  rewrite Hbp1. simpl.
  pose proof (Mem.memmove_length _ _ _ _ _ Hbp1) as Hbp1len.
  rewrite Mem.store_defined by lia. simpl.
  rewrite Mem.store_defined by lia. simpl.
  destruct (Mem.memmove_defined (bigramCodePoints r) ((k + 1) * 48) (k * 48)
              ((MAX_RESULTS - k - 1) * 48)) as [cps1 Hcps1]; [lia|lia|].
  rewrite Hcps1. simpl.
  pose proof (Mem.memmove_length _ _ _ _ _ Hcps1) as Hcps1len.
  assert (Hword' : length word' = length word) by (unfold word'; apply length_insert).
  rewrite copyWord_Some by lia. simpl.
  set (cps2 := take (k * 48) cps1 ++ take n (drop 0 word') ++ drop (k * 48 + n) cps1).
  assert (Hcps2 : copyWord cps1 (k * 48) word' 0 n = Some cps2)
    by (apply copyWord_Some; lia).
  assert (Hcps2len : length cps2 = length cps1).
  { unfold cps2. rewrite !length_app, !length_take, !length_drop. lia. }
  rewrite Mem.store_defined by lia. simpl.
  eexists word', _. split; [done|].
  split.
  { unfold wellSized. change MAX_WORD_LENGTH with 48%nat. simpl.
    rewrite !length_insert. repeat split; lia. }
  (* the array of probabilities after the call *)
  assert (Hbp2 : ∀ i, (i < MAX_RESULTS)%nat →
            default 0 (<[k:=p]> bp1 !! i)
            = if decide (i < k)%nat then default 0 (bigramProbability r !! i)
              else if decide (i = k) then p
              else default 0 (bigramProbability r !! (i - 1)%nat)).
  { intros i Hi. destruct (decide (i = k)) as [->|Hik].
    - rewrite list_lookup_insert_eq by lia. rewrite decide_False by lia. done.
    - rewrite list_lookup_insert_ne by done.
      rewrite (Mem.memmove_lookup _ _ _ _ _ i Hbp1).
      destruct (decide (i < k)%nat).
      + rewrite decide_False by lia. done.
      + rewrite decide_True by lia. do 2 f_equal. lia. }
  (* the array of words after the call *)
  assert (Hcps3 : ∀ x,
            <[(k * 48 + n)%nat:=0]> cps2 !! x
            = if decide (k * 48 <= x < k * 48 + n)%nat then word !! (x - k * 48)%nat
              else if decide (x = k * 48 + n)%nat then Some 0
              else if decide ((k + 1) * 48 <= x < MAX_RESULTS * 48)%nat
                   then bigramCodePoints r !! (x - 48)%nat
                   else bigramCodePoints r !! x).
  { intros x. destruct (decide (x = k * 48 + n)%nat) as [->|Hx].
    - rewrite list_lookup_insert_eq by lia. rewrite decide_False by lia. done.
    - rewrite list_lookup_insert_ne by done.
      rewrite (copyWord_lookup cps1 (k * 48) word' n cps2 x) by (done || lia).
      destruct (decide (k * 48 <= x < k * 48 + n)%nat).
      + unfold word'. rewrite list_lookup_insert_ne by lia. done.
      + rewrite (Mem.memmove_lookup _ _ _ _ _ x Hcps1).
        destruct (decide ((k + 1) * 48 <= x < MAX_RESULTS * 48)%nat).
        * rewrite decide_True by lia. f_equal. lia.
        * rewrite decide_False by lia. done. }
  apply list_eq. intros i.
  rewrite kept_lookup.
  destruct (decide (i < MAX_RESULTS)%nat) as [Hi|Hi];
    [|by rewrite lookup_take_ge by lia].
  rewrite lookup_take_lt by done.
  unfold keptAt at 1. simpl. rewrite (Hbp2 i Hi).
  destruct (decide (i < k)%nat) as [Hlt|Hge].
  - rewrite lookup_app_l by (rewrite length_take, kept_length; lia).
    rewrite lookup_take_lt, kept_lookup, decide_True by lia.
    unfold keptAt. do 2 f_equal.
    apply wordInSlot_ext. intros j Hj. change MAX_WORD_LENGTH with 48%nat in *.
    rewrite Hcps3. repeat (rewrite decide_False by lia). done.
  - rewrite lookup_app_r by (rewrite length_take, kept_length; lia).
    rewrite length_take, kept_length, Nat.min_l by lia.
    destruct (decide (i = k)) as [->|Hne].
    + rewrite Nat.sub_diag. simpl. do 2 f_equal.
      unfold wordInSlot. change MAX_WORD_LENGTH with 48%nat.
      apply prefixToZero_written; [lia|done| |].
      * intros j Hj. rewrite lookup_take_lt, lookup_drop by lia.
        rewrite Hcps3, decide_True by lia. f_equal. lia.
      * rewrite lookup_take_lt, lookup_drop by lia.
        rewrite Hcps3, decide_False by lia. by rewrite decide_True.
    + destruct (i - k)%nat as [|d] eqn:Hd; [lia|]. simpl.
      rewrite lookup_drop, kept_lookup, decide_True by lia.
      replace (k + d)%nat with (i - 1)%nat by lia.
      unfold keptAt. do 2 f_equal.
      apply wordInSlot_ext. intros j Hj. change MAX_WORD_LENGTH with 48%nat in *.
      rewrite Hcps3. do 2 (rewrite decide_False by lia).
      rewrite decide_True by lia. f_equal. lia.
Qed.

(** A run of insertions: candidates are (buffer, length, probability). *)
Fixpoint addAll (candidates : list (list Z * Z * Z)) (r : Results) : option Results :=
  match candidates with
  | [] => Some r
  | (word, length, probability) :: rest =>
      wr ← addWordBigram word length probability r;
      addAll rest wr.2
  end.

(** The same run on the entries: each candidate goes to its rank and the
    entry that falls past [MAX_RESULTS], the lowest, is dropped. *)
Definition insertAllRanked (candidates : list (list Z * Z * Z))
    (entries : list (Z * list Z)) : list (Z * list Z) :=
  foldl (λ es c, take MAX_RESULTS (insertRanked c.2 (take (Z.to_nat c.1.2) c.1.1) es))
        entries candidates.

Lemma ranked_replicate n (e : Z * list Z) : ranked (replicate n e).
Proof.
  intros i j a b _ [-> _]%lookup_replicate [-> _]%lookup_replicate.
  right. split; lia.
Qed.

End AddWordBigram.

(** C8 (amended).  After every run of [addWordBigram] insertions of
    candidates that are words below [MAX_WORD_LENGTH] code points without a
    [0] code point, into arrays that were ranked before (as zero-filled
    arrays are), the kept entries are ordered by probability descending, and
    among equal probabilities the word with fewer code points comes first;
    each insertion puts the candidate at its rank and drops the entry that
    falls past [MAX_RESULTS], the lowest-ranked one. *)
Theorem addWordBigram_keeps_entries_ranked
    (MAX_RESULTS : nat) (KIND_PREDICTION : Z)
    (candidates : list (list Z * Z * Z)) (r0 : Results) :
  wellSized MAX_RESULTS r0 →
  ranked (kept MAX_RESULTS r0) →
  Forall (λ c, candidateOk c.1.1 c.1.2) candidates →
  ∃ r, addAll MAX_RESULTS KIND_PREDICTION candidates r0 = Some r
       ∧ wellSized MAX_RESULTS r
       ∧ kept MAX_RESULTS r
         = insertAllRanked MAX_RESULTS candidates (kept MAX_RESULTS r0)
       ∧ ranked (kept MAX_RESULTS r).
Proof.
  intros Hsize Hranked Hok. revert r0 Hsize Hranked.
  induction Hok as [|[[word len] p] rest Hc _ IH]; intros r0 Hsize Hranked; simpl.
  - by exists r0.
  - destruct (addWordBigram_refines MAX_RESULTS KIND_PREDICTION word len p r0 Hsize Hc)
      as (word' & r1 & Hadd & Hsize1 & Hkept1).
    rewrite Hadd. simpl.
    destruct (IH r1 Hsize1) as (r & Hall & Hsize' & Hkept & Hr).
    { rewrite Hkept1. by apply ranked_take, ranked_insertRanked. }
    exists r. split; [done|]. split; [done|]. split; [|done].
    rewrite Hkept. unfold insertAllRanked. simpl. by rewrite Hkept1.
Qed.

(** ** [getPredictions] *)

Section GetPredictions.

Variable MAX_RESULTS : nat.
Variable KIND_PREDICTION : Z.
Variable NOT_A_PROBABILITY : Z.
Variable NOT_A_VALID_WORD_POS : Z.

(** [MAX_ALTERNATIVES] is declared in the absent [defines.h]. *)
Variable MAX_ALTERNATIVES : nat.

(** The structure policy of the dictionary at hand, an interface in the
    source: [getTerminalNodePositionOfWord], [getBigramsPositionOfNode] and
    [getCodePointsAndProbabilityAndReturnCodePointCount]; the last maps a
    position, a maximum count and the output buffer to the buffer it
    leaves, the unigram probability and the count it returns. *)
Variable getTerminalNodePositionOfWord : list Z → Z → bool → Z.
Variable getBigramsPositionOfNode : Z → Z.
Variable getCodePointsAndProbabilityAndReturnCodePointCount :
  Z → Z → list Z → list Z * Z * Z.

(** The run of [BinaryDictionaryBigramsIterator] from a list position, as
    in [MultiBigramMap]. *)
Variable bigramsIt : Z → list (Z * Z).

(** [CharUtils::toBaseLowerCase], not among the sources. *)
Variable toBaseLowerCase : Z → Z.

(** [BigramDictionary::getBigramListPositionForWord] (l. 150-158). *)
Definition getBigramListPositionForWord (prevWord : list Z) (prevWordLength : Z)
    (forceLowerCaseSearch : bool) : Z :=
  if decide (0 >= prevWordLength) then Defines.NOT_A_DICT_POS
  else
    let pos := getTerminalNodePositionOfWord prevWord prevWordLength forceLowerCaseSearch in
    if decide (NOT_A_VALID_WORD_POS = pos) then Defines.NOT_A_DICT_POS
    else getBigramsPositionOfNode pos.

(** The loop of [checkFirstCharacter]; [i] is how far [inputCodePoints] has
    been advanced. *)
Fixpoint checkFirstCharacterLoop (firstBaseLowerCodePoint : Z) (inputCodePoints : list Z)
    (i maxAlt : nat) : option bool :=
  match maxAlt with
  | O => Some false
  | S maxAlt' =>
      c ← inputCodePoints !! i;
      if decide (toBaseLowerCase c = firstBaseLowerCodePoint) then Some true
      else checkFirstCharacterLoop firstBaseLowerCodePoint inputCodePoints (S i) maxAlt'
  end.

(** [BigramDictionary::checkFirstCharacter] (l. 160-174). *)
Definition checkFirstCharacter (word inputCodePoints : list Z) : option bool :=
  w ← word !! 0%nat;
  checkFirstCharacterLoop (toBaseLowerCase w) inputCodePoints 0 MAX_ALTERNATIVES.

(** The loop [while (bigramsIt.hasNext())] of [getPredictions], over the
    entries the iterator yields. *)
Fixpoint predictionsLoop (entries : list (Z * Z)) (inputCodePoints : list Z)
    (inputSize : Z) (bigramBuffer : list Z) (r : Results) (bigramCount : Z)
    : option (Results * Z) :=
  match entries with
  | [] => Some (r, bigramCount)
  | (bigramPos, bigramProbabilityTemp) :: rest =>
      let '(bigramBuffer, unigramProbability, length) :=
        getCodePointsAndProbabilityAndReturnCodePointCount
          bigramPos Defines.MAX_WORD_LENGTH bigramBuffer in
      matches ← (if decide (inputSize < 1) then Some true
                 else checkFirstCharacter bigramBuffer inputCodePoints);
      if matches : bool then
        let probability :=
          ProbabilityUtils.computeProbabilityForBigram NOT_A_PROBABILITY
            unigramProbability bigramProbabilityTemp in
        wr ← addWordBigram MAX_RESULTS KIND_PREDICTION bigramBuffer length probability r;
        predictionsLoop rest inputCodePoints inputSize wr.1 wr.2 (bigramCount + 1)
      else
        predictionsLoop rest inputCodePoints inputSize bigramBuffer r bigramCount
  end.

(** [BigramDictionary::getPredictions] (l. 103-146).  [bigramBuffer] is the
    local array of [MAX_WORD_LENGTH] entries, whatever it holds at entry;
    the result is the output arrays and the returned count. *)
Definition getPredictions (prevWord : list Z) (prevWordLength : Z)
    (inputCodePoints : list Z) (inputSize : Z) (bigramBuffer : list Z) (r : Results)
    : option (Results * Z) :=
  let pos := getBigramListPositionForWord prevWord prevWordLength false in
  let pos := if decide (Defines.NOT_A_DICT_POS = pos)
             then getBigramListPositionForWord prevWord prevWordLength true
             else pos in
  if decide (Defines.NOT_A_DICT_POS = pos) then Some (r, 0)
  else
    rc ← predictionsLoop (bigramsIt pos) inputCodePoints inputSize bigramBuffer r 0;
    Some (rc.1, Defines.min rc.2 (Z.of_nat MAX_RESULTS)).

(** The count [getPredictions] returns, when the call is defined, is at
    most [MAX_RESULTS]. *)
Lemma getPredictions_count prevWord prevWordLength inputCodePoints inputSize
    bigramBuffer r r' count :
  getPredictions prevWord prevWordLength inputCodePoints inputSize bigramBuffer r
  = Some (r', count) →
  count <= Z.of_nat MAX_RESULTS.
Proof.
  unfold getPredictions.
  destruct (decide (Defines.NOT_A_DICT_POS = _)); [intros [= _ <-]; lia|].
  destruct (predictionsLoop _ _ _ _ _ _) as [[r1 c]|]; simpl; [|done].
  intros [= _ <-]. rewrite Defines.min_spec. lia.
Qed.

End GetPredictions.

(** Checks [candidateOk] on a concrete buffer. *)
Ltac candidate_ok :=
  split; [change MAX_WORD_LENGTH with 48%nat; simpl; lia|];
  split; [simpl; lia|];
  simpl; repeat (apply Forall_cons; split; [done|]); apply Forall_nil_2.

(** Zero-filled arrays of three results. *)
Definition exampleEmptyResults : Results :=
  mkResults (replicate 3 0) (replicate (3 * 48) 0) (replicate 3 0).

(** Four candidates, in buffers of five entries: ["cat"] at 200, ["nap"] at
    180, ["at"] at 200 and ["card"] at 190. *)
Definition exampleCandidates : list (list Z * Z * Z) :=
  [ ([99; 97; 116; 7; 7], 3, 200);
    ([110; 97; 112; 7; 7], 3, 180);
    ([97; 116; 7; 7; 7], 2, 200);
    ([99; 97; 114; 100; 7], 4, 190) ].

(** The theorem on the example: ["at"] goes before ["cat"], ["nap"] is
    dropped when ["card"] comes fourth. *)
Lemma addWordBigram_keeps_entries_ranked_witness :
  ∃ r, addAll 3 0 exampleCandidates exampleEmptyResults = Some r
       ∧ wellSized 3 r
       ∧ kept 3 r = insertAllRanked 3 exampleCandidates (kept 3 exampleEmptyResults)
       ∧ ranked (kept 3 r).
Proof.
  apply (addWordBigram_keeps_entries_ranked 3 0 exampleCandidates exampleEmptyResults).
  - vm_compute. done.
  - change (kept 3 exampleEmptyResults) with (replicate 3 (0, @nil Z)).
    apply ranked_replicate.
  - unfold exampleCandidates.
    repeat (apply Forall_cons; split; [candidate_ok|]).
    apply Forall_nil_2.
Defined.

Example addAll_example :
  kept 3 <$> addAll 3 0 exampleCandidates exampleEmptyResults
  = Some [(200, [97; 116]); (200, [99; 97; 116]); (190, [99; 97; 114; 100])].
Proof. vm_compute. reflexivity. Qed.

(** ** A word of [MAX_WORD_LENGTH] code points *)

(** Zero-filled arrays of eighteen results. *)
Definition emptyResults18 : Results :=
  mkResults (replicate 18 0) (replicate (18 * 48) 0) (replicate 18 0).

(** The arrays once ["ab"] has been added with probability 10. *)
Definition resultsWithAb : option Results :=
  snd <$> addWordBigram 18 0 [97; 98; 7] 2 10 emptyResults18.

(** A buffer of 49 entries holding a word of 48 code points. *)
Definition fullLengthWord : list Z := replicate 48 97 ++ [7].

(** C9, at the failing input.  Adding a word of exactly [MAX_WORD_LENGTH]
    code points at the head of the results fills slot 0 with 48 code points
    that are not [0], and writes the terminating [0] at offset 48, the first
    code point of slot 1: the word is not terminated inside its slot, and
    the entry ["ab"] that had just been moved to slot 1 reads back empty. *)
Theorem addWordBigram_terminator_outside_slot :
  ∃ r1 r2,
    resultsWithAb = Some r1
    ∧ wordInSlot (bigramCodePoints r1) 0 = [97; 98]
    ∧ snd <$> addWordBigram 18 0 fullLengthWord 48 300 r1 = Some r2
    ∧ take MAX_WORD_LENGTH (bigramCodePoints r2) = replicate 48 97
    ∧ bigramCodePoints r2 !! 48%nat = Some 0
    ∧ take 3 (kept 18 r2) = [(300, replicate 48 97); (10, []); (0, [])].
Proof.
  eexists _, _. split; [vm_compute; reflexivity|].
  split; [vm_compute; reflexivity|].
  split; [vm_compute; reflexivity|].
  vm_compute. done.
Qed.

(** Zero-filled arrays of two results. *)
Definition emptyResults2 : Results :=
  mkResults (replicate 2 0) (replicate (2 * 48) 0) (replicate 2 0).

(** C8 as stated fails for candidates that are not words below
    [MAX_WORD_LENGTH] code points without a [0] code point.  With two
    results: after ["cat"] at 10, the word of 48 code points at 300 goes
    first and its terminating [0] empties the word of the entry of ["cat"],
    which is kept second, so that the kept entries are not the two best
    candidates; at 5, where the long word is kept last, the terminating [0]
    lies outside the arrays and the call is undefined.  And after ["abc"] at
    5, the four code points [97; 0; 98; 99] at 5 are kept second and read
    back as a word of one code point: the shorter word does not come
    first. *)
Lemma addWordBigram_unranked_for_other_candidates :
  kept 2 <$> addAll 2 0 [([99; 97; 116; 7], 3, 10); (fullLengthWord, 48, 300)]
               emptyResults2
  = Some [(300, replicate 48 97); (10, [])]
  ∧ insertAllRanked 2 [([99; 97; 116; 7], 3, 10); (fullLengthWord, 48, 300)]
      (kept 2 emptyResults2)
    = [(300, replicate 48 97); (10, [99; 97; 116])]
  ∧ addAll 2 0 [([99; 97; 116; 7], 3, 10); (fullLengthWord, 48, 5)] emptyResults2
    = None
  ∧ ∃ r, addAll 2 0 [([97; 98; 99; 7], 3, 5); ([97; 0; 98; 99; 7], 4, 5)]
           emptyResults2 = Some r
         ∧ kept 2 r = [(5, [97; 98; 99]); (5, [97])]
         ∧ ¬ ranked (kept 2 r).
Proof.
  split; [vm_compute; reflexivity|]. split; [vm_compute; reflexivity|].
  split; [vm_compute; reflexivity|].
  eexists. split; [vm_compute; reflexivity|].
  assert (Hkept : ∀ r', r' = [(5, [97; 98; 99]); (5, [97])] → ¬ ranked r').
  { intros r' -> Hranked.
    destruct (Hranked 0%nat 1%nat (5, [97; 98; 99]) (5, [97]) ltac:(lia) eq_refl
                eq_refl) as [H|[_ H]]; simpl in H; lia. }
  split; [vm_compute; reflexivity|]. apply Hkept. vm_compute. reflexivity.
Qed.

(** A dictionary for [getPredictions]: the previous word is the terminal at
    position 1, its bigram list at 101 names the terminal at 5, which is a
    word of 48 code points. *)
Definition fullWordPolicy (bigramPos maxCodePointCount : Z) (out : list Z)
    : list Z * Z * Z :=
  (replicate 48 97 ++ drop 48 out, 100, 48).

(** On that dictionary [getPredictions] is undefined at its first bigram:
    [word[length] = 0] writes past the end of [bigramBuffer]. *)
Example getPredictions_full_length_word :
  getPredictions 18 0 (-1) (-1) 5 (λ _ _ _, 1) (λ pos, pos + 100) fullWordPolicy
    (λ pos, if decide (pos = 101) then [(5, 3)] else []) (λ c, c)
    [99; 97; 116] 3 [] 0 (replicate 48 0) emptyResults18
  = None.
Proof. vm_compute. reflexivity. Qed.

(** ** Predictions and valid bigrams *)

Section Predictions.

Variable MAX_RESULTS : nat.
Variable KIND_PREDICTION : Z.
Variable NOT_A_PROBABILITY : Z.
Variable NOT_A_VALID_WORD_POS : Z.
Variable MAX_ALTERNATIVES : nat.
Variable getTerminalNodePositionOfWord : list Z → Z → bool → Z.
Variable getBigramsPositionOfNode : Z → Z.
Variable getCodePointsAndProbabilityAndReturnCodePointCount :
  Z → Z → list Z → list Z * Z * Z.
Variable bigramsIt : Z → list (Z * Z).
Variable toBaseLowerCase : Z → Z.

Abbreviation listPositionForWord :=
  (getBigramListPositionForWord NOT_A_VALID_WORD_POS getTerminalNodePositionOfWord
     getBigramsPositionOfNode).
Abbreviation firstCharacter := (checkFirstCharacter MAX_ALTERNATIVES toBaseLowerCase).
Abbreviation add := (addWordBigram MAX_RESULTS KIND_PREDICTION).
Abbreviation predictions :=
  (getPredictions MAX_RESULTS KIND_PREDICTION NOT_A_PROBABILITY NOT_A_VALID_WORD_POS
     MAX_ALTERNATIVES getTerminalNodePositionOfWord getBigramsPositionOfNode
     getCodePointsAndProbabilityAndReturnCodePointCount bigramsIt toBaseLowerCase).

(** The loop [while (bigramsIt.hasNext())] of [isValidBigram] (l. 186-191),
    over the entries the iterator yields. *)
Fixpoint isValidBigramLoop (entries : list (Z * Z)) (nextWordPos : Z) : bool :=
  match entries with
  | [] => false
  | (bigramPos, _) :: rest =>
      if decide (bigramPos = nextWordPos) then true
      else isValidBigramLoop rest nextWordPos
  end.

(** [BigramDictionary::isValidBigram] (l. 176-193). *)
Definition isValidBigram (word0 : list Z) (length0 : Z) (word1 : list Z) (length1 : Z)
    : bool :=
  let pos := listPositionForWord word0 length0 false in
  if decide (Defines.NOT_A_DICT_POS = pos) then false
  else
    let nextWordPos := getTerminalNodePositionOfWord word1 length1 false in
    if decide (NOT_A_VALID_WORD_POS = nextWordPos) then false
    else isValidBigramLoop (bigramsIt pos) nextWordPos.

Lemma isValidBigramLoop_elem entries nextWordPos :
  isValidBigramLoop entries nextWordPos = true ↔ nextWordPos ∈ entries.*1.
Proof.
  induction entries as [|[t p] rest IH]; simpl.
  - split; [done|]. intros H. inversion H.
  - rewrite elem_of_cons. destruct (decide (t = nextWordPos)) as [->|Hne].
    + split; [by left|done].
    + rewrite IH. split; [by right|]. by intros [?|?].
Qed.

Lemma checkFirstCharacterLoop_spec first inputCodePoints i maxAlt :
  (i + maxAlt <= length inputCodePoints)%nat →
  checkFirstCharacterLoop toBaseLowerCase first inputCodePoints i maxAlt
  = Some (bool_decide (Exists (λ c, toBaseLowerCase c = first)
                              (take maxAlt (drop i inputCodePoints)))).
Proof.
  revert i. induction maxAlt as [|maxAlt IH]; intros i Hlen; simpl.
  - f_equal.
  - destruct (inputCodePoints !! i) as [c|] eqn:Hc; [|apply lookup_ge_None in Hc; lia].
    simpl. rewrite (drop_S _ _ _ Hc). simpl.
    destruct (decide (toBaseLowerCase c = first)) as [Heq|Hne].
    + f_equal. symmetry. apply bool_decide_eq_true_2. by left.
    + rewrite IH by lia. f_equal. apply bool_decide_ext.
      rewrite Exists_cons. split; [by right|]. by intros [?|?].
Qed.

(** [addWordBigram] leaves [word] with [word[length] = 0]. *)
Lemma addWordBigram_word word len p r word' r' :
  add word len p r = Some (word', r') → word' = <[Z.to_nat len := 0]> word.
Proof.
  unfold addWordBigram. destruct (decide (len < 0)); [done|].
  destruct (Mem.store word (Z.to_nat len) 0) as [w|] eqn:Hstore; simpl; [|done].
  apply Mem.store_Some in Hstore as [_ ->].
  destruct (findInsertAt _ _ _ _ _) as [insertAt|]; simpl; [|done].
  destruct (decide (MAX_RESULTS <= insertAt)%nat); [by intros [= <- _]|].
  repeat (match goal with
          | |- context [?m ≫= _] =>
              let x := fresh in destruct m as [x|]; simpl; [|done]
          end).
  by intros [= <- _].
Qed.

(** The word of a bigram as the structure policy writes it to the buffer
    of [getPredictions]: the code points [wordAt pos], at the head of the
    buffer, with the unigram probability [unigramAt pos]. *)
Definition writesWords (wordAt : Z → list Z) (unigramAt : Z → Z) : Prop :=
  ∀ pos buffer,
    getCodePointsAndProbabilityAndReturnCodePointCount pos Defines.MAX_WORD_LENGTH buffer
    = (wordAt pos ++ drop (length (wordAt pos)) buffer, unigramAt pos,
       Z.of_nat (length (wordAt pos))).

(** The bigrams [getPredictions] adds: all when [inputSize < 1], else those
    whose word starts as one of the first [MAX_ALTERNATIVES] input code
    points, up to base and case. *)
Definition predicted (wordAt : Z → list Z) (inputCodePoints : list Z) (inputSize : Z)
    (entry : Z * Z) : bool :=
  bool_decide (inputSize < 1)
  || bool_decide (Exists (λ c, Some (toBaseLowerCase c)
                               = toBaseLowerCase <$> wordAt entry.1 !! 0%nat)
                         (take MAX_ALTERNATIVES inputCodePoints)).

(** The candidate [getPredictions] passes to [addWordBigram] for a
    bigram. *)
Definition candidateOf (wordAt : Z → list Z) (unigramAt : Z → Z) (entry : Z * Z)
    : list Z * Z * Z :=
  (wordAt entry.1, Z.of_nat (length (wordAt entry.1)),
   ProbabilityUtils.computeProbabilityForBigram NOT_A_PROBABILITY (unigramAt entry.1)
     entry.2).

Lemma predictionsLoop_ranked wordAt unigramAt inputCodePoints inputSize entries :
  writesWords wordAt unigramAt →
  inputSize < 1 ∨ (MAX_ALTERNATIVES <= length inputCodePoints)%nat →
  Forall (λ e, (1 <= length (wordAt e.1) < MAX_WORD_LENGTH)%nat
               ∧ Forall (λ c, c ≠ 0) (wordAt e.1)) entries →
  ∀ bigramBuffer r bigramCount,
    length bigramBuffer = MAX_WORD_LENGTH → wellSized MAX_RESULTS r →
    ∃ r',
      predictionsLoop MAX_RESULTS KIND_PREDICTION NOT_A_PROBABILITY MAX_ALTERNATIVES
        getCodePointsAndProbabilityAndReturnCodePointCount toBaseLowerCase
        entries inputCodePoints inputSize bigramBuffer r bigramCount
      = Some (r', bigramCount
                  + Z.of_nat (length (filter (λ e, predicted wordAt inputCodePoints
                                                     inputSize e = true) entries)))
      ∧ wellSized MAX_RESULTS r'
      ∧ kept MAX_RESULTS r'
        = insertAllRanked MAX_RESULTS
            (candidateOf wordAt unigramAt
               <$> filter (λ e, predicted wordAt inputCodePoints inputSize e = true)
                          entries)
            (kept MAX_RESULTS r).
Proof.
  intros Hwrites Hinput Hwords.
  induction Hwords as [|[bigramPos bp] rest [Hlen Hnz] _ IH];
    intros bigramBuffer r bigramCount Hbuffer Hsize.
  - exists r. simpl. split; [do 2 f_equal; lia|]. done.
  - cbn [predictionsLoop]. rewrite Hwrites. simpl in Hlen, Hnz.
    set (w := wordAt bigramPos) in *.
    set (buffer := w ++ drop (length w) bigramBuffer).
    assert (Hbuffer' : length buffer = MAX_WORD_LENGTH).
    { unfold buffer. rewrite length_app, length_drop. lia. }
    assert (Hfirst : buffer !! 0%nat = w !! 0%nat).
    { unfold buffer. rewrite lookup_app_l by lia. done. }
    assert (Hmatches :
      (if decide (inputSize < 1) then Some true
       else firstCharacter buffer inputCodePoints)
      = Some (predicted wordAt inputCodePoints inputSize (bigramPos, bp))).
    { unfold predicted. simpl. fold w. destruct (decide (inputSize < 1)) as [Hs|Hs].
      - by rewrite bool_decide_eq_true_2.
      - rewrite bool_decide_eq_false_2 by done. simpl.
        unfold checkFirstCharacter. rewrite Hfirst.
        destruct (w !! 0%nat) as [c0|] eqn:Hc0; [|apply lookup_ge_None in Hc0; lia].
        simpl. rewrite checkFirstCharacterLoop_spec by (destruct Hinput; [lia|lia]).
        rewrite drop_0. f_equal. apply bool_decide_ext.
        rewrite !Exists_exists.
        split; intros (c & Hc & Heq); exists c; (split; [done|]).
        + by rewrite Heq.
        + by injection Heq. }
    rewrite Hmatches. simpl.
    rewrite filter_cons.
    destruct (predicted wordAt inputCodePoints inputSize (bigramPos, bp)) eqn:Hp.
    + rewrite decide_True by done.
      assert (Hok : candidateOk buffer (Z.of_nat (length w))).
      { split; [lia|]. rewrite Nat2Z.id. split; [lia|].
        unfold buffer. by rewrite take_app_length. }
      destruct (addWordBigram_refines MAX_RESULTS KIND_PREDICTION buffer
                  (Z.of_nat (length w))
                  (ProbabilityUtils.computeProbabilityForBigram NOT_A_PROBABILITY
                     (unigramAt bigramPos) bp) r Hsize Hok)
        as (word' & r1 & Hadd & Hsize1 & Hkept1).
      rewrite Hadd. simpl.
      pose proof (addWordBigram_word _ _ _ _ _ _ Hadd) as Hword'.
      destruct (IH word' r1 (bigramCount + 1)) as (r' & Hloop & Hsize' & Hkept');
        [by rewrite Hword', length_insert|done|].
      exists r'. rewrite Hloop. split; [do 2 f_equal; simpl; lia|].
      split; [done|]. rewrite Hkept', Hkept1. fold w. rewrite !Nat2Z.id.
      unfold buffer. rewrite take_app_length. by rewrite (take_ge w) by lia.
    + rewrite decide_False by done.
      destruct (IH buffer r bigramCount Hbuffer' Hsize) as (r' & Hloop & Hsize' & Hkept').
      by exists r'.
Qed.

(** Without a match among fewer than [maxAlt] input code points the loop
    reads past them. *)
Lemma checkFirstCharacterLoop_reads_past first inputCodePoints i maxAlt :
  (i <= length inputCodePoints < i + maxAlt)%nat →
  Forall (λ c, toBaseLowerCase c ≠ first) (drop i inputCodePoints) →
  checkFirstCharacterLoop toBaseLowerCase first inputCodePoints i maxAlt = None.
Proof.
  revert i. induction maxAlt as [|maxAlt IH]; intros i Hlen Hno; [lia|]. simpl.
  destruct (inputCodePoints !! i) as [c|] eqn:Hc; [|done]. simpl.
  rewrite (drop_S _ _ _ Hc) in Hno. apply Forall_cons in Hno as [Hne Hno].
  rewrite decide_False by done. apply lookup_lt_Some in Hc. apply IH; [lia|done].
Qed.

Lemma firstBeaten_none p n entries :
  Forall (λ e : Z * list Z, ¬ (p > e.1 ∨ (e.1 = p ∧ (n < length e.2)%nat))) entries →
  firstBeaten p n entries = length entries.
Proof.
  induction 1 as [|e rest He _ IH]; simpl; [done|].
  rewrite decide_False by done. by rewrite IH.
Qed.

Lemma ranked_insertAllRanked candidates entries :
  ranked entries → ranked (insertAllRanked MAX_RESULTS candidates entries).
Proof.
  revert entries. induction candidates as [|c rest IH]; intros entries Hr; [done|].
  unfold insertAllRanked. simpl. apply IH. by apply ranked_take, ranked_insertRanked.
Qed.

End Predictions.

(** X8.  [isValidBigram(word0, word1)] is true exactly when [word0] has a
    positive length and is in the dictionary, its PtNode has a bigram list,
    [word1] is in the dictionary, and the list names the terminal position
    of [word1]. *)
Theorem isValidBigram_iff_listed
    (NOT_A_VALID_WORD_POS : Z) (getTerminalNodePositionOfWord : list Z → Z → bool → Z)
    (getBigramsPositionOfNode : Z → Z) (bigramsIt : Z → list (Z * Z))
    (word0 : list Z) (length0 : Z) (word1 : list Z) (length1 : Z) :
  let pos0 := getTerminalNodePositionOfWord word0 length0 false in
  let pos1 := getTerminalNodePositionOfWord word1 length1 false in
  isValidBigram NOT_A_VALID_WORD_POS getTerminalNodePositionOfWord
    getBigramsPositionOfNode bigramsIt word0 length0 word1 length1 = true
  ↔ 0 < length0
    ∧ pos0 ≠ NOT_A_VALID_WORD_POS
    ∧ getBigramsPositionOfNode pos0 ≠ Defines.NOT_A_DICT_POS
    ∧ pos1 ≠ NOT_A_VALID_WORD_POS
    ∧ pos1 ∈ (bigramsIt (getBigramsPositionOfNode pos0)).*1.
Proof.
  intros pos0 pos1. unfold isValidBigram, getBigramListPositionForWord.
  fold pos0 pos1.
  destruct (decide (0 >= length0)) as [Hl|Hl].
  { rewrite decide_True by done. split; [done|]. intros (? & _). lia. }
  destruct (decide (NOT_A_VALID_WORD_POS = pos0)) as [H0|H0].
  { rewrite decide_True by done. split; [done|]. by intros (_ & ? & _). }
  destruct (decide (Defines.NOT_A_DICT_POS = getBigramsPositionOfNode pos0)) as [Hb|Hb].
  { split; [done|]. by intros (_ & _ & ? & _). }
  destruct (decide (NOT_A_VALID_WORD_POS = pos1)) as [H1|H1].
  { split; [done|]. by intros (_ & _ & _ & ? & _). }
  rewrite isValidBigramLoop_elem. split.
  - intros Hin. repeat split; try done; [lia|congruence..].
  - by intros (_ & _ & _ & _ & ?).
Qed.

(** X9.  [getPredictions] returns 0 and leaves the three output arrays as
    they were when, searched as given and searched in lower case, the
    previous word has no positive length, is not in the dictionary, or has
    no bigram list. *)
Theorem getPredictions_without_bigrams
    (MAX_RESULTS : nat) (KIND_PREDICTION NOT_A_PROBABILITY NOT_A_VALID_WORD_POS : Z)
    (MAX_ALTERNATIVES : nat) (getTerminalNodePositionOfWord : list Z → Z → bool → Z)
    (getBigramsPositionOfNode : Z → Z)
    (getCodePointsAndProbabilityAndReturnCodePointCount : Z → Z → list Z → list Z * Z * Z)
    (bigramsIt : Z → list (Z * Z)) (toBaseLowerCase : Z → Z)
    (prevWord : list Z) (prevWordLength : Z) (inputCodePoints : list Z) (inputSize : Z)
    (bigramBuffer : list Z) (r : Results) :
  (∀ forceLowerCaseSearch,
     prevWordLength <= 0
     ∨ getTerminalNodePositionOfWord prevWord prevWordLength forceLowerCaseSearch
       = NOT_A_VALID_WORD_POS
     ∨ getBigramsPositionOfNode
         (getTerminalNodePositionOfWord prevWord prevWordLength forceLowerCaseSearch)
       = Defines.NOT_A_DICT_POS) →
  getPredictions MAX_RESULTS KIND_PREDICTION NOT_A_PROBABILITY NOT_A_VALID_WORD_POS
    MAX_ALTERNATIVES getTerminalNodePositionOfWord getBigramsPositionOfNode
    getCodePointsAndProbabilityAndReturnCodePointCount bigramsIt toBaseLowerCase
    prevWord prevWordLength inputCodePoints inputSize bigramBuffer r
  = Some (r, 0).
Proof.
  intros Hnone.
  assert (Hpos : ∀ force,
    getBigramListPositionForWord NOT_A_VALID_WORD_POS getTerminalNodePositionOfWord
      getBigramsPositionOfNode prevWord prevWordLength force = Defines.NOT_A_DICT_POS).
  { intros force. unfold getBigramListPositionForWord.
    destruct (decide (0 >= prevWordLength)); [done|].
    destruct (decide (NOT_A_VALID_WORD_POS = _)) as [|Hfound]; [done|].
    destruct (Hnone force) as [?|[?|?]]; [lia|congruence|done]. }
  unfold getPredictions. rewrite !Hpos. by rewrite !decide_True.
Qed.

(** The theorem on a dictionary that does not hold the previous word. *)
Lemma getPredictions_without_bigrams_witness :
  getPredictions 18 0 (-1) (-99) 5 (λ _ _ _, -99) (λ pos, pos + 100) fullWordPolicy
    (λ _, [(5, 3)]) (λ c, c) [99; 97; 116] 3 [] 0 (replicate 48 0) emptyResults18
  = Some (emptyResults18, 0).
Proof.
  apply (getPredictions_without_bigrams 18 0 (-1) (-99) 5 (λ _ _ _, -99)
           (λ pos, pos + 100) fullWordPolicy (λ _, [(5, 3)]) (λ c, c)
           [99; 97; 116] 3 [] 0 (replicate 48 0) emptyResults18).
  intros _. right. left. reflexivity.
Defined.

(** X10.  [getPredictions] on ranked output arrays, with a structure policy
    that writes to the buffer the word of each bigram, of 1 to
    [MAX_WORD_LENGTH - 1] code points other than 0, and with at least
    [MAX_ALTERNATIVES] input code points when [inputSize >= 1]: the call is
    defined, it adds each bigram of the previous word's list whose word is
    predicted (all of them when [inputSize < 1]) at its rank with the
    probability composed from the word's unigram probability, leaves the
    arrays ranked, and returns the number of predicted bigrams cut to
    [MAX_RESULTS]. *)
Theorem getPredictions_adds_predicted_ranked
    (MAX_RESULTS : nat) (KIND_PREDICTION NOT_A_PROBABILITY NOT_A_VALID_WORD_POS : Z)
    (MAX_ALTERNATIVES : nat) (getTerminalNodePositionOfWord : list Z → Z → bool → Z)
    (getBigramsPositionOfNode : Z → Z)
    (getCodePointsAndProbabilityAndReturnCodePointCount : Z → Z → list Z → list Z * Z * Z)
    (bigramsIt : Z → list (Z * Z)) (toBaseLowerCase : Z → Z)
    (wordAt : Z → list Z) (unigramAt : Z → Z)
    (prevWord : list Z) (prevWordLength : Z) (inputCodePoints : list Z) (inputSize : Z)
    (bigramBuffer : list Z) (r : Results) :
  let listPosition :=
    getBigramListPositionForWord NOT_A_VALID_WORD_POS getTerminalNodePositionOfWord
      getBigramsPositionOfNode prevWord prevWordLength in
  let pos := if decide (Defines.NOT_A_DICT_POS = listPosition false)
             then listPosition true else listPosition false in
  let entries := if decide (Defines.NOT_A_DICT_POS = pos) then [] else bigramsIt pos in
  let added :=
    filter (λ e, predicted MAX_ALTERNATIVES toBaseLowerCase wordAt inputCodePoints
                   inputSize e = true) entries in
  writesWords getCodePointsAndProbabilityAndReturnCodePointCount wordAt unigramAt →
  inputSize < 1 ∨ (MAX_ALTERNATIVES <= length inputCodePoints)%nat →
  Forall (λ e, (1 <= length (wordAt e.1) < MAX_WORD_LENGTH)%nat
               ∧ Forall (λ c, c ≠ 0) (wordAt e.1)) entries →
  length bigramBuffer = MAX_WORD_LENGTH →
  wellSized MAX_RESULTS r → ranked (kept MAX_RESULTS r) →
  ∃ r',
    getPredictions MAX_RESULTS KIND_PREDICTION NOT_A_PROBABILITY NOT_A_VALID_WORD_POS
      MAX_ALTERNATIVES getTerminalNodePositionOfWord getBigramsPositionOfNode
      getCodePointsAndProbabilityAndReturnCodePointCount bigramsIt toBaseLowerCase
      prevWord prevWordLength inputCodePoints inputSize bigramBuffer r
    = Some (r', Z.min (Z.of_nat (length added)) (Z.of_nat MAX_RESULTS))
    ∧ wellSized MAX_RESULTS r'
    ∧ kept MAX_RESULTS r'
      = insertAllRanked MAX_RESULTS
          (candidateOf NOT_A_PROBABILITY wordAt unigramAt <$> added)
          (kept MAX_RESULTS r)
    ∧ ranked (kept MAX_RESULTS r').
Proof.
  intros listPosition pos entries added Hwrites Hinput Hwords Hbuffer Hsize Hranked.
  unfold getPredictions. fold listPosition. fold pos.
  subst added entries. destruct (decide (Defines.NOT_A_DICT_POS = pos)) as [Hnone|Hsome].
  - exists r. simpl. split; [do 2 f_equal; lia|]. done.
  - destruct (predictionsLoop_ranked MAX_RESULTS KIND_PREDICTION NOT_A_PROBABILITY
                MAX_ALTERNATIVES getCodePointsAndProbabilityAndReturnCodePointCount
                toBaseLowerCase wordAt unigramAt inputCodePoints inputSize
                (bigramsIt pos) Hwrites Hinput Hwords bigramBuffer r 0 Hbuffer Hsize)
      as (r' & Hloop & Hsize' & Hkept).
    exists r'. rewrite Hloop. simpl. rewrite Defines.min_spec.
    split; [done|]. split; [done|]. split; [done|].
    rewrite Hkept. by apply ranked_insertAllRanked.
Qed.

(** A structure policy for the example: the bigram at position [5] is
    ["cat"] with unigram probability 100, any other is ["nap"] with 80. *)
Definition exampleWordAt (pos : Z) : list Z :=
  if decide (pos = 5) then [99; 97; 116] else [110; 97; 112].

Definition exampleUnigramAt (pos : Z) : Z := if decide (pos = 5) then 100 else 80.

Definition exampleWordPolicy (pos maxCodePointCount : Z) (out : list Z)
    : list Z * Z * Z :=
  (exampleWordAt pos ++ drop (length (exampleWordAt pos)) out, exampleUnigramAt pos,
   Z.of_nat (length (exampleWordAt pos))).

(** The theorem on the example: the previous word is at position 1, its
    list names ["cat"] and ["nap"], the user has typed [c]. *)
Lemma getPredictions_adds_predicted_ranked_witness :
  ∃ r',
    getPredictions 3 0 (-1) (-99) 2 (λ _ _ _, 1) (λ pos, pos + 100) exampleWordPolicy
      (λ _, [(5, 3); (9, 7)]) (λ c, c) [120] 1 [99; 100] 1 (replicate 48 0)
      exampleEmptyResults
    = Some (r', Z.min (Z.of_nat (length [(5, 3)])) (Z.of_nat 3))
    ∧ wellSized 3 r'
    ∧ kept 3 r'
      = insertAllRanked 3
          (candidateOf (-1) exampleWordAt exampleUnigramAt <$> [(5, 3)])
          (kept 3 exampleEmptyResults)
    ∧ ranked (kept 3 r').
Proof.
  apply (getPredictions_adds_predicted_ranked 3 0 (-1) (-99) 2 (λ _ _ _, 1)
           (λ pos, pos + 100) exampleWordPolicy (λ _, [(5, 3); (9, 7)]) (λ c, c)
           exampleWordAt exampleUnigramAt [120] 1 [99; 100] 1 (replicate 48 0)
           exampleEmptyResults).
  - intros pos buffer. reflexivity.
  - right. simpl. lia.
  - simpl. repeat (apply Forall_cons; split;
      [split; [vm_compute; lia|repeat (apply Forall_cons; split; [done|]);
                               apply Forall_nil_2]|]).
    apply Forall_nil_2.
  - reflexivity.
  - vm_compute. done.
  - change (kept 3 exampleEmptyResults) with (replicate 3 (0, @nil Z)).
    apply ranked_replicate.
Defined.

(** X11.  [checkFirstCharacter] compares the first code point of the word,
    up to base and case, with the first [MAX_ALTERNATIVES] input code
    points, whatever the number of code points the user typed: with that
    many input code points it is true exactly when one of them matches;
    with fewer and none that matches it reads past them. *)
Theorem checkFirstCharacter_first_alternatives
    (MAX_ALTERNATIVES : nat) (toBaseLowerCase : Z → Z)
    (word inputCodePoints : list Z) (first : Z) :
  word !! 0%nat = Some first →
  ((MAX_ALTERNATIVES <= length inputCodePoints)%nat →
   checkFirstCharacter MAX_ALTERNATIVES toBaseLowerCase word inputCodePoints
   = Some (bool_decide (Exists (λ c, toBaseLowerCase c = toBaseLowerCase first)
                               (take MAX_ALTERNATIVES inputCodePoints))))
  ∧ ((length inputCodePoints < MAX_ALTERNATIVES)%nat →
     Forall (λ c, toBaseLowerCase c ≠ toBaseLowerCase first) inputCodePoints →
     checkFirstCharacter MAX_ALTERNATIVES toBaseLowerCase word inputCodePoints = None).
Proof.
  intros Hfirst. unfold checkFirstCharacter. rewrite Hfirst. simpl. split.
  - intros Hlen. rewrite checkFirstCharacterLoop_spec by lia. by rewrite drop_0.
  - intros Hlen Hno. apply checkFirstCharacterLoop_reads_past; [lia|by rewrite drop_0].
Qed.

(** The theorem on the word ["cat"]. *)
Lemma checkFirstCharacter_first_alternatives_witness :
  ((2 <= length [120; 99; 7])%nat →
   checkFirstCharacter 2 (λ c, c) [99; 97; 116] [120; 99; 7]
   = Some (bool_decide (Exists (λ c, c = 99) (take 2 [120; 99; 7]))))
  ∧ ((length [120; 99; 7] < 2)%nat →
     Forall (λ c, c ≠ 99) [120; 99; 7] →
     checkFirstCharacter 2 (λ c, c) [99; 97; 116] [120; 99; 7] = None).
Proof.
  apply (checkFirstCharacter_first_alternatives 2 (λ c, c) [99; 97; 116] [120; 99; 7] 99).
  reflexivity.
Defined.

(** X12.  A candidate that beats none of the [MAX_RESULTS] kept entries (no
    lower probability, no longer word at the same probability) is dropped:
    [addWordBigram] leaves the three output arrays as they were and writes
    only [word[length] = 0]. *)
Theorem addWordBigram_drops_outranked
    (MAX_RESULTS : nat) (KIND_PREDICTION : Z)
    (word : list Z) (length probability : Z) (r : Results) :
  wellSized MAX_RESULTS r → candidateOk word length →
  Forall (λ e : Z * list Z,
            ¬ (probability > e.1
               ∨ (e.1 = probability ∧ (Z.to_nat length < List.length e.2)%nat)))
         (kept MAX_RESULTS r) →
  addWordBigram MAX_RESULTS KIND_PREDICTION word length probability r
  = Some (<[Z.to_nat length := 0]> word, r).
Proof.
  intros (Hbp & _ & _) (Hlen & Hword & _) Hnone.
  unfold addWordBigram. rewrite decide_False by lia.
  rewrite Mem.store_defined by done. simpl.
  rewrite findInsertAt_firstBeaten by lia. simpl. fold (kept MAX_RESULTS r).
  rewrite (firstBeaten_none _ _ _ Hnone), kept_length.
  by rewrite decide_True.
Qed.

(** The theorem on the arrays of the example, once they are full: ["nap"]
    at 180 comes after ["at"], ["cat"] and ["card"]. *)
Lemma addWordBigram_drops_outranked_witness :
  ∃ r, addAll 3 0 [ ([99; 97; 116; 7; 7], 3, 200);
                    ([97; 116; 7; 7; 7], 2, 200);
                    ([99; 97; 114; 100; 7], 4, 190) ] exampleEmptyResults = Some r
       ∧ addWordBigram 3 0 [110; 97; 112; 7; 7] 3 180 r
         = Some (<[Z.to_nat 3 := 0]> [110; 97; 112; 7; 7], r).
Proof.
  eexists. split; [vm_compute; reflexivity|].
  apply (addWordBigram_drops_outranked 3 0 [110; 97; 112; 7; 7] 3 180).
  - vm_compute. done.
  - candidate_ok.
  - match goal with
    | |- Forall _ ?k => let k' := eval vm_compute in k in change k with k'
    end.
    repeat (apply Forall_cons; split; [simpl; lia|]). apply Forall_nil_2.
Defined.

End BigramDictionary.

(* ===================================================================== *)
(** * The dynamic Patricia trie: buffer, readers, writers *)
(* ===================================================================== *)

(** The classes that touch the bytes of the dictionary
    ([BufferWithExtendableBuffer], [PatriciaTrieReadingUtils],
    [DynamicPatriciaTrieReadingUtils], [DynamicPatriciaTrieWritingUtils],
    [DynamicPatriciaTrieNodeReader], [DynamicPatriciaTrieReadingHelper] and
    the bigram and shortcut list policies) are not among the sources.  They
    are modelled here at the granularity of fields: the buffer is a finite
    map from positions to fields, a position addresses one field, and every
    [write...AndAdvancePosition] advances the position by one.  The layout
    of a PtNode and of a PtNode array follows the spec's file layout. *)
Module DynamicPatriciaTrie.
Import Defines.

(** ** Node flags *)

(** The flags of a PtNode, as the spec's data model lists them. *)
Record NodeFlags := mkNodeFlags {
  flagIsBlacklisted : bool;
  flagIsNotAWord : bool;
  flagIsTerminal : bool;
  flagHasShortcutTargets : bool;
  flagHasBigrams : bool;
  flagHasMultipleChars : bool;
  flagIsMoved : bool;
  flagIsDeleted : bool;
}.

#[global] Instance NodeFlags_eq_dec : EqDecision NodeFlags.
Proof. solve_decision. Defined.

(** The value [0] of [NodeFlags]. *)
Definition noFlags : NodeFlags :=
  mkNodeFlags false false false false false false false false.

(** Modelled from the spec: [PatriciaTrieReadingUtils::createAndGetFlags];
    the flags of a freshly written PtNode, neither moved nor deleted. *)
Definition createAndGetFlags (isBlacklisted isNotAWord isTerminal hasShortcutTargets
    hasBigrams hasMultipleChars : bool) (childrenPositionFieldSize : Z) : NodeFlags :=
  mkNodeFlags isBlacklisted isNotAWord isTerminal hasShortcutTargets hasBigrams
              hasMultipleChars false false.

(** Modelled from the spec: [DynamicPatriciaTrieReadingUtils::updateAndGetFlags];
    the original flags with [isMoved] and [isDeleted] set as given. *)
Definition updateAndGetFlags (originalFlags : NodeFlags) (isMoved isDeleted : bool)
    : NodeFlags :=
  mkNodeFlags (flagIsBlacklisted originalFlags) (flagIsNotAWord originalFlags)
              (flagIsTerminal originalFlags) (flagHasShortcutTargets originalFlags)
              (flagHasBigrams originalFlags) (flagHasMultipleChars originalFlags)
              isMoved isDeleted.

(** ** The buffer *)

(** The fields of the file layout. *)
Inductive Field :=
| FHeader
| FFlags (flags : NodeFlags)
| FParentOffset (offset : Z)
| FCodePoints (codePoints : list Z)
| FProbability (probability : Z)
| FChildrenPos (childrenPos : Z)
| FPtNodeArraySize (size : Z)
| FForwardLinkPos (forwardLinkPos : Z)
| FBigramEntry (targetPos : Z) (probability : Z) (hasNext : bool)
| FShortcutEntry (target : list Z) (probability : Z) (hasNext : bool).

#[global] Instance Field_eq_dec : EqDecision Field.
Proof. solve_decision. Defined.

(** Two fields of the same kind. *)
Definition sameKind (f g : Field) : bool :=
  match f, g with
  | FHeader, FHeader
  | FFlags _, FFlags _
  | FParentOffset _, FParentOffset _
  | FCodePoints _, FCodePoints _
  | FProbability _, FProbability _
  | FChildrenPos _, FChildrenPos _
  | FPtNodeArraySize _, FPtNodeArraySize _
  | FForwardLinkPos _, FForwardLinkPos _
  | FBigramEntry _ _ _, FBigramEntry _ _ _
  | FShortcutEntry _ _ _, FShortcutEntry _ _ _ => true
  | _, _ => false
  end.

(** Modelled from the spec: [BufferWithExtendableBuffer], the original
    buffer followed by the extendable tail, which has a cap.  [tail] is
    [getTailPosition()], [maxTail] the position the tail cannot pass. *)
Record Buffer := mkBuffer {
  cells : gmap Z Field;
  originalSize : Z;
  tail : Z;
  maxTail : Z;
}.

Definition getTailPosition (b : Buffer) : Z := tail b.

(** ** Writing *)

(** How a call of the writers ends: it returned a value ([true] for the
    [bool] functions), it returned [false], or a loop of the model ran out
    of fuel. *)
Inductive Outcome (A : Type) :=
| Done (a : A)
| Failed
| OutOfFuel.
Arguments Done {A} a.
Arguments Failed {A}.
Arguments OutOfFuel {A}.

(** A writer: from the buffer before to the buffer after and the outcome.
    A writer that fails keeps what it wrote before failing. *)
Definition Write (A : Type) : Type := Buffer → Buffer * Outcome A.

Definition ret {A} (a : A) : Write A := λ b, (b, Done a).

Definition bind {A B} (m : Write A) (k : A → Write B) : Write B :=
  λ b, match m b with
       | (b', Done a) => k a b'
       | (b', Failed) => (b', Failed)
       | (b', OutOfFuel) => (b', OutOfFuel)
       end.

(** [return false;] *)
Definition fail {A} : Write A := λ b, (b, Failed).

Definition outOfFuel {A} : Write A := λ b, (b, OutOfFuel).

(** The buffer as it is now. *)
Definition current : Write Buffer := λ b, (b, Done b).

Notation "'let*' x ':=' m 'in' k" := (bind m (λ x, k))
  (at level 10, x name, m at level 100, k at level 200).

(** Modelled from the spec: the write of one field.  At the tail position
    the field is appended, unless the tail is at its cap; below the tail the
    field replaces a field of the same kind (an in-place patch); any other
    write fails.  The position advances by one. *)
Definition writeField (f : Field) (pos : Z) : Write Z :=
  λ b,
    if decide (pos = tail b) then
      if decide (tail b < maxTail b) then
        (mkBuffer (<[pos := f]> (cells b)) (originalSize b) (tail b + 1) (maxTail b),
         Done (pos + 1))
      else (b, Failed)
    else
      match cells b !! pos with
      | Some g =>
          if decide (0 <= pos < tail b ∧ sameKind f g = true) then
            (mkBuffer (<[pos := f]> (cells b)) (originalSize b) (tail b) (maxTail b),
             Done (pos + 1))
          else (b, Failed)
      | None => (b, Failed)
      end.

(** [DynamicPatriciaTrieWritingUtils], one function per field. *)
Definition writeFlagsAndAdvancePosition (nodeFlags : NodeFlags) (pos : Z) : Write Z :=
  writeField (FFlags nodeFlags) pos.

Definition writeParentOffsetAndAdvancePosition (parentOffset : Z) (pos : Z) : Write Z :=
  writeField (FParentOffset parentOffset) pos.

Definition writeCodePointsAndAdvancePosition (codePoints : list Z) (codePointCount : Z)
    (pos : Z) : Write Z :=
  writeField (FCodePoints (take (Z.to_nat codePointCount) codePoints)) pos.

Definition writeProbabilityAndAdvancePosition (probability : Z) (pos : Z) : Write Z :=
  writeField (FProbability probability) pos.

Definition writeChildrenPositionAndAdvancePosition (childrenPosition : Z) (pos : Z)
    : Write Z :=
  writeField (FChildrenPos childrenPosition) pos.

Definition writeForwardLinkPositionAndAdvancePosition (forwardLinkPos : Z) (pos : Z)
    : Write Z :=
  writeField (FForwardLinkPos forwardLinkPos) pos.

Definition writePtNodeArraySizeAndAdvancePosition (arraySize : Z) (pos : Z) : Write Z :=
  writeField (FPtNodeArraySize arraySize) pos.

(** ** Reading *)

(** Reads of single fields.  A position that does not hold the field asked
    for reads as the neutral value of that field. *)
Definition getFlags (b : Buffer) (pos : Z) : NodeFlags :=
  match cells b !! pos with Some (FFlags flags) => flags | _ => noFlags end.

Definition getParentOffset (b : Buffer) (pos : Z) : Z :=
  match cells b !! pos with Some (FParentOffset offset) => offset | _ => 0 end.

Definition getCodePoints (b : Buffer) (pos : Z) : list Z :=
  match cells b !! pos with Some (FCodePoints codePoints) => codePoints | _ => [] end.

Definition readChildrenPosition (b : Buffer) (pos : Z) : Z :=
  match cells b !! pos with Some (FChildrenPos childrenPos) => childrenPos | _ => NOT_A_DICT_POS end.

Definition getPtNodeArraySize (b : Buffer) (pos : Z) : option Z :=
  match cells b !! pos with Some (FPtNodeArraySize size) => Some size | _ => None end.

Definition getForwardLinkPosition (b : Buffer) (pos : Z) : Z :=
  match cells b !! pos with Some (FForwardLinkPos link) => link | _ => NOT_A_DICT_POS end.

(** The position after the list of entries that starts at [pos]: entries
    follow each other while [hasNext] is set. *)
Fixpoint skipBigrams (fuel : nat) (b : Buffer) (pos : Z) : Z :=
  match fuel with
  | O => pos
  | S fuel' =>
      match cells b !! pos with
      | Some (FBigramEntry _ _ hasNext) =>
          if hasNext then skipBigrams fuel' b (pos + 1) else pos + 1
      | _ => pos
      end
  end.

Fixpoint skipShortcuts (fuel : nat) (b : Buffer) (pos : Z) : Z :=
  match fuel with
  | O => pos
  | S fuel' =>
      match cells b !! pos with
      | Some (FShortcutEntry _ _ hasNext) =>
          if hasNext then skipShortcuts fuel' b (pos + 1) else pos + 1
      | _ => pos
      end
  end.

(** A list that starts at [pos] ends before the tail. *)
Definition listFuel (b : Buffer) (pos : Z) : nat := Z.to_nat (tail b - pos).

Section Trie.

(** [NOT_A_PROBABILITY] and [NOT_A_VALID_WORD_POS] are declared in the
    absent [defines.h]. *)
Variable NOT_A_PROBABILITY : Z.
Variable NOT_A_VALID_WORD_POS : Z.

Definition getProbability (b : Buffer) (pos : Z) : Z :=
  match cells b !! pos with
  | Some (FProbability probability) => probability
  | _ => NOT_A_PROBABILITY
  end.

(** *** DynamicPatriciaTrieNodeReader *)

(** The members of [DynamicPatriciaTrieNodeReader] once a PtNode has been
    fetched; [mCodePoints] is the buffer the merged code points go to. *)
Record NodeReader := mkNodeReader {
  mHeadPos : Z;
  mFlags : NodeFlags;
  mParentPos : Z;
  mCodePoints : list Z;
  mProbabilityFieldPos : Z;
  mProbability : Z;
  mChildrenPosFieldPos : Z;
  mChildrenPos : Z;
  mBigramLinkedNodePos : Z;
  mShortcutPos : Z;
  mBigramPos : Z;
  mSiblingPos : Z;
}.

Definition getHeadPos := mHeadPos.
Definition isDeleted (n : NodeReader) : bool := flagIsDeleted (mFlags n).
Definition hasChildren (n : NodeReader) : bool :=
  bool_decide (mChildrenPos n ≠ NOT_A_DICT_POS).
Definition isTerminal (n : NodeReader) : bool := flagIsTerminal (mFlags n).
Definition isBlacklisted (n : NodeReader) : bool := flagIsBlacklisted (mFlags n).
Definition isNotAWord (n : NodeReader) : bool := flagIsNotAWord (mFlags n).
Definition getParentPos := mParentPos.
Definition getCodePointCount (n : NodeReader) : Z := Z.of_nat (length (mCodePoints n)).
Definition getProbabilityFieldPos := mProbabilityFieldPos.
Definition getProbabilityOfNode := mProbability.
Definition getChildrenPosFieldPos := mChildrenPosFieldPos.
Definition getChildrenPos := mChildrenPos.
Definition getBigramLinkedNodePos := mBigramLinkedNodePos.
Definition getShortcutPos := mShortcutPos.
Definition getBigramsPos := mBigramPos.
Definition getSiblingNodePos := mSiblingPos.

(** What the reader holds for a position outside of the buffer. *)
Definition invalidPtNodeInfo : NodeReader :=
  mkNodeReader NOT_A_VALID_WORD_POS noFlags NOT_A_DICT_POS [] NOT_A_DICT_POS
    NOT_A_PROBABILITY NOT_A_DICT_POS NOT_A_DICT_POS NOT_A_DICT_POS NOT_A_DICT_POS
    NOT_A_DICT_POS NOT_A_VALID_WORD_POS.

(** Modelled from the spec: the PtNode laid out at [nodePos], field after
    field: flags, parent offset, code points, the probability when the node
    is terminal, the children position, then the shortcut list and the
    bigram list when the flags announce them.  [siblingPos] and
    [bigramLinkedNodePos] are what the reader keeps from the PtNode it came
    from when it follows a move. *)
Definition readPtNode (b : Buffer) (nodePos : Z)
    (siblingPos bigramLinkedNodePos : option Z) : NodeReader :=
  let flags := getFlags b nodePos in
  let parentOffset := getParentOffset b (nodePos + 1) in
  let parentPos := if decide (parentOffset = 0) then NOT_A_DICT_POS
                   else nodePos + parentOffset in
  let codePoints := getCodePoints b (nodePos + 2) in
  let pos := nodePos + 3 in
  let probabilityFieldPos := if flagIsTerminal flags then pos else NOT_A_DICT_POS in
  let probability := if flagIsTerminal flags then getProbability b pos
                     else NOT_A_PROBABILITY in
  let pos := if flagIsTerminal flags then pos + 1 else pos in
  let childrenPosFieldPos := pos in
  let childrenPos := readChildrenPosition b pos in
  let pos := pos + 1 in
  let linked := match bigramLinkedNodePos with
                | Some linked => linked
                | None => if flagIsMoved flags then childrenPos else NOT_A_DICT_POS
                end in
  let shortcutPos := if flagHasShortcutTargets flags then pos else NOT_A_DICT_POS in
  let pos := if flagHasShortcutTargets flags then skipShortcuts (listFuel b pos) b pos
             else pos in
  let bigramPos := if flagHasBigrams flags then pos else NOT_A_DICT_POS in
  let pos := if flagHasBigrams flags then skipBigrams (listFuel b pos) b pos else pos in
  let sibling := default pos siblingPos in
  mkNodeReader nodePos flags parentPos codePoints probabilityFieldPos probability
    childrenPosFieldPos childrenPos linked shortcutPos bigramPos sibling.

(** Modelled from the spec, and from the writer in the sources:
    [fetchNodeInfoFromBuffer] reads the PtNode at [nodePos]; a PtNode marked
    as moved redirects the reader to the moved position, which
    [markNodeAsMovedAndSetPosition] stores in the parent offset field, and
    the reader goes on from there, keeping the sibling position and the
    bigram linked position of the PtNode it first read.  [fuel] bounds the
    moves followed. *)
Fixpoint fetchMovedNode (fuel : nat) (b : Buffer) (nodePos : Z)
    (siblingPos bigramLinkedNodePos : option Z) : NodeReader :=
  if decide (nodePos < 0 ∨ tail b <= nodePos) then invalidPtNodeInfo
  else
    let node := readPtNode b nodePos siblingPos bigramLinkedNodePos in
    if flagIsMoved (mFlags node) then
      match fuel with
      | O => node
      | S fuel' =>
          fetchMovedNode fuel' b (mParentPos node) (Some (mSiblingPos node))
                         (Some (mBigramLinkedNodePos node))
      end
    else node.

Definition fetchNodeInfoFromBuffer (b : Buffer) (nodePos : Z) : NodeReader :=
  fetchMovedNode (Z.to_nat (tail b)) b nodePos None None.

(** [fetchNodeInfoFromBufferAndGetNodeCodePoints]: the code points are
    those of [mCodePoints], cut to [maxCodePointCount]. *)
Definition fetchNodeInfoFromBufferAndGetNodeCodePoints (b : Buffer) (nodePos : Z)
    (maxCodePointCount : Z) : NodeReader * list Z :=
  let node := fetchNodeInfoFromBuffer b nodePos in
  (node, take (Z.to_nat maxCodePointCount) (mCodePoints node)).

(** *** DynamicPatriciaTrieReadingHelper *)

(** The reading state of the helper and the node it has fetched.  [mPos] is
    the position the next read starts from, [NOT_A_DICT_POS] at the end;
    [mNodeCount] counts the PtNodes left in the current array. *)
Record ReadingHelper := mkReadingHelper {
  mIsError : bool;
  mPos : Z;
  mNodeCount : Z;
  mPrevTotalCodePointCount : Z;
  mPosOfLastForwardLinkField : Z;
  mNodeReader : NodeReader;
}.

Definition isEnd (rh : ReadingHelper) : bool := bool_decide (mPos rh = NOT_A_DICT_POS).
Definition isError := mIsError.
Definition getNodeReader := mNodeReader.
Definition getPrevTotalCodePointCount := mPrevTotalCodePointCount.
Definition getTotalCodePointCount (rh : ReadingHelper) : Z :=
  mPrevTotalCodePointCount rh + getCodePointCount (mNodeReader rh).
Definition getMergedNodeCodePoints (rh : ReadingHelper) : list Z :=
  mCodePoints (mNodeReader rh).
Definition getPosOfLastForwardLinkField := mPosOfLastForwardLinkField.

(** [mMergedNodeCodePoints[index] == codePoint]; an index outside of the
    node's code points matches nothing. *)
Definition isMatchedCodePoint (rh : ReadingHelper) (index : Z) (codePoint : Z) : bool :=
  bool_decide (0 <= index
               ∧ mCodePoints (mNodeReader rh) !! Z.to_nat index = Some codePoint).

(** The helper stopped by an invalid dictionary. *)
Definition setError (rh : ReadingHelper) : ReadingHelper :=
  mkReadingHelper true NOT_A_DICT_POS 0 (mPrevTotalCodePointCount rh)
    (mPosOfLastForwardLinkField rh) (mNodeReader rh).

(** Modelled from the spec: a PtNode array is a size, the PtNodes in turn
    and a forward link position that, when it is a position, chains to the
    next array.  [enterNodeArray] reads the size at [pos]; an empty array is
    left at once through its forward link.  [fuel] bounds the arrays
    entered. *)
Fixpoint enterNodeArray (fuel : nat) (b : Buffer) (rh : ReadingHelper) (pos : Z)
    : ReadingHelper :=
  match getPtNodeArraySize b pos with
  | None => setError rh
  | Some size =>
      if decide (0 < size) then
        mkReadingHelper (mIsError rh) (pos + 1) size (mPrevTotalCodePointCount rh)
          (mPosOfLastForwardLinkField rh) (mNodeReader rh)
      else
        let linkFieldPos := pos + 1 in
        let forwardLinkPosition := getForwardLinkPosition b linkFieldPos in
        if decide (forwardLinkPosition = NOT_A_DICT_POS) then
          mkReadingHelper (mIsError rh) NOT_A_DICT_POS 0 (mPrevTotalCodePointCount rh)
            linkFieldPos (mNodeReader rh)
        else
          match fuel with
          | O => setError rh
          | S fuel' =>
              enterNodeArray fuel' b
                (mkReadingHelper (mIsError rh) (mPos rh) 0 (mPrevTotalCodePointCount rh)
                   linkFieldPos (mNodeReader rh))
                forwardLinkPosition
          end
  end.

Definition nextNodeArray (b : Buffer) (rh : ReadingHelper) : ReadingHelper :=
  enterNodeArray (Z.to_nat (tail b)) b rh (mPos rh).

(** The forward link field at [mPos] is read and remembered; a link that is
    a position leads to the next array, any other ends the reading. *)
Definition followForwardLink (b : Buffer) (rh : ReadingHelper) : ReadingHelper :=
  let linkFieldPos := mPos rh in
  let forwardLinkPosition := getForwardLinkPosition b linkFieldPos in
  let rh := mkReadingHelper (mIsError rh) (mPos rh) (mNodeCount rh)
              (mPrevTotalCodePointCount rh) linkFieldPos (mNodeReader rh) in
  if decide (forwardLinkPosition = NOT_A_DICT_POS) then
    mkReadingHelper (mIsError rh) NOT_A_DICT_POS 0 (mPrevTotalCodePointCount rh)
      linkFieldPos (mNodeReader rh)
  else enterNodeArray (Z.to_nat (tail b)) b rh forwardLinkPosition.

(** The PtNode at [mPos] becomes the current node; [mPos] moves to its
    sibling. *)
Definition fetchNodeInfo (b : Buffer) (rh : ReadingHelper) : ReadingHelper :=
  let node := fetchNodeInfoFromBuffer b (mPos rh) in
  mkReadingHelper (mIsError rh) (getSiblingNodePos node) (mNodeCount rh - 1)
    (mPrevTotalCodePointCount rh) (mPosOfLastForwardLinkField rh) node.

Definition fetchUnlessEnd (b : Buffer) (rh : ReadingHelper) : ReadingHelper :=
  if isEnd rh then rh else fetchNodeInfo b rh.

Definition initWithNodeArrayPos (b : Buffer) (nodeArrayPos : Z) : ReadingHelper :=
  let rh := mkReadingHelper false nodeArrayPos 0 0 NOT_A_DICT_POS invalidPtNodeInfo in
  if decide (nodeArrayPos = NOT_A_DICT_POS) then rh
  else fetchUnlessEnd b (nextNodeArray b rh).

Definition readNextSiblingNode (b : Buffer) (rh : ReadingHelper) : ReadingHelper :=
  let rh := if decide (mNodeCount rh <= 0) then followForwardLink b rh else rh in
  fetchUnlessEnd b rh.

Definition readChildNode (b : Buffer) (rh : ReadingHelper) : ReadingHelper :=
  if hasChildren (mNodeReader rh) then
    let rh := mkReadingHelper (mIsError rh) (getChildrenPos (mNodeReader rh)) 0
                (mPrevTotalCodePointCount rh + getCodePointCount (mNodeReader rh))
                NOT_A_DICT_POS (mNodeReader rh) in
    fetchUnlessEnd b (nextNodeArray b rh)
  else
    mkReadingHelper (mIsError rh) NOT_A_DICT_POS (mNodeCount rh)
      (mPrevTotalCodePointCount rh) (mPosOfLastForwardLinkField rh) (mNodeReader rh).

(** *** The bigram and shortcut list policies *)

(** Modelled from the spec: a bigram entry is a target position, a
    probability and [hasNext]; the entries of a list are adjacent. *)
Definition writeNewBigramEntry (bigramPos probability : Z) (writingPos : Z) : Write Z :=
  writeField (FBigramEntry bigramPos probability false) writingPos.

(** [copyAllBigrams]: the entries from [fromPos] on are written from [toPos]
    on; the result is the position after the copy and the count. *)
Fixpoint copyAllBigramsLoop (fuel : nat) (fromPos toPos bigramCount : Z) : Write (Z * Z) :=
  match fuel with
  | O => outOfFuel
  | S fuel' =>
      let* b := current in
      match cells b !! fromPos with
      | Some (FBigramEntry target probability hasNext) =>
          let* toPos := writeField (FBigramEntry target probability hasNext) toPos in
          if hasNext then copyAllBigramsLoop fuel' (fromPos + 1) toPos (bigramCount + 1)
          else ret (toPos, bigramCount + 1)
      | _ => fail
      end
  end.

Definition copyAllBigrams (fromPos toPos : Z) : Write (Z * Z) :=
  let* b := current in
  copyAllBigramsLoop (S (listFuel b fromPos)) fromPos toPos 0.

Fixpoint copyAllShortcutsLoop (fuel : nat) (fromPos toPos : Z) : Write Z :=
  match fuel with
  | O => outOfFuel
  | S fuel' =>
      let* b := current in
      match cells b !! fromPos with
      | Some (FShortcutEntry target probability hasNext) =>
          let* toPos := writeField (FShortcutEntry target probability hasNext) toPos in
          if hasNext then copyAllShortcutsLoop fuel' (fromPos + 1) toPos
          else ret toPos
      | _ => fail
      end
  end.

Definition copyAllShortcutsAndReturnIfSucceededOrNot (fromPos toPos : Z) : Write Z :=
  let* b := current in
  copyAllShortcutsLoop (S (listFuel b fromPos)) fromPos toPos.

(** [addNewBigramEntryToBigramList]: the entry for the target is updated
    when the list has one; otherwise the last entry gets [hasNext] and the
    new entry is written after it. *)
Fixpoint addNewBigramEntryLoop (fuel : nat) (bigramPos probability : Z) (pos : Z)
    : Write unit :=
  match fuel with
  | O => outOfFuel
  | S fuel' =>
      let* b := current in
      match cells b !! pos with
      | Some (FBigramEntry target oldProbability hasNext) =>
          if decide (target = bigramPos) then
            let* _ := writeField (FBigramEntry target probability hasNext) pos in
            ret tt
          else if hasNext then addNewBigramEntryLoop fuel' bigramPos probability (pos + 1)
          else
            let* next := writeField (FBigramEntry target oldProbability true) pos in
            let* _ := writeNewBigramEntry bigramPos probability next in
            ret tt
      | _ => fail
      end
  end.

Definition addNewBigramEntryToBigramList (bigramPos probability : Z) (bigramListPos : Z)
    : Write unit :=
  let* b := current in
  addNewBigramEntryLoop (S (listFuel b bigramListPos)) bigramPos probability bigramListPos.

(** [removeBigram]: the entry for the target is marked as deleted, which is
    modelled by a target that is not a word position; [false] when the list
    has no such entry. *)
Fixpoint removeBigramLoop (fuel : nat) (pos targetBigramPos : Z) : Write unit :=
  match fuel with
  | O => outOfFuel
  | S fuel' =>
      let* b := current in
      match cells b !! pos with
      | Some (FBigramEntry target probability hasNext) =>
          if decide (target = targetBigramPos) then
            let* _ := writeField (FBigramEntry NOT_A_VALID_WORD_POS probability hasNext) pos in
            ret tt
          else if hasNext then removeBigramLoop fuel' (pos + 1) targetBigramPos
          else fail
      | _ => fail
      end
  end.

Definition removeBigram (bigramListPos targetBigramPos : Z) : Write unit :=
  let* b := current in
  removeBigramLoop (S (listFuel b bigramListPos)) bigramListPos targetBigramPos.

(** *** DynamicPatriciaTrieWritingHelper
        (dynamic_patricia_trie_writing_helper.cpp) *)

Definition CHILDREN_POSITION_FIELD_SIZE : Z := 3.

(** The loop of [markNodeAsMovedAndSetPosition] over the children (l.
    172-183): each child gets the offset to the moved position as its parent
    offset. *)
Fixpoint updateChildrenParentLoop (fuel : nat) (rh : ReadingHelper) (movedPos : Z)
    : Write unit :=
  if isEnd rh then ret tt
  else
    match fuel with
    | O => outOfFuel
    | S fuel' =>
        let childPtNodeWrittenPos := getHeadPos (getNodeReader rh) in
        let parentOffset := movedPos - childPtNodeWrittenPos in
        let parentOffsetFieldPos := childPtNodeWrittenPos + 1 in
        let* _ := writeParentOffsetAndAdvancePosition parentOffset parentOffsetFieldPos in
        let* b := current in
        updateChildrenParentLoop fuel' (readNextSiblingNode b rh) movedPos
    end.

(** [markNodeAsMovedAndSetPosition] (l. 134-186). *)
Definition markNodeAsMovedAndSetPosition (fuel : nat) (originalNode : NodeReader)
    (movedPos bigramLinkedNodePos : Z) : Write unit :=
  let* b := current in
  let pos := getHeadPos originalNode in
  (* Read original flags *)
  let originalFlags := getFlags b pos in
  let updatedFlags := updateAndGetFlags originalFlags true false in
  let writingPos := getHeadPos originalNode in
  (* Update flags. *)
  let* writingPos := writeFlagsAndAdvancePosition updatedFlags writingPos in
  (* Update moved position, which is stored in the parent offset field. *)
  let movedPosOffset := movedPos - getHeadPos originalNode in
  let* writingPos := writeParentOffsetAndAdvancePosition movedPosOffset writingPos in
  (* Update bigram linked node position, which is stored in the children
     position field. *)
  let childrenPosFieldPos := getChildrenPosFieldPos originalNode in
  let* _ := writeChildrenPositionAndAdvancePosition bigramLinkedNodePos
              childrenPosFieldPos in
  if hasChildren originalNode then
    (* Update children's parent position. *)
    let* b := current in
    updateChildrenParentLoop fuel (initWithNodeArrayPos b (getChildrenPos originalNode))
                             movedPos
  else ret tt.

(** [writePtNodeWithFullInfoToBuffer] (l. 189-253); the result is
    [*writingPos] after the call. *)
Definition writePtNodeWithFullInfoToBuffer (isBlacklisted isNotAWord : bool)
    (parentPos : Z) (codePoints : list Z) (codePointCount probability childrenPos
     originalBigramListPos originalShortcutListPos : Z) (writingPos : Z) : Write Z :=
  let nodePos := writingPos in
  (* Write dummy flags. *)
  let* writingPos := writeFlagsAndAdvancePosition noFlags writingPos in
  (* Calculate a parent offset and write the offset. *)
  let parentOffset := if decide (parentPos ≠ NOT_A_DICT_POS) then parentPos - nodePos
                      else NOT_A_DICT_POS in
  let* writingPos := writeParentOffsetAndAdvancePosition parentOffset writingPos in
  (* Write code points *)
  let* writingPos := writeCodePointsAndAdvancePosition codePoints codePointCount
                       writingPos in
  (* Write probability when the probability is a valid probability. *)
  let* writingPos :=
    (if decide (probability ≠ NOT_A_PROBABILITY)
     then writeProbabilityAndAdvancePosition probability writingPos
     else ret writingPos) in
  (* Write children position *)
  let* writingPos := writeChildrenPositionAndAdvancePosition childrenPos writingPos in
  (* Copy shortcut list when the originalShortcutListPos is valid. *)
  let* writingPos :=
    (if decide (originalShortcutListPos ≠ NOT_A_DICT_POS)
     then copyAllShortcutsAndReturnIfSucceededOrNot originalShortcutListPos writingPos
     else ret writingPos) in
  (* Copy bigram list when the originalBigramListPos is valid. *)
  let* copied :=
    (if decide (originalBigramListPos ≠ NOT_A_DICT_POS)
     then copyAllBigrams originalBigramListPos writingPos
     else ret (writingPos, 0)) in
  let writingPos := copied.1 in
  let bigramCount := copied.2 in
  (* Create node flags and write them. *)
  let nodeFlags :=
    createAndGetFlags isBlacklisted isNotAWord
      (bool_decide (probability ≠ NOT_A_PROBABILITY))
      (bool_decide (originalShortcutListPos ≠ NOT_A_DICT_POS))
      (bool_decide (bigramCount > 0)) (bool_decide (codePointCount > 1))
      CHILDREN_POSITION_FIELD_SIZE in
  let flagsFieldPos := nodePos in
  let* _ := writeFlagsAndAdvancePosition nodeFlags flagsFieldPos in
  ret writingPos.

(** [writePtNodeToBuffer] (l. 255-262). *)
Definition writePtNodeToBuffer (parentPos : Z) (codePoints : list Z)
    (codePointCount probability : Z) (writingPos : Z) : Write Z :=
  writePtNodeWithFullInfoToBuffer false false parentPos codePoints codePointCount
    probability NOT_A_DICT_POS NOT_A_DICT_POS NOT_A_DICT_POS writingPos.

(** [writePtNodeToBufferByCopyingPtNodeInfo] (l. 264-272). *)
Definition writePtNodeToBufferByCopyingPtNodeInfo (originalNode : NodeReader)
    (parentPos : Z) (codePoints : list Z) (codePointCount probability : Z)
    (writingPos : Z) : Write Z :=
  writePtNodeWithFullInfoToBuffer (isBlacklisted originalNode) (isNotAWord originalNode)
    parentPos codePoints codePointCount probability (getChildrenPos originalNode)
    (getBigramsPos originalNode) (getShortcutPos originalNode) writingPos.

(** [createNewPtNodeArrayWithAChildPtNode] (l. 323-340). *)
Definition createNewPtNodeArrayWithAChildPtNode (parentPtNodePos : Z)
    (nodeCodePoints : list Z) (nodeCodePointCount probability : Z) : Write unit :=
  let* b := current in
  let writingPos := getTailPosition b in
  let* writingPos := writePtNodeArraySizeAndAdvancePosition 1 writingPos in
  let* writingPos := writePtNodeToBuffer parentPtNodePos nodeCodePoints
                       nodeCodePointCount probability writingPos in
  let* _ := writeForwardLinkPositionAndAdvancePosition NOT_A_DICT_POS writingPos in
  ret tt.

(** [createAndInsertNodeIntoPtNodeArray] (l. 274-284). *)
Definition createAndInsertNodeIntoPtNodeArray (parentPos : Z) (nodeCodePoints : list Z)
    (nodeCodePointCount probability : Z) (forwardLinkFieldPos : Z) : Write unit :=
  let* b := current in
  let newPtNodeArrayPos := getTailPosition b in
  let* _ := writeForwardLinkPositionAndAdvancePosition newPtNodeArrayPos
              forwardLinkFieldPos in
  createNewPtNodeArrayWithAChildPtNode parentPos nodeCodePoints nodeCodePointCount
    probability.

(** [setPtNodeProbability] (l. 286-308). *)
Definition setPtNodeProbability (fuel : nat) (originalPtNode : NodeReader)
    (probability : Z) (codePoints : list Z) : Write unit :=
  if isTerminal originalPtNode then
    (* Overwrites the probability. *)
    let probabilityFieldPos := getProbabilityFieldPos originalPtNode in
    let* _ := writeProbabilityAndAdvancePosition probability probabilityFieldPos in
    ret tt
  else
    (* Make the node terminal and write the probability. *)
    let* b := current in
    let movedPos := getTailPosition b in
    let* _ := markNodeAsMovedAndSetPosition fuel originalPtNode movedPos movedPos in
    let* _ := writePtNodeToBufferByCopyingPtNodeInfo originalPtNode
                (getParentPos originalPtNode) codePoints
                (getCodePointCount originalPtNode) probability movedPos in
    ret tt.

(** [createChildrenPtNodeArrayAndAChildPtNode] (l. 310-321). *)
Definition createChildrenPtNodeArrayAndAChildPtNode (parentNode : NodeReader)
    (probability : Z) (codePoints : list Z) (codePointCount : Z) : Write unit :=
  let* b := current in
  let newPtNodeArrayPos := getTailPosition b in
  let childrenPosFieldPos := getChildrenPosFieldPos parentNode in
  let* _ := writeChildrenPositionAndAdvancePosition newPtNodeArrayPos
              childrenPosFieldPos in
  createNewPtNodeArrayWithAChildPtNode (getHeadPos parentNode) codePoints
    codePointCount probability.

(** [reallocatePtNodeAndAddNewPtNodes] (l. 343-407). *)
Definition reallocatePtNodeAndAddNewPtNodes (fuel : nat) (reallocatingPtNode : NodeReader)
    (reallocatingPtNodeCodePoints : list Z) (overlappingCodePointCount : Z)
    (probabilityOfNewPtNode : Z) (newNodeCodePoints : list Z)
    (newNodeCodePointCount : Z) : Write unit :=
  let addsExtraChild := bool_decide (newNodeCodePointCount > overlappingCodePointCount) in
  let* b := current in
  let firstPartOfReallocatedPtNodePos := getTailPosition b in
  let writingPos := firstPartOfReallocatedPtNodePos in
  (* Write the 1st part of the reallocating node. *)
  let newProbability := if addsExtraChild then NOT_A_PROBABILITY
                        else probabilityOfNewPtNode in
  let* writingPos := writePtNodeToBuffer (getParentPos reallocatingPtNode)
                       reallocatingPtNodeCodePoints overlappingCodePointCount
                       newProbability writingPos in
  let actualChildrenPos := writingPos in
  (* Create new children PtNode array. *)
  let newPtNodeCount := if addsExtraChild then 2 else 1 in
  let* writingPos := writePtNodeArraySizeAndAdvancePosition newPtNodeCount writingPos in
  (* Write the 2nd part of the reallocating node. *)
  let secondPartOfReallocatedPtNodePos := writingPos in
  let* writingPos :=
    writePtNodeToBufferByCopyingPtNodeInfo reallocatingPtNode
      firstPartOfReallocatedPtNodePos
      (drop (Z.to_nat overlappingCodePointCount) reallocatingPtNodeCodePoints)
      (getCodePointCount reallocatingPtNode - overlappingCodePointCount)
      (getProbabilityOfNode reallocatingPtNode) writingPos in
  let* writingPos :=
    (if addsExtraChild then
       writePtNodeToBuffer firstPartOfReallocatedPtNodePos
         (drop (Z.to_nat overlappingCodePointCount) newNodeCodePoints)
         (newNodeCodePointCount - overlappingCodePointCount) probabilityOfNewPtNode
         writingPos
     else ret writingPos) in
  let* _ := writeForwardLinkPositionAndAdvancePosition NOT_A_DICT_POS writingPos in
  (* Update original reallocatingPtNode as moved. *)
  let* _ := markNodeAsMovedAndSetPosition fuel reallocatingPtNode
              firstPartOfReallocatedPtNodePos secondPartOfReallocatedPtNodePos in
  (* Load node info. Information of the 1st part will be fetched. *)
  let* b := current in
  let nodeReader := fetchNodeInfoFromBuffer b firstPartOfReallocatedPtNodePos in
  (* Update children position. *)
  let childrenPosFieldPos := getChildrenPosFieldPos nodeReader in
  let* _ := writeChildrenPositionAndAdvancePosition actualChildrenPos
              childrenPosFieldPos in
  ret tt.

(** [wordCodePoints[index]]; the source reads inside the word. *)
Definition codePointAt (wordCodePoints : list Z) (index : Z) : Z :=
  default 0 (wordCodePoints !! Z.to_nat index).

(** The inner loop of [addUnigramWord] (l. 47-56): the first [j] from
    [j] on, below [nodeCodePointCount], at which the word is exhausted or
    differs from the node. *)
Fixpoint findSplit (fuel : nat) (rh : ReadingHelper) (wordCodePoints : list Z)
    (codePointCount matchedCodePointCount j : Z) : option Z :=
  match fuel with
  | O => None
  | S fuel' =>
      let nextIndex := matchedCodePointCount + j in
      if bool_decide (nextIndex >= codePointCount)
         || negb (isMatchedCodePoint rh j (codePointAt wordCodePoints
                                             (matchedCodePointCount + j)))
      then Some j
      else findSplit fuel' rh wordCodePoints codePointCount matchedCodePointCount (j + 1)
  end.

(** The [while] loop of [addUnigramWord] and what follows it (l. 35-79). *)
Fixpoint addUnigramWordLoop (fuel : nat) (moveFuel : nat) (rh : ReadingHelper)
    (wordCodePoints : list Z) (codePointCount probability : Z) (parentPos : Z)
    : Write unit :=
  if isEnd rh then
    if isError rh then
      (* The dictionary is invalid. *)
      fail
    else
      let pos := getPosOfLastForwardLinkField rh in
      createAndInsertNodeIntoPtNodeArray parentPos
        (drop (Z.to_nat (getPrevTotalCodePointCount rh)) wordCodePoints)
        (codePointCount - getPrevTotalCodePointCount rh) probability pos
  else
    match fuel with
    | O => outOfFuel
    | S fuel' =>
        let matchedCodePointCount := getPrevTotalCodePointCount rh in
        if negb (isMatchedCodePoint rh 0 (codePointAt wordCodePoints matchedCodePointCount))
        then
          (* The first code point is different from target code point. *)
          let* b := current in
          addUnigramWordLoop fuel' moveFuel (readNextSiblingNode b rh) wordCodePoints
            codePointCount probability parentPos
        else
          (* Check following merged node code points. *)
          let nodeReader := getNodeReader rh in
          let nodeCodePointCount := getCodePointCount nodeReader in
          match findSplit (Z.to_nat (nodeCodePointCount - 1)) rh wordCodePoints
                  codePointCount matchedCodePointCount 1 with
          | Some j =>
              reallocatePtNodeAndAddNewPtNodes moveFuel nodeReader
                (getMergedNodeCodePoints rh) j probability
                (drop (Z.to_nat matchedCodePointCount) wordCodePoints)
                (codePointCount - matchedCodePointCount)
          | None =>
              (* All characters are matched. *)
              if decide (codePointCount = getTotalCodePointCount rh) then
                setPtNodeProbability moveFuel nodeReader probability
                  (getMergedNodeCodePoints rh)
              else if negb (hasChildren nodeReader) then
                createChildrenPtNodeArrayAndAChildPtNode nodeReader probability
                  (drop (Z.to_nat (getTotalCodePointCount rh)) wordCodePoints)
                  (codePointCount - getTotalCodePointCount rh)
              else
                (* Advance to the children nodes. *)
                let parentPos := getHeadPos nodeReader in
                let* b := current in
                addUnigramWordLoop fuel' moveFuel (readChildNode b rh) wordCodePoints
                  codePointCount probability parentPos
          end
    end.

(** [DynamicPatriciaTrieWritingHelper::addUnigramWord] (l. 31-80). *)
Definition addUnigramWordOfHelper (fuel : nat) (readingHelper : ReadingHelper)
    (wordCodePoints : list Z) (codePointCount probability : Z) : Write unit :=
  addUnigramWordLoop fuel fuel readingHelper wordCodePoints codePointCount probability
    NOT_A_DICT_POS.

(** [DynamicPatriciaTrieWritingHelper::addBigramWords] (l. 82-122). *)
Definition addBigramWordsOfHelper (fuel : nat) (word0Pos word1Pos probability : Z)
    : Write unit :=
  let* b := current in
  let fetched := fetchNodeInfoFromBufferAndGetNodeCodePoints b word0Pos MAX_WORD_LENGTH in
  let nodeReader := fetched.1 in
  let mMergedNodeCodePoints := fetched.2 in
  (* Move node to add bigram entry. *)
  let newNodePos := getTailPosition b in
  let* _ := markNodeAsMovedAndSetPosition fuel nodeReader newNodePos newNodePos in
  let writingPos := newNodePos in
  (* Write a new PtNode using original PtNode's info to the tail. *)
  let* writingPos :=
    writePtNodeToBufferByCopyingPtNodeInfo nodeReader (getParentPos nodeReader)
      mMergedNodeCodePoints (getCodePointCount nodeReader)
      (getProbabilityOfNode nodeReader) writingPos in
  let* b := current in
  let nodeReader := fetchNodeInfoFromBuffer b newNodePos in
  if decide (getBigramsPos nodeReader ≠ NOT_A_DICT_POS) then
    (* Insert a new bigram entry into the existing bigram list. *)
    let bigramListPos := getBigramsPos nodeReader in
    addNewBigramEntryToBigramList word1Pos probability bigramListPos
  else
    (* The PtNode doesn't have a bigram list. *)
    let* writingPos := writeNewBigramEntry word1Pos probability writingPos in
    (* Then, Mark as the PtNode having bigram list in the flags. *)
    let updatedFlags :=
      createAndGetFlags (isBlacklisted nodeReader) (isNotAWord nodeReader)
        (bool_decide (getProbabilityOfNode nodeReader ≠ NOT_A_PROBABILITY))
        (bool_decide (getShortcutPos nodeReader ≠ NOT_A_DICT_POS)) true
        (bool_decide (getCodePointCount nodeReader > 1))
        CHILDREN_POSITION_FIELD_SIZE in
    let writingPos := newNodePos in
    (* Write updated flags into the moved PtNode's flags field. *)
    let* _ := writeFlagsAndAdvancePosition updatedFlags writingPos in
    ret tt.

(** [DynamicPatriciaTrieWritingHelper::removeBigramWords] (l. 125-132). *)
Definition removeBigramWordsOfHelper (word0Pos word1Pos : Z) : Write unit :=
  let* b := current in
  let nodeReader := fetchNodeInfoFromBuffer b word0Pos in
  if decide (getBigramsPos nodeReader = NOT_A_DICT_POS) then fail
  else removeBigram (getBigramsPos nodeReader) word1Pos.

(** *** DynamicPatriciaTriePolicy (dynamic_patricia_trie_policy.cpp) *)

(** The policy: whether [mBuffer] is updatable, and the root position the
    header policy gives. *)
Record Policy := mkPolicy {
  isUpdatable : bool;
  getRootPosition : Z;
}.

(** The loop of [getTerminalNodePositionOfWord] (l. 115-121): whether a code
    point of the node from [j] on differs from the word. *)
Fixpoint mismatchFrom (fuel : nat) (rh : ReadingHelper) (searchCodePoints : list Z)
    (matchedCodePointCount j : Z) : bool :=
  match fuel with
  | O => false
  | S fuel' =>
      if negb (isMatchedCodePoint rh j (codePointAt searchCodePoints
                                          (matchedCodePointCount + j)))
      then true
      else mismatchFrom fuel' rh searchCodePoints matchedCodePointCount (j + 1)
  end.

(** The [while] loop of [getTerminalNodePositionOfWord] (l. 103-135). *)
Fixpoint lookupLoop (fuel : nat) (b : Buffer) (rh : ReadingHelper)
    (searchCodePoints : list Z) (length : Z) : Outcome Z :=
  if isEnd rh then Done NOT_A_VALID_WORD_POS
  else
    match fuel with
    | O => OutOfFuel
    | S fuel' =>
        let nodeReader := getNodeReader rh in
        let matchedCodePointCount := getPrevTotalCodePointCount rh in
        if bool_decide (getTotalCodePointCount rh > length)
           || negb (isMatchedCodePoint rh 0
                      (codePointAt searchCodePoints matchedCodePointCount))
        then
          (* Skip this node and read the next sibling node. *)
          lookupLoop fuel' b (readNextSiblingNode b rh) searchCodePoints length
        else
          (* Check following merged node code points. *)
          let nodeCodePointCount := getCodePointCount nodeReader in
          if mismatchFrom (Z.to_nat (nodeCodePointCount - 1)) rh searchCodePoints
               matchedCodePointCount 1
          then Done NOT_A_VALID_WORD_POS
          else if decide (length = getTotalCodePointCount rh) then
            (* Terminal position is found. *)
            Done (getHeadPos nodeReader)
          else if negb (hasChildren nodeReader) then Done NOT_A_VALID_WORD_POS
          else
            (* Advance to the children nodes. *)
            lookupLoop fuel' b (readChildNode b rh) searchCodePoints length
    end.

(** [getTerminalNodePositionOfWord] (l. 93-136); [toLowerCase] is
    [CharUtils::toLowerCase], not among the sources. *)
Definition getTerminalNodePositionOfWord (toLowerCase : Z → Z) (fuel : nat)
    (policy : Policy) (b : Buffer) (inWord : list Z) (length : Z)
    (forceLowerCaseSearch : bool) : Outcome Z :=
  let searchCodePoints :=
    (λ c, if forceLowerCaseSearch then toLowerCase c else c)
      <$> take (Z.to_nat length) inWord in
  lookupLoop fuel b (initWithNodeArrayPos b (getRootPosition policy)) searchCodePoints
             length.

(** [getUnigramProbabilityOfPtNode] (l. 151-162). *)
Definition getUnigramProbabilityOfPtNode (b : Buffer) (nodePos : Z) : Z :=
  if decide (nodePos = NOT_A_VALID_WORD_POS) then NOT_A_PROBABILITY
  else
    let nodeReader := fetchNodeInfoFromBuffer b nodePos in
    if isDeleted nodeReader || isBlacklisted nodeReader || isNotAWord nodeReader
    then NOT_A_PROBABILITY
    else PolicyProbability.getProbability NOT_A_PROBABILITY
           (getProbabilityOfNode nodeReader) NOT_A_PROBABILITY.

(** [getBigramsPositionOfNode] (l. 177-188). *)
Definition getBigramsPositionOfNode (b : Buffer) (nodePos : Z) : Z :=
  if decide (nodePos = NOT_A_VALID_WORD_POS) then NOT_A_DICT_POS
  else
    let nodeReader := fetchNodeInfoFromBuffer b nodePos in
    if isDeleted nodeReader then NOT_A_DICT_POS else getBigramsPos nodeReader.

(** [DynamicPatriciaTriePolicy::addUnigramWord] (l. 190-202). *)
Definition addUnigramWord (fuel : nat) (policy : Policy) (word : list Z)
    (length probability : Z) : Write unit :=
  if negb (isUpdatable policy) then fail
  else
    let* b := current in
    let readingHelper := initWithNodeArrayPos b (getRootPosition policy) in
    addUnigramWordOfHelper fuel readingHelper word length probability.

(** A lookup inside a writer; the buffer is only read. *)
Definition lookupWord (fuel : nat) (policy : Policy) (word : list Z) (length : Z)
    : Write Z :=
  λ b, (b, getTerminalNodePositionOfWord (λ c, c) fuel policy b word length false).

(** [DynamicPatriciaTriePolicy::addBigramWords] (l. 204-223). *)
Definition addBigramWords (fuel : nat) (policy : Policy) (word0 : list Z) (length0 : Z)
    (word1 : list Z) (length1 : Z) (probability : Z) : Write unit :=
  if negb (isUpdatable policy) then fail
  else
    let* word0Pos := lookupWord fuel policy word0 length0 in
    if decide (word0Pos = NOT_A_VALID_WORD_POS) then fail
    else
      let* word1Pos := lookupWord fuel policy word1 length1 in
      if decide (word1Pos = NOT_A_VALID_WORD_POS) then fail
      else addBigramWordsOfHelper fuel word0Pos word1Pos probability.

(** [DynamicPatriciaTriePolicy::removeBigramWords] (l. 225-244). *)
Definition removeBigramWords (fuel : nat) (policy : Policy) (word0 : list Z)
    (length0 : Z) (word1 : list Z) (length1 : Z) : Write unit :=
  if negb (isUpdatable policy) then fail
  else
    let* word0Pos := lookupWord fuel policy word0 length0 in
    if decide (word0Pos = NOT_A_VALID_WORD_POS) then fail
    else
      let* word1Pos := lookupWord fuel policy word1 length1 in
      if decide (word1Pos = NOT_A_VALID_WORD_POS) then fail
      else removeBigramWordsOfHelper word0Pos word1Pos.

(** What [createAndGetAllChildNodes] passes to [pushLeavingChild] for one
    child; [dic_node_vector.h] is not among the sources, a pushed child is
    kept as the arguments of the call. *)
Record LeavingChild := mkLeavingChild {
  childPos : Z;
  childChildrenPos : Z;
  childProbability : Z;
  childIsTerminal : bool;
  childHasChildren : bool;
  childIsBlacklistedOrNotAWord : bool;
  childCodePointCount : Z;
  childCodePoints : list Z;
}.

(** [childDicNodes->pushLeavingChild(dicNode, ...)] for the current node of
    the helper (l. 41-45). *)
Definition leavingChildOf (rh : ReadingHelper) : LeavingChild :=
  let nodeReader := getNodeReader rh in
  mkLeavingChild (getHeadPos nodeReader) (getChildrenPos nodeReader)
    (getProbabilityOfNode nodeReader)
    (isTerminal nodeReader && negb (isDeleted nodeReader))
    (hasChildren nodeReader)
    (isBlacklisted nodeReader || isNotAWord nodeReader)
    (getCodePointCount nodeReader) (getMergedNodeCodePoints rh).

(** The [while] loop of [createAndGetAllChildNodes] (l. 40-47). *)
Fixpoint pushAllChildren (fuel : nat) (b : Buffer) (rh : ReadingHelper)
    (childDicNodes : list LeavingChild) : Outcome (list LeavingChild) :=
  if isEnd rh then Done childDicNodes
  else
    match fuel with
    | O => OutOfFuel
    | S fuel' =>
        pushAllChildren fuel' b (readNextSiblingNode b rh)
                        (childDicNodes ++ [leavingChildOf rh])
    end.

(** [createAndGetAllChildNodes] (l. 31-48); of the parent [DicNode] the
    function reads [hasChildren()] and [getChildrenPos()]. *)
Definition createAndGetAllChildNodes (fuel : nat) (b : Buffer)
    (dicNodeHasChildren : bool) (dicNodeChildrenPos : Z)
    (childDicNodes : list LeavingChild) : Outcome (list LeavingChild) :=
  if negb dicNodeHasChildren then Done childDicNodes
  else pushAllChildren fuel b (initWithNodeArrayPos b dicNodeChildrenPos) childDicNodes.

End Trie.

(** ** Reasoning about writers *)

Lemma bind_Done {A B} (m : Write A) (k : A → Write B) b b' r :
  bind m k b = (b', Done r) →
  ∃ b1 a, m b = (b1, Done a) ∧ k a b1 = (b', Done r).
Proof.
  unfold bind. destruct (m b) as [b1 [a| |]]; [|done|done]. intros H. by exists b1, a.
Qed.

Lemma writeField_Done f pos b b' r :
  writeField f pos b = (b', Done r) →
  r = pos + 1
  ∧ b' = mkBuffer (<[pos := f]> (cells b)) (originalSize b)
                  (if decide (pos = tail b) then tail b + 1 else tail b) (maxTail b)
  ∧ (pos = tail b ∧ tail b < maxTail b
     ∨ pos ≠ tail b ∧ 0 <= pos < tail b
       ∧ ∃ g, cells b !! pos = Some g ∧ sameKind f g = true).
Proof.
  unfold writeField. destruct (decide (pos = tail b)) as [->|Hne].
  - destruct (decide (tail b < maxTail b)); [|done].
    intros [= <- <-]. split; [done|]. split; [done|]. by left.
  - destruct (cells b !! pos) as [g|] eqn:Hg; [|done].
    destruct (decide (0 <= pos < tail b ∧ sameKind f g = true)) as [[Hr Hk]|]; [|done].
    intros [= <- <-]. split; [done|]. split; [done|]. right. eauto.
Qed.

(** Whatever a write does, it touches the one position, never lowers the
    tail, and keeps the sizes. *)
Lemma writeField_any f pos b :
  let b' := (writeField f pos b).1 in
  (∀ q, q ≠ pos → cells b' !! q = cells b !! q)
  ∧ tail b <= tail b'
  ∧ originalSize b' = originalSize b ∧ maxTail b' = maxTail b
  ∧ (cells b' !! pos = cells b !! pos ∨ cells b' !! pos = Some f).
Proof.
  unfold writeField. destruct (decide (pos = tail b)) as [->|Hne].
  - destruct (decide (tail b < maxTail b)); simpl.
    + repeat split; try lia. * intros q Hq. by rewrite lookup_insert_ne.
      * right. by rewrite lookup_insert_eq.
    + repeat split; try lia; auto.
  - destruct (cells b !! pos) as [g|] eqn:Hg; simpl.
    + destruct (decide _); simpl.
      * repeat split; try lia. -- intros q Hq. by rewrite lookup_insert_ne.
        -- right. by rewrite lookup_insert_eq.
      * repeat split; try lia; auto.
    + repeat split; try lia; auto.
Qed.



(** [keeps I Q m]: the writer [m] maintains the invariant [I] of the
    buffer, whatever its outcome, and a value it returns satisfies [Q]. *)
Definition keeps {A} (I : Buffer → Prop) (Q : A → Prop) (m : Write A) : Prop :=
  ∀ b, I b → I (m b).1 ∧ ∀ a, (m b).2 = Done a → Q a.

Lemma keeps_ret {A} (I : Buffer → Prop) (Q : A → Prop) a : Q a → keeps I Q (ret a).
Proof. intros Ha b Hb. split; [done|]. by intros ? [= <-]. Qed.

Lemma keeps_fail {A} (I : Buffer → Prop) (Q : A → Prop) : keeps I Q fail.
Proof. intros b Hb. split; [done|]. by intros ?. Qed.

Lemma keeps_outOfFuel {A} (I : Buffer → Prop) (Q : A → Prop) : keeps I Q outOfFuel.
Proof. intros b Hb. split; [done|]. by intros ?. Qed.

Lemma keeps_current (I : Buffer → Prop) : keeps I I current.
Proof. intros b Hb. split; [done|]. by intros ? [= <-]. Qed.

Lemma keeps_bind {A B} (I : Buffer → Prop) (P : A → Prop) (Q : B → Prop)
    (m : Write A) (k : A → Write B) :
  keeps I P m → (∀ a, P a → keeps I Q (k a)) → keeps I Q (bind m k).
Proof.
  intros Hm Hk b Hb. destruct (Hm b Hb) as [Hb1 Ha].
  unfold bind. destruct (m b) as [b1 [a| |]]; simpl in *.
  - apply (Hk a); [by apply Ha|done].
  - split; [done|]. by intros ?.
  - split; [done|]. by intros ?.
Qed.

Lemma keeps_weaken {A} (I : Buffer → Prop) (P Q : A → Prop) (m : Write A) :
  keeps I P m → (∀ a, P a → Q a) → keeps I Q m.
Proof. intros Hm HPQ b Hb. destruct (Hm b Hb). split; [done|]. auto. Qed.

(** ** Writers that leave a region of the buffer alone *)

Section Preserved.

(** [T] is a position at or below the tail.  [P] is a property of the
    buffer that no write at or above [T] disturbs, and that the write of the
    offset to [movedPos] into a parent offset field does not disturb
    either. *)
Variables T movedPos : Z.
Variable P : Buffer → Prop.
Hypothesis P_above :
  ∀ f pos b, T <= pos → T <= tail b → P b → P (writeField f pos b).1.
Hypothesis P_parent :
  ∀ c b, T <= tail b → P b →
         P (writeField (FParentOffset (movedPos - c)) (c + 1) b).1.

Variable NOT_A_PROBABILITY : Z.
Variable NOT_A_VALID_WORD_POS : Z.

(** The invariant: the tail stays at or above [T], and [P] stays once it
    holds. *)
Definition Inv (holds : bool) (b : Buffer) : Prop :=
  T <= tail b ∧ (holds = true → P b).

Lemma keeps_writeField_above holds f pos :
  T <= pos → keeps (Inv holds) (λ r, T <= r) (writeField f pos).
Proof.
  intros Hpos b [Htail Hm].
  destruct (writeField_any f pos b) as (_ & Hmono & _).
  split.
  - split; [lia|]. intros Hh. by apply P_above; [| |apply Hm].
  - intros a Ha. destruct (writeField f pos b) as [b' r] eqn:Hw. simpl in Ha. subst r.
    apply writeField_Done in Hw as (-> & _). lia.
Qed.

Lemma keeps_writeParentOffset holds c :
  keeps (Inv holds) (λ _, True)
        (writeParentOffsetAndAdvancePosition (movedPos - c) (c + 1)).
Proof.
  intros b [Htail Hm]. unfold writeParentOffsetAndAdvancePosition.
  destruct (writeField_any (FParentOffset (movedPos - c)) (c + 1) b) as (_ & Hmono & _).
  split; [|done]. split; [lia|]. intros Hh. by apply P_parent; [|apply Hm].
Qed.

(** A write anywhere keeps the tail at or above [T]. *)
Lemma keeps_writeField_tail f pos :
  keeps (Inv false) (λ _ : Z, True) (writeField f pos).
Proof.
  intros b [Ht _]. destruct (writeField_any f pos b) as (_ & Hmono & _).
  split; [|done]. split; [lia|done].
Qed.

(** One step of a proof of [keeps]: a return, a failure, or a bind whose
    first part is the current buffer or a write at or above [T]. *)
Ltac keeps_step :=
  first
    [ apply keeps_ret
    | apply keeps_fail
    | apply keeps_outOfFuel
    | eapply keeps_bind; [apply keeps_current|intros ? ?; cbv beta in *]
    | eapply keeps_bind; [apply keeps_writeField_above; lia|intros ? ?; cbv beta in *] ].

Lemma keeps_copyAllBigramsLoop holds fuel fromPos toPos bigramCount :
  T <= toPos →
  keeps (Inv holds) (λ r : Z * Z, T <= r.1)
        (copyAllBigramsLoop fuel fromPos toPos bigramCount).
Proof.
  revert fromPos toPos bigramCount.
  induction fuel as [|fuel IH]; intros fromPos toPos bigramCount Hto; simpl.
  - keeps_step.
  - keeps_step. destruct (cells a !! fromPos) as [[]|]; try keeps_step.
    destruct hasNext; [by apply IH|]. by apply keeps_ret.
Qed.

Lemma keeps_copyAllShortcutsLoop holds fuel fromPos toPos :
  T <= toPos →
  keeps (Inv holds) (λ r : Z, T <= r) (copyAllShortcutsLoop fuel fromPos toPos).
Proof.
  revert fromPos toPos.
  induction fuel as [|fuel IH]; intros fromPos toPos Hto; simpl.
  - keeps_step.
  - keeps_step. destruct (cells a !! fromPos) as [[]|]; try keeps_step.
    destruct hasNext; [by apply IH|]. by apply keeps_ret.
Qed.


Lemma keeps_writePtNodeWithFullInfoToBuffer holds isBlacklisted isNotAWord parentPos
    codePoints codePointCount probability childrenPos originalBigramListPos
    originalShortcutListPos writingPos :
  T <= writingPos →
  keeps (Inv holds) (λ r : Z, T <= r)
        (writePtNodeWithFullInfoToBuffer NOT_A_PROBABILITY isBlacklisted isNotAWord
           parentPos codePoints codePointCount probability childrenPos
           originalBigramListPos originalShortcutListPos writingPos).
Proof.
  intros Hpos. unfold writePtNodeWithFullInfoToBuffer,
    writeFlagsAndAdvancePosition, writeParentOffsetAndAdvancePosition,
    writeCodePointsAndAdvancePosition, writeProbabilityAndAdvancePosition,
    writeChildrenPositionAndAdvancePosition.
  do 3 keeps_step.
  eapply keeps_bind with (P := λ r, T <= r).
  { destruct (decide (probability ≠ NOT_A_PROBABILITY));
      [apply keeps_writeField_above; lia|apply keeps_ret; lia]. }
  intros ? ?. keeps_step.
  eapply keeps_bind with (P := λ r, T <= r).
  { destruct (decide (originalShortcutListPos ≠ NOT_A_DICT_POS));
      [|apply keeps_ret; lia].
    unfold copyAllShortcutsAndReturnIfSucceededOrNot. keeps_step.
    by apply keeps_copyAllShortcutsLoop. }
  intros ? ?.
  eapply keeps_bind with (P := λ r : Z * Z, T <= r.1).
  { destruct (decide (originalBigramListPos ≠ NOT_A_DICT_POS));
      [|apply keeps_ret; simpl; lia].
    unfold copyAllBigrams. keeps_step. by apply keeps_copyAllBigramsLoop. }
  intros ? ?. keeps_step. apply keeps_ret. lia.
Qed.

Lemma keeps_updateChildrenParentLoop holds fuel rh :
  keeps (Inv holds) (λ _ : unit, True)
        (updateChildrenParentLoop NOT_A_PROBABILITY NOT_A_VALID_WORD_POS fuel rh movedPos).
Proof.
  revert rh. induction fuel as [|fuel IH]; intros rh; simpl.
  - destruct (isEnd rh); [by apply keeps_ret|apply keeps_outOfFuel].
  - destruct (isEnd rh); [by apply keeps_ret|].
    eapply keeps_bind; [apply keeps_writeParentOffset|intros ? _].
    keeps_step. apply IH.
Qed.

(** [markNodeAsMovedAndSetPosition] keeps the tail at or above [T]. *)
Lemma keeps_markNodeAsMovedAndSetPosition fuel n linked :
  keeps (Inv false) (λ _ : unit, True)
        (markNodeAsMovedAndSetPosition NOT_A_PROBABILITY NOT_A_VALID_WORD_POS fuel n
           movedPos linked).
Proof.
  unfold markNodeAsMovedAndSetPosition, writeFlagsAndAdvancePosition,
    writeParentOffsetAndAdvancePosition, writeChildrenPositionAndAdvancePosition.
  keeps_step.
  eapply keeps_bind; [apply keeps_writeField_tail|intros ? _].
  eapply keeps_bind; [apply keeps_writeField_tail|intros ? _].
  eapply keeps_bind; [apply keeps_writeField_tail|intros ? _].
  destruct (hasChildren n); [|by apply keeps_ret].
  keeps_step. apply keeps_updateChildrenParentLoop.
Qed.

End Preserved.

(** ** What marking a node as moved leaves in the buffer *)

Section Marking.

(** [T] is the tail before the mutation, [h] and [cf] are the head and the
    children position field of the PtNode that is marked, below [T]. *)
Variables T h cf movedPos linked : Z.
Hypothesis h_below : h + 1 < T.
Hypothesis cf_below : cf < T.

(** The three fields [markNodeAsMovedAndSetPosition] writes. *)
Definition markedFields (b : Buffer) : Prop :=
  (∃ flags, cells b !! h = Some (FFlags flags) ∧ flagIsMoved flags = true)
  ∧ cells b !! (h + 1) = Some (FParentOffset (movedPos - h))
  ∧ cells b !! cf = Some (FChildrenPos linked).


(** A field below the tail survives the write of a field of another
    kind, wherever that write goes. *)
Lemma writeField_other_kind f pos b q g :
  q < tail b → cells b !! q = Some g → sameKind f g = false →
  cells (writeField f pos b).1 !! q = Some g.
Proof.
  intros Hq Hg Hno.
  destruct (writeField_any f pos b) as (Hother & _).
  destruct (decide (q = pos)) as [->|Hne]; [|by rewrite Hother].
  destruct (writeField f pos b) as [b' r] eqn:Hw. simpl.
  destruct r as [r| |].
  - apply writeField_Done in Hw as (_ & _ & Hcase).
    destruct Hcase as [[Heq _]|(_ & _ & g' & Hg' & Hk)]; [lia|].
    rewrite Hg in Hg'. injection Hg' as <-. congruence.
  - unfold writeField in Hw. repeat case_match; by simplify_eq.
  - unfold writeField in Hw. repeat case_match; by simplify_eq.
Qed.

Lemma markedFields_parent c b :
  T <= tail b → markedFields b →
  markedFields (writeField (FParentOffset (movedPos - c)) (c + 1) b).1.
Proof.
  intros Htail ((fl & Hfl & Hmoved) & Hpo & Hcp).
  destruct (writeField_any (FParentOffset (movedPos - c)) (c + 1) b)
    as (Hother & _ & _ & _ & Hat).
  repeat split.
  - exists fl. split; [|done]. apply writeField_other_kind; [lia|done|done].
  - destruct (decide (h + 1 = c + 1)) as [Heq|Hne]; [|by rewrite Hother].
    assert (c = h) by lia. subst c. destruct Hat as [-> | ->]; done.
  - apply writeField_other_kind; [lia|done|done].
Qed.

Variable NOT_A_PROBABILITY : Z.
Variable NOT_A_VALID_WORD_POS : Z.

(** When the marking succeeds on the node at [h] it leaves the three
    fields. *)
Lemma markNodeAsMovedAndSetPosition_marks fuel n b b' :
  getHeadPos n = h → getChildrenPosFieldPos n = cf →
  T <= tail b →
  markNodeAsMovedAndSetPosition NOT_A_PROBABILITY NOT_A_VALID_WORD_POS fuel n
    movedPos linked b = (b', Done tt) →
  Inv T markedFields true b' ∧ 0 <= h.
Proof.
  intros Hh Hcf Htail. unfold markNodeAsMovedAndSetPosition.
  rewrite Hh, Hcf.
  unfold writeFlagsAndAdvancePosition, writeParentOffsetAndAdvancePosition,
    writeChildrenPositionAndAdvancePosition.
  intros (? & b0 & [= <- <-] & Hrun)%bind_Done.
  apply bind_Done in Hrun as (b1 & p1 & Hflags & Hrun).
  apply bind_Done in Hrun as (b2 & p2 & Hoffset & Hrun).
  apply bind_Done in Hrun as (b3 & p3 & Hchildren & Hrun).
  apply writeField_Done in Hflags as (-> & -> & Hc1).
  apply writeField_Done in Hoffset as (_ & -> & Hc2). simpl in *.
  apply writeField_Done in Hchildren as (_ & -> & Hc3). simpl in *.
  assert (Hh1 : h ≠ tail b) by lia.
  rewrite (decide_False _ _ Hh1) in *.
  assert (Hh2 : h + 1 ≠ tail b) by lia.
  rewrite (decide_False _ _ Hh2) in *.
  assert (Hcf2 : cf ≠ tail b) by lia.
  rewrite (decide_False _ _ Hcf2) in *.
  destruct Hc3 as [[? _]|(_ & _ & g & Hg & Hkind)]; [lia|].
  assert (Hh0 : 0 <= h) by (destruct Hc1 as [[? _]|(_ & ? & _)]; lia).
  split; [|done].
  assert (Hcfh : cf ≠ h).
  { intros ->. rewrite lookup_insert_ne, lookup_insert_eq in Hg by lia.
    by injection Hg as <-. }
  assert (Hcfh1 : cf ≠ h + 1).
  { intros ->. rewrite lookup_insert_eq in Hg. by injection Hg as <-. }
  set (b3 := mkBuffer _ _ _ _) in Hrun.
  assert (Hmarked : Inv T markedFields true b3).
  { split; [simpl; lia|]. intros _. unfold b3, markedFields. simpl. repeat split.
    - eexists. rewrite lookup_insert_ne, lookup_insert_ne, lookup_insert_eq by lia.
      done.
    - rewrite lookup_insert_ne, lookup_insert_eq by lia. done.
    - rewrite lookup_insert_eq. done. }
  destruct (hasChildren n).
  - apply bind_Done in Hrun as (? & ? & [= <- <-] & Hrun).
    pose proof (keeps_updateChildrenParentLoop T movedPos markedFields
                  markedFields_parent NOT_A_PROBABILITY NOT_A_VALID_WORD_POS true fuel
                  (initWithNodeArrayPos NOT_A_PROBABILITY NOT_A_VALID_WORD_POS b3
                     (getChildrenPos n)) b3 Hmarked) as [Hinv _].
    by rewrite Hrun in Hinv.
  - by injection Hrun as <-.
Qed.

End Marking.

(** ** The positions a fetched PtNode reports *)

Lemma skipShortcuts_ge fuel b pos : pos <= skipShortcuts fuel b pos.
Proof.
  revert pos. induction fuel as [|fuel IH]; intros pos; simpl; [lia|].
  destruct (cells b !! pos) as [[]|]; try lia.
  destruct hasNext; [|lia]. specialize (IH (pos + 1)). lia.
Qed.

Lemma skipBigrams_ge fuel b pos : pos <= skipBigrams fuel b pos.
Proof.
  revert pos. induction fuel as [|fuel IH]; intros pos; simpl; [lia|].
  destruct (cells b !! pos) as [[]|]; try lia.
  destruct hasNext; [|lia]. specialize (IH (pos + 1)). lia.
Qed.

Section Mutations.

Variable NOT_A_PROBABILITY : Z.
Variable NOT_A_VALID_WORD_POS : Z.

Abbreviation fetch := (fetchNodeInfoFromBuffer NOT_A_PROBABILITY NOT_A_VALID_WORD_POS).





Lemma keeps_run {A} (I : Buffer → Prop) (Q : A → Prop) (m : Write A) b b' r :
  keeps I Q m → I b → m b = (b', r) → I b' ∧ ∀ a, r = Done a → Q a.
Proof. intros Hk Hb Hrun. destruct (Hk b Hb) as [H1 H2]. by rewrite Hrun in H1, H2. Qed.

Lemma fetch_not_moved_inside b p fl :
  cells b !! p = Some (FFlags fl) → flagIsMoved fl = false → 0 <= p < tail b →
  fetch b p = readPtNode NOT_A_PROBABILITY b p None None.
Proof.
  intros Hfl Hmoved Hin. unfold fetchNodeInfoFromBuffer.
  assert (Hflags : getFlags b p = fl) by (unfold getFlags; by rewrite Hfl).
  destruct (Z.to_nat (tail b)); simpl; rewrite decide_False by lia;
    unfold readPtNode; simpl; rewrite Hflags, Hmoved; done.
Qed.















End Mutations.

(** ** Mutations that return false *)

Section Failures.

Variable NOT_A_PROBABILITY : Z.
Variable NOT_A_VALID_WORD_POS : Z.

(** A single write that fails writes nothing. *)
Lemma writeField_Failed f pos b b' :
  writeField f pos b = (b', Failed) → b' = b.
Proof.
  unfold writeField.
  destruct (decide (pos = tail b)).
  - destruct (decide (tail b < maxTail b)); [done|by intros [= <-]].
  - destruct (cells b !! pos) as [g|]; [|by intros [= <-]].
    destruct (decide _); [done|by intros [= <-]].
Qed.

Lemma removeBigramLoop_Failed fuel pos targetBigramPos b b' :
  removeBigramLoop NOT_A_VALID_WORD_POS fuel pos targetBigramPos b = (b', Failed) →
  b' = b.
Proof.
  revert pos. induction fuel as [|fuel IH]; intros pos; simpl; [done|].
  unfold bind at 1, current at 1.
  destruct (cells b !! pos) as [[]|]; try (by intros [= <-]).
  destruct (decide _).
  - unfold bind, ret.
    destruct (writeField _ pos b) as [b1 [r| |]] eqn:Hwrite; [done| |done].
    intros [= <-]. by apply writeField_Failed in Hwrite.
  - destruct hasNext; [apply IH|by intros [= <-]].
Qed.

(** The three mutations of the policy, with the arguments of the call. *)
Inductive PolicyMutation :=
| CallAddUnigramWord (word : list Z) (length probability : Z)
| CallAddBigramWords (word0 : list Z) (length0 : Z) (word1 : list Z) (length1 : Z)
    (probability : Z)
| CallRemoveBigramWords (word0 : list Z) (length0 : Z) (word1 : list Z) (length1 : Z).

Definition runPolicyMutation (fuel : nat) (policy : Policy) (m : PolicyMutation)
    : Write unit :=
  match m with
  | CallAddUnigramWord word length probability =>
      addUnigramWord NOT_A_PROBABILITY NOT_A_VALID_WORD_POS fuel policy word length
        probability
  | CallAddBigramWords word0 length0 word1 length1 probability =>
      addBigramWords NOT_A_PROBABILITY NOT_A_VALID_WORD_POS fuel policy word0 length0
        word1 length1 probability
  | CallRemoveBigramWords word0 length0 word1 length1 =>
      removeBigramWords NOT_A_PROBABILITY NOT_A_VALID_WORD_POS fuel policy word0 length0
        word1 length1
  end.

End Failures.

(** ** The children of a PtNode *)

Section Children.

Variable NOT_A_PROBABILITY : Z.
Variable NOT_A_VALID_WORD_POS : Z.

Abbreviation fetchNode := (fetchNodeInfoFromBuffer NOT_A_PROBABILITY NOT_A_VALID_WORD_POS).
Abbreviation nextSibling := (readNextSiblingNode NOT_A_PROBABILITY NOT_A_VALID_WORD_POS).
Abbreviation pushAll := (pushAllChildren NOT_A_PROBABILITY NOT_A_VALID_WORD_POS).

(** The position after the fields of the PtNode at [p]. *)
Definition endOfPtNode (b : Buffer) (p : Z) : Z :=
  mSiblingPos (readPtNode NOT_A_PROBABILITY b p None None).

(** The PtNode the reader lands on from the PtNode at [p]: that PtNode when
    it is not moved, else where its move leads; a move leads to a later
    position of the buffer. *)
Inductive landsAt (b : Buffer) : Z → Z → Prop :=
| lands_here p :
    0 <= p < tail b → flagIsMoved (getFlags b p) = false → landsAt b p p
| lands_moved p q :
    0 <= p < tail b → flagIsMoved (getFlags b p) = true →
    0 < getParentOffset b (p + 1) →
    landsAt b (p + getParentOffset b (p + 1)) q →
    landsAt b p q.

(** [count] PtNodes serialized in turn from [pos] on, up to the forward link
    field at [linkFieldPos]. *)
Fixpoint ptNodes (b : Buffer) (pos : Z) (ps : list Z) (linkFieldPos : Z) : Prop :=
  match ps with
  | [] => linkFieldPos = pos
  | p :: ps' =>
      p = pos ∧ (∃ q, landsAt b p q) ∧ ptNodes b (endOfPtNode b p) ps' linkFieldPos
  end.

(** The PtNode array at [pos] and the arrays its forward link chains to,
    each array after the one before: the positions of their PtNodes. *)
Inductive nodeArrays (b : Buffer) : Z → list Z → Prop :=
| nodeArrays_last pos ps linkFieldPos :
    0 < pos < tail b →
    getPtNodeArraySize b pos = Some (Z.of_nat (length ps)) →
    ptNodes b (pos + 1) ps linkFieldPos →
    getForwardLinkPosition b linkFieldPos = NOT_A_DICT_POS →
    nodeArrays b pos ps
| nodeArrays_link pos ps linkFieldPos rest :
    0 < pos < tail b →
    getPtNodeArraySize b pos = Some (Z.of_nat (length ps)) →
    ptNodes b (pos + 1) ps linkFieldPos →
    getForwardLinkPosition b linkFieldPos ≠ NOT_A_DICT_POS →
    pos < getForwardLinkPosition b linkFieldPos →
    nodeArrays b (getForwardLinkPosition b linkFieldPos) rest →
    nodeArrays b pos (ps ++ rest).

(** The child pushed for the PtNode at [p]: of the helper,
    [pushLeavingChild] is passed the node reader only. *)
Definition childAt (b : Buffer) (p : Z) : LeavingChild :=
  leavingChildOf (mkReadingHelper false NOT_A_DICT_POS 0 0 NOT_A_DICT_POS (fetchNode b p)).

Lemma leavingChildOf_node rh b p :
  mNodeReader rh = fetchNode b p → leavingChildOf rh = childAt b p.
Proof.
  intros Hnode. unfold childAt, leavingChildOf, getNodeReader, getMergedNodeCodePoints.
  simpl. by rewrite Hnode.
Qed.

Lemma endOfPtNode_gt b p : p < endOfPtNode b p.
Proof.
  unfold endOfPtNode, readPtNode. cbn [mSiblingPos default from_option id].
  destruct (flagIsTerminal _), (flagHasShortcutTargets _), (flagHasBigrams _);
    repeat match goal with
           | |- context [skipBigrams ?f b ?x] =>
               lazymatch goal with
               | _ : x <= skipBigrams f b x |- _ => fail
               | _ => pose proof (skipBigrams_ge f b x)
               end
           | |- context [skipShortcuts ?f b ?x] =>
               lazymatch goal with
               | _ : x <= skipShortcuts f b x |- _ => fail
               | _ => pose proof (skipShortcuts_ge f b x)
               end
           end; lia.
Qed.

Lemma readPtNode_sibling b p s l :
  mSiblingPos (readPtNode NOT_A_PROBABILITY b p s l) = default (endOfPtNode b p) s.
Proof. by destruct s. Qed.

Lemma landsAt_inside b p q : landsAt b p q → 0 <= p < tail b.
Proof. by destruct 1. Qed.

(** The reader follows the moves: it holds the PtNode it lands on, and
    keeps the sibling position of the PtNode it started from. *)
Lemma fetchMovedNode_lands b p q :
  landsAt b p q →
  ∀ fuel s l, tail b - p <= Z.of_nat fuel →
    let n := fetchMovedNode NOT_A_PROBABILITY NOT_A_VALID_WORD_POS fuel b p s l in
    mHeadPos n = q ∧ mFlags n = getFlags b q
    ∧ mSiblingPos n = default (endOfPtNode b p) s.
Proof.
  induction 1 as [p Hin Hmoved|p q Hin Hmoved Hoffset Hlands IH];
    intros fuel s l Hfuel; (destruct fuel as [|fuel]; [lia|]);
    cbn [fetchMovedNode]; rewrite decide_False by lia; cbv zeta;
    change (mFlags (readPtNode NOT_A_PROBABILITY b p s l)) with (getFlags b p);
    rewrite Hmoved.
  - split; [done|]. split; [done|]. apply readPtNode_sibling.
  - change (mParentPos (readPtNode NOT_A_PROBABILITY b p s l))
      with (if decide (getParentOffset b (p + 1) = 0) then NOT_A_DICT_POS
            else p + getParentOffset b (p + 1)).
    rewrite decide_False by lia.
    destruct (IH fuel (Some (mSiblingPos (readPtNode NOT_A_PROBABILITY b p s l)))
                (Some (mBigramLinkedNodePos (readPtNode NOT_A_PROBABILITY b p s l)))
                ltac:(lia)) as (Hhead & Hflags & Hsibling).
    split; [done|]. split; [done|].
    rewrite Hsibling. exact (readPtNode_sibling b p s l).
Qed.

Lemma fetchNode_lands b p q :
  landsAt b p q →
  getHeadPos (fetchNode b p) = q
  ∧ mFlags (fetchNode b p) = getFlags b q
  ∧ getSiblingNodePos (fetchNode b p) = endOfPtNode b p.
Proof.
  intros Hlands. pose proof (landsAt_inside _ _ _ Hlands).
  apply (fetchMovedNode_lands b p q Hlands (Z.to_nat (tail b)) None None). lia.
Qed.

(** The helper holds the PtNode at [p], with [count] PtNodes of the array
    left to read. *)
Definition atPtNode (b : Buffer) (rh : ReadingHelper) (p : Z) (count : nat) : Prop :=
  mNodeReader rh = fetchNode b p ∧ mPos rh = endOfPtNode b p
  ∧ mNodeCount rh = Z.of_nat count.

Lemma fetchNodeInfo_at b rh p count :
  (∃ q, landsAt b p q) → mPos rh = p → mNodeCount rh = Z.of_nat (S count) →
  atPtNode b (fetchNodeInfo NOT_A_PROBABILITY NOT_A_VALID_WORD_POS b rh) p count.
Proof.
  intros [q Hlands] Hpos Hcount. unfold atPtNode, fetchNodeInfo. simpl.
  rewrite Hpos, Hcount.
  destruct (fetchNode_lands b p q Hlands) as (_ & _ & Hsibling).
  split; [done|]. split; [done|lia].
Qed.

(** What the loop pushes from the forward link field at [linkFieldPos]
    on. *)
Definition pushesAfter (b : Buffer) (linkFieldPos : Z) (rest : list Z) : Prop :=
  ∀ rh acc fuel,
    mPos rh = linkFieldPos → mNodeCount rh <= 0 → (length rest ≤ fuel)%nat →
    pushAll fuel b (nextSibling b rh) acc = Done (acc ++ (childAt b <$> rest)).

(** What the loop pushes once the helper has entered the array at
    [pos]. *)
Definition pushesFrom (b : Buffer) (pos : Z) (all : list Z) : Prop :=
  ∀ fuelOfArrays rh acc fuel,
    tail b - pos <= Z.of_nat fuelOfArrays → (length all ≤ fuel)%nat →
    pushAll fuel b
      (fetchUnlessEnd NOT_A_PROBABILITY NOT_A_VALID_WORD_POS b
         (enterNodeArray fuelOfArrays b rh pos)) acc
    = Done (acc ++ (childAt b <$> all)).

Lemma isEnd_false rh : mPos rh ≠ NOT_A_DICT_POS → isEnd rh = false.
Proof. intros H. unfold isEnd. by apply bool_decide_eq_false_2. Qed.

Lemma pushAll_end fuel b rh acc : mPos rh = NOT_A_DICT_POS → pushAll fuel b rh acc = Done acc.
Proof.
  intros H. assert (Hend : isEnd rh = true) by (unfold isEnd; by apply bool_decide_eq_true_2).
  destruct fuel; simpl; by rewrite Hend.
Qed.

Lemma fetchUnlessEnd_end b rh :
  mPos rh = NOT_A_DICT_POS →
  fetchUnlessEnd NOT_A_PROBABILITY NOT_A_VALID_WORD_POS b rh = rh.
Proof.
  intros H. unfold fetchUnlessEnd.
  assert (Hend : isEnd rh = true) by (unfold isEnd; by apply bool_decide_eq_true_2).
  by rewrite Hend.
Qed.

(** The PtNodes of one array, from the PtNode the helper holds. *)
Lemma pushAll_array b linkFieldPos rest :
  pushesAfter b linkFieldPos rest →
  ∀ ps p rh acc fuel,
    atPtNode b rh p (length ps) → (∃ q, landsAt b p q) →
    ptNodes b (endOfPtNode b p) ps linkFieldPos →
    (S (length (ps ++ rest)) ≤ fuel)%nat →
    pushAll fuel b rh acc = Done (acc ++ childAt b p :: (childAt b <$> ps ++ rest)).
Proof.
  intros Hafter ps. induction ps as [|p' ps IH];
    intros p rh acc fuel (Hnode & Hpos & Hcount) [q Hq] Hlayout Hfuel;
    (destruct fuel as [|fuel]; [simpl in Hfuel; lia|]);
    pose proof (landsAt_inside _ _ _ Hq) as Hin;
    pose proof (endOfPtNode_gt b p) as Hend;
    assert (Hnotend : isEnd rh = false)
      by (apply isEnd_false; rewrite Hpos; unfold NOT_A_DICT_POS; lia);
    cbn [pushAllChildren]; rewrite Hnotend, (leavingChildOf_node rh b p Hnode).
  - simpl in Hlayout. subst linkFieldPos.
    rewrite Hafter; [|done|simpl in Hcount; lia|simpl in Hfuel; lia].
    by rewrite <- app_assoc.
  - destruct Hlayout as (-> & Hq' & Hlayout).
    unfold readNextSiblingNode.
    rewrite decide_False by (rewrite Hcount; simpl length; lia).
    unfold fetchUnlessEnd. rewrite Hnotend.
    rewrite (IH (endOfPtNode b p)); [by rewrite <- app_assoc| |done|done|simpl in *; lia].
    apply fetchNodeInfo_at; [done|done|by rewrite Hcount].
Qed.

Lemma pushesAfter_end b linkFieldPos :
  getForwardLinkPosition b linkFieldPos = NOT_A_DICT_POS → pushesAfter b linkFieldPos [].
Proof.
  intros Hlink rh acc fuel Hpos Hcount _.
  unfold readNextSiblingNode. rewrite decide_True by done.
  unfold followForwardLink. rewrite Hpos, Hlink. rewrite decide_True by done.
  rewrite fetchUnlessEnd_end by done. rewrite pushAll_end by done.
  by rewrite app_nil_r.
Qed.

Lemma pushesAfter_link b linkFieldPos rest :
  getForwardLinkPosition b linkFieldPos ≠ NOT_A_DICT_POS →
  0 < getForwardLinkPosition b linkFieldPos →
  pushesFrom b (getForwardLinkPosition b linkFieldPos) rest →
  pushesAfter b linkFieldPos rest.
Proof.
  intros Hlink Hpositive Hfrom rh acc fuel Hpos Hcount Hfuel.
  unfold readNextSiblingNode. rewrite decide_True by done.
  unfold followForwardLink. rewrite Hpos. rewrite decide_False by done.
  apply Hfrom; [lia|done].
Qed.

(** Entering an array whose layout is known. *)
Lemma pushesFrom_array b pos ps linkFieldPos rest :
  0 < pos < tail b →
  getPtNodeArraySize b pos = Some (Z.of_nat (length ps)) →
  ptNodes b (pos + 1) ps linkFieldPos →
  (getForwardLinkPosition b linkFieldPos = NOT_A_DICT_POS ∧ rest = []
   ∨ getForwardLinkPosition b linkFieldPos ≠ NOT_A_DICT_POS
     ∧ pos < getForwardLinkPosition b linkFieldPos
     ∧ pushesFrom b (getForwardLinkPosition b linkFieldPos) rest) →
  pushesFrom b pos (ps ++ rest).
Proof.
  intros Hin Hsize Hlayout Hrest fuelOfArrays rh acc fuel HfuelOfArrays Hfuel.
  destruct fuelOfArrays as [|fuelOfArrays]; [lia|].
  cbn [enterNodeArray]. rewrite Hsize.
  destruct ps as [|p ps].
  - (* an empty array is left through its forward link *)
    simpl in Hlayout. subst linkFieldPos. simpl length.
    rewrite decide_False by (simpl; lia).
    destruct Hrest as [[Hlink ->]|(Hlink & Hafter & Hfrom)].
    + rewrite decide_True by done.
      rewrite fetchUnlessEnd_end by done. rewrite pushAll_end by done.
      simpl. by rewrite app_nil_r.
    + rewrite decide_False by done. apply Hfrom; [lia|done].
  - rewrite decide_True by (simpl length; lia).
    destruct Hlayout as (Hp & Hq & Hlayout).
    unfold fetchUnlessEnd. rewrite isEnd_false by (simpl; unfold NOT_A_DICT_POS; lia).
    change ((p :: ps) ++ rest) with (p :: (ps ++ rest)).
    rewrite fmap_cons.
    apply (pushAll_array b linkFieldPos rest);
      [|by apply fetchNodeInfo_at|done|done|done].
    destruct Hrest as [[Hlink ->]|(Hlink & Hafter & Hfrom)].
    + by apply pushesAfter_end.
    + apply pushesAfter_link; [done|lia|done].
Qed.

Lemma nodeArrays_pushesFrom b pos all : nodeArrays b pos all → pushesFrom b pos all.
Proof.
  induction 1 as [pos ps linkFieldPos Hin Hsize Hlayout Hlink
                 |pos ps linkFieldPos rest Hin Hsize Hlayout Hlink Hafter _ IH].
  - rewrite <- (app_nil_r ps). eapply pushesFrom_array; eauto.
  - eapply pushesFrom_array; eauto.
Qed.

(** C6 (amended).  For a parent [DicNode] with children whose child PtNode
    array and the arrays chained to it by forward links are laid out in the
    buffer, [createAndGetAllChildNodes] pushes one child for every PtNode of
    these arrays, in their order, after the children that were there.  No
    PtNode is omitted: the child of a PtNode whose isDeleted flag is set is
    pushed as not terminal.  The child of a PtNode marked isMoved has the
    position and the flags of the PtNode its moves lead to. *)
Theorem createAndGetAllChildNodes_pushes_every_child fuel b pos all childDicNodes :
  nodeArrays b pos all → (length all ≤ fuel)%nat →
  createAndGetAllChildNodes NOT_A_PROBABILITY NOT_A_VALID_WORD_POS fuel b true pos
    childDicNodes = Done (childDicNodes ++ (childAt b <$> all))
  ∧ ∀ p q, p ∈ all → landsAt b p q →
      childPos (childAt b p) = q
      ∧ childIsTerminal (childAt b p)
        = flagIsTerminal (getFlags b q) && negb (flagIsDeleted (getFlags b q)).
Proof.
  intros Harrays Hfuel. split.
  - unfold createAndGetAllChildNodes, initWithNodeArrayPos, nextNodeArray. simpl.
    assert (Hin : 0 < pos < tail b) by (by destruct Harrays).
    rewrite decide_False by (unfold NOT_A_DICT_POS; lia).
    apply (nodeArrays_pushesFrom b pos all Harrays); [lia|done].
  - intros p q _ Hlands.
    destruct (fetchNode_lands b p q Hlands) as (Hhead & Hflags & _).
    unfold childAt, leavingChildOf, getNodeReader, isTerminal, isDeleted. simpl.
    by rewrite Hflags.
Qed.

End Children.

(** ** Adding a word and looking it up *)

Section Siblings.

Variable NOT_A_PROBABILITY : Z.
Variable NOT_A_VALID_WORD_POS : Z.

Abbreviation fetchNode := (fetchNodeInfoFromBuffer NOT_A_PROBABILITY NOT_A_VALID_WORD_POS).
Abbreviation nextSibling := (readNextSiblingNode NOT_A_PROBABILITY NOT_A_VALID_WORD_POS).
Abbreviation fetchFrom := (fetchUnlessEnd NOT_A_PROBABILITY NOT_A_VALID_WORD_POS).
Abbreviation endOf := (endOfPtNode NOT_A_PROBABILITY).

(** The position of the children position field of the PtNode at [p]. *)
Definition childrenFieldOf (b : Buffer) (p : Z) : Z :=
  if flagIsTerminal (getFlags b p) then p + 3 + 1 else p + 3.

(** The PtNode at [p] has its fields inside the buffer. *)
Definition nodeInside (b : Buffer) (p : Z) : Prop :=
  (∃ flags, cells b !! p = Some (FFlags flags)) ∧ 0 <= p ∧ childrenFieldOf b p < tail b.

(** [landsAt] through PtNodes that are inside the buffer. *)
Inductive lands (b : Buffer) : Z → Z → Prop :=
| lands_stop p :
    nodeInside b p → flagIsMoved (getFlags b p) = false → lands b p p
| lands_follow p q :
    nodeInside b p → flagIsMoved (getFlags b p) = true →
    0 < getParentOffset b (p + 1) →
    lands b (p + getParentOffset b (p + 1)) q →
    lands b p q.

Lemma nodeInside_range b p : nodeInside b p → 0 <= p < tail b.
Proof.
  intros (_ & H0 & H). unfold childrenFieldOf in H. destruct (flagIsTerminal _); lia.
Qed.

Lemma lands_landsAt b p q : lands b p q → landsAt b p q.
Proof.
  induction 1 as [p Hin Hmoved|p q Hin Hmoved Hoffset _ IH];
    pose proof (nodeInside_range _ _ Hin).
  - by apply lands_here.
  - by apply lands_moved.
Qed.

Lemma lands_first b p q : lands b p q → nodeInside b p.
Proof. by destruct 1. Qed.

Lemma lands_last b p q :
  lands b p q → nodeInside b q ∧ flagIsMoved (getFlags b q) = false ∧ p <= q.
Proof.
  induction 1 as [p Hin Hmoved|p q Hin Hmoved Hoffset _ IH]; [done|].
  destruct IH as (? & ? & ?). split; [done|]. split; [done|lia].
Qed.

Lemma lands_unique b p q q' : lands b p q → lands b p q' → q = q'.
Proof.
  induction 1 as [p Hin Hmoved|p q Hin Hmoved Hoffset _ IH]; intros H';
    destruct H' as [p Hin' Hmoved'|p q' Hin' Hmoved' Hoffset' H']; try congruence.
  by apply IH.
Qed.

(** The PtNodes [ps] serialized in turn from [pos] on, each inside the
    buffer, up to the forward link field at [linkFieldPos]. *)
Fixpoint slotsAt (b : Buffer) (pos : Z) (ps : list Z) (linkFieldPos : Z) : Prop :=
  match ps with
  | [] => linkFieldPos = pos
  | p :: ps' =>
      p = pos ∧ (∃ q, lands b p q) ∧ slotsAt b (endOf b p) ps' linkFieldPos
  end.

(** The PtNode array at [a] and the arrays chained to it, as [nodeArrays],
    with the position of the forward link field that ends the chain. *)
Inductive arrays (b : Buffer) : Z → list Z → Z → Prop :=
| arrays_last a ps linkFieldPos :
    0 < a < tail b →
    getPtNodeArraySize b a = Some (Z.of_nat (length ps)) →
    slotsAt b (a + 1) ps linkFieldPos →
    linkFieldPos < tail b →
    getForwardLinkPosition b linkFieldPos = NOT_A_DICT_POS →
    arrays b a ps linkFieldPos
| arrays_link a ps linkFieldPos rest lastLinkFieldPos :
    0 < a < tail b →
    getPtNodeArraySize b a = Some (Z.of_nat (length ps)) →
    slotsAt b (a + 1) ps linkFieldPos →
    linkFieldPos < tail b →
    getForwardLinkPosition b linkFieldPos ≠ NOT_A_DICT_POS →
    a < getForwardLinkPosition b linkFieldPos →
    arrays b (getForwardLinkPosition b linkFieldPos) rest lastLinkFieldPos →
    arrays b a (ps ++ rest) lastLinkFieldPos.

(** The states of the helper from [s] on, one for each PtNode of [slots],
    reading sibling after sibling up to the end state [e]. *)
Inductive siblings (b : Buffer) : ReadingHelper → list Z → ReadingHelper → Prop :=
| siblings_end e : mPos e = NOT_A_DICT_POS → siblings b e [] e
| siblings_node s p rest e :
    mPos s ≠ NOT_A_DICT_POS → mNodeReader s = fetchNode b p → (∃ q, lands b p q) →
    siblings b (nextSibling b s) rest e →
    siblings b s (p :: rest) e.

(** The end state [e] of the siblings read from [s0] on. *)
Definition endOfSiblings (lastLinkFieldPos : Z) (s0 e : ReadingHelper) : Prop :=
  mPosOfLastForwardLinkField e = lastLinkFieldPos
  ∧ mIsError e = mIsError s0
  ∧ mPrevTotalCodePointCount e = mPrevTotalCodePointCount s0.

Definition siblingsAfter (b : Buffer) (linkFieldPos : Z) (rest : list Z)
    (lastLinkFieldPos : Z) : Prop :=
  ∀ s0, mPos s0 = linkFieldPos → mNodeCount s0 <= 0 →
    ∃ e, siblings b (nextSibling b s0) rest e ∧ endOfSiblings lastLinkFieldPos s0 e.

Definition siblingsFrom (b : Buffer) (a : Z) (slots : list Z) (lastLinkFieldPos : Z)
    : Prop :=
  ∀ fuelOfArrays rh, tail b - a <= Z.of_nat fuelOfArrays →
    ∃ e, siblings b (fetchFrom b (enterNodeArray fuelOfArrays b rh a)) slots e
         ∧ endOfSiblings lastLinkFieldPos rh e.

Lemma siblings_array b linkFieldPos rest lastLinkFieldPos :
  siblingsAfter b linkFieldPos rest lastLinkFieldPos →
  ∀ ps p s,
    atPtNode NOT_A_PROBABILITY NOT_A_VALID_WORD_POS b s p (length ps) →
    (∃ q, lands b p q) →
    slotsAt b (endOf b p) ps linkFieldPos →
    ∃ e, siblings b s (p :: ps ++ rest) e ∧ endOfSiblings lastLinkFieldPos s e.
Proof.
  intros Hafter ps. induction ps as [|p' ps IH];
    intros p s (Hnode & Hpos & Hcount) [q Hq] Hlayout;
    pose proof (nodeInside_range _ _ (lands_first _ _ _ Hq)) as Hin;
    pose proof (endOfPtNode_gt NOT_A_PROBABILITY b p) as Hend;
    assert (Hnotend : mPos s ≠ NOT_A_DICT_POS)
      by (rewrite Hpos; unfold NOT_A_DICT_POS; lia).
  - simpl in Hlayout. subst linkFieldPos.
    destruct (Hafter s Hpos ltac:(simpl in Hcount; lia)) as (e & Hsib & Hends).
    exists e. split; [|done]. apply siblings_node; eauto.
  - destruct Hlayout as (-> & Hq' & Hlayout).
    assert (Hnext : nextSibling b s
                    = fetchNodeInfo NOT_A_PROBABILITY NOT_A_VALID_WORD_POS b s).
    { unfold readNextSiblingNode.
      rewrite decide_False by (rewrite Hcount; simpl length; lia).
      unfold fetchUnlessEnd. by rewrite isEnd_false. }
    destruct (IH (endOf b p) (nextSibling b s)) as (e & Hsib & Hl & He & Ht);
      [rewrite Hnext; apply fetchNodeInfo_at;
         [destruct Hq' as [q' Hq']; exists q'; by apply lands_landsAt|done
         |by rewrite Hcount]
      |done|done|].
    exists e. split; [apply siblings_node; eauto|].
    rewrite Hnext in He, Ht. done.
Qed.

Lemma siblingsAfter_end b linkFieldPos :
  getForwardLinkPosition b linkFieldPos = NOT_A_DICT_POS →
  siblingsAfter b linkFieldPos [] linkFieldPos.
Proof.
  intros Hlink s0 Hpos Hcount.
  unfold readNextSiblingNode. rewrite decide_True by done.
  unfold followForwardLink. rewrite Hpos, Hlink. rewrite decide_True by done.
  rewrite fetchUnlessEnd_end by done.
  eexists. split; [by apply siblings_end|done].
Qed.

Lemma siblingsAfter_link b linkFieldPos rest lastLinkFieldPos :
  getForwardLinkPosition b linkFieldPos ≠ NOT_A_DICT_POS →
  0 < getForwardLinkPosition b linkFieldPos →
  siblingsFrom b (getForwardLinkPosition b linkFieldPos) rest lastLinkFieldPos →
  siblingsAfter b linkFieldPos rest lastLinkFieldPos.
Proof.
  intros Hlink Hpositive Hfrom s0 Hpos Hcount.
  unfold readNextSiblingNode. rewrite decide_True by done.
  unfold followForwardLink. rewrite Hpos. rewrite decide_False by done.
  destruct (Hfrom (Z.to_nat (tail b))
              (mkReadingHelper (mIsError s0) linkFieldPos (mNodeCount s0)
                 (mPrevTotalCodePointCount s0) linkFieldPos (mNodeReader s0))
              ltac:(lia)) as (e & Hsib & Hends).
  by exists e.
Qed.

Lemma siblingsFrom_array b a ps linkFieldPos rest lastLinkFieldPos :
  0 < a < tail b →
  getPtNodeArraySize b a = Some (Z.of_nat (length ps)) →
  slotsAt b (a + 1) ps linkFieldPos →
  (getForwardLinkPosition b linkFieldPos = NOT_A_DICT_POS ∧ rest = []
   ∧ lastLinkFieldPos = linkFieldPos
   ∨ getForwardLinkPosition b linkFieldPos ≠ NOT_A_DICT_POS
     ∧ a < getForwardLinkPosition b linkFieldPos
     ∧ siblingsFrom b (getForwardLinkPosition b linkFieldPos) rest lastLinkFieldPos) →
  siblingsFrom b a (ps ++ rest) lastLinkFieldPos.
Proof.
  intros Hin Hsize Hlayout Hrest fuelOfArrays rh HfuelOfArrays.
  destruct fuelOfArrays as [|fuelOfArrays]; [lia|].
  cbn [enterNodeArray]. rewrite Hsize.
  destruct ps as [|p ps].
  - simpl in Hlayout. subst linkFieldPos. simpl length.
    rewrite decide_False by (simpl; lia).
    destruct Hrest as [(Hlink & -> & ->)|(Hlink & Hafter & Hfrom)].
    + rewrite decide_True by done. rewrite fetchUnlessEnd_end by done.
      eexists. split; [by apply siblings_end|done].
    + rewrite decide_False by done.
      destruct (Hfrom fuelOfArrays
                  (mkReadingHelper (mIsError rh) (mPos rh) 0
                     (mPrevTotalCodePointCount rh) (a + 1) (mNodeReader rh))
                  ltac:(lia)) as (e & Hsib & Hl & He & Ht).
      by exists e.
  - rewrite decide_True by (simpl length; lia).
    destruct Hlayout as (Hp & Hq & Hlayout).
    unfold fetchUnlessEnd. rewrite isEnd_false by (simpl; unfold NOT_A_DICT_POS; lia).
    change ((p :: ps) ++ rest) with (p :: ps ++ rest).
    assert (Hafter' : siblingsAfter b linkFieldPos rest lastLinkFieldPos).
    { destruct Hrest as [(Hlink & -> & ->)|(Hlink & Hafter & Hfrom)].
      - by apply siblingsAfter_end.
      - apply siblingsAfter_link; [done|lia|done]. }
    set (s0 := mkReadingHelper (mIsError rh) (a + 1) (Z.of_nat (length (p :: ps)))
                 (mPrevTotalCodePointCount rh) (mPosOfLastForwardLinkField rh)
                 (mNodeReader rh)).
    assert (Hat : atPtNode NOT_A_PROBABILITY NOT_A_VALID_WORD_POS b
                    (fetchNodeInfo NOT_A_PROBABILITY NOT_A_VALID_WORD_POS b s0) p
                    (length ps))
      by (apply fetchNodeInfo_at;
            [destruct Hq as [q Hq]; exists q; by apply lands_landsAt|done|done]).
    destruct (siblings_array b linkFieldPos rest lastLinkFieldPos Hafter' ps p _ Hat Hq
                Hlayout) as (e & Hsib & Hends).
    by exists e.
Qed.

Lemma arrays_siblingsFrom b a slots lastLinkFieldPos :
  arrays b a slots lastLinkFieldPos → siblingsFrom b a slots lastLinkFieldPos.
Proof.
  induction 1 as [a ps linkFieldPos Hin Hsize Hlayout Hinside Hlink
                 |a ps linkFieldPos rest lastLinkFieldPos Hin Hsize Hlayout Hinside Hlink
                    Hafter _ IH].
  - rewrite <- (app_nil_r ps). eapply siblingsFrom_array; eauto.
  - eapply siblingsFrom_array; eauto.
Qed.

Lemma arrays_inside b a slots lastLinkFieldPos :
  arrays b a slots lastLinkFieldPos → 0 < a < tail b.
Proof. by destruct 1. Qed.

(** The count of the code points matched before stays through the
    siblings. *)
Lemma enterNodeArray_prevTotal fuel b rh pos :
  mPrevTotalCodePointCount (enterNodeArray fuel b rh pos) = mPrevTotalCodePointCount rh.
Proof.
  revert rh pos. induction fuel as [|fuel IH]; intros rh pos; cbn [enterNodeArray];
    destruct (getPtNodeArraySize b pos); try done;
    repeat (destruct (decide _); try done).
  by rewrite IH.
Qed.

Lemma fetchUnlessEnd_prevTotal b rh :
  mPrevTotalCodePointCount (fetchFrom b rh) = mPrevTotalCodePointCount rh.
Proof. unfold fetchUnlessEnd. by destruct (isEnd rh). Qed.

Lemma readNextSiblingNode_prevTotal b rh :
  mPrevTotalCodePointCount (nextSibling b rh) = mPrevTotalCodePointCount rh.
Proof.
  unfold readNextSiblingNode. rewrite fetchUnlessEnd_prevTotal.
  destruct (decide _); [|done]. unfold followForwardLink.
  destruct (decide _); [done|]. by rewrite enterNodeArray_prevTotal.
Qed.

Lemma siblings_prevTotal b s slots e :
  siblings b s slots e → mPrevTotalCodePointCount e = mPrevTotalCodePointCount s.
Proof.
  induction 1 as [|s p rest e _ _ _ _ IH]; [done|].
  by rewrite IH, readNextSiblingNode_prevTotal.
Qed.

Lemma bind_current {A} (k : Buffer → Write A) b : bind current k b = k b b.
Proof. done. Qed.

(** The reader holds the PtNode it lands on. *)
Lemma fetchMovedNode_read b p q :
  lands b p q →
  ∀ fuel s l, tail b - p <= Z.of_nat fuel →
    ∃ s' l', fetchMovedNode NOT_A_PROBABILITY NOT_A_VALID_WORD_POS fuel b p s l
             = readPtNode NOT_A_PROBABILITY b q s' l'.
Proof.
  induction 1 as [p Hin Hmoved|p q Hin Hmoved Hoffset _ IH]; intros fuel s l Hfuel;
    pose proof (nodeInside_range _ _ Hin);
    (destruct fuel as [|fuel]; [lia|]);
    cbn [fetchMovedNode]; rewrite decide_False by lia; cbv zeta;
    change (mFlags (readPtNode NOT_A_PROBABILITY b p s l)) with (getFlags b p);
    rewrite Hmoved.
  - by exists s, l.
  - change (mParentPos (readPtNode NOT_A_PROBABILITY b p s l))
      with (if decide (getParentOffset b (p + 1) = 0) then NOT_A_DICT_POS
            else p + getParentOffset b (p + 1)).
    rewrite decide_False by lia. apply IH. lia.
Qed.

Lemma fetchNode_read b p q :
  lands b p q → ∃ s' l', fetchNode b p = readPtNode NOT_A_PROBABILITY b q s' l'.
Proof.
  intros Hlands. pose proof (nodeInside_range _ _ (lands_first _ _ _ Hlands)).
  apply fetchMovedNode_read; [done|lia].
Qed.

End Siblings.

(** *** What the writes of a mutation leave of the buffer *)

(** The cases of [cellKept], which is defined below. *)
Ltac kept_cases H :=
  destruct H as [H|[(?o & ?o' & ?Hb & ?Hb' & ?Hflags)
                   |[(?Heq & ?flags & ?Hb & ?Hb')
                    |[(?Heq & ?c & ?c' & ?Hb & ?Hb')
                     |[(?Heq & ?l & ?l' & ?Hb & ?Hb')
                      |(?Heq & ?p & ?p' & ?Hb & ?Hb')]]]]].

Section Framed.

Variable NOT_A_PROBABILITY : Z.
Variable NOT_A_VALID_WORD_POS : Z.

Abbreviation fetchNode := (fetchNodeInfoFromBuffer NOT_A_PROBABILITY NOT_A_VALID_WORD_POS).
Abbreviation endOf := (endOfPtNode NOT_A_PROBABILITY).
Abbreviation slotsOf := (slotsAt NOT_A_PROBABILITY).
Abbreviation arraysOf := (arrays NOT_A_PROBABILITY).

(** The entry of a bigram list or of a shortcut list a field is. *)
Definition entryOf (field : option Field) : option Field :=
  match field with
  | Some (FBigramEntry target probability hasNext) =>
      Some (FBigramEntry target probability hasNext)
  | Some (FShortcutEntry target probability hasNext) =>
      Some (FShortcutEntry target probability hasNext)
  | _ => None
  end.

Definition flagsOf (field : option Field) : option NodeFlags :=
  match field with Some (FFlags flags) => Some flags | _ => None end.

(** [b'] is [b] after a mutation: the fields below the tail of [b] are
    read as before, but for the flags at [q], which are marked as moved, the
    children position at [cf], the forward link at [lf], the probability at
    [pf], and the parent offsets of PtNodes that are not moved. *)
Record framed (q cf lf pf : option Z) (b b' : Buffer) : Prop := {
  framed_tail : tail b <= tail b';
  framed_none : ∀ x, tail b <= x → cells b !! x = None;
  framed_negative : ∀ x, x < 0 → cells b' !! x = None;
  framed_size : ∀ x, x < tail b → getPtNodeArraySize b' x = getPtNodeArraySize b x;
  framed_codePoints : ∀ x, x < tail b → getCodePoints b' x = getCodePoints b x;
  framed_entries : ∀ x, x < tail b → entryOf (cells b' !! x) = entryOf (cells b !! x);
  framed_entry_tail : entryOf (cells b' !! tail b) = None;
  framed_flags : ∀ x, x < tail b → q ≠ Some x →
    flagsOf (cells b' !! x) = flagsOf (cells b !! x);
  framed_moved : ∀ x, q = Some x →
    x < tail b
    ∧ ∃ flags, cells b !! x = Some (FFlags flags) ∧ flagIsMoved flags = false
               ∧ cells b' !! x = Some (FFlags (updateAndGetFlags flags true false));
  framed_offsets : ∀ x, x < tail b → flagIsMoved (getFlags b (x - 1)) = true →
    getParentOffset b' x = getParentOffset b x;
  framed_children : ∀ x, x < tail b → cf ≠ Some x →
    readChildrenPosition b' x = readChildrenPosition b x;
  framed_links : ∀ x, x < tail b → lf ≠ Some x →
    getForwardLinkPosition b' x = getForwardLinkPosition b x;
  framed_probabilities : ∀ x, x < tail b → pf ≠ Some x →
    getProbability NOT_A_PROBABILITY b' x = getProbability NOT_A_PROBABILITY b x;
}.

(** The field at [x] after the mutation: the field of [b], or one of the
    fields a mutation patches. *)
Definition cellKept (q cf lf pf : option Z) (b b' : Buffer) (x : Z) : Prop :=
  cells b' !! x = cells b !! x
  ∨ (∃ o o', cells b !! x = Some (FParentOffset o)
             ∧ cells b' !! x = Some (FParentOffset o')
             ∧ flagIsMoved (getFlags b (x - 1)) = false)
  ∨ (q = Some x
     ∧ ∃ flags, cells b !! x = Some (FFlags flags)
                ∧ cells b' !! x = Some (FFlags (updateAndGetFlags flags true false)))
  ∨ (cf = Some x
     ∧ ∃ c c', cells b !! x = Some (FChildrenPos c)
               ∧ cells b' !! x = Some (FChildrenPos c'))
  ∨ (lf = Some x
     ∧ ∃ l l', cells b !! x = Some (FForwardLinkPos l)
               ∧ cells b' !! x = Some (FForwardLinkPos l'))
  ∨ (pf = Some x
     ∧ ∃ p p', cells b !! x = Some (FProbability p)
               ∧ cells b' !! x = Some (FProbability p')).

Lemma framed_of_cells q cf lf pf b b' :
  tail b <= tail b' →
  (∀ x, tail b <= x → cells b !! x = None) →
  (∀ x, x < 0 → cells b' !! x = None) →
  entryOf (cells b' !! tail b) = None →
  (∀ x, q = Some x →
     x < tail b
     ∧ ∃ flags, cells b !! x = Some (FFlags flags) ∧ flagIsMoved flags = false
                ∧ cells b' !! x = Some (FFlags (updateAndGetFlags flags true false))) →
  (∀ x, x < tail b → cellKept q cf lf pf b b' x) →
  framed q cf lf pf b b'.
Proof.
  intros Htail Hnone Hneg Hentry Hmoved Hcells.
  split; try done.
  - intros x Hx. pose proof (Hcells x Hx) as H. unfold getPtNodeArraySize.
    kept_cases H; [by rewrite H|..]; by rewrite Hb, Hb'.
  - intros x Hx. pose proof (Hcells x Hx) as H. unfold getCodePoints.
    kept_cases H; [by rewrite H|..]; by rewrite Hb, Hb'.
  - intros x Hx. pose proof (Hcells x Hx) as H.
    kept_cases H; [by rewrite H|..]; by rewrite Hb, Hb'.
  - intros x Hx Hq. pose proof (Hcells x Hx) as H.
    kept_cases H; [by rewrite H|..]; first [by rewrite Hb, Hb'|congruence].
  - intros x Hx Hflags. pose proof (Hcells x Hx) as H. unfold getParentOffset.
    kept_cases H; [by rewrite H|..]; first [by rewrite Hb, Hb'|congruence].
  - intros x Hx Hcf. pose proof (Hcells x Hx) as H. unfold readChildrenPosition.
    kept_cases H; [by rewrite H|..]; first [by rewrite Hb, Hb'|congruence].
  - intros x Hx Hlf. pose proof (Hcells x Hx) as H. unfold getForwardLinkPosition.
    kept_cases H; [by rewrite H|..]; first [by rewrite Hb, Hb'|congruence].
  - intros x Hx Hpf. pose proof (Hcells x Hx) as H. unfold getProbability.
    kept_cases H; [by rewrite H|..]; first [by rewrite Hb, Hb'|congruence].
Qed.

Section Reads.

Variables (q cf lf pf : option Z) (b b' : Buffer).
Hypothesis frame : framed q cf lf pf b b'.

Lemma framed_getFlags x : x < tail b → q ≠ Some x → getFlags b' x = getFlags b x.
Proof.
  intros Hx Hq. pose proof (framed_flags _ _ _ _ _ _ frame x Hx Hq) as H.
  unfold getFlags. destruct (cells b' !! x) as [[]|], (cells b !! x) as [[]|];
    simpl in H; congruence.
Qed.

(** The bits of the flags other than the moved bit. *)
Lemma framed_flag_bits x :
  x < tail b →
  flagIsTerminal (getFlags b' x) = flagIsTerminal (getFlags b x)
  ∧ flagHasShortcutTargets (getFlags b' x) = flagHasShortcutTargets (getFlags b x)
  ∧ flagHasBigrams (getFlags b' x) = flagHasBigrams (getFlags b x)
  ∧ ((∃ flags, cells b !! x = Some (FFlags flags))
     → ∃ flags, cells b' !! x = Some (FFlags flags)).
Proof.
  intros Hx. destruct (decide (q = Some x)) as [Hq|Hq].
  - destruct (framed_moved _ _ _ _ _ _ frame x Hq) as (_ & flags & Hb & _ & Hb').
    unfold getFlags. rewrite Hb, Hb'. simpl. repeat split; eauto.
  - rewrite (framed_getFlags x Hx Hq). repeat split.
    intros [flags Hb]. pose proof (framed_flags _ _ _ _ _ _ frame x Hx Hq) as H.
    rewrite Hb in H. simpl in H.
    destruct (cells b' !! x) as [[]|]; simpl in H; try done. eauto.
Qed.

Lemma framed_childrenFieldOf x :
  x < tail b → childrenFieldOf b' x = childrenFieldOf b x.
Proof.
  intros Hx. unfold childrenFieldOf.
  by destruct (framed_flag_bits x Hx) as (-> & _).
Qed.

Lemma framed_nodeInside x : nodeInside b x → nodeInside b' x.
Proof.
  intros Hin. pose proof (nodeInside_range _ _ Hin) as Hx.
  destruct Hin as (Hflags & H0 & Hcf).
  pose proof (framed_tail _ _ _ _ _ _ frame).
  destruct (framed_flag_bits x ltac:(lia)) as (_ & _ & _ & Hkeep).
  split; [by apply Hkeep|]. split; [done|].
  rewrite framed_childrenFieldOf by lia. lia.
Qed.

Lemma skipBigrams_framed n :
  ∀ x n', x <= tail b → n = Z.to_nat (tail b - x) → (n ≤ n')%nat →
    skipBigrams n' b' x = skipBigrams n b x ∧ skipBigrams n b x <= tail b.
Proof.
  induction n as [|n IH]; intros x n' Hx Hn Hn'.
  - assert (x = tail b) as -> by lia. simpl. split; [|lia].
    pose proof (framed_entry_tail _ _ _ _ _ _ frame) as Hentry.
    destruct n'; [done|]. simpl.
    destruct (cells b' !! tail b) as [[]|]; simpl in Hentry; done.
  - destruct n' as [|n']; [lia|]. simpl.
    pose proof (framed_entries _ _ _ _ _ _ frame x ltac:(lia)) as Hentry.
    destruct (cells b !! x) as [[]|] eqn:Hb, (cells b' !! x) as [[]|] eqn:Hb';
      simpl in Hentry; try done; try (split; [done|lia]).
    injection Hentry as -> -> ->.
    destruct hasNext; [|split; [done|lia]].
    apply IH; lia.
Qed.

Lemma skipShortcuts_framed n :
  ∀ x n', x <= tail b → n = Z.to_nat (tail b - x) → (n ≤ n')%nat →
    skipShortcuts n' b' x = skipShortcuts n b x ∧ skipShortcuts n b x <= tail b.
Proof.
  induction n as [|n IH]; intros x n' Hx Hn Hn'.
  - assert (x = tail b) as -> by lia. simpl. split; [|lia].
    pose proof (framed_entry_tail _ _ _ _ _ _ frame) as Hentry.
    destruct n'; [done|]. simpl.
    destruct (cells b' !! tail b) as [[]|]; simpl in Hentry; done.
  - destruct n' as [|n']; [lia|]. simpl.
    pose proof (framed_entries _ _ _ _ _ _ frame x ltac:(lia)) as Hentry.
    destruct (cells b !! x) as [[]|] eqn:Hb, (cells b' !! x) as [[]|] eqn:Hb';
      simpl in Hentry; try done; try (split; [done|lia]).
    injection Hentry as -> -> ->.
    destruct hasNext; [|split; [done|lia]].
    apply IH; lia.
Qed.

Lemma framed_endOf x :
  nodeInside b x → endOf b' x = endOf b x ∧ endOf b x <= tail b.
Proof.
  intros Hin. pose proof (nodeInside_range _ _ Hin) as Hx.
  destruct Hin as (_ & _ & Hcf). unfold childrenFieldOf in Hcf.
  pose proof (framed_tail _ _ _ _ _ _ frame) as Htail.
  destruct (framed_flag_bits x ltac:(lia)) as (Hterminal & Hshortcuts & Hbigrams & _).
  unfold endOfPtNode, readPtNode. cbn [mSiblingPos default from_option id].
  rewrite Hterminal, Hshortcuts, Hbigrams. unfold listFuel.
  set (start := (if flagIsTerminal (getFlags b x) then x + 3 + 1 else x + 3) + 1).
  assert (Hstart : start <= tail b) by (unfold start; lia).
  destruct (skipShortcuts_framed (Z.to_nat (tail b - start)) start
              (Z.to_nat (tail b' - start)) Hstart eq_refl ltac:(lia))
    as [Hshortcut Hshortcut'].
  destruct (flagHasShortcutTargets (getFlags b x)).
  - rewrite Hshortcut.
    set (start' := skipShortcuts (Z.to_nat (tail b - start)) b start) in *.
    destruct (skipBigrams_framed (Z.to_nat (tail b - start')) start'
                (Z.to_nat (tail b' - start')) Hshortcut' eq_refl ltac:(lia))
      as [Hbigram Hbigram'].
    by destruct (flagHasBigrams (getFlags b x)).
  - destruct (skipBigrams_framed (Z.to_nat (tail b - start)) start
                (Z.to_nat (tail b' - start)) Hstart eq_refl ltac:(lia))
      as [Hbigram Hbigram'].
    by destruct (flagHasBigrams (getFlags b x)).
Qed.

(** Where the PtNode that is marked as moved leads in [b']. *)
Hypothesis moved_lands : ∀ x, q = Some x → ∃ t, lands b' x t.

Lemma framed_lands_here x :
  nodeInside b x → flagIsMoved (getFlags b x) = false → ∃ t, lands b' x t.
Proof.
  intros Hin Hmoved. pose proof (nodeInside_range _ _ Hin) as Hx.
  destruct (decide (q = Some x)) as [Hq|Hq]; [by apply moved_lands|].
  exists x. apply lands_stop; [by apply framed_nodeInside|].
  by rewrite framed_getFlags by (done || lia).
Qed.

Lemma framed_lands p q0 :
  lands b p q0 → ∀ t, lands b' q0 t → lands b' p t.
Proof.
  induction 1 as [p Hin Hmoved|p q0 Hin Hmoved Hoffset _ IH]; intros t Ht; [done|].
  pose proof (nodeInside_range _ _ Hin) as Hp.
  assert (Hq : q ≠ Some p).
  { intros Hq. destruct (framed_moved _ _ _ _ _ _ frame p Hq) as (_ & flags & Hb & Hnot & _).
    unfold getFlags in Hmoved. rewrite Hb in Hmoved. congruence. }
  assert (Hoff : getParentOffset b' (p + 1) = getParentOffset b (p + 1)).
  { destruct (decide (p + 1 < tail b)) as [Hlt|Hge].
    - apply (framed_offsets _ _ _ _ _ _ frame); [done|].
      by replace (p + 1 - 1) with p by lia.
    - destruct Hin as (_ & _ & Hcf). unfold childrenFieldOf in Hcf.
      destruct (flagIsTerminal _); lia. }
  apply lands_follow.
  - by apply framed_nodeInside.
  - by rewrite framed_getFlags by (done || lia).
  - by rewrite Hoff.
  - rewrite Hoff. by apply IH.
Qed.

Lemma framed_lands_kept p q0 :
  lands b p q0 → q ≠ Some q0 → lands b' p q0.
Proof.
  intros Hlands Hq. destruct (lands_last _ _ _ Hlands) as (Hin & Hmoved & _).
  pose proof (nodeInside_range _ _ Hin) as Hx.
  apply (framed_lands p q0 Hlands). apply lands_stop; [by apply framed_nodeInside|].
  by rewrite framed_getFlags by (done || lia).
Qed.

Lemma framed_lands_some p q0 : lands b p q0 → ∃ t, lands b' p t.
Proof.
  intros Hlands. destruct (lands_last _ _ _ Hlands) as (Hin & Hmoved & _).
  destruct (framed_lands_here q0 Hin Hmoved) as [t Ht].
  exists t. by apply (framed_lands p q0).
Qed.

Lemma framed_slots ps :
  ∀ x linkFieldPos, slotsOf b x ps linkFieldPos → x <= tail b →
    slotsOf b' x ps linkFieldPos.
Proof.
  induction ps as [|p ps IH]; intros x linkFieldPos Hslots Hx; [done|].
  destruct Hslots as (-> & [q0 Hq0] & Hslots).
  pose proof (lands_first _ _ _ Hq0) as Hin.
  destruct (framed_endOf x Hin) as [Hend Hle].
  split; [done|]. split; [by apply (framed_lands_some x q0)|].
  rewrite Hend. by apply IH.
Qed.

(** The array that is chained, in [b'], to the forward link that is
    written. *)
Hypothesis link_extended :
  ∀ x, lf = Some x →
    getForwardLinkPosition b x = NOT_A_DICT_POS
    ∧ getForwardLinkPosition b' x = tail b
    ∧ ∃ linkFieldPos, arraysOf b' (tail b) [tail b + 1] linkFieldPos.

Definition extension (linkFieldPos : Z) : list Z :=
  if decide (lf = Some linkFieldPos) then [tail b + 1] else [].

Lemma framed_arrays a slots linkFieldPos :
  arraysOf b a slots linkFieldPos →
  ∃ linkFieldPos', arraysOf b' a (slots ++ extension linkFieldPos) linkFieldPos'.
Proof.
  pose proof (framed_tail _ _ _ _ _ _ frame) as Htail.
  induction 1 as [a ps linkFieldPos Hin Hsize Hlayout Hinside Hlink
                 |a ps linkFieldPos rest lastLinkFieldPos Hin Hsize Hlayout Hinside Hlink
                    Hafter _ IH].
  - unfold extension. destruct (decide (lf = Some linkFieldPos)) as [Hlf|Hlf].
    + destruct (link_extended _ Hlf) as (_ & Hlink' & linkFieldPos' & Harrays).
      exists linkFieldPos'. apply (arrays_link _ _ a ps linkFieldPos).
      * lia.
      * by rewrite (framed_size _ _ _ _ _ _ frame) by lia.
      * apply framed_slots; [done|lia].
      * lia.
      * rewrite Hlink'. unfold NOT_A_DICT_POS. lia.
      * rewrite Hlink'. lia.
      * by rewrite Hlink'.
    + exists linkFieldPos. rewrite app_nil_r. apply arrays_last.
      * lia.
      * by rewrite (framed_size _ _ _ _ _ _ frame) by lia.
      * apply framed_slots; [done|lia].
      * lia.
      * by rewrite (framed_links _ _ _ _ _ _ frame) by done.
  - destruct IH as [linkFieldPos' IH]. exists linkFieldPos'.
    assert (Hlf : lf ≠ Some linkFieldPos).
    { intros Hlf. by destruct (link_extended _ Hlf) as (? & _). }
    rewrite <- app_assoc. apply (arrays_link _ _ a ps linkFieldPos).
    + lia.
    + by rewrite (framed_size _ _ _ _ _ _ frame) by lia.
    + apply framed_slots; [done|lia].
    + lia.
    + by rewrite (framed_links _ _ _ _ _ _ frame) by done.
    + by rewrite (framed_links _ _ _ _ _ _ frame) by done.
    + by rewrite (framed_links _ _ _ _ _ _ frame) by done.
Qed.

(** A PtNode that is neither marked nor given children is read as
    before. *)
Lemma framed_node p q0 :
  lands b p q0 → q ≠ Some q0 →
  mCodePoints (fetchNode b' p) = mCodePoints (fetchNode b p)
  ∧ getHeadPos (fetchNode b' p) = getHeadPos (fetchNode b p)
  ∧ (cf ≠ Some (childrenFieldOf b q0) →
     getChildrenPos (fetchNode b' p) = getChildrenPos (fetchNode b p)).
Proof.
  intros Hlands Hq.
  pose proof (framed_lands_kept p q0 Hlands Hq) as Hlands'.
  destruct (fetchNode_read NOT_A_PROBABILITY NOT_A_VALID_WORD_POS _ _ _ Hlands)
    as (s1 & l1 & ->).
  destruct (fetchNode_read NOT_A_PROBABILITY NOT_A_VALID_WORD_POS _ _ _ Hlands')
    as (s2 & l2 & ->).
  destruct (lands_last _ _ _ Hlands) as (Hin & _ & _).
  pose proof (nodeInside_range _ _ Hin) as Hx.
  destruct Hin as (_ & _ & Hcf).
  split; [|split; [done|]].
  - unfold readPtNode. cbn [mCodePoints].
    apply (framed_codePoints _ _ _ _ _ _ frame).
    unfold childrenFieldOf in Hcf. destruct (flagIsTerminal _); lia.
  - intros Hcf'. unfold getChildrenPos, readPtNode. cbn [mChildrenPos].
    fold (childrenFieldOf b' q0). fold (childrenFieldOf b q0).
    rewrite framed_childrenFieldOf by lia.
    by apply (framed_children _ _ _ _ _ _ frame).
Qed.

End Reads.

End Framed.

(** *** What the writers leave at the tail *)

(** The field at [x] is the same in [b'] as in [b], or a parent offset in
    both. *)
Definition sameOrOffset (b b' : Buffer) (x : Z) : Prop :=
  cells b' !! x = cells b !! x
  ∨ ∃ o o', cells b !! x = Some (FParentOffset o)
            ∧ cells b' !! x = Some (FParentOffset o').

Lemma sameOrOffset_trans b1 b2 b3 x :
  sameOrOffset b1 b2 x → sameOrOffset b2 b3 x → sameOrOffset b1 b3 x.
Proof.
  intros [H12|(o & o' & H1 & H2)] [H23|(o2 & o2' & H2' & H3)].
  - left. congruence.
  - right. exists o2, o2'. split; congruence.
  - right. exists o, o'. split; congruence.
  - right. exists o, o2'. split; congruence.
Qed.

(** No field is outside of the buffer. *)
Definition inside (b : Buffer) : Prop :=
  ∀ x, x < 0 ∨ tail b <= x → cells b !! x = None.

Lemma inside_above f pos b :
  0 <= pos → 0 <= tail b → inside b → inside (writeField f pos b).1.
Proof.
  intros _ Htail Hinside. unfold inside, writeField.
  destruct (decide (pos = tail b)) as [->|Hne].
  - destruct (decide (tail b < maxTail b)); cbn [fst cells tail]; [|done].
    intros x Hx. rewrite lookup_insert_ne by lia. apply Hinside. lia.
  - destruct (cells b !! pos) as [g|] eqn:Hg; [|done].
    destruct (decide _) as [[Hpos _]|]; cbn [fst cells tail]; [|done].
    intros x Hx. rewrite lookup_insert_ne by lia. by apply Hinside.
Qed.

Section Written.

Variable NOT_A_PROBABILITY : Z.
Variable NOT_A_VALID_WORD_POS : Z.

Abbreviation endOf := (endOfPtNode NOT_A_PROBABILITY).

Lemma writeField_append f pos b b' r :
  writeField f pos b = (b', Done r) → pos = tail b →
  r = pos + 1 ∧ tail b' = pos + 1 ∧ cells b' = <[pos := f]> (cells b).
Proof.
  intros H Hpos. apply writeField_Done in H as (-> & -> & _). cbn [tail cells].
  rewrite decide_True by done. split; [done|]. split; [lia|done].
Qed.

Lemma writeField_patch f pos b b' r :
  writeField f pos b = (b', Done r) → pos ≠ tail b →
  r = pos + 1 ∧ tail b' = tail b ∧ cells b' = <[pos := f]> (cells b)
  ∧ 0 <= pos < tail b ∧ ∃ g, cells b !! pos = Some g ∧ sameKind f g = true.
Proof.
  intros H Hpos. apply writeField_Done in H as (-> & -> & [[? _]|(_ & ? & ?)]); [done|].
  cbn [tail cells]. rewrite decide_False by done. done.
Qed.

(** A list of bigram entries from [x] up to [r], the last without a next
    one. *)
Inductive bigramList (b : Buffer) : Z → Z → Prop :=
| bigramList_last x target probability :
    cells b !! x = Some (FBigramEntry target probability false) →
    bigramList b x (x + 1)
| bigramList_next x r target probability :
    cells b !! x = Some (FBigramEntry target probability true) →
    bigramList b (x + 1) r →
    bigramList b x r.

Inductive shortcutList (b : Buffer) : Z → Z → Prop :=
| shortcutList_last x target probability :
    cells b !! x = Some (FShortcutEntry target probability false) →
    shortcutList b x (x + 1)
| shortcutList_next x r target probability :
    cells b !! x = Some (FShortcutEntry target probability true) →
    shortcutList b (x + 1) r →
    shortcutList b x r.

Lemma bigramList_lt b x r : bigramList b x r → x < r.
Proof. induction 1; lia. Qed.

Lemma shortcutList_lt b x r : shortcutList b x r → x < r.
Proof. induction 1; lia. Qed.

Lemma skipBigrams_list b x r :
  bigramList b x r → ∀ n, r - x <= Z.of_nat n → skipBigrams n b x = r.
Proof.
  induction 1 as [x target probability Hcell|x r target probability Hcell Hlist IH];
    intros n Hn; pose proof Hcell as Hcell'.
  - destruct n; [lia|]. simpl. by rewrite Hcell.
  - pose proof (bigramList_lt _ _ _ Hlist). destruct n; [lia|]. simpl. rewrite Hcell.
    apply IH. lia.
Qed.

Lemma skipShortcuts_list b x r :
  shortcutList b x r → ∀ n, r - x <= Z.of_nat n → skipShortcuts n b x = r.
Proof.
  induction 1 as [x target probability Hcell|x r target probability Hcell Hlist IH];
    intros n Hn.
  - destruct n; [lia|]. simpl. by rewrite Hcell.
  - pose proof (shortcutList_lt _ _ _ Hlist). destruct n; [lia|]. simpl. rewrite Hcell.
    apply IH. lia.
Qed.

Lemma bigramList_ext b b2 x r :
  bigramList b x r → (∀ y, x <= y < r → cells b2 !! y = cells b !! y) →
  bigramList b2 x r.
Proof.
  induction 1 as [x target probability Hcell|x r target probability Hcell Hlist IH];
    intros Hsame.
  - eapply bigramList_last. rewrite Hsame by lia. done.
  - pose proof (bigramList_lt _ _ _ Hlist).
    eapply bigramList_next; [rewrite Hsame by lia; done|].
    apply IH. intros y Hy. apply Hsame. lia.
Qed.

Lemma shortcutList_ext b b2 x r :
  shortcutList b x r → (∀ y, x <= y < r → cells b2 !! y = cells b !! y) →
  shortcutList b2 x r.
Proof.
  induction 1 as [x target probability Hcell|x r target probability Hcell Hlist IH];
    intros Hsame.
  - eapply shortcutList_last. rewrite Hsame by lia. done.
  - pose proof (shortcutList_lt _ _ _ Hlist).
    eapply shortcutList_next; [rewrite Hsame by lia; done|].
    apply IH. intros y Hy. apply Hsame. lia.
Qed.

(** The copy of a list to the tail is a list. *)
Lemma copyAllBigramsLoop_list fuel :
  ∀ fromPos toPos count b b' r count',
    copyAllBigramsLoop fuel fromPos toPos count b = (b', Done (r, count')) →
    toPos = tail b →
    bigramList b' toPos r ∧ tail b' = r
    ∧ (∀ y, y < toPos → cells b' !! y = cells b !! y) ∧ count < count'.
Proof.
  induction fuel as [|fuel IH]; intros fromPos toPos count b b' r count' Hrun Hto;
    [done|].
  cbn [copyAllBigramsLoop] in Hrun. rewrite bind_current in Hrun.
  destruct (cells b !! fromPos) as [[]|]; try done.
  apply bind_Done in Hrun as (b1 & toPos1 & Hwrite & Hrun).
  apply writeField_append in Hwrite as (-> & Htail1 & Hcells1); [|done].
  destruct hasNext.
  - destruct (IH _ _ _ _ _ _ _ Hrun ltac:(lia)) as (Hlist & Htail & Hbelow & Hcount).
    split; [|split; [done|split; [|lia]]].
    + eapply bigramList_next; [|done].
      rewrite Hbelow by lia. rewrite Hcells1. by rewrite lookup_insert_eq.
    + intros y Hy. rewrite Hbelow by lia. rewrite Hcells1.
      by rewrite lookup_insert_ne by lia.
  - injection Hrun as <- <- <-.
    split; [|split; [done|split; [|lia]]].
    + eapply bigramList_last. rewrite Hcells1. by rewrite lookup_insert_eq.
    + intros y Hy. rewrite Hcells1. by rewrite lookup_insert_ne by lia.
Qed.

Lemma copyAllShortcutsLoop_list fuel :
  ∀ fromPos toPos b b' r,
    copyAllShortcutsLoop fuel fromPos toPos b = (b', Done r) →
    toPos = tail b →
    shortcutList b' toPos r ∧ tail b' = r
    ∧ (∀ y, y < toPos → cells b' !! y = cells b !! y).
Proof.
  induction fuel as [|fuel IH]; intros fromPos toPos b b' r Hrun Hto; [done|].
  cbn [copyAllShortcutsLoop] in Hrun. rewrite bind_current in Hrun.
  destruct (cells b !! fromPos) as [[]|]; try done.
  apply bind_Done in Hrun as (b1 & toPos1 & Hwrite & Hrun).
  apply writeField_append in Hwrite as (-> & Htail1 & Hcells1); [|done].
  destruct hasNext.
  - destruct (IH _ _ _ _ _ Hrun ltac:(lia)) as (Hlist & Htail & Hbelow).
    split; [|split; [done|]].
    + eapply shortcutList_next; [|done].
      rewrite Hbelow by lia. rewrite Hcells1. by rewrite lookup_insert_eq.
    + intros y Hy. rewrite Hbelow by lia. rewrite Hcells1.
      by rewrite lookup_insert_ne by lia.
  - injection Hrun as <- <-.
    split; [|split; [done|]].
    + eapply shortcutList_last. rewrite Hcells1. by rewrite lookup_insert_eq.
    + intros y Hy. rewrite Hcells1. by rewrite lookup_insert_ne by lia.
Qed.

(** The PtNode at [wp], up to [r], as a writer leaves it. *)
Definition written (b : Buffer) (wp r : Z) (flags : NodeFlags) (codePoints : list Z)
    (probability childrenPos : Z) : Prop :=
  cells b !! wp = Some (FFlags flags)
  ∧ cells b !! (wp + 2) = Some (FCodePoints codePoints)
  ∧ (flagIsTerminal flags = true →
     cells b !! (wp + 3) = Some (FProbability probability))
  ∧ cells b !! (if flagIsTerminal flags then wp + 3 + 1 else wp + 3)
    = Some (FChildrenPos childrenPos)
  ∧ ∃ s,
      (if flagHasShortcutTargets flags
       then shortcutList b ((if flagIsTerminal flags then wp + 3 + 1 else wp + 3) + 1) s
       else s = (if flagIsTerminal flags then wp + 3 + 1 else wp + 3) + 1)
      ∧ (if flagHasBigrams flags then bigramList b s r else r = s).

Lemma written_ext b b2 wp r flags codePoints probability childrenPos :
  written b wp r flags codePoints probability childrenPos →
  (∀ y, wp <= y < r → y ≠ wp + 1 → cells b2 !! y = cells b !! y) →
  written b2 wp r flags codePoints probability childrenPos.
Proof.
  intros (Hflags & Hcps & Hprob & Hchildren & s & Hshortcuts & Hbigrams) Hsame.
  set (cf := if flagIsTerminal flags then wp + 3 + 1 else wp + 3) in *.
  assert (Hcf : wp + 3 <= cf <= wp + 4) by (unfold cf; destruct (flagIsTerminal _); lia).
  assert (Hs : cf + 1 <= s).
  { destruct (flagHasShortcutTargets flags); [|lia].
    pose proof (shortcutList_lt _ _ _ Hshortcuts). lia. }
  assert (Hr : s <= r).
  { destruct (flagHasBigrams flags); [|lia].
    pose proof (bigramList_lt _ _ _ Hbigrams). lia. }
  split; [by rewrite Hsame by lia|]. split; [by rewrite Hsame by lia|].
  split; [intros Ht; rewrite Hsame; [by apply Hprob| |lia];
          unfold cf in Hs; rewrite Ht in Hs; lia|].
  split; [by rewrite Hsame by lia|].
  exists s. split.
  - destruct (flagHasShortcutTargets flags); [|done].
    apply (shortcutList_ext b); [done|]. intros y Hy. apply Hsame; lia.
  - destruct (flagHasBigrams flags); [|done].
    apply (bigramList_ext b); [done|]. intros y Hy. apply Hsame; lia.
Qed.

(** Reading a PtNode a writer has left. *)
Lemma written_read b wp r flags codePoints probability childrenPos :
  written b wp r flags codePoints probability childrenPos →
  flagIsMoved flags = false → 0 <= wp → r <= tail b →
  lands b wp wp ∧ endOf b wp = r ∧ wp + 4 <= r
  ∧ getFlags b wp = flags
  ∧ ∀ s l, mCodePoints (readPtNode NOT_A_PROBABILITY b wp s l) = codePoints
           ∧ mChildrenPos (readPtNode NOT_A_PROBABILITY b wp s l) = childrenPos.
Proof.
  intros (Hflags & Hcps & Hprob & Hchildren & s & Hshortcuts & Hbigrams) Hmoved Hwp Hr.
  assert (Hget : getFlags b wp = flags) by (unfold getFlags; by rewrite Hflags).
  set (cf := if flagIsTerminal flags then wp + 3 + 1 else wp + 3) in *.
  assert (Hcf : wp + 3 <= cf <= wp + 4) by (unfold cf; destruct (flagIsTerminal _); lia).
  assert (Hs : cf + 1 <= s).
  { destruct (flagHasShortcutTargets flags); [|lia].
    pose proof (shortcutList_lt _ _ _ Hshortcuts). lia. }
  assert (Hsr : s <= r).
  { destruct (flagHasBigrams flags); [|lia].
    pose proof (bigramList_lt _ _ _ Hbigrams). lia. }
  split.
  { apply lands_stop; [|by rewrite Hget].
    split; [eauto|]. split; [done|]. unfold childrenFieldOf. rewrite Hget. fold cf. lia. }
  split.
  { unfold endOfPtNode, readPtNode. cbn [mSiblingPos default from_option id].
    rewrite Hget. fold cf. unfold listFuel.
    assert (Hafter : (if flagHasShortcutTargets flags
                      then skipShortcuts (Z.to_nat (tail b - (cf + 1))) b (cf + 1)
                      else cf + 1) = s).
    { destruct (flagHasShortcutTargets flags); [|done].
      apply skipShortcuts_list; [done|lia]. }
    rewrite Hafter.
    destruct (flagHasBigrams flags); [|done].
    apply skipBigrams_list; [done|lia]. }
  split; [lia|]. split; [done|].
  intros s' l'. unfold readPtNode. cbn [mCodePoints mChildrenPos].
  rewrite Hget. fold cf. unfold getCodePoints, readChildrenPosition.
  by rewrite Hcps, Hchildren.
Qed.

(** [writePtNodeWithFullInfoToBuffer] at the tail. *)
Lemma writePtNodeWithFullInfoToBuffer_written isBlacklisted isNotAWord parentPos
    codePoints codePointCount probability childrenPos originalBigramListPos
    originalShortcutListPos writingPos b b' r :
  writePtNodeWithFullInfoToBuffer NOT_A_PROBABILITY isBlacklisted isNotAWord
    parentPos codePoints codePointCount probability childrenPos
    originalBigramListPos originalShortcutListPos writingPos b = (b', Done r) →
  writingPos = tail b →
  written b' writingPos r
    (createAndGetFlags isBlacklisted isNotAWord
       (bool_decide (probability ≠ NOT_A_PROBABILITY))
       (bool_decide (originalShortcutListPos ≠ NOT_A_DICT_POS))
       (bool_decide (originalBigramListPos ≠ NOT_A_DICT_POS))
       (bool_decide (codePointCount > 1)) CHILDREN_POSITION_FIELD_SIZE)
    (take (Z.to_nat codePointCount) codePoints) probability childrenPos
  ∧ tail b' = r
  ∧ (∀ y, y < writingPos → cells b' !! y = cells b !! y).
Proof.
  unfold writePtNodeWithFullInfoToBuffer. intros H Hwp.
  apply bind_Done in H as (b1 & p1 & H1 & H).
  apply bind_Done in H as (b2 & p2 & H2 & H).
  apply bind_Done in H as (b3 & p3 & H3 & H).
  apply bind_Done in H as (b4 & p4 & H4 & H).
  apply bind_Done in H as (b5 & p5 & H5 & H).
  apply bind_Done in H as (b6 & p6 & H6 & H).
  apply bind_Done in H as (b7 & copied & H7 & H).
  apply bind_Done in H as (b8 & p8 & H8 & H). injection H as <- <-.
  unfold writeFlagsAndAdvancePosition, writeParentOffsetAndAdvancePosition,
    writeCodePointsAndAdvancePosition, writeProbabilityAndAdvancePosition,
    writeChildrenPositionAndAdvancePosition in *.
  apply writeField_append in H1 as (-> & Ht1 & Hc1); [|done].
  apply writeField_append in H2 as (-> & Ht2 & Hc2); [|lia].
  apply writeField_append in H3 as (-> & Ht3 & Hc3); [|lia].
  set (terminal := bool_decide (probability ≠ NOT_A_PROBABILITY)).
  set (cf := if terminal then writingPos + 3 + 1 else writingPos + 3).
  assert (H4' : p4 = cf ∧ tail b4 = cf
                ∧ (∀ y, y < writingPos + 3 → cells b4 !! y = cells b3 !! y)
                ∧ (terminal = true →
                   cells b4 !! (writingPos + 3) = Some (FProbability probability))).
  { unfold cf, terminal. destruct (decide (probability ≠ NOT_A_PROBABILITY)) as [Hp|Hp].
    - rewrite bool_decide_eq_true_2 by done.
      apply writeField_append in H4 as (-> & Ht4 & Hc4); [|lia].
      replace (writingPos + 1 + 1 + 1) with (writingPos + 3) in * by lia.
      split; [done|]. split; [lia|]. rewrite Hc4. split.
      + intros y Hy. by rewrite lookup_insert_ne by lia.
      + intros _. by rewrite lookup_insert_eq.
    - rewrite bool_decide_eq_false_2 by done. injection H4 as <- <-.
      split; [lia|]. split; [lia|]. done. }
  destruct H4' as (-> & Ht4 & Hb4 & Hprob4). clear H4.
  apply writeField_append in H5 as (-> & Ht5 & Hc5); [|lia].
  assert (Hcf : writingPos + 3 <= cf <= writingPos + 4)
    by (unfold cf; destruct terminal; lia).
  set (shortcuts := bool_decide (originalShortcutListPos ≠ NOT_A_DICT_POS)).
  assert (H6' : tail b6 = p6 ∧ cf + 1 <= p6
                ∧ (∀ y, y < cf + 1 → cells b6 !! y = cells b5 !! y)
                ∧ (if shortcuts then shortcutList b6 (cf + 1) p6 else p6 = cf + 1)).
  { unfold shortcuts. destruct (decide (originalShortcutListPos ≠ NOT_A_DICT_POS)) as [Hs|Hs].
    - rewrite bool_decide_eq_true_2 by done.
      unfold copyAllShortcutsAndReturnIfSucceededOrNot in H6. rewrite bind_current in H6.
      apply copyAllShortcutsLoop_list in H6 as (Hlist & Ht6 & Hb6); [|lia].
      pose proof (shortcutList_lt _ _ _ Hlist). split; [done|]. split; [lia|done].
    - rewrite bool_decide_eq_false_2 by done. injection H6 as <- <-.
      split; [lia|]. split; [lia|]. done. }
  destruct H6' as (Ht6 & Hp6 & Hb6 & Hshortcuts). clear H6.
  set (bigrams := bool_decide (originalBigramListPos ≠ NOT_A_DICT_POS)).
  assert (H7' : tail b7 = copied.1 ∧ p6 <= copied.1
                ∧ (∀ y, y < p6 → cells b7 !! y = cells b6 !! y)
                ∧ (if bigrams then bigramList b7 p6 copied.1 else copied.1 = p6)
                ∧ bool_decide (copied.2 > 0) = bigrams).
  { unfold bigrams. destruct (decide (originalBigramListPos ≠ NOT_A_DICT_POS)) as [Hs|Hs].
    - rewrite bool_decide_eq_true_2 by done.
      unfold copyAllBigrams in H7. rewrite bind_current in H7.
      destruct copied as [r count'].
      apply copyAllBigramsLoop_list in H7 as (Hlist & Ht7 & Hb7 & Hcount); [|lia].
      pose proof (bigramList_lt _ _ _ Hlist). cbn [fst snd].
      split; [done|]. split; [lia|]. split; [done|]. split; [done|].
      apply bool_decide_eq_true_2. lia.
    - rewrite bool_decide_eq_false_2 by done. injection H7 as <- <-. cbn [fst snd].
      split; [lia|]. split; [lia|]. split; [done|]. split; [done|].
      by apply bool_decide_eq_false_2. }
  destruct H7' as (Ht7 & Hp7 & Hb7 & Hbigrams & Hcount). clear H7.
  rewrite Hcount in H8.
  apply writeField_patch in H8 as (_ & Ht8 & Hc8 & _); [|lia].
  fold terminal shortcuts bigrams in Hc8 |- *.
  set (flags := createAndGetFlags isBlacklisted isNotAWord terminal shortcuts bigrams
                  (bool_decide (codePointCount > 1)) CHILDREN_POSITION_FIELD_SIZE)
    in *.
  assert (Hbelow7 : ∀ y, y < cf + 1 → cells b7 !! y = cells b5 !! y).
  { intros y Hy. rewrite Hb7 by lia. by apply Hb6. }
  split; [|split; [lia|]].
  - assert (Hb8 : ∀ y, writingPos < y → cells b8 !! y = cells b7 !! y).
    { intros y Hy. rewrite Hc8. by rewrite lookup_insert_ne by lia. }
    unfold written. change (flagIsTerminal flags) with terminal.
    change (flagHasShortcutTargets flags) with shortcuts.
    change (flagHasBigrams flags) with bigrams. fold cf.
    split; [by rewrite Hc8, lookup_insert_eq|].
    split.
    { rewrite Hb8, Hbelow7 by lia. rewrite Hc5, lookup_insert_ne by lia.
      rewrite Hb4 by lia. rewrite Hc3.
      replace (writingPos + 1 + 1) with (writingPos + 2) by lia.
      by rewrite lookup_insert_eq. }
    split.
    { intros Ht. rewrite Hb8 by lia. unfold cf in Hbelow7, Hc5. rewrite Ht in Hbelow7, Hc5.
      rewrite Hbelow7 by lia. rewrite Hc5, lookup_insert_ne by lia. by apply Hprob4. }
    split.
    { rewrite Hb8, Hbelow7 by lia. by rewrite Hc5, lookup_insert_eq. }
    exists p6. split.
    + destruct shortcuts; [|done].
      apply (shortcutList_ext b6); [done|]. intros y Hy.
      rewrite Hb8 by lia. apply Hb7. lia.
    + destruct bigrams; [|done].
      apply (bigramList_ext b7); [done|]. intros y Hy. apply Hb8. lia.
  - intros y Hy. rewrite Hc8, lookup_insert_ne by lia.
    rewrite Hbelow7 by lia. rewrite Hc5, lookup_insert_ne by lia.
    rewrite Hb4 by lia. rewrite Hc3, lookup_insert_ne by lia.
    rewrite Hc2, lookup_insert_ne by lia. rewrite Hc1, lookup_insert_ne by lia. done.
Qed.

Lemma bigramList_sameOrOffset b b2 x r :
  bigramList b x r → (∀ y, x <= y < r → sameOrOffset b b2 y) → bigramList b2 x r.
Proof.
  induction 1 as [x target probability Hcell|x r target probability Hcell Hlist IH];
    intros Hsame.
  - eapply bigramList_last.
    destruct (Hsame x ltac:(lia)) as [->|(? & ? & ? & _)]; [done|congruence].
  - pose proof (bigramList_lt _ _ _ Hlist).
    eapply bigramList_next.
    + destruct (Hsame x ltac:(lia)) as [->|(? & ? & ? & _)]; [done|congruence].
    + apply IH. intros y Hy. apply Hsame. lia.
Qed.

Lemma shortcutList_sameOrOffset b b2 x r :
  shortcutList b x r → (∀ y, x <= y < r → sameOrOffset b b2 y) → shortcutList b2 x r.
Proof.
  induction 1 as [x target probability Hcell|x r target probability Hcell Hlist IH];
    intros Hsame.
  - eapply shortcutList_last.
    destruct (Hsame x ltac:(lia)) as [->|(? & ? & ? & _)]; [done|congruence].
  - pose proof (shortcutList_lt _ _ _ Hlist).
    eapply shortcutList_next.
    + destruct (Hsame x ltac:(lia)) as [->|(? & ? & ? & _)]; [done|congruence].
    + apply IH. intros y Hy. apply Hsame. lia.
Qed.

(** A PtNode that is written stays when parent offsets are written. *)
Lemma written_sameOrOffset b b2 wp r flags codePoints probability childrenPos :
  written b wp r flags codePoints probability childrenPos →
  (∀ y, wp <= y < r → sameOrOffset b b2 y) →
  written b2 wp r flags codePoints probability childrenPos.
Proof.
  intros (Hflags & Hcps & Hprob & Hchildren & s & Hshortcuts & Hbigrams) Hsame.
  set (cf := if flagIsTerminal flags then wp + 3 + 1 else wp + 3) in *.
  assert (Hcf : wp + 3 <= cf <= wp + 4) by (unfold cf; destruct (flagIsTerminal _); lia).
  assert (Hs : cf + 1 <= s).
  { destruct (flagHasShortcutTargets flags); [|lia].
    pose proof (shortcutList_lt _ _ _ Hshortcuts). lia. }
  assert (Hr : s <= r).
  { destruct (flagHasBigrams flags); [|lia].
    pose proof (bigramList_lt _ _ _ Hbigrams). lia. }
  assert (Hkeep : ∀ y f, wp <= y < r → cells b !! y = Some f →
            (∀ o, f ≠ FParentOffset o) → cells b2 !! y = Some f).
  { intros y f Hy Hf Hno. destruct (Hsame y Hy) as [->|(o & ? & Ho & _)]; [done|].
    rewrite Hf in Ho. injection Ho as ->. by destruct (Hno o). }
  split; [by apply Hkeep; [lia|done|]|]. split; [by apply Hkeep; [lia|done|]|].
  split.
  { intros Ht. apply Hkeep; [|by apply Hprob|done].
    unfold cf in Hs. rewrite Ht in Hs. lia. }
  split; [by apply Hkeep; [lia|done|]|].
  exists s. split.
  - destruct (flagHasShortcutTargets flags); [|done].
    apply (shortcutList_sameOrOffset b); [done|]. intros y Hy. apply Hsame. lia.
  - destruct (flagHasBigrams flags); [|done].
    apply (bigramList_sameOrOffset b); [done|]. intros y Hy. apply Hsame. lia.
Qed.

(** The children position of a PtNode that is written is overwritten. *)
Lemma written_children b b2 wp r flags codePoints probability childrenPos childrenPos' :
  written b wp r flags codePoints probability childrenPos →
  cells b2 = <[(if flagIsTerminal flags then wp + 3 + 1 else wp + 3)
               := FChildrenPos childrenPos']> (cells b) →
  written b2 wp r flags codePoints probability childrenPos'.
Proof.
  intros (Hflags & Hcps & Hprob & Hchildren & s & Hshortcuts & Hbigrams) Hc2.
  set (cf := if flagIsTerminal flags then wp + 3 + 1 else wp + 3) in *.
  assert (Hcf : wp + 3 <= cf <= wp + 4) by (unfold cf; destruct (flagIsTerminal _); lia).
  assert (Hs : cf + 1 <= s).
  { destruct (flagHasShortcutTargets flags); [|lia].
    pose proof (shortcutList_lt _ _ _ Hshortcuts). lia. }
  split; [by rewrite Hc2, lookup_insert_ne by lia|].
  split; [by rewrite Hc2, lookup_insert_ne by lia|].
  split.
  { intros Ht. rewrite Hc2, lookup_insert_ne; [by apply Hprob|].
    unfold cf. rewrite Ht. lia. }
  split; [by rewrite Hc2, lookup_insert_eq|].
  exists s. split.
  - destruct (flagHasShortcutTargets flags); [|done].
    apply (shortcutList_ext b); [done|]. intros y Hy.
    by rewrite Hc2, lookup_insert_ne by lia.
  - destruct (flagHasBigrams flags); [|done].
    apply (bigramList_ext b); [done|]. intros y Hy.
    by rewrite Hc2, lookup_insert_ne by lia.
Qed.

Lemma written_ge b wp r flags codePoints probability childrenPos :
  written b wp r flags codePoints probability childrenPos → wp + 4 <= r.
Proof.
  intros (_ & _ & _ & _ & s & Hshortcuts & Hbigrams).
  assert (wp + 4 <= s).
  { destruct (flagHasShortcutTargets flags).
    - pose proof (shortcutList_lt _ _ _ Hshortcuts). destruct (flagIsTerminal _); lia.
    - destruct (flagIsTerminal _); lia. }
  destruct (flagHasBigrams flags); [|lia].
  pose proof (bigramList_lt _ _ _ Hbigrams). lia.
Qed.

Lemma sameOrOffset_cell b b2 x f :
  sameOrOffset b b2 x → cells b !! x = Some f → (∀ o, f ≠ FParentOffset o) →
  cells b2 !! x = Some f.
Proof.
  intros [->|(o & ? & Ho & _)] Hf Hno; [done|].
  rewrite Hf in Ho. injection Ho as ->. by destruct (Hno o).
Qed.

Lemma writePtNodeWithFullInfoToBuffer_inside isBlacklisted isNotAWord parentPos
    codePoints codePointCount probability childrenPos originalBigramListPos
    originalShortcutListPos writingPos b b' r :
  writePtNodeWithFullInfoToBuffer NOT_A_PROBABILITY isBlacklisted isNotAWord
    parentPos codePoints codePointCount probability childrenPos
    originalBigramListPos originalShortcutListPos writingPos b = (b', r) →
  0 <= writingPos → 0 <= tail b → inside b → inside b'.
Proof.
  intros Hrun Hpos Htail Hinside.
  destruct (keeps_run _ _ _ b b' r
              (keeps_writePtNodeWithFullInfoToBuffer 0 inside inside_above
                 NOT_A_PROBABILITY true isBlacklisted isNotAWord parentPos codePoints
                 codePointCount probability childrenPos originalBigramListPos
                 originalShortcutListPos writingPos Hpos)
              (conj Htail (λ _, Hinside)) Hrun) as [[_ H] _].
  by apply H.
Qed.

Lemma writeField_inside f pos b b' r :
  writeField f pos b = (b', r) → 0 <= pos → 0 <= tail b → inside b → inside b'.
Proof.
  intros Hrun Hpos Htail Hinside.
  pose proof (inside_above f pos b Hpos Htail Hinside) as H. by rewrite Hrun in H.
Qed.

(** The PtNode array [createNewPtNodeArrayWithAChildPtNode] leaves at the
    tail: a size of 1, the PtNode and a forward link field that ends the
    chain. *)
Definition newArray (b : Buffer) (a r : Z) (codePoints : list Z) (probability : Z)
    : Prop :=
  cells b !! a = Some (FPtNodeArraySize 1)
  ∧ written b (a + 1) r
      (createAndGetFlags false false (bool_decide (probability ≠ NOT_A_PROBABILITY))
         false false (bool_decide (Z.of_nat (length codePoints) > 1))
         CHILDREN_POSITION_FIELD_SIZE)
      codePoints probability NOT_A_DICT_POS
  ∧ cells b !! r = Some (FForwardLinkPos NOT_A_DICT_POS)
  ∧ tail b = r + 1.

Lemma createNewPtNodeArrayWithAChildPtNode_newArray parentPos codePoints count
    probability b b' :
  createNewPtNodeArrayWithAChildPtNode NOT_A_PROBABILITY parentPos codePoints count
    probability b = (b', Done tt) →
  count = Z.of_nat (length (take (Z.to_nat count) codePoints)) →
  (∃ r, newArray b' (tail b) r (take (Z.to_nat count) codePoints) probability)
  ∧ (∀ y, y < tail b → cells b' !! y = cells b !! y).
Proof.
  unfold createNewPtNodeArrayWithAChildPtNode. rewrite bind_current.
  unfold getTailPosition, writePtNodeArraySizeAndAdvancePosition, writePtNodeToBuffer,
    writeForwardLinkPositionAndAdvancePosition.
  intros H Hcount.
  apply bind_Done in H as (b1 & p1 & H1 & H).
  apply bind_Done in H as (b2 & r & H2 & H).
  apply bind_Done in H as (b3 & p3 & H3 & H). injection H as <-.
  apply writeField_append in H1 as (-> & Ht1 & Hc1); [|done].
  apply writePtNodeWithFullInfoToBuffer_written in H2 as (Hwritten & Ht2 & Hb2); [|lia].
  apply writeField_append in H3 as (_ & Ht3 & Hc3); [|lia].
  rewrite (bool_decide_eq_false_2 (NOT_A_DICT_POS ≠ NOT_A_DICT_POS)) in Hwritten
    by (intros Hne; by apply Hne).
  split.
  - exists r. unfold newArray. rewrite <- Hcount. split.
    { rewrite Hc3, lookup_insert_ne by (destruct Hwritten as (_ & _ & _ & _ & s & Hs & Hr);
                                        simpl in Hs, Hr; subst; destruct (bool_decide _); lia).
      rewrite Hb2 by lia. by rewrite Hc1, lookup_insert_eq. }
    split.
    { apply (written_ext b2); [done|].
      intros y Hy _. rewrite Hc3. by rewrite lookup_insert_ne by lia. }
    split; [by rewrite Hc3, lookup_insert_eq|lia].
  - intros y Hy. rewrite Hc3.
    assert (tail b + 1 <= r).
    { destruct Hwritten as (_ & _ & _ & _ & s & Hs & Hr). simpl in Hs, Hr. subst.
      destruct (bool_decide _); lia. }
    rewrite lookup_insert_ne by lia. rewrite Hb2 by lia.
    by rewrite Hc1, lookup_insert_ne by lia.
Qed.

(** Reading the array that is left at the tail. *)
Lemma newArray_read b a r codePoints probability :
  newArray b a r codePoints probability → 0 < a →
  arrays NOT_A_PROBABILITY b a [a + 1] r
  ∧ lands b (a + 1) (a + 1)
  ∧ a + 5 <= tail b
  ∧ getFlags b (a + 1)
    = createAndGetFlags false false (bool_decide (probability ≠ NOT_A_PROBABILITY))
        false false (bool_decide (Z.of_nat (length codePoints) > 1))
        CHILDREN_POSITION_FIELD_SIZE
  ∧ (probability ≠ NOT_A_PROBABILITY →
     cells b !! (a + 1 + 3) = Some (FProbability probability))
  ∧ mCodePoints (fetchNodeInfoFromBuffer NOT_A_PROBABILITY NOT_A_VALID_WORD_POS b (a + 1))
    = codePoints
  ∧ getHeadPos (fetchNodeInfoFromBuffer NOT_A_PROBABILITY NOT_A_VALID_WORD_POS b (a + 1))
    = a + 1.
Proof.
  intros (Hsize & Hwritten & Hlink & Htail) Ha.
  destruct (written_read _ _ _ _ _ _ _ Hwritten eq_refl ltac:(lia) ltac:(lia))
    as (Hlands & Hend & Hr & Hflags & Hfields).
  split.
  { apply arrays_last.
    - lia.
    - unfold getPtNodeArraySize. by rewrite Hsize.
    - split; [done|]. split; [by exists (a + 1)|]. by simpl.
    - lia.
    - unfold getForwardLinkPosition. by rewrite Hlink. }
  split; [done|]. split; [lia|]. split; [done|].
  split.
  { intros Hp. destruct Hwritten as (_ & _ & Hprob & _). apply Hprob.
    simpl. by apply bool_decide_eq_true_2. }
  destruct (fetchNode_read NOT_A_PROBABILITY NOT_A_VALID_WORD_POS _ _ _ Hlands)
    as (s & l & ->).
  split; [apply Hfields|done].
Qed.

End Written.

(** *** Marking a PtNode as moved *)

Section Marked.

Variable NOT_A_PROBABILITY : Z.
Variable NOT_A_VALID_WORD_POS : Z.
Hypothesis NOT_A_VALID_WORD_POS_negative : NOT_A_VALID_WORD_POS < 0.

Abbreviation fetchNode := (fetchNodeInfoFromBuffer NOT_A_PROBABILITY NOT_A_VALID_WORD_POS).
Abbreviation nextSibling := (readNextSiblingNode NOT_A_PROBABILITY NOT_A_VALID_WORD_POS).
Abbreviation fetchFrom := (fetchUnlessEnd NOT_A_PROBABILITY NOT_A_VALID_WORD_POS).
Abbreviation fetchInfo := (fetchNodeInfo NOT_A_PROBABILITY NOT_A_VALID_WORD_POS).
Abbreviation endOf := (endOfPtNode NOT_A_PROBABILITY).
Abbreviation arraysOf := (arrays NOT_A_PROBABILITY).
Abbreviation slotsOf := (slotsAt NOT_A_PROBABILITY).

(** [b0] is the buffer before the mutation; the PtNode at [q0], whose
    children position field is at [cf0], is the one that is marked. *)
Variables (b0 : Buffer) (q0 cf0 : Z).
Hypothesis b0_inside : ∀ x, x < 0 ∨ tail b0 <= x → cells b0 !! x = None.
Hypothesis b0_header : cells b0 !! 0 = Some FHeader.
Hypothesis q0_inside : nodeInside b0 q0.
Hypothesis q0_not_moved : flagIsMoved (getFlags b0 q0) = false.

(** The buffer once the PtNode at [q0] is marked: below the tail of [b0]
    it is [b0] but for the fields of the marked PtNode and for parent
    offsets; the reader is led from [q0] to a PtNode, or past the tail as
    long as the PtNode that replaces it is not written. *)
Definition marking (b : Buffer) : Prop :=
  (∀ x, x < 0 ∨ tail b <= x → cells b !! x = None)
  ∧ tail b0 <= tail b
  ∧ (∀ x, x < tail b0 → cellKept (Some q0) (Some cf0) None None b0 b x)
  ∧ entryOf (cells b !! tail b0) = None
  ∧ cells b !! q0 = Some (FFlags (updateAndGetFlags (getFlags b0 q0) true false))
  ∧ 0 < getParentOffset b (q0 + 1)
  ∧ ((∃ t, lands b q0 t) ∨ tail b <= q0 + getParentOffset b (q0 + 1)).

Lemma marking_framed b :
  marking b → framed NOT_A_PROBABILITY (Some q0) (Some cf0) None None b0 b.
Proof.
  intros (Hinside & Htail & Hcells & Hentry & Hflags & _).
  apply framed_of_cells; try done.
  - intros x Hx. apply b0_inside. by right.
  - intros x Hx. apply Hinside. by left.
  - intros x [= <-]. pose proof (nodeInside_range _ _ q0_inside) as Hq0.
    split; [lia|]. destruct q0_inside as ([flags Hcell] & _).
    exists flags. split; [done|]. unfold getFlags in q0_not_moved, Hflags.
    rewrite Hcell in q0_not_moved, Hflags. done.
Qed.

Lemma marking_header b : marking b → cells b !! 0 = Some FHeader.
Proof.
  intros (_ & _ & Hcells & _).
  pose proof (nodeInside_range _ _ q0_inside) as Hq0.
  pose proof (Hcells 0 ltac:(lia)) as H.
  kept_cases H; [by rewrite H|..]; congruence.
Qed.

Lemma marking_moved b : marking b → flagIsMoved (getFlags b q0) = true.
Proof. intros (_ & _ & _ & _ & Hflags & _). unfold getFlags. by rewrite Hflags. Qed.

(** The reader that is led past the tail holds no PtNode. *)
Lemma fetchMovedNode_dangling b p :
  marking b → tail b <= q0 + getParentOffset b (q0 + 1) →
  lands b0 p q0 →
  ∀ fuel s l, tail b - p <= Z.of_nat fuel →
    fetchMovedNode NOT_A_PROBABILITY NOT_A_VALID_WORD_POS fuel b p s l
    = invalidPtNodeInfo NOT_A_PROBABILITY NOT_A_VALID_WORD_POS.
Proof.
  intros Hmarking Hdangling Hlands.
  pose proof (marking_framed b Hmarking) as Hframe.
  pose proof (marking_moved b Hmarking) as Hmoved0.
  destruct Hmarking as (_ & Htail & _ & _ & _ & Hpositive & _).
  remember q0 as q eqn:Hq in Hlands.
  induction Hlands as [p Hin Hmoved|p q Hin Hmoved Hoffset _ IH]; intros fuel s l Hfuel;
    pose proof (nodeInside_range _ _ Hin) as Hp;
    (destruct fuel as [|fuel]; [lia|]);
    cbn [fetchMovedNode]; rewrite decide_False by lia; cbv zeta;
    change (mFlags (readPtNode NOT_A_PROBABILITY b p s l)) with (getFlags b p);
    change (mParentPos (readPtNode NOT_A_PROBABILITY b p s l))
      with (if decide (getParentOffset b (p + 1) = 0) then NOT_A_DICT_POS
            else p + getParentOffset b (p + 1)).
  - subst p. rewrite Hmoved0. rewrite decide_False by lia.
    destruct fuel; cbn [fetchMovedNode]; by rewrite decide_True by lia.
  - assert (Hne : Some q0 ≠ Some p) by (intros [= ->]; congruence).
    rewrite (framed_getFlags _ _ _ _ _ _ _ Hframe) by (done || lia).
    rewrite Hmoved.
    assert (Hoff : getParentOffset b (p + 1) = getParentOffset b0 (p + 1)).
    { apply (framed_offsets _ _ _ _ _ _ _ Hframe).
      - destruct Hin as (_ & _ & Hcf). unfold childrenFieldOf in Hcf.
        destruct (flagIsTerminal _); lia.
      - by replace (p + 1 - 1) with p by lia. }
    rewrite Hoff. rewrite decide_False by lia. apply IH; [done|lia].
Qed.

(** From a PtNode of [b0] the reader lands on a PtNode, or holds none. *)
Lemma fetchNode_marking b p q :
  marking b → lands b0 p q →
  (∃ t, lands b p t)
  ∨ fetchNode b p = invalidPtNodeInfo NOT_A_PROBABILITY NOT_A_VALID_WORD_POS.
Proof.
  intros Hmarking Hlands.
  pose proof (marking_framed b Hmarking) as Hframe.
  destruct (decide (q = q0)) as [->|Hne].
  - pose proof Hmarking as (_ & Htail & _ & _ & _ & _ & [[t Ht]|Hdangling]).
    + left. exists t. by apply (framed_lands _ _ _ _ _ _ _ Hframe p q0).
    + right. pose proof (nodeInside_range _ _ (lands_first _ _ _ Hlands)).
      apply fetchMovedNode_dangling; [done|done|done|lia].
  - left. exists q. apply (framed_lands_kept _ _ _ _ _ _ _ Hframe); [done|congruence].
Qed.

(** The write of the parent offset of a PtNode that is not moved keeps
    where the reader lands. *)
Lemma lands_offset b b1 h o og :
  cells b1 = <[h + 1 := FParentOffset o]> (cells b) → tail b1 = tail b →
  cells b !! (h + 1) = Some (FParentOffset og) →
  flagIsMoved (getFlags b h) = false →
  ∀ p t, lands b p t → lands b1 p t.
Proof.
  intros Hc1 Ht1 Hg Hmoved.
  assert (Hflags : ∀ x, getFlags b1 x = getFlags b x).
  { intros x. unfold getFlags. rewrite Hc1.
    destruct (decide (x = h + 1)) as [->|Hne].
    - by rewrite lookup_insert_eq, Hg.
    - by rewrite lookup_insert_ne. }
  assert (Hin : ∀ x, nodeInside b x → nodeInside b1 x).
  { intros x ([flags Hcell] & H0 & Hcf). split; [|split; [done|]].
    - exists flags. rewrite Hc1.
      rewrite lookup_insert_ne; [done|]. intros <-. congruence.
    - unfold childrenFieldOf in *. rewrite Hflags. lia. }
  induction 1 as [p Hp Hnot|p t Hp Hm Hoffset _ IH].
  - apply lands_stop; [by apply Hin|by rewrite Hflags].
  - assert (Hoff : getParentOffset b1 (p + 1) = getParentOffset b (p + 1)).
    { unfold getParentOffset. rewrite Hc1.
      rewrite lookup_insert_ne; [done|]. intros Heq.
      assert (h = p) as -> by lia. congruence. }
    apply lands_follow; [by apply Hin|by rewrite Hflags|by rewrite Hoff|].
    by rewrite Hoff.
Qed.

(** The loop over the children writes the parent offset of a PtNode the
    reader landed on. *)
Lemma marking_offset b b1 p h o r :
  marking b → lands b p h →
  writeField (FParentOffset o) (h + 1) b = (b1, Done r) →
  marking b1 ∧ tail b1 = tail b ∧ ∀ x, sameOrOffset b b1 x.
Proof.
  intros Hmarking Hlands Hwrite.
  pose proof (marking_moved b Hmarking) as Hmoved0.
  destruct (lands_last _ _ _ Hlands) as (Hin & Hmoved & _).
  pose proof (nodeInside_range _ _ Hin) as Hh.
  assert (Hh1 : h + 1 < tail b).
  { destruct Hin as (_ & _ & Hcf). unfold childrenFieldOf in Hcf.
    destruct (flagIsTerminal _); lia. }
  apply writeField_patch in Hwrite as (_ & Ht1 & Hc1 & _ & g & Hg & Hkind); [|lia].
  destruct g as [| |og| | | | | | |]; try done.
  assert (Hne : h ≠ q0) by (intros ->; congruence).
  destruct Hmarking as (Hinside & Htail & Hcells & Hentry & Hflags & Hpositive & Htarget).
  assert (Hq0 : q0 ≠ h + 1) by (intros ->; congruence).
  split; [|split; [done|]].
  - split; [|split; [lia|]].
    { intros x Hx. rewrite Hc1, lookup_insert_ne by lia. apply Hinside. lia. }
    split.
    { intros x Hx. unfold cellKept. rewrite Hc1.
      destruct (decide (x = h + 1)) as [->|Hx1];
        [|rewrite lookup_insert_ne by done; by apply Hcells].
      rewrite lookup_insert_eq.
      assert (Hb0 : ∃ o0, cells b0 !! (h + 1) = Some (FParentOffset o0)).
      { pose proof (Hcells (h + 1) Hx) as H.
        kept_cases H; [rewrite <- H; eauto|eauto|..]; congruence. }
      destruct Hb0 as [o0 Hb0].
      right. left. exists o0, o. split; [done|]. split; [done|].
      replace (h + 1 - 1) with h by lia.
      pose proof (Hcells h ltac:(lia)) as H. unfold getFlags in Hmoved |- *.
      kept_cases H; [by rewrite <- H|by rewrite Hb|congruence|by rewrite Hb|done|done]. }
    split.
    { rewrite Hc1. destruct (decide (tail b0 = h + 1)) as [->|Hx1].
      - by rewrite lookup_insert_eq.
      - by rewrite lookup_insert_ne. }
    split; [by rewrite Hc1, lookup_insert_ne|].
    assert (Hoff : getParentOffset b1 (q0 + 1) = getParentOffset b (q0 + 1)).
    { unfold getParentOffset. rewrite Hc1. by rewrite lookup_insert_ne by lia. }
    rewrite Hoff, Ht1. split; [done|].
    destruct Htarget as [[t Ht]|Hdangling]; [left|by right].
    exists t. by apply (lands_offset b b1 h o og).
  - intros x. unfold sameOrOffset. rewrite Hc1.
    destruct (decide (x = h + 1)) as [->|Hx1].
    + right. exists og, o. by rewrite lookup_insert_eq.
    + left. by rewrite lookup_insert_ne.
Qed.

(** The PtNodes of [b0] that the reader has still to read: [count] of them
    from [pos] on, then those of the arrays chained to these. *)
Definition rest0 (pos count : Z) (slots : list Z) : Prop :=
  ∃ ps linkFieldPos rest,
    slots = ps ++ rest ∧ count = Z.of_nat (length ps)
    ∧ slotsOf b0 pos ps linkFieldPos ∧ linkFieldPos < tail b0
    ∧ (getForwardLinkPosition b0 linkFieldPos = NOT_A_DICT_POS ∧ rest = []
       ∨ getForwardLinkPosition b0 linkFieldPos ≠ NOT_A_DICT_POS
         ∧ ∃ last, arraysOf b0 (getForwardLinkPosition b0 linkFieldPos) rest last).

(** The helper [s] reads, in [b], the PtNodes [slots] of [b0]. *)
Definition walked0 (b : Buffer) (s : ReadingHelper) (slots : list Z) : Prop :=
  match slots with
  | [] => mPos s = NOT_A_DICT_POS
  | p :: rest =>
      ∃ pre, s = fetchInfo b pre ∧ mPos pre = p ∧ (∃ q, lands b0 p q)
             ∧ rest0 (endOf b0 p) (mNodeCount pre - 1) rest
  end.

Lemma enterNodeArray_marking b a slots last :
  arraysOf b0 a slots last → marking b →
  ∀ fuel rh, tail b - a <= Z.of_nat fuel →
    walked0 b (fetchFrom b (enterNodeArray fuel b rh a)) slots.
Proof.
  intros Harrays Hmarking.
  pose proof (marking_framed b Hmarking) as Hframe.
  pose proof Hmarking as (_ & Htail & _).
  induction Harrays as [a ps linkFieldPos Hin Hsize Hlayout Hinside Hlink
                       |a ps linkFieldPos rest lastLinkFieldPos Hin Hsize Hlayout Hinside
                          Hlink Hafter Harrays IH];
    intros fuel rh Hfuel; (destruct fuel as [|fuel]; [lia|]);
    cbn [enterNodeArray];
    rewrite (framed_size _ _ _ _ _ _ _ Hframe) by lia; rewrite Hsize;
    (destruct ps as [|p ps];
     [simpl in Hlayout; subst linkFieldPos; simpl length;
      rewrite decide_False by (simpl; lia);
      rewrite (framed_links _ _ _ _ _ _ _ Hframe) by done
     |rewrite decide_True by (simpl length; lia);
      destruct Hlayout as (Hp & Hq & Hlayout);
      unfold fetchUnlessEnd; rewrite isEnd_false by (simpl; unfold NOT_A_DICT_POS; lia);
      eexists; split; [done|]; split; [by simpl|]; split; [done|];
      cbn [mNodeCount]]).
  - rewrite decide_True by done. by rewrite fetchUnlessEnd_end.
  - exists ps, linkFieldPos, []. rewrite app_nil_r. simpl length.
    split; [done|]. split; [lia|]. split; [done|]. split; [done|]. by left.
  - rewrite decide_False by done. apply IH. lia.
  - exists ps, linkFieldPos, rest. simpl length.
    split; [done|]. split; [lia|]. split; [done|]. split; [done|]. right. eauto.
Qed.

Lemma readNextSiblingNode_marking b s slots :
  marking b → rest0 (mPos s) (mNodeCount s) slots → mPos s ≠ NOT_A_DICT_POS →
  walked0 b (nextSibling b s) slots.
Proof.
  intros Hmarking (ps & linkFieldPos & rest & -> & Hcount & Hlayout & Hinside & Hrest)
    Hnotend.
  pose proof (marking_framed b Hmarking) as Hframe.
  unfold readNextSiblingNode. destruct ps as [|p ps].
  - simpl in Hlayout. subst linkFieldPos. simpl in Hcount.
    rewrite decide_True by lia. unfold followForwardLink.
    rewrite (framed_links _ _ _ _ _ _ _ Hframe) by done.
    destruct Hrest as [(Hlink & ->)|(Hlink & last & Harrays)].
    + rewrite decide_True by done. by rewrite fetchUnlessEnd_end.
    + rewrite decide_False by done. simpl.
      pose proof (arrays_inside _ _ _ _ _ Harrays).
      apply (enterNodeArray_marking b _ _ last); [done|done|lia].
  - rewrite decide_False by (simpl length in Hcount; lia).
    destruct Hlayout as (Hp & Hq & Hlayout).
    unfold fetchUnlessEnd. rewrite isEnd_false by done.
    exists s. split; [done|]. split; [done|]. split; [done|].
    exists ps, linkFieldPos, rest. simpl length in Hcount.
    split; [done|]. split; [lia|]. done.
Qed.

(** The loop over the children of the PtNode that is marked: it writes
    parent offsets only. *)
Lemma updateChildrenParentLoop_marking movedPos slots :
  ∀ fuel b s b',
    marking b → walked0 b s slots →
    updateChildrenParentLoop NOT_A_PROBABILITY NOT_A_VALID_WORD_POS fuel s movedPos b
    = (b', Done tt) →
    marking b' ∧ tail b' = tail b ∧ ∀ x, sameOrOffset b b' x.
Proof.
  induction slots as [|p rest IH]; intros fuel b s b' Hmarking Hwalked Hrun.
  - simpl in Hwalked.
    assert (Hend : isEnd s = true) by (by apply bool_decide_eq_true_2).
    destruct fuel; cbn [updateChildrenParentLoop] in Hrun; rewrite Hend in Hrun;
      injection Hrun as <-; (split; [done|]; split; [done|]; by left).
  - destruct Hwalked as (pre & -> & Hpre & [q Hq] & Hrest).
    pose proof (marking_framed b Hmarking) as Hframe.
    pose proof (marking_header b Hmarking) as Hheader.
    pose proof Hmarking as (_ & Htail & _).
    pose proof (nodeInside_range _ _ q0_inside) as Hq0.
    destruct (fetchNode_marking b p q Hmarking Hq) as [[t Ht]|Hinvalid].
    + destruct (fetchNode_lands NOT_A_PROBABILITY NOT_A_VALID_WORD_POS b p t
                  (lands_landsAt _ _ _ Ht)) as (Hhead & _ & Hsibling).
      destruct (framed_endOf _ _ _ _ _ _ _ Hframe p (lands_first _ _ _ Hq))
        as [Hend _].
      pose proof (endOfPtNode_gt NOT_A_PROBABILITY b0 p) as Hgt.
      pose proof (nodeInside_range _ _ (lands_first _ _ _ Hq)) as Hp.
      set (s := fetchInfo b pre) in *.
      assert (Hpos : mPos s = endOf b0 p)
        by (unfold s, fetchNodeInfo; cbn [mPos]; rewrite Hpre, Hsibling; done).
      assert (Hnotend : mPos s ≠ NOT_A_DICT_POS)
        by (rewrite Hpos; unfold NOT_A_DICT_POS; lia).
      assert (Hheadpos : getHeadPos (getNodeReader s) = t)
        by (unfold s, fetchNodeInfo, getNodeReader; cbn [mNodeReader]; by rewrite Hpre).
      destruct fuel as [|fuel]; cbn [updateChildrenParentLoop] in Hrun;
        rewrite isEnd_false in Hrun by done; [done|].
      rewrite Hheadpos in Hrun.
      apply bind_Done in Hrun as (b1 & r1 & Hwrite & Hrun).
      rewrite bind_current in Hrun.
      unfold writeParentOffsetAndAdvancePosition in Hwrite.
      destruct (marking_offset b b1 p t _ _ Hmarking Ht Hwrite) as (Hmarking1 & Ht1 & Hsame1).
      destruct (IH fuel b1 (nextSibling b1 s) b' Hmarking1) as (Hmarking' & Ht' & Hsame');
        [|done|].
      * apply readNextSiblingNode_marking; [done| |done].
        rewrite Hpos. unfold s, fetchNodeInfo. cbn [mNodeCount]. done.
      * split; [done|]. split; [lia|]. intros x.
        by apply (sameOrOffset_trans b b1 b').
    + set (s := fetchInfo b pre) in *.
      assert (Hnode : mNodeReader s
                      = invalidPtNodeInfo NOT_A_PROBABILITY NOT_A_VALID_WORD_POS)
        by (unfold s, fetchNodeInfo; cbn [mNodeReader]; by rewrite Hpre).
      assert (Hnotend : mPos s ≠ NOT_A_DICT_POS).
      { unfold s, fetchNodeInfo. cbn [mPos]. rewrite Hpre, Hinvalid.
        unfold getSiblingNodePos, invalidPtNodeInfo, NOT_A_DICT_POS. cbn [mSiblingPos].
        lia. }
      destruct fuel as [|fuel]; cbn [updateChildrenParentLoop] in Hrun;
        rewrite isEnd_false in Hrun by done; [done|].
      unfold getNodeReader in Hrun. rewrite Hnode in Hrun.
      apply bind_Done in Hrun as (b1 & r1 & Hwrite & _).
      unfold writeParentOffsetAndAdvancePosition, getHeadPos, invalidPtNodeInfo in Hwrite.
      cbn [mHeadPos] in Hwrite.
      apply writeField_patch in Hwrite as (_ & _ & _ & Hrange & g & Hg & Hkind); [|lia].
      assert (NOT_A_VALID_WORD_POS + 1 = 0) as Heq by lia.
      rewrite Heq, Hheader in Hg. by injection Hg as <-.
Qed.

(** [markNodeAsMovedAndSetPosition] on the PtNode at [q0], in a buffer [b]
    that is [b0] with fields appended. *)
Lemma markNodeAsMovedAndSetPosition_marking fuel n movedPos linked b b' :
  getHeadPos n = q0 → getChildrenPosFieldPos n = cf0 → cf0 = childrenFieldOf b0 q0 →
  (hasChildren n = true → ∃ slots last, arraysOf b0 (getChildrenPos n) slots last) →
  tail b0 <= tail b → (∀ x, x < tail b0 → cells b !! x = cells b0 !! x) →
  (∀ x, x < 0 ∨ tail b <= x → cells b !! x = None) →
  entryOf (cells b !! tail b0) = None →
  q0 < movedPos →
  (lands b movedPos movedPos ∧ tail b0 <= movedPos ∨ tail b <= movedPos) →
  markNodeAsMovedAndSetPosition NOT_A_PROBABILITY NOT_A_VALID_WORD_POS fuel n movedPos
    linked b = (b', Done tt) →
  marking b' ∧ tail b' = tail b
  ∧ cells b' !! (q0 + 1) = Some (FParentOffset (movedPos - q0))
  ∧ cells b' !! cf0 = Some (FChildrenPos linked)
  ∧ (∀ x, tail b0 <= x → sameOrOffset b b' x).
Proof.
  intros Hhead Hfield Hcf0 Hchildren Htail Hbelow Hinside Hentry HmovedPos Htarget Hrun.
  pose proof (nodeInside_range _ _ q0_inside) as Hq0.
  assert (Hcf : q0 + 3 <= cf0 < tail b0).
  { destruct q0_inside as (_ & _ & Hcf). rewrite <- Hcf0 in Hcf. split; [|done].
    rewrite Hcf0. unfold childrenFieldOf. destruct (flagIsTerminal _); lia. }
  destruct (markNodeAsMovedAndSetPosition_marks (tail b0) q0 cf0 movedPos linked
              ltac:(lia) ltac:(lia) NOT_A_PROBABILITY NOT_A_VALID_WORD_POS fuel n b b'
              Hhead Hfield Htail Hrun) as [[_ Hmarked] _].
  destruct (Hmarked eq_refl) as (_ & Hoffset' & Hchildren').
  unfold markNodeAsMovedAndSetPosition in Hrun. rewrite bind_current in Hrun.
  rewrite Hhead, Hfield in Hrun.
  unfold writeFlagsAndAdvancePosition, writeParentOffsetAndAdvancePosition,
    writeChildrenPositionAndAdvancePosition in Hrun.
  apply bind_Done in Hrun as (b1 & r1 & H1 & Hrun).
  apply bind_Done in Hrun as (b2 & r2 & H2 & Hrun).
  apply bind_Done in Hrun as (b3 & r3 & H3 & Hrun).
  apply writeField_patch in H1 as (-> & Ht1 & Hc1 & _ & g1 & Hg1 & Hk1); [|lia].
  apply writeField_patch in H2 as (_ & Ht2 & Hc2 & _ & g2 & Hg2 & Hk2); [|lia].
  apply writeField_patch in H3 as (_ & Ht3 & Hc3 & _ & g3 & Hg3 & Hk3); [|lia].
  destruct g1 as [|flags1| | | | | | | |]; try done.
  destruct g2 as [| |o2| | | | | | |]; try done.
  destruct g3 as [| | | | |c3| | | |]; try done.
  rewrite Hc1, lookup_insert_ne in Hg2 by lia.
  rewrite Hc2, lookup_insert_ne in Hg3 by lia. rewrite Hc1, lookup_insert_ne in Hg3 by lia.
  assert (Hflags0 : getFlags b q0 = getFlags b0 q0)
    by (unfold getFlags; by rewrite Hbelow by lia).
  assert (Hcells3 : ∀ x, x ≠ q0 → x ≠ q0 + 1 → x ≠ cf0 → cells b3 !! x = cells b !! x).
  { intros x ? ? ?. rewrite Hc3, lookup_insert_ne by done.
    rewrite Hc2, lookup_insert_ne by done. by rewrite Hc1, lookup_insert_ne by done. }
  assert (Hq3 : cells b3 !! q0
                = Some (FFlags (updateAndGetFlags (getFlags b0 q0) true false))).
  { rewrite Hc3, lookup_insert_ne by lia. rewrite Hc2, lookup_insert_ne by lia.
    by rewrite Hc1, lookup_insert_eq, Hflags0. }
  assert (Ho3 : cells b3 !! (q0 + 1) = Some (FParentOffset (movedPos - q0))).
  { rewrite Hc3, lookup_insert_ne by lia. by rewrite Hc2, lookup_insert_eq. }
  assert (Hmarking3 : marking b3).
  { split; [|split; [lia|]].
    { intros x Hx. rewrite Hcells3 by lia. apply Hinside. lia. }
    split.
    { intros x Hx. unfold cellKept.
      destruct (decide (x = q0)) as [->|Hx0].
      { right. right. left. split; [done|].
        destruct q0_inside as ([flags Hcell] & _). exists flags. split; [done|].
        rewrite Hq3. unfold getFlags. by rewrite Hcell. }
      destruct (decide (x = q0 + 1)) as [->|Hx1].
      { right. left. exists o2, (movedPos - q0).
        rewrite <- Hbelow by lia. split; [done|]. split; [done|].
        by replace (q0 + 1 - 1) with q0 by lia. }
      destruct (decide (x = cf0)) as [->|Hx2].
      { do 3 right. left. split; [done|]. exists c3, linked.
        rewrite <- Hbelow by lia. split; [done|]. by rewrite Hc3, lookup_insert_eq. }
      left. rewrite Hcells3 by done. by apply Hbelow. }
    split; [by rewrite Hcells3 by lia|].
    split; [done|].
    unfold getParentOffset. rewrite Ho3. split; [lia|].
    destruct Htarget as [[Hlands Hnew]|Hdangling]; [left|right; lia].
    exists movedPos.
    assert (Hflags3 : ∀ x, getFlags b3 x
                           = if decide (x = q0)
                             then updateAndGetFlags (getFlags b0 q0) true false
                             else getFlags b x).
    { intros x. unfold getFlags at 1. destruct (decide (x = q0)) as [->|Hx0].
      - by rewrite Hq3.
      - destruct (decide (x = q0 + 1)) as [->|Hx1].
        { rewrite Ho3. unfold getFlags. by rewrite Hg2. }
        destruct (decide (x = cf0)) as [->|Hx2].
        { rewrite Hc3, lookup_insert_eq. unfold getFlags. by rewrite Hg3. }
        by rewrite Hcells3 by done. }
    apply lands_follow.
    - split; [by eauto|]. split; [lia|]. unfold childrenFieldOf.
      rewrite Hflags3, decide_True by done. cbn [updateAndGetFlags flagIsTerminal].
      fold (childrenFieldOf b0 q0). lia.
    - by rewrite Hflags3, decide_True by done.
    - unfold getParentOffset. rewrite Ho3. lia.
    - unfold getParentOffset. rewrite Ho3. replace (q0 + (movedPos - q0)) with movedPos by lia.
      destruct (lands_last _ _ _ Hlands) as (([flags Hcell] & H0 & Hcfm) & Hnot & _).
      apply lands_stop.
      + split; [exists flags; by rewrite Hcells3 by lia|]. split; [done|].
        unfold childrenFieldOf in *. rewrite Hflags3, decide_False by lia. lia.
      + by rewrite Hflags3, decide_False by lia. }
  assert (Hsame3 : ∀ x, tail b0 <= x → sameOrOffset b b3 x).
  { intros x Hx. left. apply Hcells3; lia. }
  destruct (hasChildren n) eqn:Hhas.
  - rewrite bind_current in Hrun.
    destruct (Hchildren eq_refl) as (slots & last & Harrays).
    pose proof (arrays_inside _ _ _ _ _ Harrays) as Ha.
    assert (Hwalked : walked0 b3 (initWithNodeArrayPos NOT_A_PROBABILITY
                                    NOT_A_VALID_WORD_POS b3 (getChildrenPos n)) slots).
    { unfold initWithNodeArrayPos.
      rewrite decide_False by (unfold NOT_A_DICT_POS; lia).
      unfold nextNodeArray. cbn [mPos].
      apply (enterNodeArray_marking b3 _ _ last); [done|done|lia]. }
    destruct (updateChildrenParentLoop_marking movedPos slots fuel b3 _ b' Hmarking3
                Hwalked Hrun) as (Hmarking' & Ht' & Hsame').
    split; [done|]. split; [lia|]. split; [done|]. split; [done|].
    intros x Hx. apply (sameOrOffset_trans b b3 b'); [by apply Hsame3|done].
  - injection Hrun as <-.
    split; [done|]. split; [lia|]. split; [done|]. split; [done|]. done.
Qed.

(** The frame once fields are appended after the marking. *)
Lemma marking_framed_after b1 b' :
  marking b1 → (∀ x, x < tail b0 → cells b' !! x = cells b1 !! x) →
  tail b0 <= tail b' → entryOf (cells b' !! tail b0) = None →
  framed NOT_A_PROBABILITY (Some q0) (Some cf0) None None b0 b'.
Proof.
  intros (Hinside & Htail & Hcells & Hentry & Hflags & _) Hbelow Htail' Hentry'.
  pose proof (nodeInside_range _ _ q0_inside) as Hq0.
  apply framed_of_cells; try done.
  - intros x Hx. apply b0_inside. by right.
  - intros x Hx. rewrite Hbelow by lia. apply Hinside. by left.
  - intros x [= <-]. split; [lia|]. destruct q0_inside as ([flags Hcell] & _).
    exists flags. split; [done|]. rewrite Hbelow by lia.
    unfold getFlags in q0_not_moved, Hflags.
    rewrite Hcell in q0_not_moved, Hflags. done.
  - intros x Hx. unfold cellKept. rewrite Hbelow by done. by apply Hcells.
Qed.

End Marked.

Section Path.

Variable NOT_A_PROBABILITY : Z.
Variable NOT_A_VALID_WORD_POS : Z.

Abbreviation fetchNode := (fetchNodeInfoFromBuffer NOT_A_PROBABILITY NOT_A_VALID_WORD_POS).
Abbreviation nextSibling := (readNextSiblingNode NOT_A_PROBABILITY NOT_A_VALID_WORD_POS).
Abbreviation fetchFrom := (fetchUnlessEnd NOT_A_PROBABILITY NOT_A_VALID_WORD_POS).
Abbreviation siblingsOf := (siblings NOT_A_PROBABILITY NOT_A_VALID_WORD_POS).
Abbreviation arraysOf := (arrays NOT_A_PROBABILITY).
Abbreviation landsOf := lands.

(** The word that is added, its length and its probability. *)
Variable word : list Z.
Variable length : Z.
Variable probability : Z.

(** The code point [j] of a PtNode with the code points [codePoints] is the
    code point of the word at [matched + j]. *)
Definition matches (codePoints : list Z) (matched j : Z) : Prop :=
  0 <= j ∧ codePoints !! Z.to_nat j = Some (codePointAt word (matched + j)).

Lemma isMatchedCodePoint_matches rh matched j :
  isMatchedCodePoint rh j (codePointAt word (matched + j))
  = bool_decide (matches (mCodePoints (mNodeReader rh)) matched j).
Proof. done. Qed.

Lemma isMatchedCodePoint_first rh matched :
  isMatchedCodePoint rh 0 (codePointAt word matched)
  = bool_decide (matches (mCodePoints (mNodeReader rh)) matched 0).
Proof. rewrite <- isMatchedCodePoint_matches. by rewrite Z.add_0_r. Qed.

Lemma findSplit_None fuel rh matched j0 :
  findSplit fuel rh word length matched j0 = None →
  ∀ j, j0 <= j < j0 + Z.of_nat fuel →
    matched + j < length ∧ matches (mCodePoints (mNodeReader rh)) matched j.
Proof.
  revert j0. induction fuel as [|fuel IH]; intros j0 Hnone j Hj; [lia|].
  cbn [findSplit] in Hnone. rewrite isMatchedCodePoint_matches in Hnone.
  destruct (bool_decide (matched + j0 >= length)) eqn:Hlen; [done|].
  destruct (bool_decide (matches _ matched j0)) eqn:Hmatch; [|done].
  simpl in Hnone. apply bool_decide_eq_false in Hlen. apply bool_decide_eq_true in Hmatch.
  destruct (decide (j = j0)) as [->|]; [split; [lia|done]|].
  apply (IH (j0 + 1)); [done|lia].
Qed.

Lemma findSplit_Some fuel rh matched j0 j :
  findSplit fuel rh word length matched j0 = Some j →
  j0 <= j < j0 + Z.of_nat fuel
  ∧ (∀ j', j0 <= j' < j →
       matched + j' < length ∧ matches (mCodePoints (mNodeReader rh)) matched j')
  ∧ (matched + j >= length ∨ ¬ matches (mCodePoints (mNodeReader rh)) matched j).
Proof.
  revert j0. induction fuel as [|fuel IH]; intros j0 Hsome; [done|].
  cbn [findSplit] in Hsome. rewrite isMatchedCodePoint_matches in Hsome.
  destruct (bool_decide (matched + j0 >= length)) eqn:Hlen.
  { injection Hsome as <-. apply bool_decide_eq_true in Hlen.
    split; [lia|]. split; [intros; lia|by left]. }
  destruct (bool_decide (matches _ matched j0)) eqn:Hmatch; simpl in Hsome.
  - apply bool_decide_eq_false in Hlen. apply bool_decide_eq_true in Hmatch.
    destruct (IH _ Hsome) as (Hj & Hbefore & Hat).
    split; [lia|]. split; [|done].
    intros j' Hj'. destruct (decide (j' = j0)) as [->|]; [split; [lia|done]|].
    apply Hbefore. lia.
  - injection Hsome as <-. apply bool_decide_eq_false in Hmatch.
    split; [lia|]. split; [intros; lia|by right].
Qed.

Lemma mismatchFrom_false fuel rh matched j0 :
  (∀ j, j0 <= j < j0 + Z.of_nat fuel →
     matches (mCodePoints (mNodeReader rh)) matched j) →
  mismatchFrom fuel rh word matched j0 = false.
Proof.
  revert j0. induction fuel as [|fuel IH]; intros j0 Hall; [done|].
  cbn [mismatchFrom]. rewrite isMatchedCodePoint_matches.
  rewrite bool_decide_eq_true_2 by (apply Hall; lia). simpl.
  apply IH. intros j Hj. apply Hall. lia.
Qed.

(** Where [addUnigramWord] stops: at the end of the siblings, with the last
    forward link field at [linkFieldPos]; or at the PtNode read from [p],
    which it splits at [j], or whose probability it sets, or which gets its
    first child.  [matched] code points of the word are matched before. *)
Inductive Final :=
| AtEnd (linkFieldPos matched : Z)
| Split (p matched j : Z)
| Exact (p matched : Z)
| Leaf (p matched : Z).

Section InBuffer.

Variable b : Buffer.

Definition codePointsAt (p : Z) : list Z := mCodePoints (fetchNode b p).
Definition countAt (p : Z) : Z := getCodePointCount (fetchNode b p).

(** All the code points of the PtNode read from [p] match the word. *)
Definition matchesAll (p matched : Z) : Prop :=
  ∀ j, 1 <= j < countAt p → matched + j < length ∧ matches (codePointsAt p) matched j.

(** The path of [addUnigramWord] through the siblings [slots]. *)
Inductive addLevel : Z → list Z → Z → nat → Final → Prop :=
| addLevel_end matched linkFieldPos :
    addLevel matched [] linkFieldPos 0 (AtEnd linkFieldPos matched)
| addLevel_skip matched p rest linkFieldPos n final :
    (∃ q, landsOf b p q) →
    ¬ matches (codePointsAt p) matched 0 →
    addLevel matched rest linkFieldPos n final →
    addLevel matched (p :: rest) linkFieldPos (S n) final
| addLevel_split matched p rest linkFieldPos j :
    (∃ q, landsOf b p q) →
    matches (codePointsAt p) matched 0 →
    1 <= j < countAt p →
    (∀ j', 1 <= j' < j → matched + j' < length ∧ matches (codePointsAt p) matched j') →
    (matched + j >= length ∨ ¬ matches (codePointsAt p) matched j) →
    addLevel matched (p :: rest) linkFieldPos 1 (Split p matched j)
| addLevel_exact matched p rest linkFieldPos :
    (∃ q, landsOf b p q) →
    matches (codePointsAt p) matched 0 → matchesAll p matched →
    length = matched + countAt p →
    addLevel matched (p :: rest) linkFieldPos 1 (Exact p matched)
| addLevel_leaf matched p rest linkFieldPos :
    (∃ q, landsOf b p q) →
    matches (codePointsAt p) matched 0 → matchesAll p matched →
    matched + countAt p < length →
    hasChildren (fetchNode b p) = false →
    addLevel matched (p :: rest) linkFieldPos 1 (Leaf p matched)
| addLevel_descend matched p rest linkFieldPos slots linkFieldPos' n final :
    (∃ q, landsOf b p q) →
    matches (codePointsAt p) matched 0 → matchesAll p matched →
    matched + countAt p < length →
    hasChildren (fetchNode b p) = true →
    arraysOf b (getChildrenPos (fetchNode b p)) slots linkFieldPos' →
    addLevel (matched + countAt p) slots linkFieldPos' n final →
    addLevel matched (p :: rest) linkFieldPos (S n) final.

(** What [addUnigramWord] does where it stops. *)
Definition finalAction (fuel : nat) (final : Final) (parentPos : Z) : Write unit :=
  match final with
  | AtEnd linkFieldPos matched =>
      createAndInsertNodeIntoPtNodeArray NOT_A_PROBABILITY parentPos
        (drop (Z.to_nat matched) word) (length - matched) probability linkFieldPos
  | Split p matched j =>
      reallocatePtNodeAndAddNewPtNodes NOT_A_PROBABILITY NOT_A_VALID_WORD_POS fuel
        (fetchNode b p) (codePointsAt p) j probability
        (drop (Z.to_nat matched) word) (length - matched)
  | Exact p matched =>
      setPtNodeProbability NOT_A_PROBABILITY NOT_A_VALID_WORD_POS fuel (fetchNode b p)
        probability (codePointsAt p)
  | Leaf p matched =>
      createChildrenPtNodeArrayAndAChildPtNode NOT_A_PROBABILITY (fetchNode b p)
        probability (drop (Z.to_nat (matched + countAt p)) word)
        (length - (matched + countAt p))
  end.

(** The forward link field at [linkFieldPos] ends a chain of arrays. *)
Definition endsChain (linkFieldPos : Z) : Prop :=
  linkFieldPos < tail b ∧ getForwardLinkPosition b linkFieldPos = NOT_A_DICT_POS.

Lemma arrays_endsChain a slots linkFieldPos :
  arraysOf b a slots linkFieldPos → endsChain linkFieldPos.
Proof. by induction 1. Qed.

(** What holds where the path stops. *)
Definition finalFacts (final : Final) : Prop :=
  match final with
  | AtEnd linkFieldPos matched => 0 <= matched < length ∧ endsChain linkFieldPos
  | Split p matched j =>
      0 <= matched < length
      ∧ (∃ q, landsOf b p q)
      ∧ matches (codePointsAt p) matched 0
      ∧ 1 <= j < countAt p
      ∧ (∀ j', 1 <= j' < j →
           matched + j' < length ∧ matches (codePointsAt p) matched j')
      ∧ (matched + j >= length ∨ ¬ matches (codePointsAt p) matched j)
  | Exact p matched =>
      0 <= matched < length
      ∧ (∃ q, landsOf b p q)
      ∧ matches (codePointsAt p) matched 0 ∧ matchesAll p matched
      ∧ length = matched + countAt p
  | Leaf p matched =>
      0 <= matched < length
      ∧ (∃ q, landsOf b p q)
      ∧ matches (codePointsAt p) matched 0 ∧ matchesAll p matched
      ∧ matched + countAt p < length
      ∧ hasChildren (fetchNode b p) = false
  end.

Lemma addLevel_finalFacts matched slots linkFieldPos n final :
  addLevel matched slots linkFieldPos n final →
  endsChain linkFieldPos → 0 <= matched < length → finalFacts final.
Proof.
  induction 1 as [matched linkFieldPos
                 |matched p rest linkFieldPos n final Hq Hfirst Hlevel IH
                 |matched p rest linkFieldPos j Hq Hfirst Hj Hbefore Hat
                 |matched p rest linkFieldPos Hq Hfirst Hall Hlen
                 |matched p rest linkFieldPos Hq Hfirst Hall Hlen Hchildren
                 |matched p rest linkFieldPos slots linkFieldPos' n final Hq Hfirst Hall
                    Hlen Hchildren Harrays Hlevel IH];
    intros Hends Hmatched; simpl; try done.
  - by apply IH.
  - apply IH; [by apply (arrays_endsChain _ _ _ Harrays)|].
    unfold countAt, getCodePointCount in *. lia.
Qed.

(** The children of every PtNode that is read are laid out. *)
Definition childrenLaidOut : Prop :=
  ∀ p q, lands b p q → hasChildren (fetchNode b p) = true →
    ∃ slots linkFieldPos,
      arraysOf b (getChildrenPos (fetchNode b p)) slots linkFieldPos.

Hypothesis b_childrenLaidOut : childrenLaidOut.

Lemma addUnigramWordLoop_path fuel moveFuel b' :
  ∀ s slots e linkFieldPos parentPos,
    siblingsOf b s slots e →
    mPosOfLastForwardLinkField e = linkFieldPos →
    mPrevTotalCodePointCount s < length →
    addUnigramWordLoop NOT_A_PROBABILITY NOT_A_VALID_WORD_POS fuel moveFuel s word
      length probability parentPos b = (b', Done tt) →
    ∃ n final parentPos',
      addLevel (mPrevTotalCodePointCount s) slots linkFieldPos n final
      ∧ (n ≤ fuel)%nat
      ∧ finalAction moveFuel final parentPos' b = (b', Done tt).
Proof.
  assert (Hend : ∀ fuel' e linkFieldPos parentPos,
    mPos e = NOT_A_DICT_POS → mPosOfLastForwardLinkField e = linkFieldPos →
    addUnigramWordLoop NOT_A_PROBABILITY NOT_A_VALID_WORD_POS fuel' moveFuel e word
      length probability parentPos b = (b', Done tt) →
    ∃ n final parentPos',
      addLevel (mPrevTotalCodePointCount e) [] linkFieldPos n final
      ∧ (n ≤ fuel')%nat
      ∧ finalAction moveFuel final parentPos' b = (b', Done tt)).
  { intros fuel' e linkFieldPos parentPos Hend Hlink Hrun.
    assert (Hisend : isEnd e = true) by (by apply bool_decide_eq_true_2).
    exists 0%nat, (AtEnd linkFieldPos (mPrevTotalCodePointCount e)), parentPos.
    split; [constructor|]. split; [lia|]. simpl. rewrite <- Hlink.
    destruct fuel'; cbn [addUnigramWordLoop] in Hrun; rewrite Hisend in Hrun;
      by destruct (isError e). }
  induction fuel as [|fuel IH];
    intros s slots e linkFieldPos parentPos Hsib Hlink Hbelow;
    (destruct Hsib as [e Hisend|s p rest e Hnotend Hnode Hq Hsib]; [by apply Hend|]);
    cbn [addUnigramWordLoop]; rewrite isEnd_false by done; [done|].
  unfold getPrevTotalCodePointCount, getMergedNodeCodePoints, getNodeReader.
  rewrite isMatchedCodePoint_first.
  assert (Hcps : mCodePoints (mNodeReader s) = codePointsAt p)
    by (unfold codePointsAt; by rewrite Hnode).
  assert (Hcount : getCodePointCount (mNodeReader s) = countAt p)
    by (unfold countAt; by rewrite Hnode).
  assert (Htotal : getTotalCodePointCount s = mPrevTotalCodePointCount s + countAt p)
    by (unfold getTotalCodePointCount; by rewrite <- Hcount).
  rewrite Hcps, Hcount, Htotal.
  destruct (bool_decide (matches (codePointsAt p) (mPrevTotalCodePointCount s) 0))
    eqn:Hfirst; cbn [negb].
  2:{ (* the next sibling *)
    apply bool_decide_eq_false in Hfirst.
    rewrite bind_current. intros Hrun.
    destruct (IH _ _ _ linkFieldPos _ Hsib Hlink
                ltac:(by rewrite readNextSiblingNode_prevTotal) Hrun)
      as (n & final & parentPos' & Hlevel & Hn & Haction).
    rewrite readNextSiblingNode_prevTotal in Hlevel.
    exists (S n), final, parentPos'. split; [by constructor|]. split; [lia|done]. }
  apply bool_decide_eq_true in Hfirst.
  destruct (findSplit _ s word length (mPrevTotalCodePointCount s) 1) as [j|] eqn:Hsplit.
  { (* the PtNode is split *)
    intros Hrun. apply findSplit_Some in Hsplit as (Hj & Hbefore & Hat).
    rewrite Hcps in Hbefore, Hat.
    exists 1%nat, (Split p (mPrevTotalCodePointCount s) j), parentPos.
    split; [apply addLevel_split; [done|done|lia|done|done]|]. split; [lia|].
    simpl. by rewrite Hnode in Hrun. }
  pose proof (findSplit_None _ _ _ _ Hsplit) as Hall. rewrite Hcps in Hall.
  assert (Hall' : matchesAll p (mPrevTotalCodePointCount s)).
  { intros j Hj. apply Hall. lia. }
  assert (Hle : mPrevTotalCodePointCount s + countAt p <= length).
  { destruct (decide (1 < countAt p)).
    - destruct (Hall' (countAt p - 1)); lia.
    - lia. }
  destruct (decide (length = mPrevTotalCodePointCount s + countAt p)) as [Hlen|Hlen].
  { intros Hrun.
    exists 1%nat, (Exact p (mPrevTotalCodePointCount s)), parentPos.
    split; [by apply addLevel_exact|]. split; [lia|].
    simpl. by rewrite Hnode in Hrun. }
  rewrite Hnode.
  destruct (hasChildren (fetchNode b p)) eqn:Hchildren; cbn [negb].
  2:{ intros Hrun.
    exists 1%nat, (Leaf p (mPrevTotalCodePointCount s)), parentPos.
    split; [apply addLevel_leaf; [done|done|done|lia|done]|]. split; [lia|done]. }
  rewrite bind_current. intros Hrun.
  pose proof Hq as [q Hq'].
  destruct (b_childrenLaidOut p q Hq' Hchildren) as (slots & linkFieldPos' & Harrays).
  pose proof (arrays_inside _ _ _ _ _ Harrays) as Hin.
  set (child := mkReadingHelper (mIsError s) (getChildrenPos (fetchNode b p)) 0
                  (mPrevTotalCodePointCount s + countAt p) NOT_A_DICT_POS
                  (fetchNode b p)).
  assert (Hchild : readChildNode NOT_A_PROBABILITY NOT_A_VALID_WORD_POS b s
                   = fetchFrom b (enterNodeArray (Z.to_nat (tail b)) b child
                                    (getChildrenPos (fetchNode b p)))).
  { unfold readChildNode. rewrite Hnode, Hchildren. unfold nextNodeArray. simpl.
    unfold child, countAt. done. }
  destruct (arrays_siblingsFrom NOT_A_PROBABILITY NOT_A_VALID_WORD_POS _ _ _ _ Harrays
              (Z.to_nat (tail b)) child
              ltac:(lia)) as (e' & Hsib' & Hlink' & _ & _).
  rewrite <- Hchild in Hsib'.
  assert (Hprev : mPrevTotalCodePointCount
                    (readChildNode NOT_A_PROBABILITY NOT_A_VALID_WORD_POS b s)
                  = mPrevTotalCodePointCount s + countAt p).
  { rewrite Hchild, fetchUnlessEnd_prevTotal, enterNodeArray_prevTotal. done. }
  destruct (IH _ _ _ linkFieldPos' _ Hsib' Hlink' ltac:(rewrite Hprev; lia) Hrun)
    as (n & final & parentPos' & Hlevel & Hn & Haction).
  rewrite Hprev in Hlevel.
  exists (S n), final, parentPos'.
  split; [eapply addLevel_descend; eauto; lia|]. split; [lia|done].
Qed.

End InBuffer.

(** *** The steps of the lookup *)

Abbreviation lookup := (lookupLoop NOT_A_PROBABILITY NOT_A_VALID_WORD_POS).

Lemma matches_first codePoints codePoints' matched :
  codePoints' !! 0%nat = codePoints !! 0%nat →
  matches codePoints' matched 0 ↔ matches codePoints matched 0.
Proof. intros H. unfold matches. change (Z.to_nat 0) with 0%nat. by rewrite H. Qed.

Lemma lookupLoop_skip fuel b s :
  mPos s ≠ NOT_A_DICT_POS →
  ¬ matches (mCodePoints (mNodeReader s)) (mPrevTotalCodePointCount s) 0 →
  lookup (S fuel) b s word length = lookup fuel b (nextSibling b s) word length.
Proof.
  intros Hnotend Hfirst. cbn [lookupLoop]. rewrite isEnd_false by done.
  unfold getPrevTotalCodePointCount. rewrite isMatchedCodePoint_first.
  rewrite (bool_decide_eq_false_2 _ Hfirst). by rewrite orb_true_r.
Qed.

Lemma lookupLoop_matched fuel b s :
  mPos s ≠ NOT_A_DICT_POS →
  matches (mCodePoints (mNodeReader s)) (mPrevTotalCodePointCount s) 0 →
  (∀ j, 1 <= j < getCodePointCount (mNodeReader s) →
     matches (mCodePoints (mNodeReader s)) (mPrevTotalCodePointCount s) j) →
  getTotalCodePointCount s <= length →
  lookup (S fuel) b s word length
  = if decide (length = getTotalCodePointCount s) then Done (getHeadPos (mNodeReader s))
    else if negb (hasChildren (mNodeReader s)) then Done NOT_A_VALID_WORD_POS
    else lookup fuel b (readChildNode NOT_A_PROBABILITY NOT_A_VALID_WORD_POS b s)
           word length.
Proof.
  intros Hnotend Hfirst Hall Htotal. cbn [lookupLoop]. rewrite isEnd_false by done.
  unfold getPrevTotalCodePointCount, getNodeReader. rewrite isMatchedCodePoint_first.
  rewrite (bool_decide_eq_true_2 _ Hfirst).
  rewrite bool_decide_eq_false_2 by lia. cbn [negb orb].
  rewrite mismatchFrom_false; [done|].
  intros j Hj. apply Hall. lia.
Qed.

(** The lookup in [b], from the array at [a] on with [matched] code points
    matched, finds [r], with [n] units of fuel. *)
Definition looksFromIn (b : Buffer) (a matched : Z) (n : nat) (r : Z) : Prop :=
  ∀ fuelOfArrays rh fuel,
    tail b - a <= Z.of_nat fuelOfArrays → mPrevTotalCodePointCount rh = matched →
    (n ≤ fuel)%nat →
    lookup fuel b (fetchFrom b (enterNodeArray fuelOfArrays b rh a)) word length
    = Done r.

(** The lookup in [b], at the PtNode read from [p], finds [r], with [n]
    units of fuel. *)
Definition looksAtIn (b : Buffer) (p matched : Z) (n : nat) (r : Z) : Prop :=
  ∀ s fuel,
    mPos s ≠ NOT_A_DICT_POS → mNodeReader s = fetchNode b p →
    mPrevTotalCodePointCount s = matched → (n ≤ fuel)%nat →
    lookup fuel b s word length = Done r.

(** The lookup finds the PtNode whose code points end the word. *)
Lemma looksAtIn_found b p matched :
  matches (codePointsAt b p) matched 0 → matchesAll b p matched →
  length = matched + countAt b p →
  looksAtIn b p matched 1 (getHeadPos (fetchNode b p)).
Proof.
  intros Hfirst Hall Hlen s fuel Hnotend Hnode Hmatched Hfuel.
  destruct fuel as [|fuel]; [lia|].
  assert (Htotal : getTotalCodePointCount s = matched + countAt b p)
    by (unfold getTotalCodePointCount, countAt; by rewrite Hnode, Hmatched).
  rewrite lookupLoop_matched; rewrite ?Hnode, ?Hmatched, ?Htotal; try done; try lia.
  - by rewrite decide_True.
  - intros j Hj. by apply Hall.
Qed.

(** The lookup goes on in the children of a PtNode whose code points are
    matched by the word, which is longer. *)
Lemma looksAtIn_descend b p matched k r :
  matches (codePointsAt b p) matched 0 → matchesAll b p matched →
  matched + countAt b p < length →
  hasChildren (fetchNode b p) = true →
  0 < getChildrenPos (fetchNode b p) →
  looksFromIn b (getChildrenPos (fetchNode b p)) (matched + countAt b p) k r →
  looksAtIn b p matched (k + 1) r.
Proof.
  intros Hfirst Hall Hlen Hchildren Hpos Hfrom s fuel Hnotend Hnode Hmatched Hfuel.
  destruct fuel as [|fuel]; [lia|].
  assert (Htotal : getTotalCodePointCount s = matched + countAt b p)
    by (unfold getTotalCodePointCount, countAt; by rewrite Hnode, Hmatched).
  rewrite lookupLoop_matched; rewrite ?Hnode, ?Hmatched, ?Htotal; try done; try lia.
  2:{ intros j Hj. by apply Hall. }
  rewrite decide_False by lia. rewrite Hchildren. cbn [negb].
  unfold readChildNode. rewrite Hnode, Hchildren. unfold nextNodeArray. cbn [mPos].
  apply Hfrom; [lia| |lia].
  cbn [mPrevTotalCodePointCount]. unfold countAt. by rewrite Hmatched.
Qed.

Section Along.

(** The buffer before and after the word is added. *)
Variables b b' : Buffer.

Abbreviation looksFrom := (looksFromIn b').
Abbreviation looksAt := (looksAtIn b').

(** Where the path of the word stopped, and the PtNode that holds the word
    afterwards. *)
Variable final : Final.
Variable target : Z.

(** The PtNodes that follow, in [b'], the siblings that ended at the link
    field [linkFieldPos] in [b]. *)
Variable extension : Z → list Z.

Hypothesis arrays_kept :
  ∀ a slots linkFieldPos, arraysOf b a slots linkFieldPos →
    ∃ linkFieldPos', arraysOf b' a (slots ++ extension linkFieldPos) linkFieldPos'.

Hypothesis first_kept :
  ∀ p q, lands b p q → codePointsAt b' p !! 0%nat = codePointsAt b p !! 0%nat.

Hypothesis descend_kept :
  ∀ p q matched k r,
    lands b p q →
    matches (codePointsAt b p) matched 0 → matchesAll b p matched →
    matched + countAt b p < length →
    hasChildren (fetchNode b p) = true →
    0 < getChildrenPos (fetchNode b p) →
    looksFrom (getChildrenPos (fetchNode b p)) (matched + countAt b p) k r →
    looksAt p matched (k + 2) r.

Hypothesis final_found :
  match final with
  | AtEnd linkFieldPos matched =>
      ∃ newSlot, extension linkFieldPos = [newSlot] ∧ looksAt newSlot matched 3 target
  | Split p matched _ | Exact p matched | Leaf p matched => looksAt p matched 3 target
  end.

Lemma lookupLoop_along matched slots linkFieldPos n :
  addLevel b matched slots linkFieldPos n final →
  ∀ s e fuel,
    siblingsOf b' s (slots ++ extension linkFieldPos) e →
    mPrevTotalCodePointCount s = matched →
    (2 * n + 3 ≤ fuel)%nat →
    lookup fuel b' s word length = Done target.
Proof.
  induction 1 as [matched linkFieldPos
                 |matched p rest linkFieldPos n final Hq Hfirst Hlevel IH
                 |matched p rest linkFieldPos j Hq Hfirst Hj Hbefore Hat
                 |matched p rest linkFieldPos Hq Hfirst Hall Hlen
                 |matched p rest linkFieldPos Hq Hfirst Hall Hlen Hchildren
                 |matched p rest linkFieldPos slots linkFieldPos' n final Hq Hfirst Hall
                    Hlen Hchildren Harrays Hlevel IH];
    intros s e fuel Hsib Hmatched Hfuel.
  - destruct final_found as (newSlot & Hext & Hlooks). rewrite Hext in Hsib.
    inversion Hsib as [|? ? ? ? Hnotend Hnode _ _]; subst.
    apply Hlooks; [done|done|done|lia].
  - inversion Hsib as [|? ? ? ? Hnotend Hnode _ Hsib']; subst.
    destruct fuel as [|fuel]; [lia|].
    rewrite lookupLoop_skip; [|done|].
    + eapply (IH final_found); [done|by rewrite readNextSiblingNode_prevTotal|lia].
    + rewrite Hnode. destruct Hq as [q Hq].
      fold (codePointsAt b' p). by rewrite (matches_first _ _ _ (first_kept p q Hq)).
  - inversion Hsib as [|? ? ? ? Hnotend Hnode _ _]; subst.
    apply final_found; [done|done|done|lia].
  - inversion Hsib as [|? ? ? ? Hnotend Hnode _ _]; subst.
    apply final_found; [done|done|done|lia].
  - inversion Hsib as [|? ? ? ? Hnotend Hnode _ _]; subst.
    apply final_found; [done|done|done|lia].
  - inversion Hsib as [|? ? ? ? Hnotend Hnode _ _]; subst.
    destruct Hq as [q Hq].
    pose proof (arrays_inside _ _ _ _ _ Harrays) as Hinside.
    apply (descend_kept p q _ (2 * n + 3) target Hq Hfirst Hall Hlen Hchildren
             ltac:(lia));
      [|done|done|done|lia].
    intros fuelOfArrays rh fuel0 HfuelOfArrays Hprev Hfuel0.
    destruct (arrays_kept _ _ _ Harrays) as (linkFieldPos'' & Harrays').
    destruct (arrays_siblingsFrom NOT_A_PROBABILITY NOT_A_VALID_WORD_POS _ _ _ _ Harrays'
                fuelOfArrays rh HfuelOfArrays) as (e' & Hsib' & _).
    eapply (IH final_found); [done| |done].
    by rewrite fetchUnlessEnd_prevTotal, enterNodeArray_prevTotal.
Qed.

End Along.

(** *** The lookup after a mutation that is framed *)

Section FramedPath.

Variables (q cf lf pf : option Z) (b b' : Buffer).
Variable final : Final.
Variable target : Z.

Hypothesis frame : framed NOT_A_PROBABILITY q cf lf pf b b'.
Hypothesis moved_lands : ∀ x, q = Some x → ∃ t, lands b' x t.
Hypothesis link_extended :
  ∀ x, lf = Some x →
    getForwardLinkPosition b x = NOT_A_DICT_POS
    ∧ getForwardLinkPosition b' x = tail b
    ∧ ∃ linkFieldPos, arraysOf b' (tail b) [tail b + 1] linkFieldPos.

(** The PtNode that is marked as moved, or is given children, where it is
    read before the path ends. *)
Hypothesis special_first :
  ∀ p x, q = Some x → lands b p x →
    codePointsAt b' p !! 0%nat = codePointsAt b p !! 0%nat.

Hypothesis special_descend :
  ∀ p q0 matched k r,
    lands b p q0 → q = Some q0 ∨ cf = Some (childrenFieldOf b q0) →
    matches (codePointsAt b p) matched 0 → matchesAll b p matched →
    matched + countAt b p < length →
    hasChildren (fetchNode b p) = true →
    0 < getChildrenPos (fetchNode b p) →
    looksFromIn b' (getChildrenPos (fetchNode b p)) (matched + countAt b p) k r →
    looksAtIn b' p matched (k + 2) r.

Hypothesis final_found :
  match final with
  | AtEnd linkFieldPos matched =>
      ∃ newSlot, extension lf b linkFieldPos = [newSlot]
                 ∧ looksAtIn b' newSlot matched 3 target
  | Split p matched _ | Exact p matched | Leaf p matched =>
      looksAtIn b' p matched 3 target
  end.

Lemma framed_lookup matched slots linkFieldPos n :
  addLevel b matched slots linkFieldPos n final →
  ∀ s e fuel,
    siblingsOf b' s (slots ++ extension lf b linkFieldPos) e →
    mPrevTotalCodePointCount s = matched →
    (2 * n + 3 ≤ fuel)%nat →
    lookup fuel b' s word length = Done target.
Proof.
  apply (lookupLoop_along b b' final target (extension lf b)).
  - by apply (framed_arrays NOT_A_PROBABILITY q cf lf pf).
  - intros p q0 Hlands. destruct (decide (q = Some q0)) as [Hq|Hq].
    + by apply (special_first p q0).
    + unfold codePointsAt.
      by destruct (framed_node NOT_A_PROBABILITY NOT_A_VALID_WORD_POS q cf lf pf b b'
                     frame p q0 Hlands Hq) as (-> & _).
  - clear matched. intros p q0 matched k r Hlands Hfirst Hall Hlen Hchildren Hpos Hfrom.
    destruct (decide (q = Some q0 ∨ cf = Some (childrenFieldOf b q0))) as [Hq|Hq].
    + by apply (special_descend p q0).
    + assert (Hcf : cf ≠ Some (childrenFieldOf b q0)) by (intros ?; apply Hq; by right).
      assert (Hq' : q ≠ Some q0) by (intros ?; apply Hq; by left).
      clear Hq. rename Hq' into Hq.
      destruct (framed_node NOT_A_PROBABILITY NOT_A_VALID_WORD_POS q cf lf pf b b'
                  frame p q0 Hlands Hq) as (Hcps & _ & Hc).
      specialize (Hc Hcf).
      assert (Hcount : countAt b' p = countAt b p)
        by (unfold countAt, getCodePointCount; by rewrite Hcps).
      assert (Hmono : looksAtIn b' p matched (k + 1) r).
      { apply looksAtIn_descend.
        - unfold codePointsAt. by rewrite Hcps.
        - unfold matchesAll, codePointsAt. rewrite Hcps, Hcount. apply Hall.
        - by rewrite Hcount.
        - unfold hasChildren in *. unfold getChildrenPos in Hc. by rewrite Hc.
        - by rewrite Hc.
        - by rewrite Hc, Hcount. }
      intros s fuel ? ? ? ?. apply Hmono; try done. lia.
  - done.
Qed.

Lemma looksAtIn_more b0 p matched n n' r :
  looksAtIn b0 p matched n r → (n ≤ n')%nat → looksAtIn b0 p matched n' r.
Proof. intros H Hn s fuel ? ? ? ?. apply H; try done. lia. Qed.

Lemma framed_looksFrom a slots linkFieldPos n matched :
  arraysOf b a slots linkFieldPos →
  addLevel b matched slots linkFieldPos n final →
  looksFromIn b' a matched (2 * n + 3) target.
Proof.
  intros Harrays Hlevel fuelOfArrays rh fuel HfuelOfArrays Hmatched Hfuel.
  destruct (framed_arrays NOT_A_PROBABILITY q cf lf pf b b' frame moved_lands
              link_extended _ _ _ Harrays) as (linkFieldPos' & Harrays').
  destruct (arrays_siblingsFrom NOT_A_PROBABILITY NOT_A_VALID_WORD_POS _ _ _ _ Harrays'
              fuelOfArrays rh HfuelOfArrays) as (e & Hsib & _).
  eapply framed_lookup; [done|done| |done].
  by rewrite fetchUnlessEnd_prevTotal, enterNodeArray_prevTotal.
Qed.

End FramedPath.

(** *** The mutations, one by one *)

(** The word is found at [target], which holds the probability. *)
Definition found (b' : Buffer) (target : Z) : Prop :=
  target ≠ NOT_A_VALID_WORD_POS
  ∧ isTerminal (fetchNode b' target) = true
  ∧ getProbabilityOfNode (fetchNode b' target) = probability.

(** The lookup, in [b'], of the word whose path stopped at [final] in [b]. *)
Definition settled (b b' : Buffer) (final : Final) : Prop :=
  ∃ target,
    found b' target
    ∧ ∀ a slots linkFieldPos n matched,
        arraysOf b a slots linkFieldPos →
        addLevel b matched slots linkFieldPos n final →
        looksFromIn b' a matched (2 * n + 3) target.

Section Cases.

Variables b b' : Buffer.

Hypothesis b_inside : ∀ x, x < 0 ∨ tail b <= x → cells b !! x = None.
Hypothesis NOT_A_VALID_WORD_POS_negative : NOT_A_VALID_WORD_POS < 0.
Hypothesis probability_valid : probability ≠ NOT_A_PROBABILITY.

(** The PtNode the reader lands on is read there. *)
Lemma found_at target :
  lands b' target target →
  flagIsTerminal (getFlags b' target) = true →
  cells b' !! (target + 3) = Some (FProbability probability) →
  found b' target.
Proof.
  intros Hlands Hterminal Hprobability.
  pose proof (nodeInside_range _ _ (lands_first _ _ _ Hlands)) as Hin.
  unfold found.
  destruct (fetchNode_read NOT_A_PROBABILITY NOT_A_VALID_WORD_POS _ _ _ Hlands)
    as (s & l & ->).
  split; [lia|]. unfold isTerminal, getProbabilityOfNode, readPtNode.
  cbn [mFlags mProbability]. rewrite Hterminal. split; [done|].
  unfold getProbability. by rewrite Hprobability.
Qed.

(** The code points written for the rest of the word match it. *)
Lemma suffix_matches matched :
  0 <= matched < length → length <= Z.of_nat (List.length word) →
  Z.of_nat (List.length (take (Z.to_nat (length - matched))
                           (drop (Z.to_nat matched) word)))
  = length - matched
  ∧ ∀ j, 0 <= j < length - matched →
      matches (take (Z.to_nat (length - matched)) (drop (Z.to_nat matched) word))
        matched j.
Proof.
  intros Hmatched Hword. split.
  - rewrite length_take, length_drop. lia.
  - intros j Hj. split; [lia|].
    rewrite lookup_take_lt by lia. rewrite lookup_drop. unfold codePointAt.
    replace (Z.to_nat (matched + j)) with (Z.to_nat matched + Z.to_nat j)%nat by lia.
    destruct (lookup_lt_is_Some_2 word (Z.to_nat matched + Z.to_nat j)%nat ltac:(lia))
      as [c ->].
    done.
Qed.

Hypothesis length_word : length <= Z.of_nat (List.length word).

(** The lookup at the PtNode of a new array that holds the rest of the
    word. *)
Lemma newArray_found a r matched :
  newArray NOT_A_PROBABILITY b' a r
    (take (Z.to_nat (length - matched)) (drop (Z.to_nat matched) word)) probability →
  0 < a → 0 <= matched < length →
  found b' (a + 1)
  ∧ looksAtIn b' (a + 1) matched 1 (a + 1)
  ∧ ∃ linkFieldPos, arraysOf b' a [a + 1] linkFieldPos.
Proof.
  intros Hnew Ha Hmatched.
  destruct (newArray_read NOT_A_PROBABILITY NOT_A_VALID_WORD_POS _ _ _ _ _ Hnew Ha)
    as (Harrays & Hlands & Htail & Hflags & Hprob & Hcps & Hhead).
  destruct (suffix_matches matched Hmatched length_word) as [Hcount Hmatches].
  split.
  { apply found_at; [done| |].
    - rewrite Hflags. simpl. by apply bool_decide_eq_true_2.
    - by apply Hprob. }
  split; [|by exists r].
  assert (Hcount' : countAt b' (a + 1) = length - matched)
    by (unfold countAt, getCodePointCount; by rewrite Hcps).
  rewrite <- Hhead at 2. apply looksAtIn_found.
  - unfold codePointsAt. rewrite Hcps. apply Hmatches. lia.
  - intros j Hj. split; [lia|]. unfold codePointsAt. rewrite Hcps. apply Hmatches. lia.
  - lia.
Qed.

(** createAndInsertNodeIntoPtNodeArray: a new array is chained to the last
    forward link field. *)
Lemma settled_end moveFuel parentPos linkFieldPos matched :
  0 <= matched < length → endsChain b linkFieldPos →
  finalAction b moveFuel (AtEnd linkFieldPos matched) parentPos b = (b', Done tt) →
  settled b b' (AtEnd linkFieldPos matched).
Proof.
  intros Hmatched [Hinside Hlink] Hrun.
  simpl in Hrun. unfold createAndInsertNodeIntoPtNodeArray in Hrun.
  rewrite bind_current in Hrun. unfold getTailPosition in Hrun.
  apply bind_Done in Hrun as (b1 & r1 & Hwrite & Hnew).
  unfold writeForwardLinkPositionAndAdvancePosition in Hwrite.
  apply writeField_patch in Hwrite as (_ & Ht1 & Hc1 & Hpos & g & Hg & Hkind); [|lia].
  destruct g; try done.
  destruct (suffix_matches matched Hmatched length_word) as [Hcount _].
  apply createNewPtNodeArrayWithAChildPtNode_newArray in Hnew as ([r Hnew] & Hbelow);
    [|lia].
  rewrite Ht1 in Hnew, Hbelow.
  destruct (newArray_found _ _ _ Hnew ltac:(lia) Hmatched)
    as (Hfound & Hlooks & linkFieldPos' & Harrays').
  pose proof (arrays_inside _ _ _ _ _ Harrays') as Htail'.
  assert (Hframe : framed NOT_A_PROBABILITY None None (Some linkFieldPos) None b b').
  { apply framed_of_cells.
    - lia.
    - intros x Hx. apply b_inside. by right.
    - intros x Hx. rewrite Hbelow by lia. rewrite Hc1, lookup_insert_ne by lia.
      apply b_inside. by left.
    - destruct Hnew as (-> & _). done.
    - done.
    - intros x Hx. unfold cellKept. rewrite Hbelow by lia. rewrite Hc1.
      destruct (decide (x = linkFieldPos)) as [->|Hne].
      + do 4 right. left. split; [done|]. rewrite lookup_insert_eq. eauto.
      + left. by rewrite lookup_insert_ne. }
  exists (tail b + 1). split; [done|].
  intros a slots linkFieldPos0 n matched' Harrays Hlevel.
  apply (framed_looksFrom None None (Some linkFieldPos) None b b'
           (AtEnd linkFieldPos matched) (tail b + 1) Hframe)
    with (slots := slots) (linkFieldPos := linkFieldPos0);
    [done| |done|by intros ? ? ? ? ? ? [?|?]| |done|done].
  - intros x [= <-]. split; [done|]. split; [|by exists linkFieldPos'].
    unfold getForwardLinkPosition. rewrite Hbelow by lia.
    by rewrite Hc1, lookup_insert_eq.
  - exists (tail b + 1). split.
    + unfold extension. by rewrite decide_True.
    + apply (looksAtIn_more _ _ _ 1); [done|lia].
Qed.

(** The lookup in an array of one PtNode. *)
Lemma looksFromIn_single b0 a p1 linkFieldPos matched n r :
  arraysOf b0 a [p1] linkFieldPos → looksAtIn b0 p1 matched n r →
  looksFromIn b0 a matched n r.
Proof.
  intros Harrays Hlooks fuelOfArrays rh fuel HfuelOfArrays Hmatched Hfuel.
  destruct (arrays_siblingsFrom NOT_A_PROBABILITY NOT_A_VALID_WORD_POS _ _ _ _ Harrays
              fuelOfArrays rh HfuelOfArrays) as (e & Hsib & _).
  inversion Hsib as [|? ? ? ? Hnotend Hnode _ _]; subst.
  apply Hlooks; [done|done| |done].
  by rewrite fetchUnlessEnd_prevTotal, enterNodeArray_prevTotal.
Qed.

(** The fields of the PtNode the reader lands on. *)
Lemma fetchNode_fields b0 p q0 :
  lands b0 p q0 →
  getHeadPos (fetchNode b0 p) = q0
  ∧ mFlags (fetchNode b0 p) = getFlags b0 q0
  ∧ mCodePoints (fetchNode b0 p) = getCodePoints b0 (q0 + 2)
  ∧ getChildrenPosFieldPos (fetchNode b0 p) = childrenFieldOf b0 q0
  ∧ getChildrenPos (fetchNode b0 p) = readChildrenPosition b0 (childrenFieldOf b0 q0).
Proof.
  intros Hlands.
  destruct (fetchNode_read NOT_A_PROBABILITY NOT_A_VALID_WORD_POS _ _ _ Hlands)
    as (s & l & ->).
  done.
Qed.

(** createChildrenPtNodeArrayAndAChildPtNode: the PtNode gets a first
    child. *)
Lemma settled_leaf moveFuel parentPos p q0 matched :
  0 <= matched < length → lands b p q0 →
  matches (codePointsAt b p) matched 0 → matchesAll b p matched →
  matched + countAt b p < length → hasChildren (fetchNode b p) = false →
  finalAction b moveFuel (Leaf p matched) parentPos b = (b', Done tt) →
  settled b b' (Leaf p matched).
Proof.
  intros Hmatched Hlands Hfirst Hall Hlen Hchildren Hrun.
  destruct (lands_last _ _ _ Hlands) as (Hin & Hmoved & _).
  pose proof (nodeInside_range _ _ Hin) as Hq0.
  destruct (fetchNode_fields _ _ _ Hlands) as (Hhead & _ & _ & Hfield & Hpos).
  set (cf0 := childrenFieldOf b q0) in *.
  assert (Hcf0 : q0 + 3 <= cf0 < tail b).
  { destruct Hin as (_ & _ & Hcf). fold cf0 in Hcf. split; [|done].
    unfold cf0, childrenFieldOf. destruct (flagIsTerminal _); lia. }
  simpl in Hrun. unfold createChildrenPtNodeArrayAndAChildPtNode in Hrun.
  rewrite bind_current in Hrun. unfold getTailPosition in Hrun. rewrite Hfield in Hrun.
  apply bind_Done in Hrun as (b1 & r1 & Hwrite & Hnew).
  unfold writeChildrenPositionAndAdvancePosition in Hwrite.
  apply writeField_patch in Hwrite as (_ & Ht1 & Hc1 & _ & g & Hg & Hkind); [|lia].
  destruct g; try done.
  assert (Hcount0 : 0 <= countAt b p) by (unfold countAt, getCodePointCount; lia).
  assert (Hmatched' : 0 <= matched + countAt b p < length) by lia.
  destruct (suffix_matches _ Hmatched' length_word) as [Hcount _].
  apply createNewPtNodeArrayWithAChildPtNode_newArray in Hnew as ([r Hnew] & Hbelow);
    [|lia].
  rewrite Ht1 in Hnew, Hbelow.
  destruct (newArray_found _ _ _ Hnew ltac:(lia) Hmatched')
    as (Hfound & Hlooks & linkFieldPos' & Harrays').
  pose proof (arrays_inside _ _ _ _ _ Harrays') as Htail'.
  assert (Hframe : framed NOT_A_PROBABILITY None (Some cf0) None None b b').
  { apply framed_of_cells.
    - lia.
    - intros x Hx. apply b_inside. by right.
    - intros x Hx. rewrite Hbelow by lia. rewrite Hc1, lookup_insert_ne by lia.
      apply b_inside. by left.
    - destruct Hnew as (-> & _). done.
    - done.
    - intros x Hx. unfold cellKept. rewrite Hbelow by lia. rewrite Hc1.
      destruct (decide (x = cf0)) as [->|Hne].
      + do 3 right. left. split; [done|]. rewrite lookup_insert_eq. eauto.
      + left. by rewrite lookup_insert_ne. }
  exists (tail b + 1). split; [done|].
  intros a slots linkFieldPos0 n matched0 Harrays Hlevel.
  apply (framed_looksFrom None (Some cf0) None None b b' (Leaf p matched) (tail b + 1)
           Hframe)
    with (slots := slots) (linkFieldPos := linkFieldPos0);
    [done|done|done| | |done|done].
  - intros p' q' matched1 k r0 Hlands' [?|[= Hcf]] _ _ _ Hchildren' _ _; [done|].
    destruct (fetchNode_fields _ _ _ Hlands') as (_ & _ & _ & _ & Hpos').
    unfold hasChildren, getChildrenPos in *. rewrite Hpos', <- Hcf in Hchildren'.
    rewrite Hpos in Hchildren. congruence.
  - destruct (framed_node NOT_A_PROBABILITY NOT_A_VALID_WORD_POS None (Some cf0) None
                None b b' Hframe p q0 Hlands ltac:(done)) as (Hcps & _ & _).
    assert (Hcount' : countAt b' p = countAt b p)
      by (unfold countAt, getCodePointCount; by rewrite Hcps).
    assert (Hlands' : lands b' p q0)
      by (by apply (framed_lands_kept NOT_A_PROBABILITY None (Some cf0) None None b b')).
    destruct (fetchNode_fields _ _ _ Hlands') as (_ & _ & _ & _ & Hpos').
    assert (Hchild : getChildrenPos (fetchNode b' p) = tail b).
    { rewrite Hpos'.
      rewrite (framed_childrenFieldOf NOT_A_PROBABILITY None (Some cf0) None None b b')
        by (done || lia).
      fold cf0. unfold readChildrenPosition. rewrite Hbelow by lia.
      by rewrite Hc1, lookup_insert_eq. }
    apply (looksAtIn_more _ _ _ (1 + 1)); [|lia].
    apply looksAtIn_descend.
    + unfold codePointsAt. by rewrite Hcps.
    + unfold matchesAll, codePointsAt. rewrite Hcps, Hcount'. apply Hall.
    + by rewrite Hcount'.
    + unfold hasChildren. unfold getChildrenPos in Hchild. rewrite Hchild.
      apply bool_decide_eq_true_2. unfold NOT_A_DICT_POS. lia.
    + rewrite Hchild. lia.
    + rewrite Hchild, Hcount'. by apply (looksFromIn_single _ _ (tail b + 1) linkFieldPos').
Qed.

Hypothesis b_header : cells b !! 0 = Some FHeader.
Hypothesis b_layout :
  ∀ x flags, cells b !! x = Some (FFlags flags) →
    ∃ offset, cells b !! (x + 1) = Some (FParentOffset offset).
Hypothesis b_childrenLaidOut : childrenLaidOut b.

(** Two PtNodes do not share their children position field. *)
Lemma childrenFieldOf_inj q q' :
  nodeInside b q → nodeInside b q' → childrenFieldOf b q = childrenFieldOf b q' →
  q = q'.
Proof.
  intros ([flags Hcell] & _) ([flags' Hcell'] & _) Heq.
  destruct (b_layout _ _ Hcell) as [o Ho], (b_layout _ _ Hcell') as [o' Ho'].
  unfold childrenFieldOf in Heq.
  destruct (flagIsTerminal (getFlags b q)), (flagIsTerminal (getFlags b q'));
    try lia.
  - assert (q' = q + 1) as -> by lia. congruence.
  - assert (q = q' + 1) as -> by lia. congruence.
Qed.

(** setPtNodeProbability on a PtNode that is not terminal: the PtNode is
    marked as moved and written again at the tail, with the probability. *)
Lemma settled_moved moveFuel parentPos p q0 matched :
  lands b p q0 →
  matches (codePointsAt b p) matched 0 → matchesAll b p matched →
  length = matched + countAt b p →
  isTerminal (fetchNode b p) = false →
  finalAction b moveFuel (Exact p matched) parentPos b = (b', Done tt) →
  settled b b' (Exact p matched).
Proof.
  intros Hlands Hfirst Hall Hlen Hterminal Hrun.
  destruct (lands_last _ _ _ Hlands) as (Hin & Hmoved & _).
  pose proof (nodeInside_range _ _ Hin) as Hq0.
  destruct (fetchNode_fields _ _ _ Hlands) as (Hhead & _ & Hcps & Hfield & Hpos).
  set (n := fetchNode b p) in *.
  set (cf0 := childrenFieldOf b q0) in *.
  assert (Hcf0 : q0 + 3 <= cf0 < tail b).
  { destruct Hin as (_ & _ & Hcf). fold cf0 in Hcf. split; [|done].
    unfold cf0, childrenFieldOf. destruct (flagIsTerminal _); lia. }
  simpl in Hrun. unfold setPtNodeProbability in Hrun. fold n in Hrun.
  rewrite Hterminal in Hrun. rewrite bind_current in Hrun.
  unfold getTailPosition in Hrun.
  apply bind_Done in Hrun as (b1 & [] & Hmark & Hrun).
  apply bind_Done in Hrun as (b2 & r & Hwrite & Hret). injection Hret as ->.
  destruct (markNodeAsMovedAndSetPosition_marking NOT_A_PROBABILITY NOT_A_VALID_WORD_POS
              NOT_A_VALID_WORD_POS_negative b q0 cf0 b_inside b_header Hin Hmoved
              moveFuel n (tail b) (tail b) b b1 Hhead Hfield eq_refl)
    as (Hmarking & Ht1 & Hoffset & Hlinked & _); try done.
  { intros Hhas. by apply (b_childrenLaidOut p q0). }
  { by rewrite b_inside by (right; lia). }
  { lia. }
  { right. lia. }
  unfold writePtNodeToBufferByCopyingPtNodeInfo in Hwrite.
  apply writePtNodeWithFullInfoToBuffer_written in Hwrite as (Hwritten & Ht' & Hbelow);
    [|lia].
  rewrite (bool_decide_eq_true_2 _ probability_valid) in Hwritten.
  assert (Htake : take (Z.to_nat (getCodePointCount n)) (codePointsAt b p)
                  = codePointsAt b p)
    by (apply take_ge; unfold getCodePointCount, codePointsAt; fold n; lia).
  rewrite Htake in Hwritten.
  destruct (written_read NOT_A_PROBABILITY _ _ _ _ _ _ _ Hwritten eq_refl ltac:(lia)
              ltac:(lia)) as (HlandsT & _ & Hr & HflagsT & HfieldsT).
  assert (Hframe : framed NOT_A_PROBABILITY (Some q0) (Some cf0) None None b b').
  { apply (marking_framed_after NOT_A_PROBABILITY b q0 cf0 b_inside Hin Hmoved b1 b');
      [done|intros x Hx; apply Hbelow; lia|lia|].
    destruct Hwritten as (-> & _). done. }
  assert (HlandsQ : lands b' q0 (tail b)).
  { assert (Hoff : getParentOffset b' (q0 + 1) = tail b - q0).
    { unfold getParentOffset. rewrite Hbelow by lia. by rewrite Hoffset. }
    apply lands_follow.
    - by apply (framed_nodeInside NOT_A_PROBABILITY _ _ _ _ _ _ Hframe).
    - destruct (framed_moved _ _ _ _ _ _ _ Hframe q0 eq_refl)
        as (_ & flags & _ & _ & Hcell).
      unfold getFlags. by rewrite Hcell.
    - lia.
    - rewrite Hoff. by replace (q0 + (tail b - q0)) with (tail b) by lia. }
  assert (Hreplaced : ∀ p', lands b p' q0 →
            mCodePoints (fetchNode b' p') = codePointsAt b p
            ∧ getHeadPos (fetchNode b' p') = tail b
            ∧ getChildrenPos (fetchNode b' p') = getChildrenPos n
            ∧ codePointsAt b p' = codePointsAt b p
            ∧ getChildrenPos (fetchNode b p') = getChildrenPos n).
  { intros p' Hlands'.
    pose proof (framed_lands NOT_A_PROBABILITY _ _ _ _ _ _ Hframe p' q0 Hlands' _ HlandsQ)
      as HlandsT'.
    destruct (fetchNode_read NOT_A_PROBABILITY NOT_A_VALID_WORD_POS _ _ _ HlandsT')
      as (s' & l' & ->).
    destruct (HfieldsT s' l') as [HcT HpT].
    destruct (fetchNode_fields _ _ _ Hlands') as (_ & _ & Hcps' & _ & Hpos').
    split; [exact HcT|]. split; [done|]. split; [exact HpT|].
    unfold codePointsAt. fold n. rewrite Hcps, Hcps', Hpos'. fold cf0.
    by rewrite Hpos. }
  destruct (Hreplaced p Hlands) as (HcpsT & HheadT & HposT & _).
  assert (HcountT : ∀ p', lands b p' q0 →
            countAt b' p' = countAt b p ∧ countAt b p' = countAt b p).
  { intros p' Hlands'. destruct (Hreplaced p' Hlands') as (H1 & _ & _ & H2 & _).
    unfold countAt, getCodePointCount. fold (codePointsAt b p') (codePointsAt b p).
    by rewrite H1, H2. }
  exists (tail b). split.
  { apply found_at; [done| |].
    - rewrite HflagsT. done.
    - destruct Hwritten as (_ & _ & Hprob & _). by apply Hprob. }
  intros a slots linkFieldPos n0 matched0 Harrays Hlevel.
  apply (framed_looksFrom (Some q0) (Some cf0) None None b b' (Exact p matched) (tail b)
           Hframe)
    with (slots := slots) (linkFieldPos := linkFieldPos);
    [by intros x [= <-]; exists (tail b)|done| | | |done|done].
  - intros p' x [= <-] Hlands'.
    destruct (Hreplaced p' Hlands') as (H1 & _ & _ & H2 & _).
    unfold codePointsAt at 1. by rewrite H1, H2.
  - intros p' q' matched1 k r0 Hlands' Hq' Hfirst' Hall' Hlen' Hchildren' Hpos' Hfrom.
    assert (q' = q0) as ->.
    { destruct Hq' as [[= ->]|[= Hcf]]; [done|].
      destruct (lands_last _ _ _ Hlands') as (Hin' & _).
      symmetry. by apply childrenFieldOf_inj. }
    destruct (Hreplaced p' Hlands') as (H1 & _ & H3 & H2 & H4).
    destruct (HcountT p' Hlands') as [Hc1 Hc2].
    apply (looksAtIn_more _ _ _ (k + 1)); [|lia].
    apply looksAtIn_descend.
    + unfold codePointsAt at 1. by rewrite H1, <- H2.
    + unfold matchesAll. unfold codePointsAt at 1. rewrite H1, Hc1, <- H2, <- Hc2.
      apply Hall'.
    + by rewrite Hc1, <- Hc2.
    + unfold hasChildren in *. unfold getChildrenPos in *. by rewrite H3, <- H4.
    + by rewrite H3, <- H4.
    + by rewrite H3, <- H4, Hc1, <- Hc2.
  - destruct (HcountT p Hlands) as [Hc1 _].
    apply (looksAtIn_more _ _ _ 1); [|lia].
    rewrite <- HheadT. apply looksAtIn_found.
    + unfold codePointsAt at 1. by rewrite HcpsT.
    + unfold matchesAll. unfold codePointsAt at 1. rewrite HcpsT, Hc1. apply Hall.
    + by rewrite Hc1.
Qed.

(** What [reallocatePtNodeAndAddNewPtNodes] leaves: at the tail [F] of [b]
    the first part of the PtNode, then at [A] an array with the second part
    and, when the word goes on, a PtNode with the rest of the word. *)
Lemma reallocatePtNodeAndAddNewPtNodes_layout moveFuel p q0 j newCodePoints newCount :
  lands b p q0 → 1 <= j < countAt b p →
  reallocatePtNodeAndAddNewPtNodes NOT_A_PROBABILITY NOT_A_VALID_WORD_POS moveFuel
    (fetchNode b p) (codePointsAt b p) j probability newCodePoints newCount b
  = (b', Done tt) →
  ∃ A E2 E3 flagsF flags2,
    framed NOT_A_PROBABILITY (Some q0) (Some (childrenFieldOf b q0)) None None b b'
    ∧ lands b' q0 (tail b)
    ∧ written b' (tail b) A flagsF (take (Z.to_nat j) (codePointsAt b p))
        (if bool_decide (newCount > j) then NOT_A_PROBABILITY else probability) A
    ∧ flagIsMoved flagsF = false
    ∧ flagIsTerminal flagsF = negb (bool_decide (newCount > j))
    ∧ cells b' !! A
      = Some (FPtNodeArraySize (if bool_decide (newCount > j) then 2 else 1))
    ∧ written b' (A + 1) E2 flags2 (drop (Z.to_nat j) (codePointsAt b p))
        (getProbabilityOfNode (fetchNode b p)) (getChildrenPos (fetchNode b p))
    ∧ flagIsMoved flags2 = false
    ∧ (if bool_decide (newCount > j)
       then ∃ flags3,
              written b' E2 E3 flags3
                (take (Z.to_nat (newCount - j)) (drop (Z.to_nat j) newCodePoints))
                probability NOT_A_DICT_POS
              ∧ flagIsMoved flags3 = false ∧ flagIsTerminal flags3 = true
       else E3 = E2)
    ∧ cells b' !! E3 = Some (FForwardLinkPos NOT_A_DICT_POS)
    ∧ tail b' = E3 + 1 ∧ 0 < tail b.
Proof.
  intros Hlands Hj Hrun.
  destruct (lands_last _ _ _ Hlands) as (Hin & Hmoved & _).
  pose proof (nodeInside_range _ _ Hin) as Hq0.
  destruct (fetchNode_fields _ _ _ Hlands) as (Hhead & _ & Hcps & Hfield & Hpos).
  set (n := fetchNode b p) in *.
  set (cf0 := childrenFieldOf b q0) in *.
  assert (Hcf0 : q0 + 3 <= cf0 < tail b).
  { destruct Hin as (_ & _ & Hcf). fold cf0 in Hcf. split; [|done].
    unfold cf0, childrenFieldOf. destruct (flagIsTerminal _); lia. }
  unfold reallocatePtNodeAndAddNewPtNodes in Hrun. rewrite bind_current in Hrun.
  unfold getTailPosition in Hrun.
  set (extra := bool_decide (newCount > j)) in *.
  set (newProbability := if extra then NOT_A_PROBABILITY else probability) in *.
  apply bind_Done in Hrun as (b1 & A & H1 & Hrun).
  apply bind_Done in Hrun as (b2 & S2 & H2 & Hrun).
  apply bind_Done in Hrun as (b3 & E2 & H3 & Hrun).
  apply bind_Done in Hrun as (b4 & E3 & H4 & Hrun).
  apply bind_Done in Hrun as (b5 & r5 & H5 & Hrun).
  apply bind_Done in Hrun as (b6 & [] & H6 & Hrun).
  rewrite bind_current in Hrun.
  apply bind_Done in Hrun as (b7 & r7 & H7 & Hret). injection Hret as ->.
  (* the first part *)
  unfold writePtNodeToBuffer in H1.
  pose proof (writePtNodeWithFullInfoToBuffer_inside _ _ _ _ _ _ _ _ _ _ _ _ _ _ H1
                ltac:(lia) ltac:(lia) b_inside) as Hi1.
  apply writePtNodeWithFullInfoToBuffer_written in H1 as (Hw1 & Ht1 & Hb1); [|done].
  pose proof (written_ge _ _ _ _ _ _ _ Hw1) as HA.
  set (flagsF := createAndGetFlags false false (bool_decide (newProbability ≠ _)) _ _ _ _)
    in Hw1.
  (* the size of the array *)
  unfold writePtNodeArraySizeAndAdvancePosition in H2.
  pose proof (writeField_inside _ _ _ _ _ H2 ltac:(lia) ltac:(lia) Hi1) as Hi2.
  apply writeField_append in H2 as (-> & Ht2 & Hc2); [|lia].
  (* the second part *)
  unfold writePtNodeToBufferByCopyingPtNodeInfo in H3.
  pose proof (writePtNodeWithFullInfoToBuffer_inside _ _ _ _ _ _ _ _ _ _ _ _ _ _ H3
                ltac:(lia) ltac:(lia) Hi2) as Hi3.
  apply writePtNodeWithFullInfoToBuffer_written in H3 as (Hw3 & Ht3 & Hb3); [|lia].
  pose proof (written_ge _ _ _ _ _ _ _ Hw3) as HE2.
  set (flags2 := createAndGetFlags _ _ _ _ _ _ _) in Hw3.
  assert (Htake : take (Z.to_nat (getCodePointCount n - j))
                    (drop (Z.to_nat j) (codePointsAt b p))
                  = drop (Z.to_nat j) (codePointsAt b p)).
  { apply take_ge. rewrite length_drop. unfold getCodePointCount, codePointsAt. fold n.
    lia. }
  rewrite Htake in Hw3.
  (* the PtNode of the rest of the word *)
  assert (H4' : tail b4 = E3 ∧ E2 <= E3 ∧ (∀ y, y < E2 → cells b4 !! y = cells b3 !! y)
                ∧ inside b4
                ∧ (if extra
                   then ∃ flags3,
                          written b4 E2 E3 flags3
                            (take (Z.to_nat (newCount - j))
                               (drop (Z.to_nat j) newCodePoints))
                            probability NOT_A_DICT_POS
                          ∧ flagIsMoved flags3 = false ∧ flagIsTerminal flags3 = true
                   else E3 = E2)).
  { destruct extra.
    - unfold writePtNodeToBuffer in H4.
      pose proof (writePtNodeWithFullInfoToBuffer_inside _ _ _ _ _ _ _ _ _ _ _ _ _ _ H4
                    ltac:(lia) ltac:(lia) Hi3) as Hi4.
      apply writePtNodeWithFullInfoToBuffer_written in H4 as (Hw4 & Ht4 & Hb4); [|lia].
      pose proof (written_ge _ _ _ _ _ _ _ Hw4).
      split; [done|]. split; [lia|]. split; [done|]. split; [done|].
      eexists. split; [exact Hw4|]. split; [done|]. simpl.
      by apply bool_decide_eq_true_2.
    - injection H4 as <- <-. split; [done|]. split; [lia|]. done. }
  destruct H4' as (Ht4 & HE3 & Hb4 & Hi4 & Hw4). clear H4.
  (* the forward link *)
  unfold writeForwardLinkPositionAndAdvancePosition in H5.
  pose proof (writeField_inside _ _ _ _ _ H5 ltac:(lia) ltac:(lia) Hi4) as Hi5.
  apply writeField_append in H5 as (_ & Ht5 & Hc5); [|lia].
  assert (Hbelow5 : ∀ y, y < E3 → cells b5 !! y = cells b4 !! y)
    by (intros y Hy; by rewrite Hc5, lookup_insert_ne by lia).
  assert (Hbelow3 : ∀ y, y < A → cells b3 !! y = cells b1 !! y).
  { intros y Hy. rewrite Hb3 by lia. by rewrite Hc2, lookup_insert_ne by lia. }
  assert (Hw1_5 : written b5 (tail b) A flagsF (take (Z.to_nat j) (codePointsAt b p))
                    newProbability NOT_A_DICT_POS).
  { apply (written_ext b1); [done|]. intros y Hy _.
    rewrite Hbelow5, Hb4 by lia. apply Hbelow3. lia. }
  assert (HA5 : cells b5 !! A = Some (FPtNodeArraySize (if extra then 2 else 1))).
  { rewrite Hbelow5, Hb4, Hb3 by lia. by rewrite Hc2, lookup_insert_eq. }
  assert (Hw3_5 : written b5 (A + 1) E2 flags2 (drop (Z.to_nat j) (codePointsAt b p))
                    (getProbabilityOfNode n) (getChildrenPos n)).
  { apply (written_ext b3); [done|]. intros y Hy _.
    rewrite Hbelow5 by lia. apply Hb4. lia. }
  assert (Hw4_5 : if extra
                  then ∃ flags3,
                         written b5 E2 E3 flags3
                           (take (Z.to_nat (newCount - j))
                              (drop (Z.to_nat j) newCodePoints))
                           probability NOT_A_DICT_POS
                         ∧ flagIsMoved flags3 = false ∧ flagIsTerminal flags3 = true
                  else E3 = E2).
  { destruct extra; [|done]. destruct Hw4 as (flags3 & Hw4 & Hm4 & Hterm4).
    exists flags3. split; [|done]. apply (written_ext b4); [done|].
    intros y Hy _. apply Hbelow5. lia. }
  assert (HE5 : cells b5 !! E3 = Some (FForwardLinkPos NOT_A_DICT_POS))
    by (by rewrite Hc5, lookup_insert_eq).
  (* the marking *)
  destruct (written_read NOT_A_PROBABILITY _ _ _ _ _ _ _ Hw1_5 eq_refl ltac:(lia)
              ltac:(lia)) as (HlandsF5 & _).
  destruct (markNodeAsMovedAndSetPosition_marking NOT_A_PROBABILITY NOT_A_VALID_WORD_POS
              NOT_A_VALID_WORD_POS_negative b q0 cf0 b_inside b_header Hin Hmoved
              moveFuel n (tail b) (A + 1) b5 b6 Hhead Hfield eq_refl)
    as (Hmarking & Ht6 & Hoffset & Hlinked & Hsame6); try done.
  { intros Hhas. by apply (b_childrenLaidOut p q0). }
  { lia. }
  { intros x Hx. rewrite Hbelow5, Hb4 by lia. rewrite Hbelow3 by lia. apply Hb1. lia. }
  { destruct Hw1_5 as (-> & _). done. }
  { lia. }
  { left. split; [done|lia]. }
  assert (Hw1_6 : written b6 (tail b) A flagsF (take (Z.to_nat j) (codePointsAt b p))
                    newProbability NOT_A_DICT_POS).
  { apply (written_sameOrOffset b5); [done|]. intros y Hy. apply Hsame6. lia. }
  destruct (written_read NOT_A_PROBABILITY _ _ _ _ _ _ _ Hw1_6 eq_refl ltac:(lia)
              ltac:(lia)) as (HlandsF6 & _ & _ & HflagsF6 & _).
  destruct (fetchNode_fields _ _ _ HlandsF6) as (_ & _ & _ & HfieldF & _).
  unfold childrenFieldOf in HfieldF. rewrite HflagsF6 in HfieldF.
  rewrite HfieldF in H7. unfold writeChildrenPositionAndAdvancePosition in H7.
  set (cfF := if flagIsTerminal flagsF then tail b + 3 + 1 else tail b + 3) in *.
  assert (HcfF : tail b + 3 <= cfF < A).
  { split; [unfold cfF; destruct (flagIsTerminal _); lia|].
    assert (A = cfF + 1); [|lia].
    destruct Hw1 as (_ & _ & _ & _ & s & Hs & Hr). simpl in Hs, Hr.
    rewrite Hr, Hs. unfold cfF, flagsF. done. }
  apply writeField_patch in H7 as (_ & Ht7 & Hc7 & _); [|lia].
  assert (Hkeep7 : ∀ y, y ≠ cfF → cells b' !! y = cells b6 !! y)
    by (intros y Hy; by rewrite Hc7, lookup_insert_ne).
  assert (Hframe : framed NOT_A_PROBABILITY (Some q0) (Some cf0) None None b b').
  { apply (marking_framed_after NOT_A_PROBABILITY b q0 cf0 b_inside Hin Hmoved b6 b');
      [done|intros x Hx; apply Hkeep7; lia|lia|].
    rewrite Hkeep7 by lia. destruct Hw1_6 as (-> & _). done. }
  assert (Hw1_7 : written b' (tail b) A flagsF (take (Z.to_nat j) (codePointsAt b p))
                    newProbability A)
    by (by apply (written_children b6 _ _ _ _ _ _ NOT_A_DICT_POS)).
  destruct (written_read NOT_A_PROBABILITY _ _ _ _ _ _ _ Hw1_7 eq_refl ltac:(lia)
              ltac:(lia)) as (HlandsF7 & _).
  exists A, E2, E3, flagsF, flags2.
  split; [done|]. split.
  { assert (Hoff : getParentOffset b' (q0 + 1) = tail b - q0).
    { unfold getParentOffset. rewrite Hkeep7 by lia. by rewrite Hoffset. }
    apply lands_follow.
    - by apply (framed_nodeInside NOT_A_PROBABILITY _ _ _ _ _ _ Hframe).
    - destruct (framed_moved _ _ _ _ _ _ _ Hframe q0 eq_refl)
        as (_ & flags & _ & _ & Hcell).
      unfold getFlags. by rewrite Hcell.
    - lia.
    - rewrite Hoff. by replace (q0 + (tail b - q0)) with (tail b) by lia. }
  split; [done|]. split; [done|].
  split.
  { unfold flagsF, newProbability. simpl. destruct extra; simpl.
    - by apply bool_decide_eq_false_2; intros H; apply H.
    - by apply bool_decide_eq_true_2. }
  split.
  { rewrite Hkeep7 by lia. apply (sameOrOffset_cell b5); [apply Hsame6; lia|done|done]. }
  split.
  { apply (written_ext b6); [|intros y Hy _; apply Hkeep7; lia].
    apply (written_sameOrOffset b5); [done|]. intros y Hy. apply Hsame6. lia. }
  split; [done|].
  split.
  { destruct extra; [|done]. destruct Hw4_5 as (flags3 & Hw & Hm & Hterm).
    exists flags3. split; [|done].
    apply (written_ext b6); [|intros y Hy _; apply Hkeep7; lia].
    apply (written_sameOrOffset b5); [done|]. intros y Hy. apply Hsame6. lia. }
  split.
  { rewrite Hkeep7 by lia. apply (sameOrOffset_cell b5); [apply Hsame6; lia|done|done]. }
  split; [lia|lia].
Qed.

(** The lookup at the first PtNode of an array, and at the second one when
    the first begins with another code point. *)
Lemma looksFromIn_first b0 a p1 rest linkFieldPos matched n r :
  arraysOf b0 a (p1 :: rest) linkFieldPos → looksAtIn b0 p1 matched n r →
  looksFromIn b0 a matched n r.
Proof.
  intros Harrays Hlooks fuelOfArrays rh fuel HfuelOfArrays Hmatched Hfuel.
  destruct (arrays_siblingsFrom NOT_A_PROBABILITY NOT_A_VALID_WORD_POS _ _ _ _ Harrays
              fuelOfArrays rh HfuelOfArrays) as (e & Hsib & _).
  inversion Hsib as [|? ? ? ? Hnotend Hnode _ _]; subst.
  apply Hlooks; [done|done| |done].
  by rewrite fetchUnlessEnd_prevTotal, enterNodeArray_prevTotal.
Qed.

Lemma looksFromIn_second b0 a p1 p2 rest linkFieldPos matched n r :
  arraysOf b0 a (p1 :: p2 :: rest) linkFieldPos →
  ¬ matches (codePointsAt b0 p1) matched 0 →
  looksAtIn b0 p2 matched n r →
  looksFromIn b0 a matched (n + 1) r.
Proof.
  intros Harrays Hfirst Hlooks fuelOfArrays rh fuel HfuelOfArrays Hmatched Hfuel.
  destruct (arrays_siblingsFrom NOT_A_PROBABILITY NOT_A_VALID_WORD_POS _ _ _ _ Harrays
              fuelOfArrays rh HfuelOfArrays) as (e & Hsib & _).
  inversion Hsib as [|? ? ? ? Hnotend Hnode _ Hsib']; subst.
  inversion Hsib' as [|? ? ? ? Hnotend' Hnode' _ _]; subst.
  assert (Hprev : mPrevTotalCodePointCount
                    (fetchFrom b0 (enterNodeArray fuelOfArrays b0 rh a))
                  = mPrevTotalCodePointCount rh)
    by (by rewrite fetchUnlessEnd_prevTotal, enterNodeArray_prevTotal).
  destruct fuel as [|fuel]; [lia|].
  rewrite lookupLoop_skip; [|done|by rewrite Hnode, Hprev].
  apply Hlooks; [done|done| |lia].
  by rewrite readNextSiblingNode_prevTotal.
Qed.

Lemma matches_take codePoints matched j i :
  0 <= i < j → matches codePoints matched i →
  matches (take (Z.to_nat j) codePoints) matched i.
Proof. intros Hi [H0 H]. split; [done|]. by rewrite lookup_take_lt by lia. Qed.

Lemma matches_drop codePoints matched j i :
  0 <= j → 0 <= i →
  matches (drop (Z.to_nat j) codePoints) (matched + j) i
  ↔ matches codePoints matched (j + i).
Proof.
  intros Hj Hi. unfold matches. rewrite lookup_drop.
  replace (Z.to_nat j + Z.to_nat i)%nat with (Z.to_nat (j + i)) by lia.
  replace (matched + j + i) with (matched + (j + i)) by lia.
  split; intros [_ H]; (split; [lia|done]).
Qed.

(** Reading a PtNode that is written. *)
Lemma written_fetch b0 wp r flags codePoints probability0 childrenPos :
  written b0 wp r flags codePoints probability0 childrenPos →
  flagIsMoved flags = false → 0 <= wp → r <= tail b0 →
  lands b0 wp wp ∧ endOfPtNode NOT_A_PROBABILITY b0 wp = r
  ∧ codePointsAt b0 wp = codePoints
  ∧ countAt b0 wp = Z.of_nat (List.length codePoints)
  ∧ getHeadPos (fetchNode b0 wp) = wp
  ∧ getChildrenPos (fetchNode b0 wp) = childrenPos
  ∧ getFlags b0 wp = flags
  ∧ (flagIsTerminal flags = true →
     cells b0 !! (wp + 3) = Some (FProbability probability0)).
Proof.
  intros Hwritten Hmoved Hwp Hr.
  destruct (written_read NOT_A_PROBABILITY _ _ _ _ _ _ _ Hwritten Hmoved Hwp Hr)
    as (Hlands & Hend & _ & Hflags & Hfields).
  split; [done|]. split; [done|].
  unfold codePointsAt, countAt, getCodePointCount.
  destruct (fetchNode_read NOT_A_PROBABILITY NOT_A_VALID_WORD_POS _ _ _ Hlands)
    as (s & l & ->).
  destruct (Hfields s l) as [Hc Hp]. rewrite Hc.
  split; [done|]. split; [done|]. split; [done|]. split; [exact Hp|].
  split; [done|]. by destruct Hwritten as (_ & _ & Hprob & _).
Qed.

(** reallocatePtNodeAndAddNewPtNodes: the PtNode is split where the word
    leaves it. *)
Lemma settled_split moveFuel parentPos p q0 matched j :
  0 <= matched < length → lands b p q0 →
  matches (codePointsAt b p) matched 0 → 1 <= j < countAt b p →
  (∀ j', 1 <= j' < j →
     matched + j' < length ∧ matches (codePointsAt b p) matched j') →
  (matched + j >= length ∨ ¬ matches (codePointsAt b p) matched j) →
  finalAction b moveFuel (Split p matched j) parentPos b = (b', Done tt) →
  settled b b' (Split p matched j).
Proof.
  intros Hmatched Hlands Hfirst Hj Hbefore Hat Hrun. simpl in Hrun.
  destruct (reallocatePtNodeAndAddNewPtNodes_layout _ _ _ _ _ _ Hlands Hj Hrun)
    as (A & E2 & E3 & flagsF & flags2 & Hframe & HlandsQ & HwF & HmF & HtF & HA & Hw2
        & Hm2 & Hw3 & HE3 & Htail' & HF).
  clear Hrun.
  set (cps := codePointsAt b p) in *.
  set (extra := bool_decide (length - matched > j)) in *.
  assert (Hlong : j <= length - matched).
  { destruct (decide (j = 1)) as [->|]; [lia|]. destruct (Hbefore (j - 1)); lia. }
  pose proof (written_ge _ _ _ _ _ _ _ HwF) as HAF.
  pose proof (written_ge _ _ _ _ _ _ _ Hw2) as HE2.
  assert (HE3' : E2 <= E3).
  { destruct extra; [|lia]. destruct Hw3 as (? & Hw3 & _).
    pose proof (written_ge _ _ _ _ _ _ _ Hw3). lia. }
  destruct (written_fetch _ _ _ _ _ _ _ HwF HmF ltac:(lia) ltac:(lia))
    as (HlandsF & HendF & HcpsF & HcountF & HheadF & HchildF & HflagsF & HprobF).
  destruct (written_fetch _ _ _ _ _ _ _ Hw2 Hm2 ltac:(lia) ltac:(lia))
    as (Hlands2 & Hend2 & Hcps2 & Hcount2 & Hhead2 & Hchild2 & _).
  assert (Hcount_cps : countAt b p = Z.of_nat (List.length cps)) by done.
  assert (HlenF : Z.of_nat (List.length (take (Z.to_nat j) cps)) = j)
    by (rewrite length_take; lia).
  assert (Hlen2 : Z.of_nat (List.length (drop (Z.to_nat j) cps)) = countAt b p - j)
    by (rewrite length_drop; lia).
  rewrite HlenF in HcountF. rewrite Hlen2 in Hcount2.
  (* what is read from a PtNode that led to the one that is split *)
  assert (Hreplaced : ∀ p', lands b p' q0 →
            codePointsAt b' p' = take (Z.to_nat j) cps
            ∧ countAt b' p' = j
            ∧ getHeadPos (fetchNode b' p') = tail b
            ∧ getChildrenPos (fetchNode b' p') = A
            ∧ codePointsAt b p' = cps
            ∧ countAt b p' = countAt b p
            ∧ getChildrenPos (fetchNode b p') = getChildrenPos (fetchNode b p)).
  { intros p' Hlands'.
    pose proof (framed_lands NOT_A_PROBABILITY _ _ _ _ _ _ Hframe p' q0 Hlands' _ HlandsQ)
      as HlandsT'.
    destruct (fetchNode_fields _ _ _ HlandsT') as (Hh' & _ & Hc' & _ & Hp').
    destruct (fetchNode_fields _ _ _ HlandsF) as (_ & _ & HcF' & _ & HpF').
    destruct (fetchNode_fields _ _ _ Hlands') as (_ & _ & Hc0' & _ & Hp0').
    destruct (fetchNode_fields _ _ _ Hlands) as (_ & _ & Hc0 & _ & Hp0).
    assert (Hc1 : codePointsAt b' p' = take (Z.to_nat j) cps)
      by (unfold codePointsAt in *; by rewrite Hc', <- HcF').
    assert (Hc2 : codePointsAt b p' = cps)
      by (unfold cps, codePointsAt in *; by rewrite Hc0', <- Hc0).
    split; [done|]. split.
    { unfold countAt, getCodePointCount. fold (codePointsAt b' p'). by rewrite Hc1. }
    split; [done|]. split; [by rewrite Hp', <- HpF'|]. split; [done|].
    split.
    { unfold countAt, getCodePointCount. fold (codePointsAt b p') (codePointsAt b p).
      by rewrite Hc2. }
    by rewrite Hp0', <- Hp0. }
  (* the array of the second part *)
  assert (Harray : ∃ rest linkFieldPos, arraysOf b' A ((A + 1) :: rest) linkFieldPos
                     ∧ (extra = true → rest = [E2])).
  { destruct extra eqn:Hextra.
    - destruct Hw3 as (flags3 & Hw3 & Hm3 & _).
      destruct (written_fetch _ _ _ _ _ _ _ Hw3 Hm3 ltac:(lia) ltac:(lia))
        as (Hlands3 & Hend3 & _).
      exists [E2], E3. split; [|done]. apply arrays_last.
      + lia.
      + unfold getPtNodeArraySize. by rewrite HA.
      + split; [done|]. split; [by exists (A + 1)|]. rewrite Hend2.
        split; [done|]. split; [by exists E2|]. rewrite Hend3. done.
      + lia.
      + unfold getForwardLinkPosition. by rewrite HE3.
    - subst E3. exists [], E2. split; [|done]. apply arrays_last.
      + lia.
      + unfold getPtNodeArraySize. by rewrite HA.
      + split; [done|]. split; [by exists (A + 1)|]. rewrite Hend2. done.
      + lia.
      + unfold getForwardLinkPosition. by rewrite HE3. }
  destruct Harray as (rest & linkFieldPos' & Harray & Hrest).
  (* the PtNode that holds the word *)
  assert (Htarget : ∃ target, found b' target ∧ looksAtIn b' p matched 3 target).
  { destruct (Hreplaced p Hlands) as (Hc1 & Hn1 & Hh1 & Hch1 & _).
    assert (Hfirst' : matches (codePointsAt b' p) matched 0)
      by (rewrite Hc1; apply matches_take; [lia|done]).
    assert (Hall' : matchesAll b' p matched).
    { intros i Hi. rewrite Hn1 in Hi. destruct (Hbefore i Hi) as [? ?].
      split; [done|]. rewrite Hc1. apply matches_take; [lia|done]. }
    destruct extra eqn:Hextra.
    - apply bool_decide_eq_true in Hextra.
      destruct Hw3 as (flags3 & Hw3 & Hm3 & Ht3).
      destruct (written_fetch _ _ _ _ _ _ _ Hw3 Hm3 ltac:(lia) ltac:(lia))
        as (Hlands3 & _ & Hcps3 & Hcount3 & Hhead3 & _ & Hflags3 & Hprob3).
      assert (Hmatched' : 0 <= matched + j < length) by lia.
      destruct (suffix_matches _ Hmatched' length_word) as [Hcount Hmatches].
      assert (Hsuffix : take (Z.to_nat (length - matched - j))
                          (drop (Z.to_nat j) (drop (Z.to_nat matched) word))
                        = take (Z.to_nat (length - (matched + j)))
                            (drop (Z.to_nat (matched + j)) word)).
      { rewrite drop_drop. f_equal; [lia|]. f_equal. lia. }
      rewrite Hsuffix in Hcps3, Hcount3. rewrite Hcount in Hcount3.
      exists E2. split.
      { apply found_at; [done|by rewrite Hflags3|by apply Hprob3]. }
      apply (looksAtIn_descend _ _ _ 2).
      + done.
      + done.
      + rewrite Hn1. lia.
      + unfold hasChildren. unfold getChildrenPos in Hch1. rewrite Hch1.
        apply bool_decide_eq_true_2. unfold NOT_A_DICT_POS. lia.
      + rewrite Hch1. lia.
      + rewrite Hch1, Hn1. rewrite (Hrest eq_refl) in Harray.
        apply (looksFromIn_second _ _ (A + 1) E2 [] linkFieldPos' _ 1); [done| |].
        * rewrite Hcps2. rewrite (matches_drop cps matched j 0) by lia.
          rewrite Z.add_0_r. destruct Hat as [?|?]; [lia|done].
        * rewrite <- Hhead3 at 2. apply looksAtIn_found.
          -- rewrite Hcps3. apply Hmatches. lia.
          -- intros i Hi. rewrite Hcount3 in Hi. split; [lia|].
             rewrite Hcps3. apply Hmatches. lia.
          -- rewrite Hcount3. lia.
    - apply bool_decide_eq_false in Hextra.
      exists (tail b). split.
      { apply found_at; [done|by rewrite HflagsF, HtF|].
        apply HprobF. by rewrite HtF. }
      apply (looksAtIn_more _ _ _ 1); [|lia].
      rewrite <- Hh1. apply looksAtIn_found; [done|done|]. rewrite Hn1. lia. }
  destruct Htarget as (target & Hfound & Hlooks).
  exists target. split; [done|].
  intros a slots linkFieldPos n0 matched0 Harrays Hlevel.
  apply (framed_looksFrom (Some q0) (Some (childrenFieldOf b q0)) None None b b'
           (Split p matched j) target Hframe)
    with (slots := slots) (linkFieldPos := linkFieldPos);
    [by intros x [= <-]; exists (tail b)|done| | |done|done|done].
  - intros p' x [= <-] Hlands'.
    destruct (Hreplaced p' Hlands') as (Hc1 & _ & _ & _ & Hc2 & _).
    rewrite Hc1, Hc2. by rewrite lookup_take_lt by lia.
  - intros p' q' matched1 k r0 Hlands' Hq' Hfirst' Hall' Hlen' Hchildren' Hpos' Hfrom.
    assert (q' = q0) as ->.
    { destruct Hq' as [[= ->]|[= Hcf]]; [done|].
      destruct (lands_last _ _ _ Hlands') as (Hin' & _).
      destruct (lands_last _ _ _ Hlands) as (Hin & _).
      symmetry. by apply childrenFieldOf_inj. }
    destruct (Hreplaced p' Hlands') as (Hc1 & Hn1 & _ & Hch1 & Hc2 & Hn2 & Hch2).
    rewrite Hc2 in Hfirst'. unfold matchesAll in Hall'. rewrite Hc2, Hn2 in Hall'.
    rewrite Hn2 in Hlen'. rewrite Hch2 in Hpos'. rewrite Hch2, Hn2 in Hfrom.
    unfold hasChildren in Hchildren'. unfold getChildrenPos in Hch2.
    rewrite Hch2 in Hchildren'.
    replace (k + 2)%nat with ((k + 1) + 1)%nat by lia.
    apply looksAtIn_descend.
    + rewrite Hc1. apply matches_take; [lia|done].
    + intros i Hi. rewrite Hn1 in Hi. destruct (Hall' i ltac:(lia)) as [? ?].
      split; [done|]. rewrite Hc1. apply matches_take; [lia|done].
    + rewrite Hn1. lia.
    + unfold hasChildren. unfold getChildrenPos in Hch1. rewrite Hch1.
      apply bool_decide_eq_true_2. unfold NOT_A_DICT_POS. lia.
    + rewrite Hch1. lia.
    + rewrite Hch1, Hn1.
      apply (looksFromIn_first _ _ (A + 1) rest linkFieldPos'); [done|].
      apply looksAtIn_descend.
      * rewrite Hcps2. rewrite (matches_drop cps matched1 j 0) by lia.
        rewrite Z.add_0_r. by apply Hall'.
      * intros i Hi. rewrite Hcount2 in Hi.
        destruct (Hall' (j + i) ltac:(lia)) as [? ?]. split; [lia|].
        rewrite Hcps2. by rewrite (matches_drop cps matched1 j i) by lia.
      * rewrite Hcount2. lia.
      * unfold hasChildren. unfold getChildrenPos in Hchild2. by rewrite Hchild2.
      * by rewrite Hchild2.
      * rewrite Hchild2, Hcount2.
        by replace (matched1 + j + (countAt b p - j)) with (matched1 + countAt b p)
          by lia.
Qed.

(** setPtNodeProbability on a terminal: the probability is overwritten. *)
Lemma settled_terminal moveFuel parentPos p q0 matched :
  lands b p q0 →
  matches (codePointsAt b p) matched 0 → matchesAll b p matched →
  length = matched + countAt b p →
  isTerminal (fetchNode b p) = true →
  finalAction b moveFuel (Exact p matched) parentPos b = (b', Done tt) →
  settled b b' (Exact p matched).
Proof.
  intros Hlands Hfirst Hall Hlen Hterminal Hrun.
  destruct (lands_last _ _ _ Hlands) as (Hin & Hmoved & _).
  pose proof (nodeInside_range _ _ Hin) as Hq0.
  destruct (fetchNode_read NOT_A_PROBABILITY NOT_A_VALID_WORD_POS _ _ _ Hlands)
    as (s0 & l0 & Hread).
  assert (Hterminal' : flagIsTerminal (getFlags b q0) = true)
    by (by rewrite Hread in Hterminal).
  simpl in Hrun. unfold setPtNodeProbability in Hrun. rewrite Hterminal in Hrun.
  apply bind_Done in Hrun as (b1 & r & Hwrite & Hret). injection Hret as ->.
  assert (Hfield : getProbabilityFieldPos (fetchNode b p) = q0 + 3).
  { rewrite Hread. unfold getProbabilityFieldPos, readPtNode.
    cbn [mProbabilityFieldPos]. by rewrite Hterminal'. }
  rewrite Hfield in Hwrite. unfold writeProbabilityAndAdvancePosition in Hwrite.
  assert (Hcf : q0 + 3 + 1 < tail b).
  { destruct Hin as (_ & _ & Hcf). unfold childrenFieldOf in Hcf.
    by rewrite Hterminal' in Hcf. }
  apply writeField_Done in Hwrite as (_ & Hb' & [[? _]|(_ & _ & g & Hg & Hkind)]); [lia|].
  rewrite decide_False in Hb' by lia.
  destruct g; try done.
  assert (Hframe : framed NOT_A_PROBABILITY None None None (Some (q0 + 3)) b b').
  { apply framed_of_cells; subst b'; cbn [cells tail].
    - done.
    - intros x Hx. apply b_inside. by right.
    - intros x Hx. rewrite lookup_insert_ne by lia. apply b_inside. by left.
    - rewrite lookup_insert_ne by lia. by rewrite b_inside by (right; lia).
    - done.
    - intros x Hx. unfold cellKept. cbn [cells].
      destruct (decide (x = q0 + 3)) as [->|Hne].
      + do 5 right. split; [done|]. rewrite lookup_insert_eq. eauto.
      + left. by rewrite lookup_insert_ne. }
  assert (Hlands' : lands b' p q0).
  { by apply (framed_lands_kept NOT_A_PROBABILITY None None None (Some (q0 + 3)) b b'). }
  exists q0. split.
  - apply found_at.
    + destruct (lands_last _ _ _ Hlands') as (Hin' & Hmoved' & _). by apply lands_stop.
    + rewrite (framed_getFlags NOT_A_PROBABILITY None None None (Some (q0 + 3)) b b')
        by (done || lia). done.
    + subst b'. cbn [cells]. by rewrite lookup_insert_eq.
  - intros a slots linkFieldPos n matched' Harrays Hlevel.
    apply (framed_looksFrom None None None (Some (q0 + 3)) b b' (Exact p matched) q0
             Hframe) with (slots := slots) (linkFieldPos := linkFieldPos);
      [done|done|done|by intros ? ? ? ? ? ? [?|?]| |done|done].
    destruct (framed_node NOT_A_PROBABILITY NOT_A_VALID_WORD_POS None None None
                (Some (q0 + 3)) b b' Hframe p q0 Hlands ltac:(done))
      as (Hcps & Hhead & _).
    assert (Hcount : countAt b' p = countAt b p)
      by (unfold countAt, getCodePointCount; by rewrite Hcps).
    assert (Hq0' : getHeadPos (fetchNode b' p) = q0).
    { rewrite Hhead, Hread. done. }
    rewrite <- Hq0'. apply (looksAtIn_more _ _ _ 1); [|lia].
    apply looksAtIn_found.
    + unfold codePointsAt. by rewrite Hcps.
    + unfold matchesAll, codePointsAt. rewrite Hcps, Hcount. apply Hall.
    + by rewrite Hcount.
Qed.

(** Whatever [addUnigramWord] does where the path stops, the lookup finds
    the word afterwards. *)
Lemma finalAction_settled moveFuel parentPos final :
  finalFacts b final →
  finalAction b moveFuel final parentPos b = (b', Done tt) →
  settled b b' final.
Proof.
  destruct final as [linkFieldPos matched|p matched j|p matched|p matched];
    simpl finalFacts.
  - intros [Hmatched Hends] Hrun. by apply (settled_end moveFuel parentPos).
  - intros (Hmatched & [q Hq] & Hfirst & Hj & Hbefore & Hat) Hrun.
    by apply (settled_split moveFuel parentPos p q).
  - intros (Hmatched & [q Hq] & Hfirst & Hall & Hlen) Hrun.
    destruct (isTerminal (fetchNode b p)) eqn:Hterminal.
    + by apply (settled_terminal moveFuel parentPos p q).
    + by apply (settled_moved moveFuel parentPos p q).
  - intros (Hmatched & [q Hq] & Hfirst & Hall & Hlen & Hchildren) Hrun.
    by apply (settled_leaf moveFuel parentPos p q).
Qed.

End Cases.

(** A dictionary the reader can walk: no field is outside of the buffer,
    position 0 holds the header, a flags field is followed by a parent
    offset field, the children position of a PtNode the reader lands on is
    the position of a chain of PtNode arrays, and so is [root]. *)
Definition wellFormed (b : Buffer) (root : Z) : Prop :=
  inside b
  ∧ cells b !! 0 = Some FHeader
  ∧ (∀ x flags, cells b !! x = Some (FFlags flags) →
       ∃ offset, cells b !! (x + 1) = Some (FParentOffset offset))
  ∧ childrenLaidOut b
  ∧ ∃ slots linkFieldPos, arraysOf b root slots linkFieldPos.

Lemma initWithNodeArrayPos_enter b root :
  0 < root →
  initWithNodeArrayPos NOT_A_PROBABILITY NOT_A_VALID_WORD_POS b root
  = fetchFrom b
      (enterNodeArray (Z.to_nat (tail b)) b
         (mkReadingHelper false root 0 0 NOT_A_DICT_POS
            (invalidPtNodeInfo NOT_A_PROBABILITY NOT_A_VALID_WORD_POS))
         root).
Proof.
  intros Hroot. unfold initWithNodeArrayPos.
  by rewrite decide_False by (unfold NOT_A_DICT_POS; lia).
Qed.

(** The word that the helper has added is found from the root. *)
Lemma addUnigramWordOfHelper_lookup fuel b b' root :
  wellFormed b root →
  NOT_A_VALID_WORD_POS < 0 → probability ≠ NOT_A_PROBABILITY →
  1 <= length → length <= Z.of_nat (List.length word) →
  addUnigramWordOfHelper NOT_A_PROBABILITY NOT_A_VALID_WORD_POS fuel
    (initWithNodeArrayPos NOT_A_PROBABILITY NOT_A_VALID_WORD_POS b root)
    word length probability b = (b', Done tt) →
  ∃ pos,
    found b' pos
    ∧ ∀ lookupFuel, (2 * fuel + 3 ≤ lookupFuel)%nat →
        lookup lookupFuel b'
          (initWithNodeArrayPos NOT_A_PROBABILITY NOT_A_VALID_WORD_POS b' root)
          word length
        = Done pos.
Proof.
  intros (Hinside & Hheader & Hlayout & Hchildren & slots & linkFieldPos & Harrays)
    Hnegative Hvalid Hlength Hword Hrun.
  pose proof (arrays_inside _ _ _ _ _ Harrays) as Hroot.
  rewrite initWithNodeArrayPos_enter in Hrun by lia.
  set (rh0 := mkReadingHelper false root 0 0 NOT_A_DICT_POS
                (invalidPtNodeInfo NOT_A_PROBABILITY NOT_A_VALID_WORD_POS)) in *.
  destruct (arrays_siblingsFrom NOT_A_PROBABILITY NOT_A_VALID_WORD_POS _ _ _ _ Harrays
              (Z.to_nat (tail b)) rh0 ltac:(lia)) as (e & Hsib & Hlink & _).
  assert (Hprev : mPrevTotalCodePointCount
                    (fetchFrom b (enterNodeArray (Z.to_nat (tail b)) b rh0 root)) = 0)
    by (by rewrite fetchUnlessEnd_prevTotal, enterNodeArray_prevTotal).
  unfold addUnigramWordOfHelper in Hrun.
  destruct (addUnigramWordLoop_path b Hchildren fuel fuel b' _ _ _ linkFieldPos _ Hsib
              Hlink ltac:(rewrite Hprev; lia) Hrun)
    as (n & final & parentPos' & Hlevel & Hn & Haction).
  rewrite Hprev in Hlevel.
  pose proof (addLevel_finalFacts b _ _ _ _ _ Hlevel (arrays_endsChain b _ _ _ Harrays)
                ltac:(lia)) as Hfacts.
  destruct (finalAction_settled b b' Hinside Hnegative Hvalid Hword Hheader Hlayout
              Hchildren fuel parentPos' final Hfacts Haction) as (target & Hfound & Hall).
  exists target. split; [done|].
  intros lookupFuel Hfuel. rewrite initWithNodeArrayPos_enter by lia.
  apply (Hall root slots linkFieldPos n 0 Harrays Hlevel); [| |lia].
  - lia.
  - done.
Qed.

End Path.

(** C2.  On a well-formed dictionary, after [addUnigramWord] has returned
    true for a word of at least one code point and a probability that is not
    [NOT_A_PROBABILITY], [getTerminalNodePositionOfWord] returns, given
    enough fuel, a position that is not [NOT_A_VALID_WORD_POS], of a PtNode
    that is terminal and whose probability field holds the probability that
    was added. *)
Theorem addUnigramWord_then_lookup (NOT_A_PROBABILITY NOT_A_VALID_WORD_POS : Z)
    (toLowerCase : Z → Z) (fuel : nat) (policy : Policy) (word : list Z)
    (length probability : Z) (b b' : Buffer) :
  wellFormed NOT_A_PROBABILITY NOT_A_VALID_WORD_POS b (getRootPosition policy) →
  NOT_A_VALID_WORD_POS < 0 → probability ≠ NOT_A_PROBABILITY →
  1 <= length → length = Z.of_nat (List.length word) →
  addUnigramWord NOT_A_PROBABILITY NOT_A_VALID_WORD_POS fuel policy word length
    probability b = (b', Done tt) →
  ∃ pos,
    (∀ lookupFuel, (2 * fuel + 3 ≤ lookupFuel)%nat →
       getTerminalNodePositionOfWord NOT_A_PROBABILITY NOT_A_VALID_WORD_POS toLowerCase
         lookupFuel policy b' word length false = Done pos)
    ∧ pos ≠ NOT_A_VALID_WORD_POS
    ∧ isTerminal
        (fetchNodeInfoFromBuffer NOT_A_PROBABILITY NOT_A_VALID_WORD_POS b' pos) = true
    ∧ getProbabilityOfNode
        (fetchNodeInfoFromBuffer NOT_A_PROBABILITY NOT_A_VALID_WORD_POS b' pos)
      = probability.
Proof.
  intros Hwf Hnegative Hvalid Hlength Hword Hrun.
  unfold addUnigramWord in Hrun.
  destruct (isUpdatable policy); [|done]. cbn [negb] in Hrun.
  rewrite bind_current in Hrun.
  destruct (addUnigramWordOfHelper_lookup NOT_A_PROBABILITY NOT_A_VALID_WORD_POS word
              length probability fuel b b' (getRootPosition policy) Hwf Hnegative Hvalid
              Hlength ltac:(lia) Hrun) as (pos & (Hpos & Hterminal & Hprobability) & Hlookup).
  exists pos. split; [|done].
  intros lookupFuel Hfuel. unfold getTerminalNodePositionOfWord.
  rewrite take_ge by lia.
  assert (Hsearch : (λ c : Z, if false then toLowerCase c else c) <$> word = word)
    by exact (list_fmap_id word).
  rewrite Hsearch. by apply Hlookup.
Qed.

(** ** A dictionary to run the code on *)

(** An updatable dictionary with an empty root PtNode array at position 1,
    after a header field; the tail may grow to position 1000.
    [NOT_A_PROBABILITY] is taken as [-1] and [NOT_A_VALID_WORD_POS] as
    [-99]. *)
Definition exampleEmptyTrie : Buffer :=
  mkBuffer (list_to_map [(0, FHeader); (1, FPtNodeArraySize 0); (2, FForwardLinkPos 0)])
           3 3 1000.

Definition examplePolicy : Policy := mkPolicy true 1.

(** The words [cat] and [car]. *)
Definition exampleCat : list Z := [99; 97; 116].
Definition exampleCar : list Z := [99; 97; 114].

(** The dictionary after [addUnigramWord(cat, 200)]: a PtNode array at
    position 3 with the PtNode of [cat] at position 4, its children position
    field at position 8. *)
Definition exampleTrieWithCat : Buffer :=
  (addUnigramWord (-1) (-99) 100 examplePolicy exampleCat 3 200 exampleEmptyTrie).1.




(** The dictionary that holds [cat] and [car]; neither has a bigram list. *)
Definition exampleTrieWithCar : Buffer :=
  (addUnigramWord (-1) (-99) 100 examplePolicy exampleCar 3 180 exampleTrieWithCat).1.

(** The dictionary that holds [cat], with the tail at its cap. *)
Definition exampleFullTrie : Buffer :=
  mkBuffer (cells exampleTrieWithCat) (originalSize exampleTrieWithCat)
           (tail exampleTrieWithCat) (tail exampleTrieWithCat).

(** The word [cats]. *)
Definition exampleCats : list Z := [99; 97; 116; 115].

(** C4 as stated fails.  [addUnigramWord(cats, 150)] on the dictionary that
    holds [cat] and has its tail at the cap returns false:
    [createChildrenPtNodeArrayAndAChildPtNode] first writes the position of
    the new PtNode array, the tail position 10, into the children position
    field of [cat] at position 8, and then fails to append the array.  The
    field held [NOT_A_DICT_POS] before the call and holds 10 after it. *)
Lemma failed_addUnigramWord_changes_buffer :
  let run := addUnigramWord (-1) (-99) 100 examplePolicy exampleCats 4 150
               exampleFullTrie in
  run.2 = Failed
  ∧ readChildrenPosition exampleFullTrie 8 = NOT_A_DICT_POS
  ∧ readChildrenPosition run.1 8 = 10
  ∧ tail run.1 = 10
  ∧ run.1 ≠ exampleFullTrie.
Proof.
  intros run. repeat split; try (vm_compute; reflexivity).
  intros Heq. apply (f_equal (λ b, readChildrenPosition b 8)) in Heq.
  vm_compute in Heq. discriminate.
Qed.

(** The root of the dictionary that holds [cat] and [car]: the empty PtNode
    array at position 1, chained to the array at position 3, whose one PtNode
    at position 4 is moved to position 10. *)
Lemma createAndGetAllChildNodes_pushes_every_child_witness :
  createAndGetAllChildNodes (-1) (-99) 10 exampleTrieWithCar true 1 []
  = Done ([] ++ (childAt (-1) (-99) exampleTrieWithCar <$> [4]))
  ∧ ∀ p q, p ∈ [4] → landsAt exampleTrieWithCar p q →
      childPos (childAt (-1) (-99) exampleTrieWithCar p) = q
      ∧ childIsTerminal (childAt (-1) (-99) exampleTrieWithCar p)
        = flagIsTerminal (getFlags exampleTrieWithCar q)
          && negb (flagIsDeleted (getFlags exampleTrieWithCar q)).
Proof.
  apply createAndGetAllChildNodes_pushes_every_child; [|simpl; lia].
  apply (nodeArrays_link (-1) exampleTrieWithCar 1 [] 2 [4]);
    [vm_compute; done|vm_compute; reflexivity|reflexivity|vm_compute; done
    |vm_compute; reflexivity|].
  apply (nodeArrays_last (-1) exampleTrieWithCar 3 [4] 9);
    [vm_compute; done|vm_compute; reflexivity| |vm_compute; reflexivity].
  split; [reflexivity|]. split; [|vm_compute; reflexivity].
  exists 10. apply lands_moved; [vm_compute; done|vm_compute; reflexivity
                                |vm_compute; reflexivity|].
  apply lands_here; [vm_compute; done|vm_compute; reflexivity].
Defined.

(** The dictionary that holds [cat], with the isDeleted flag of its PtNode
    set. *)
Definition exampleTrieWithDeletedCat : Buffer :=
  mkBuffer (<[4 := FFlags (updateAndGetFlags (getFlags exampleTrieWithCat 4) false true)]>
              (cells exampleTrieWithCat))
           (originalSize exampleTrieWithCat) (tail exampleTrieWithCat)
           (maxTail exampleTrieWithCat).

(** C6 as stated fails for a deleted child.  The PtNode array at position 3
    holds one PtNode, at position 4, whose isDeleted flag is set;
    [createAndGetAllChildNodes] pushes a child for it, as not terminal. *)
Lemma createAndGetAllChildNodes_pushes_deleted_child :
  flagIsDeleted (getFlags exampleTrieWithDeletedCat 4) = true
  ∧ match createAndGetAllChildNodes (-1) (-99) 10 exampleTrieWithDeletedCat true 3 [] with
    | Done [child] =>
        childPos child = 4 ∧ childIsTerminal child = false
        ∧ childCodePoints child = exampleCat
    | _ => False
    end.
Proof. vm_compute. repeat split. Qed.

(** The dictionary that holds [cat] is well formed: the root array at
    position 1 is empty and chained to the array at position 3, whose one
    PtNode, at position 4, is not moved and has no children. *)
Lemma exampleTrieWithCat_wellFormed : wellFormed (-1) (-99) exampleTrieWithCat 1.
Proof.
  assert (Hcheck : map_Forall
            (λ x f, bool_decide (0 <= x < 10)
                    && match f with FFlags _ => bool_decide (x = 4) | _ => true end
                    = true)
            (cells exampleTrieWithCat))
    by (apply (bool_decide_unpack _); vm_compute; exact I).
  assert (Hcells : ∀ x f, cells exampleTrieWithCat !! x = Some f →
            0 <= x < 10 ∧ match f with FFlags _ => x = 4 | _ => True end).
  { intros x f Hf. apply Hcheck in Hf. apply andb_true_iff in Hf as [Hrange Hflags].
    apply bool_decide_eq_true in Hrange. split; [done|].
    destruct f; try done. by apply bool_decide_eq_true in Hflags. }
  assert (Hlands : lands exampleTrieWithCat 4 4).
  { apply lands_stop; [|vm_compute; reflexivity].
    split; [vm_compute; eauto|]. split; [lia|]. vm_compute. reflexivity. }
  split.
  { intros x Hx. destruct (cells exampleTrieWithCat !! x) as [f|] eqn:Hf; [|done].
    destruct (Hcells x f Hf) as [Hrange _]. change (tail exampleTrieWithCat) with 10 in Hx.
    lia. }
  split; [vm_compute; reflexivity|].
  split.
  { intros x flags Hf. destruct (Hcells x _ Hf) as [_ ->]. vm_compute. eauto. }
  split.
  { intros p q Hp Hchildren. destruct (lands_first _ _ _ Hp) as ([flags Hf] & _).
    destruct (Hcells p _ Hf) as [_ ->]. vm_compute in Hchildren.
    discriminate Hchildren. }
  exists [4], 9.
  apply (arrays_link (-1) exampleTrieWithCat 1 [] 2 [4] 9);
    [vm_compute; done|vm_compute; reflexivity|reflexivity|vm_compute; reflexivity
    |vm_compute; done|vm_compute; reflexivity|].
  apply (arrays_last (-1) exampleTrieWithCat 3 [4] 9);
    [vm_compute; done|vm_compute; reflexivity| |vm_compute; reflexivity
    |vm_compute; reflexivity].
  split; [reflexivity|]. split; [by exists 4|]. vm_compute. reflexivity.
Qed.

(** The dictionary that holds [cat] and [car] is well formed as well: the
    PtNode at position 4 is moved to position 10, whose children are the
    PtNodes at positions 15 and 20 of the array at position 14. *)
Lemma exampleTrieWithCar_wellFormed : wellFormed (-1) (-99) exampleTrieWithCar 1.
Proof.
  assert (Hcheck : map_Forall
            (λ x f, bool_decide (0 <= x < 26)
                    && match f with
                       | FFlags _ =>
                           bool_decide (x = 4 ∨ x = 10 ∨ x = 15 ∨ x = 20)
                       | _ => true
                       end
                    = true)
            (cells exampleTrieWithCar))
    by (apply (bool_decide_unpack _); vm_compute; exact I).
  assert (Hcells : ∀ x f, cells exampleTrieWithCar !! x = Some f →
            0 <= x < 26
            ∧ match f with
              | FFlags _ => x = 4 ∨ x = 10 ∨ x = 15 ∨ x = 20
              | _ => True
              end).
  { intros x f Hf. apply Hcheck in Hf. apply andb_true_iff in Hf as [Hrange Hflags].
    apply bool_decide_eq_true in Hrange. split; [done|].
    destruct f; try done. by apply bool_decide_eq_true in Hflags. }
  assert (Hstop : ∀ p, p = 10 ∨ p = 15 ∨ p = 20 → lands exampleTrieWithCar p p).
  { intros p [->|[->| ->]]; (apply lands_stop; [|vm_compute; reflexivity]);
      (split; [vm_compute; eauto|]); (split; [lia|]); vm_compute; reflexivity. }
  assert (Hmoved : lands exampleTrieWithCar 4 10).
  { apply lands_follow; [|vm_compute; reflexivity|vm_compute; reflexivity|].
    - split; [vm_compute; eauto|]. split; [lia|]. vm_compute. reflexivity.
    - apply (Hstop 10). by left. }
  assert (Hchildren : arrays (-1) exampleTrieWithCar 14 [15; 20] 25).
  { apply (arrays_last (-1) exampleTrieWithCar 14 [15; 20] 25);
      [vm_compute; done|vm_compute; reflexivity| |vm_compute; reflexivity
      |vm_compute; reflexivity].
    split; [reflexivity|]. split; [exists 15; apply Hstop; auto|].
    split; [vm_compute; reflexivity|]. split; [exists 20; apply Hstop; auto|].
    vm_compute. reflexivity. }
  split.
  { intros x Hx. destruct (cells exampleTrieWithCar !! x) as [f|] eqn:Hf; [|done].
    destruct (Hcells x f Hf) as [Hrange _]. change (tail exampleTrieWithCar) with 26 in Hx.
    lia. }
  split; [vm_compute; reflexivity|].
  split.
  { intros x flags Hf. destruct (Hcells x _ Hf) as [_ [->|[->|[->| ->]]]];
      vm_compute; eauto. }
  split.
  { intros p q Hp Hhas. destruct (lands_first _ _ _ Hp) as ([flags Hf] & _).
    destruct (Hcells p _ Hf) as [_ [->|[->|[->| ->]]]].
    - exists [15; 20], 25.
      assert (Hpos : getChildrenPos
                       (fetchNodeInfoFromBuffer (-1) (-99) exampleTrieWithCar 4) = 14)
        by (vm_compute; reflexivity).
      rewrite Hpos. exact Hchildren.
    - exists [15; 20], 25.
      assert (Hpos : getChildrenPos
                       (fetchNodeInfoFromBuffer (-1) (-99) exampleTrieWithCar 10) = 14)
        by (vm_compute; reflexivity).
      rewrite Hpos. exact Hchildren.
    - vm_compute in Hhas. discriminate Hhas.
    - vm_compute in Hhas. discriminate Hhas. }
  exists [4], 9.
  apply (arrays_link (-1) exampleTrieWithCar 1 [] 2 [4] 9);
    [vm_compute; done|vm_compute; reflexivity|reflexivity|vm_compute; reflexivity
    |vm_compute; done|vm_compute; reflexivity|].
  apply (arrays_last (-1) exampleTrieWithCar 3 [4] 9);
    [vm_compute; done|vm_compute; reflexivity| |vm_compute; reflexivity
    |vm_compute; reflexivity].
  split; [reflexivity|]. split; [by exists 10|]. vm_compute. reflexivity.
Qed.

(** [addUnigramWord(car, 180)] splits the PtNode of [cat]; the lookup of
    [car] then finds the PtNode at position 20. *)
Lemma addUnigramWord_then_lookup_witness :
  ∃ pos,
    (∀ lookupFuel, (2 * 100 + 3 ≤ lookupFuel)%nat →
       getTerminalNodePositionOfWord (-1) (-99) (λ c, c) lookupFuel examplePolicy
         exampleTrieWithCar exampleCar 3 false = Done pos)
    ∧ pos ≠ -99
    ∧ isTerminal (fetchNodeInfoFromBuffer (-1) (-99) exampleTrieWithCar pos) = true
    ∧ getProbabilityOfNode (fetchNodeInfoFromBuffer (-1) (-99) exampleTrieWithCar pos)
      = 180.
Proof.
  apply (addUnigramWord_then_lookup (-1) (-99) (λ c, c) 100 examplePolicy exampleCar 3
           180 exampleTrieWithCat exampleTrieWithCar);
    [exact exampleTrieWithCat_wellFormed|lia|lia|lia|reflexivity
    |vm_compute; reflexivity].
Defined.

(** ** What every writer keeps *)

Section Always.

(** [P] is a property of the buffer that no write of a field disturbs. *)
Variable P : Buffer → Prop.
Hypothesis P_write : ∀ f pos b, P b → P (writeField f pos b).1.

Variable NOT_A_PROBABILITY : Z.
Variable NOT_A_VALID_WORD_POS : Z.

(** The writer [m] keeps [P], whatever its outcome. *)
Definition always {A} (m : Write A) : Prop := keeps P (λ _ : A, True) m.

Lemma always_ret {A} (a : A) : always (ret a).
Proof. by apply keeps_ret. Qed.

Lemma always_fail {A} : always (@fail A).
Proof. apply keeps_fail. Qed.

Lemma always_outOfFuel {A} : always (@outOfFuel A).
Proof. apply keeps_outOfFuel. Qed.

Lemma always_current : always current.
Proof. intros b Hb. by split. Qed.

Lemma always_bind {A B} (m : Write A) (k : A → Write B) :
  always m → (∀ a, always (k a)) → always (bind m k).
Proof. intros Hm Hk. apply (keeps_bind _ (λ _, True)); [done|]. intros a _. apply Hk. Qed.

Lemma always_writeField f pos : always (writeField f pos).
Proof. intros b Hb. split; [by apply P_write|done]. Qed.

Lemma always_run {A} (m : Write A) b b' r : always m → P b → m b = (b', r) → P b'.
Proof. intros Hm Hb Hrun. destruct (Hm b Hb) as [H _]. by rewrite Hrun in H. Qed.

Ltac always_atom :=
  lazymatch goal with
  | |- always (ret _) => apply always_ret
  | |- always fail => apply always_fail
  | |- always outOfFuel => apply always_outOfFuel
  | |- always current => apply always_current
  | |- always (writeField _ _) => apply always_writeField
  end.

Ltac always_step :=
  first [always_atom|apply always_bind; [always_atom|intros ?; cbv beta]].

Lemma always_copyAllBigramsLoop fuel fromPos toPos bigramCount :
  always (copyAllBigramsLoop fuel fromPos toPos bigramCount).
Proof.
  revert fromPos toPos bigramCount.
  induction fuel as [|fuel IH]; intros fromPos toPos bigramCount; simpl;
    [apply always_outOfFuel|].
  apply always_bind; [apply always_current|intros b].
  destruct (cells b !! fromPos) as [[]|]; try apply always_fail.
  apply always_bind; [apply always_writeField|intros toPos'].
  destruct hasNext; [apply IH|apply always_ret].
Qed.

Lemma always_copyAllShortcutsLoop fuel fromPos toPos :
  always (copyAllShortcutsLoop fuel fromPos toPos).
Proof.
  revert fromPos toPos.
  induction fuel as [|fuel IH]; intros fromPos toPos; simpl; [apply always_outOfFuel|].
  apply always_bind; [apply always_current|intros b].
  destruct (cells b !! fromPos) as [[]|]; try apply always_fail.
  apply always_bind; [apply always_writeField|intros toPos'].
  destruct hasNext; [apply IH|apply always_ret].
Qed.

Lemma always_addNewBigramEntryLoop fuel bigramPos probability pos :
  always (addNewBigramEntryLoop fuel bigramPos probability pos).
Proof.
  revert pos. induction fuel as [|fuel IH]; intros pos; simpl; [apply always_outOfFuel|].
  apply always_bind; [apply always_current|intros b].
  destruct (cells b !! pos) as [[]|]; try apply always_fail.
  destruct (decide (targetPos = bigramPos)); [repeat always_step|].
  destruct hasNext; [apply IH|]. unfold writeNewBigramEntry. repeat always_step.
Qed.

Lemma always_removeBigramLoop fuel pos targetBigramPos :
  always (removeBigramLoop NOT_A_VALID_WORD_POS fuel pos targetBigramPos).
Proof.
  revert pos. induction fuel as [|fuel IH]; intros pos; simpl; [apply always_outOfFuel|].
  apply always_bind; [apply always_current|intros b].
  destruct (cells b !! pos) as [[]|]; try apply always_fail.
  destruct (decide (targetPos = targetBigramPos)); [repeat always_step|].
  destruct hasNext; [apply IH|apply always_fail].
Qed.

Lemma always_updateChildrenParentLoop fuel rh movedPos :
  always (updateChildrenParentLoop NOT_A_PROBABILITY NOT_A_VALID_WORD_POS fuel rh
            movedPos).
Proof.
  revert rh. induction fuel as [|fuel IH]; intros rh; simpl;
    (destruct (isEnd rh); [apply always_ret|]); [apply always_outOfFuel|].
  unfold writeParentOffsetAndAdvancePosition.
  apply always_bind; [apply always_writeField|intros _].
  apply always_bind; [apply always_current|intros b]. apply IH.
Qed.

Lemma always_markNodeAsMovedAndSetPosition fuel n movedPos linked :
  always (markNodeAsMovedAndSetPosition NOT_A_PROBABILITY NOT_A_VALID_WORD_POS fuel n
            movedPos linked).
Proof.
  unfold markNodeAsMovedAndSetPosition, writeFlagsAndAdvancePosition,
    writeParentOffsetAndAdvancePosition, writeChildrenPositionAndAdvancePosition.
  do 4 always_step.
  destruct (hasChildren n); [|apply always_ret].
  always_step. apply always_updateChildrenParentLoop.
Qed.

Lemma always_writePtNodeWithFullInfoToBuffer isBlacklisted isNotAWord parentPos
    codePoints codePointCount probability childrenPos originalBigramListPos
    originalShortcutListPos writingPos :
  always (writePtNodeWithFullInfoToBuffer NOT_A_PROBABILITY isBlacklisted isNotAWord
            parentPos codePoints codePointCount probability childrenPos
            originalBigramListPos originalShortcutListPos writingPos).
Proof.
  unfold writePtNodeWithFullInfoToBuffer, writeFlagsAndAdvancePosition,
    writeParentOffsetAndAdvancePosition, writeCodePointsAndAdvancePosition,
    writeProbabilityAndAdvancePosition, writeChildrenPositionAndAdvancePosition.
  do 3 always_step.
  apply always_bind; [destruct (decide _); always_step|intros ?].
  always_step.
  apply always_bind.
  { destruct (decide _); [|apply always_ret].
    unfold copyAllShortcutsAndReturnIfSucceededOrNot. always_step.
    apply always_copyAllShortcutsLoop. }
  intros ?. apply always_bind.
  { destruct (decide _); [|apply always_ret].
    unfold copyAllBigrams. always_step. apply always_copyAllBigramsLoop. }
  intros ?. repeat always_step.
Qed.

Lemma always_createNewPtNodeArrayWithAChildPtNode parentPos codePoints count
    probability :
  always (createNewPtNodeArrayWithAChildPtNode NOT_A_PROBABILITY parentPos codePoints
            count probability).
Proof.
  unfold createNewPtNodeArrayWithAChildPtNode, writePtNodeArraySizeAndAdvancePosition,
    writePtNodeToBuffer, writeForwardLinkPositionAndAdvancePosition.
  do 2 always_step.
  apply always_bind; [apply always_writePtNodeWithFullInfoToBuffer|intros ?].
  repeat always_step.
Qed.

Lemma always_reallocatePtNodeAndAddNewPtNodes fuel n codePoints j probability
    newCodePoints newCount :
  always (reallocatePtNodeAndAddNewPtNodes NOT_A_PROBABILITY NOT_A_VALID_WORD_POS fuel
            n codePoints j probability newCodePoints newCount).
Proof.
  unfold reallocatePtNodeAndAddNewPtNodes, writePtNodeArraySizeAndAdvancePosition,
    writePtNodeToBuffer, writePtNodeToBufferByCopyingPtNodeInfo,
    writeForwardLinkPositionAndAdvancePosition, writeChildrenPositionAndAdvancePosition.
  always_step.
  apply always_bind; [apply always_writePtNodeWithFullInfoToBuffer|intros ?].
  always_step.
  apply always_bind; [apply always_writePtNodeWithFullInfoToBuffer|intros ?].
  apply always_bind.
  { destruct (bool_decide _);
      [apply always_writePtNodeWithFullInfoToBuffer|apply always_ret]. }
  intros ?. always_step.
  apply always_bind; [apply always_markNodeAsMovedAndSetPosition|intros ?].
  repeat always_step.
Qed.

Lemma always_setPtNodeProbability fuel n probability codePoints :
  always (setPtNodeProbability NOT_A_PROBABILITY NOT_A_VALID_WORD_POS fuel n probability
            codePoints).
Proof.
  unfold setPtNodeProbability, writeProbabilityAndAdvancePosition,
    writePtNodeToBufferByCopyingPtNodeInfo.
  destruct (isTerminal n); [repeat always_step|].
  always_step.
  apply always_bind; [apply always_markNodeAsMovedAndSetPosition|intros ?].
  apply always_bind; [apply always_writePtNodeWithFullInfoToBuffer|intros ?].
  apply always_ret.
Qed.

Lemma always_addUnigramWordLoop fuel moveFuel rh word length probability parentPos :
  always (addUnigramWordLoop NOT_A_PROBABILITY NOT_A_VALID_WORD_POS fuel moveFuel rh
            word length probability parentPos).
Proof.
  assert (Hend : ∀ parentPos' rh',
    always (createAndInsertNodeIntoPtNodeArray NOT_A_PROBABILITY parentPos'
              (drop (Z.to_nat (getPrevTotalCodePointCount rh')) word)
              (length - getPrevTotalCodePointCount rh') probability
              (getPosOfLastForwardLinkField rh'))).
  { intros parentPos' rh'. unfold createAndInsertNodeIntoPtNodeArray,
      writeForwardLinkPositionAndAdvancePosition.
    do 2 always_step. apply always_createNewPtNodeArrayWithAChildPtNode. }
  revert rh parentPos. induction fuel as [|fuel IH]; intros rh parentPos;
    cbn [addUnigramWordLoop];
    (destruct (isEnd rh); [destruct (isError rh); [apply always_fail|apply Hend]|]);
    [apply always_outOfFuel|].
  destruct (negb _); [always_step; apply IH|].
  destruct (findSplit _ _ _ _ _ _);
    [apply always_reallocatePtNodeAndAddNewPtNodes|].
  destruct (decide _); [apply always_setPtNodeProbability|].
  destruct (negb _); [|always_step; apply IH].
  unfold createChildrenPtNodeArrayAndAChildPtNode,
    writeChildrenPositionAndAdvancePosition.
  do 2 always_step. apply always_createNewPtNodeArrayWithAChildPtNode.
Qed.

Lemma always_addUnigramWord fuel policy word length probability :
  always (addUnigramWord NOT_A_PROBABILITY NOT_A_VALID_WORD_POS fuel policy word length
            probability).
Proof.
  unfold addUnigramWord, addUnigramWordOfHelper.
  destruct (negb _); [apply always_fail|].
  always_step. apply always_addUnigramWordLoop.
Qed.

End Always.

(** A proof that a writer made of the writers above keeps [P], from the
    proof [Hw] that a write of a field does. *)
Ltac always_with Hw :=
  repeat
    (cbv beta;
     lazymatch goal with
     | |- always _ (ret _) => apply always_ret
     | |- always _ fail => apply always_fail
     | |- always _ outOfFuel => apply always_outOfFuel
     | |- always _ current => apply always_current
     | |- always _ (writeField _ _) => apply (always_writeField _ Hw)
     | |- always _ (bind _ _) => apply always_bind; [|intros ?]
     | |- always _ (if ?c then _ else _) => destruct c
     | |- always _ (copyAllShortcutsLoop _ _ _) =>
         apply (always_copyAllShortcutsLoop _ Hw)
     | |- always _ (copyAllBigramsLoop _ _ _ _) =>
         apply (always_copyAllBigramsLoop _ Hw)
     | |- always _ (copyAllShortcutsAndReturnIfSucceededOrNot _ _) =>
         unfold copyAllShortcutsAndReturnIfSucceededOrNot
     | |- always _ (copyAllBigrams _ _) => unfold copyAllBigrams
     | |- always _ (writeFlagsAndAdvancePosition _ _) =>
         unfold writeFlagsAndAdvancePosition
     | |- always _ (writeParentOffsetAndAdvancePosition _ _) =>
         unfold writeParentOffsetAndAdvancePosition
     | |- always _ (writeCodePointsAndAdvancePosition _ _ _) =>
         unfold writeCodePointsAndAdvancePosition
     | |- always _ (writeProbabilityAndAdvancePosition _ _) =>
         unfold writeProbabilityAndAdvancePosition
     | |- always _ (writeChildrenPositionAndAdvancePosition _ _) =>
         unfold writeChildrenPositionAndAdvancePosition
     | |- always _ (writeForwardLinkPositionAndAdvancePosition _ _) =>
         unfold writeForwardLinkPositionAndAdvancePosition
     | |- always _ (writePtNodeArraySizeAndAdvancePosition _ _) =>
         unfold writePtNodeArraySizeAndAdvancePosition
     | |- always _ (writeNewBigramEntry _ _ _) => unfold writeNewBigramEntry
     | |- always _ (writePtNodeWithFullInfoToBuffer _ _ _ _ _ _ _ _ _ _ _) =>
         apply (always_writePtNodeWithFullInfoToBuffer _ Hw)
     | |- always _ (writePtNodeToBuffer _ _ _ _ _ _) => unfold writePtNodeToBuffer
     | |- always _ (writePtNodeToBufferByCopyingPtNodeInfo _ _ _ _ _ _ _) =>
         unfold writePtNodeToBufferByCopyingPtNodeInfo
     | |- always _ (markNodeAsMovedAndSetPosition _ _ _ _ _ _) =>
         apply (always_markNodeAsMovedAndSetPosition _ Hw)
     | |- always _ (createNewPtNodeArrayWithAChildPtNode _ _ _ _ _) =>
         apply (always_createNewPtNodeArrayWithAChildPtNode _ Hw)
     | |- always _ (addNewBigramEntryLoop _ _ _ _) =>
         apply (always_addNewBigramEntryLoop _ Hw)
     | |- always _ (addNewBigramEntryToBigramList _ _ _) =>
         unfold addNewBigramEntryToBigramList
     end).

Section AlwaysOfPolicy.

Variable P : Buffer → Prop.
Hypothesis P_write : ∀ f pos b, P b → P (writeField f pos b).1.

Variable NOT_A_PROBABILITY : Z.
Variable NOT_A_VALID_WORD_POS : Z.

Lemma always_lookupWord fuel policy word length :
  always P (lookupWord NOT_A_PROBABILITY NOT_A_VALID_WORD_POS fuel policy word length).
Proof. intros b Hb. by split. Qed.

Lemma always_addBigramWords fuel policy word0 length0 word1 length1 probability :
  always P (addBigramWords NOT_A_PROBABILITY NOT_A_VALID_WORD_POS fuel policy word0
              length0 word1 length1 probability).
Proof.
  unfold addBigramWords. destruct (negb _); [apply always_fail|].
  apply always_bind; [apply always_lookupWord|intros word0Pos].
  destruct (decide _); [apply always_fail|].
  apply always_bind; [apply always_lookupWord|intros word1Pos].
  destruct (decide _); [apply always_fail|].
  unfold addBigramWordsOfHelper. always_with P_write.
Qed.

Lemma always_removeBigramWords fuel policy word0 length0 word1 length1 :
  always P (removeBigramWords NOT_A_PROBABILITY NOT_A_VALID_WORD_POS fuel policy word0
              length0 word1 length1).
Proof.
  unfold removeBigramWords. destruct (negb _); [apply always_fail|].
  apply always_bind; [apply always_lookupWord|intros word0Pos].
  destruct (decide _); [apply always_fail|].
  apply always_bind; [apply always_lookupWord|intros word1Pos].
  destruct (decide _); [apply always_fail|].
  unfold removeBigramWordsOfHelper, removeBigram. always_with P_write.
  apply (always_removeBigramLoop _ P_write).
Qed.

End AlwaysOfPolicy.

(** *** Fields that stay of their kind, inside the buffer *)

(** No field is outside of the buffer, whose tail is not negative. *)
Definition insideFrom (b : Buffer) : Prop := 0 <= tail b ∧ inside b.

Lemma insideFrom_write f pos b : insideFrom b → insideFrom (writeField f pos b).1.
Proof.
  intros [Htail Hinside].
  destruct (writeField_any f pos b) as (_ & Hmono & _). split; [lia|].
  unfold inside, writeField in *.
  destruct (decide (pos = tail b)) as [->|Hne].
  - destruct (decide (tail b < maxTail b)); cbn [fst cells tail]; [|done].
    intros x Hx. rewrite lookup_insert_ne by lia. apply Hinside. lia.
  - destruct (cells b !! pos) as [g|] eqn:Hg; [|done].
    destruct (decide _) as [[Hpos _]|]; cbn [fst cells tail]; [|done].
    intros x Hx. rewrite lookup_insert_ne by lia. by apply Hinside.
Qed.

Lemma sameKind_trans f g h :
  sameKind f g = true → sameKind g h = true → sameKind f h = true.
Proof. destruct f, g; try done; destruct h; done. Qed.

Lemma sameKind_refl f : sameKind f f = true.
Proof. by destruct f. Qed.

(** From [b0] to [b] the tail has not gone back, and the fields below the
    tail of [b0] are of the kind they were. *)
Definition kindsFrom (b0 b : Buffer) : Prop :=
  tail b0 <= tail b
  ∧ ∀ x g, x < tail b0 → cells b0 !! x = Some g →
      ∃ g', cells b !! x = Some g' ∧ sameKind g' g = true.

Lemma kindsFrom_refl b : kindsFrom b b.
Proof. split; [lia|]. intros x g _ Hg. exists g. split; [done|apply sameKind_refl]. Qed.

Lemma kindsFrom_write b0 f pos b : kindsFrom b0 b → kindsFrom b0 (writeField f pos b).1.
Proof.
  intros [Htail Hkinds].
  destruct (writeField_any f pos b) as (_ & Hmono & _). split; [lia|].
  intros x g Hx Hg. destruct (Hkinds x g Hx Hg) as (g' & Hg' & Hkind).
  unfold writeField.
  destruct (decide (pos = tail b)) as [->|Hne].
  - destruct (decide (tail b < maxTail b)); cbn [fst cells]; [|by exists g'].
    rewrite lookup_insert_ne by lia. by exists g'.
  - destruct (cells b !! pos) as [g1|] eqn:Hg1; [|by exists g'].
    destruct (decide _) as [[Hpos Hsame]|]; cbn [fst cells]; [|by exists g'].
    destruct (decide (x = pos)) as [->|Hx'].
    + rewrite lookup_insert_eq. exists f. split; [done|].
      rewrite Hg' in Hg1. injection Hg1 as <-. by apply (sameKind_trans f g').
    + rewrite lookup_insert_ne by done. by exists g'.
Qed.

(** The field at [x] is a parent offset field. *)
Definition offsetAt (x : Z) (b : Buffer) : Prop :=
  x < tail b ∧ ∃ o, cells b !! x = Some (FParentOffset o).

Lemma offsetAt_write x f pos b : offsetAt x b → offsetAt x (writeField f pos b).1.
Proof.
  intros [Hx [o Ho]].
  destruct (kindsFrom_write b f pos b (kindsFrom_refl b)) as [Htail Hkinds].
  split; [lia|]. destruct (Hkinds x _ Hx Ho) as (g' & Hg' & Hkind).
  destruct g'; try done. eauto.
Qed.

(** *** A PtNode with its parent offset field *)

Section Laid.

Variable NOT_A_PROBABILITY : Z.

(** The PtNode at [wp], up to [r], as a writer leaves it, the parent offset
    field included. *)
Definition laid (b : Buffer) (wp r : Z) (flags : NodeFlags) (codePoints : list Z)
    (probability childrenPos : Z) : Prop :=
  written b wp r flags codePoints probability childrenPos
  ∧ ∃ offset, cells b !! (wp + 1) = Some (FParentOffset offset).

Lemma laid_ext b b2 wp r flags codePoints probability childrenPos :
  laid b wp r flags codePoints probability childrenPos →
  (∀ y, wp <= y < r → cells b2 !! y = cells b !! y) →
  laid b2 wp r flags codePoints probability childrenPos.
Proof.
  intros [Hwritten [o Ho]] Hsame. pose proof (written_ge _ _ _ _ _ _ _ Hwritten).
  split; [apply (written_ext b); [done|]; intros y Hy _; by apply Hsame|].
  exists o. by rewrite Hsame by lia.
Qed.

Lemma laid_sameOrOffset b b2 wp r flags codePoints probability childrenPos :
  laid b wp r flags codePoints probability childrenPos →
  (∀ y, wp <= y < r → sameOrOffset b b2 y) →
  laid b2 wp r flags codePoints probability childrenPos.
Proof.
  intros [Hwritten [o Ho]] Hsame. pose proof (written_ge _ _ _ _ _ _ _ Hwritten).
  split; [by apply (written_sameOrOffset b)|].
  destruct (Hsame (wp + 1) ltac:(lia)) as [Heq|(o1 & o2 & H1 & H2)].
  - exists o. by rewrite Heq.
  - by exists o2.
Qed.

Lemma laid_children b b2 wp r flags codePoints probability childrenPos childrenPos' :
  laid b wp r flags codePoints probability childrenPos →
  cells b2 = <[(if flagIsTerminal flags then wp + 3 + 1 else wp + 3)
               := FChildrenPos childrenPos']> (cells b) →
  laid b2 wp r flags codePoints probability childrenPos'.
Proof.
  intros [Hwritten [o Ho]] Hcells.
  split; [by apply (written_children b _ _ _ _ _ _ childrenPos)|].
  exists o. rewrite Hcells. rewrite lookup_insert_ne by (destruct (flagIsTerminal _); lia).
  done.
Qed.

Lemma bigramList_cells b x r :
  bigramList b x r →
  ∀ y, x <= y < r → ∃ target probability hasNext,
    cells b !! y = Some (FBigramEntry target probability hasNext).
Proof.
  induction 1 as [x target probability Hcell|x r target probability Hcell Hlist IH];
    intros y Hy.
  - assert (y = x) as -> by lia. eauto.
  - destruct (decide (y = x)) as [->|]; [eauto|]. apply IH. lia.
Qed.

Lemma shortcutList_cells b x r :
  shortcutList b x r →
  ∀ y, x <= y < r → ∃ target probability hasNext,
    cells b !! y = Some (FShortcutEntry target probability hasNext).
Proof.
  induction 1 as [x target probability Hcell|x r target probability Hcell Hlist IH];
    intros y Hy.
  - assert (y = x) as -> by lia. eauto.
  - destruct (decide (y = x)) as [->|]; [eauto|]. apply IH. lia.
Qed.

(** The flags field of the PtNode is its first field, and its children
    position field is the only one it has. *)
Lemma laid_cells b wp r flags codePoints probability childrenPos :
  laid b wp r flags codePoints probability childrenPos →
  (∀ x fl, wp <= x < r → cells b !! x = Some (FFlags fl) → x = wp)
  ∧ (∀ x c, wp <= x < r → cells b !! x = Some (FChildrenPos c) → c = childrenPos).
Proof.
  intros [(Hflags & Hcps & Hprob & Hchildren & s & Hshortcuts & Hbigrams) [o Ho]].
  set (cf := if flagIsTerminal flags then wp + 3 + 1 else wp + 3) in *.
  assert (Hcf : wp + 3 <= cf <= wp + 4) by (unfold cf; destruct (flagIsTerminal _); lia).
  assert (Hkinds : ∀ x, wp <= x < r →
            x = wp ∨ x = cf
            ∨ ∃ g, cells b !! x = Some g
                   ∧ (∀ fl, g ≠ FFlags fl) ∧ (∀ c, g ≠ FChildrenPos c)).
  { intros x Hx.
    destruct (decide (x = wp)) as [->|Hwp]; [by left|].
    destruct (decide (x = cf)) as [->|Hxcf]; [by right; left|].
    right. right.
    destruct (decide (x = wp + 1)) as [->|Hne1]; [by eexists|].
    destruct (decide (x = wp + 2)) as [->|Hne2]; [by eexists|].
    destruct (decide (x < cf)) as [Hlt|Hge].
    { assert (flagIsTerminal flags = true ∧ x = wp + 3) as [Ht ->].
      { unfold cf in *. destruct (flagIsTerminal flags); [split; [done|lia]|lia]. }
      exists (FProbability probability). by rewrite (Hprob Ht). }
    destruct (decide (x < s)) as [Hs|Hs].
    - destruct (flagHasShortcutTargets flags); [|lia].
      destruct (shortcutList_cells _ _ _ Hshortcuts x ltac:(lia)) as (t & p & h & Hc).
      by eexists.
    - destruct (flagHasBigrams flags); [|lia].
      destruct (bigramList_cells _ _ _ Hbigrams x ltac:(lia)) as (t & p & h & Hc).
      by eexists. }
  split.
  - intros x fl Hx Hcell. destruct (Hkinds x Hx) as [?|[->|(g & Hg & Hnf & _)]]; [done| |].
    + congruence.
    + rewrite Hcell in Hg. injection Hg as <-. by destruct (Hnf fl).
  - intros x c Hx Hcell. destruct (Hkinds x Hx) as [->|[->|(g & Hg & _ & Hnc)]].
    + congruence.
    + congruence.
    + rewrite Hcell in Hg. injection Hg as <-. by destruct (Hnc c).
Qed.

(** [writePtNodeWithFullInfoToBuffer] at the tail, with the parent offset
    field it writes. *)
Lemma writePtNodeWithFullInfoToBuffer_laid isBlacklisted isNotAWord parentPos
    codePoints codePointCount probability childrenPos originalBigramListPos
    originalShortcutListPos writingPos b b' r :
  writePtNodeWithFullInfoToBuffer NOT_A_PROBABILITY isBlacklisted isNotAWord
    parentPos codePoints codePointCount probability childrenPos
    originalBigramListPos originalShortcutListPos writingPos b = (b', Done r) →
  writingPos = tail b →
  laid b' writingPos r
    (createAndGetFlags isBlacklisted isNotAWord
       (bool_decide (probability ≠ NOT_A_PROBABILITY))
       (bool_decide (originalShortcutListPos ≠ NOT_A_DICT_POS))
       (bool_decide (originalBigramListPos ≠ NOT_A_DICT_POS))
       (bool_decide (codePointCount > 1)) CHILDREN_POSITION_FIELD_SIZE)
    (take (Z.to_nat codePointCount) codePoints) probability childrenPos
  ∧ tail b' = r
  ∧ (∀ y, y < writingPos → cells b' !! y = cells b !! y).
Proof.
  intros H Hwp.
  destruct (writePtNodeWithFullInfoToBuffer_written _ _ _ _ _ _ _ _ _ _ _ _ _ _ H Hwp)
    as (Hwritten & Htail & Hbelow).
  split; [|done]. split; [done|].
  unfold writePtNodeWithFullInfoToBuffer in H.
  apply bind_Done in H as (b1 & p1 & H1 & H).
  apply bind_Done in H as (b2 & p2 & H2 & H).
  unfold writeFlagsAndAdvancePosition, writeParentOffsetAndAdvancePosition in H1, H2.
  apply writeField_append in H1 as (-> & Ht1 & Hc1); [|done].
  apply writeField_append in H2 as (-> & Ht2 & Hc2); [|lia].
  assert (Hoffset : offsetAt (writingPos + 1) b2).
  { split; [lia|]. rewrite Hc2, lookup_insert_eq. eauto. }
  assert (Hoffset' : offsetAt (writingPos + 1) b'); [|by destruct Hoffset'].
  apply (always_run _ _ b2 b' (Done r)) with (3 := H); [|done].
  always_with (offsetAt_write (writingPos + 1)).
Qed.

End Laid.

(** ** What a lookup returns *)

Section Spelled.

Variable NOT_A_PROBABILITY : Z.
Variable NOT_A_VALID_WORD_POS : Z.

Abbreviation fetchNode := (fetchNodeInfoFromBuffer NOT_A_PROBABILITY NOT_A_VALID_WORD_POS).
Abbreviation nextSibling := (readNextSiblingNode NOT_A_PROBABILITY NOT_A_VALID_WORD_POS).
Abbreviation fetchFrom := (fetchUnlessEnd NOT_A_PROBABILITY NOT_A_VALID_WORD_POS).
Abbreviation siblingsOf := (siblings NOT_A_PROBABILITY NOT_A_VALID_WORD_POS).
Abbreviation arraysOf := (arrays NOT_A_PROBABILITY).
Abbreviation lookup := (lookupLoop NOT_A_PROBABILITY NOT_A_VALID_WORD_POS).
Abbreviation codePointsOf := (codePointsAt NOT_A_PROBABILITY NOT_A_VALID_WORD_POS).

(** The code points [w] are spelled from the PtNodes [slots] of a chain of
    PtNode arrays down to the PtNode at [pos]: one of the PtNodes holds
    [w] and the reader lands on [pos] from it, or it holds the first code
    points of [w] and the rest is spelled from its children. *)
Inductive spells (b : Buffer) : list Z → list Z → Z → Prop :=
| spells_found slots p q w :
    p ∈ slots → lands b p q → codePointsOf b p = w → w ≠ [] →
    spells b slots w q
| spells_descend slots p q codePoints w children linkFieldPos pos :
    p ∈ slots → lands b p q → codePointsOf b p = codePoints → codePoints ≠ [] →
    w ≠ [] → hasChildren (fetchNode b p) = true →
    arraysOf b (getChildrenPos (fetchNode b p)) children linkFieldPos →
    spells b children w pos →
    spells b slots (codePoints ++ w) pos.

Lemma spells_more b slots slots' w pos :
  (∀ p, p ∈ slots → p ∈ slots') → spells b slots w pos → spells b slots' w pos.
Proof.
  intros Hsub Hspells. destruct Hspells.
  - eapply spells_found; eauto.
  - eapply spells_descend; eauto.
Qed.

(** The PtNode a spelled word ends at is inside the buffer and not moved. *)
Lemma spells_lands b slots w pos :
  spells b slots w pos → ∃ p, lands b p pos.
Proof. induction 1; eauto. Qed.

Variable word : list Z.
Variable length : Z.
Hypothesis length_in_word : length <= Z.of_nat (List.length word).

Lemma mismatchFrom_matches fuel rh matched j0 :
  mismatchFrom fuel rh word matched j0 = false →
  ∀ j, j0 <= j < j0 + Z.of_nat fuel →
    matches word (mCodePoints (mNodeReader rh)) matched j.
Proof.
  revert j0. induction fuel as [|fuel IH]; intros j0 Hno j Hj; [lia|].
  cbn [mismatchFrom] in Hno. rewrite isMatchedCodePoint_matches in Hno.
  destruct (bool_decide (matches word _ matched j0)) eqn:Hmatch; [|done].
  simpl in Hno. apply bool_decide_eq_true in Hmatch.
  destruct (decide (j = j0)) as [->|]; [done|].
  apply (IH (j0 + 1)); [done|lia].
Qed.

(** Code points that all match the word from [matched] on are the code
    points of the word. *)
Lemma matches_all_take codePoints matched :
  0 <= matched →
  matched + Z.of_nat (List.length codePoints) <= length →
  (∀ j, 0 <= j < Z.of_nat (List.length codePoints) → matches word codePoints matched j) →
  codePoints = take (List.length codePoints) (drop (Z.to_nat matched) word).
Proof.
  intros Hmatched Hlen Hall. apply list_eq. intros i.
  destruct (decide (i < List.length codePoints)%nat) as [Hi|Hi].
  - rewrite lookup_take_lt, lookup_drop by done.
    destruct (Hall (Z.of_nat i) ltac:(lia)) as [_ Hc]. rewrite Nat2Z.id in Hc.
    rewrite Hc. unfold codePointAt.
    replace (Z.to_nat (matched + Z.of_nat i)) with (Z.to_nat matched + i)%nat by lia.
    destruct (word !! (Z.to_nat matched + i)%nat) eqn:Hw; [done|].
    apply lookup_ge_None in Hw. lia.
  - rewrite lookup_take_ge by lia. by apply lookup_ge_None_2; lia.
Qed.

Lemma lookupLoop_spells b :
  childrenLaidOut NOT_A_PROBABILITY NOT_A_VALID_WORD_POS b →
  ∀ fuel s slots e pos,
    siblingsOf b s slots e →
    0 <= mPrevTotalCodePointCount s →
    lookup fuel b s word length = Done pos → pos ≠ NOT_A_VALID_WORD_POS →
    spells b slots
      (drop (Z.to_nat (mPrevTotalCodePointCount s)) (take (Z.to_nat length) word)) pos.
Proof.
  intros Hchildren.
  assert (Hend : ∀ fuel' e pos,
    mPos e = NOT_A_DICT_POS → lookup fuel' b e word length = Done pos →
    pos = NOT_A_VALID_WORD_POS).
  { intros fuel' e pos Hisend Hrun.
    assert (Hend : isEnd e = true) by (by apply bool_decide_eq_true_2).
    destruct fuel'; cbn [lookupLoop] in Hrun; rewrite Hend in Hrun; congruence. }
  induction fuel as [|fuel IH]; intros s slots e pos Hsib Hmatched Hrun Hpos;
    (destruct Hsib as [e Hisend|s p rest e Hnotend Hnode [q Hq] Hsib];
       [by destruct (Hpos (Hend _ _ _ Hisend Hrun))|]);
    cbn [lookupLoop] in Hrun; rewrite isEnd_false in Hrun by done; [done|].
  set (matched := mPrevTotalCodePointCount s) in *.
  unfold getPrevTotalCodePointCount, getNodeReader in Hrun. fold matched in Hrun.
  rewrite isMatchedCodePoint_first in Hrun.
  assert (Hcps : mCodePoints (mNodeReader s) = codePointsOf b p)
    by (unfold codePointsAt; by rewrite Hnode).
  set (codePoints := codePointsOf b p) in *.
  assert (Hcount : getCodePointCount (mNodeReader s) = Z.of_nat (List.length codePoints))
    by (unfold getCodePointCount; by rewrite Hcps).
  assert (Htotal : getTotalCodePointCount s = matched + Z.of_nat (List.length codePoints))
    by (unfold getTotalCodePointCount; by rewrite Hcount).
  rewrite Hcps, Hcount, Htotal in Hrun.
  destruct (bool_decide (matched + Z.of_nat (List.length codePoints) > length)) eqn:Hlong;
    cbn [orb] in Hrun.
  { (* the next sibling *)
    apply (spells_more b rest); [intros; by right|].
    replace matched with (mPrevTotalCodePointCount (nextSibling b s))
      by apply readNextSiblingNode_prevTotal.
    apply (IH _ _ e); [done|by rewrite readNextSiblingNode_prevTotal|done|done]. }
  apply bool_decide_eq_false in Hlong.
  destruct (bool_decide (matches word codePoints matched 0)) eqn:Hfirst;
    cbn [negb] in Hrun.
  2:{ apply (spells_more b rest); [intros; by right|].
    replace matched with (mPrevTotalCodePointCount (nextSibling b s))
      by apply readNextSiblingNode_prevTotal.
    apply (IH _ _ e); [done|by rewrite readNextSiblingNode_prevTotal|done|done]. }
  apply bool_decide_eq_true in Hfirst.
  destruct (mismatchFrom _ s word matched 1) eqn:Hmismatch; [congruence|].
  pose proof (mismatchFrom_matches _ _ _ _ Hmismatch) as Hrest. rewrite Hcps in Hrest.
  assert (Hnonempty : codePoints ≠ []).
  { destruct Hfirst as [_ Hc]. intros Hnil. by rewrite Hnil in Hc. }
  assert (Hall : ∀ j, 0 <= j < Z.of_nat (List.length codePoints) →
                      matches word codePoints matched j).
  { intros j Hj. destruct (decide (j = 0)) as [->|]; [done|]. apply Hrest. lia. }
  pose proof (matches_all_take codePoints matched Hmatched ltac:(lia) Hall) as Htake.
  assert (Hsplit : drop (Z.to_nat matched) (take (Z.to_nat length) word)
                   = codePoints
                     ++ drop (Z.to_nat (matched + Z.of_nat (List.length codePoints)))
                          (take (Z.to_nat length) word)).
  { rewrite <- (take_drop (List.length codePoints)
                  (drop (Z.to_nat matched) (take (Z.to_nat length) word))) at 1.
    f_equal.
    - rewrite Htake at 2. apply list_eq. intros i.
      destruct (decide (i < List.length codePoints)%nat).
      + rewrite !lookup_take_lt, !lookup_drop by done. by rewrite lookup_take_lt by lia.
      + by rewrite !lookup_take_ge by lia.
    - rewrite drop_drop. f_equal. lia. }
  destruct (decide (length = matched + Z.of_nat (List.length codePoints))) as [Hlen|Hlen].
  { (* the PtNode is returned *)
    injection Hrun as <-. rewrite Hnode.
    destruct (fetchNode_fields NOT_A_PROBABILITY NOT_A_VALID_WORD_POS _ _ _ Hq)
      as (-> & _).
    rewrite Hsplit. rewrite drop_ge by (rewrite length_take; lia). rewrite app_nil_r.
    apply (spells_found b _ p); [left|done|done|done]. }
  rewrite Hnode in Hrun.
  destruct (hasChildren (fetchNode b p)) eqn:Hhas; cbn [negb] in Hrun; [|congruence].
  destruct (Hchildren p q Hq Hhas) as (children & linkFieldPos & Harrays).
  pose proof (arrays_inside _ _ _ _ _ Harrays) as Hin.
  set (child := mkReadingHelper (mIsError s) (getChildrenPos (fetchNode b p)) 0
                  (matched + Z.of_nat (List.length codePoints)) NOT_A_DICT_POS
                  (fetchNode b p)).
  assert (Hchild : readChildNode NOT_A_PROBABILITY NOT_A_VALID_WORD_POS b s
                   = fetchFrom b (enterNodeArray (Z.to_nat (tail b)) b child
                                    (getChildrenPos (fetchNode b p)))).
  { unfold readChildNode. rewrite Hnode, Hhas. unfold nextNodeArray. simpl.
    unfold child. done. }
  destruct (arrays_siblingsFrom NOT_A_PROBABILITY NOT_A_VALID_WORD_POS _ _ _ _ Harrays
              (Z.to_nat (tail b)) child ltac:(lia)) as (e' & Hsib' & _).
  rewrite <- Hchild in Hsib'.
  assert (Hprev : mPrevTotalCodePointCount
                    (readChildNode NOT_A_PROBABILITY NOT_A_VALID_WORD_POS b s)
                  = matched + Z.of_nat (List.length codePoints)).
  { rewrite Hchild, fetchUnlessEnd_prevTotal, enterNodeArray_prevTotal. done. }
  pose proof (IH _ _ _ pos Hsib' ltac:(rewrite Hprev; lia) Hrun Hpos) as Hspells.
  rewrite Hprev in Hspells. rewrite Hsplit.
  apply (spells_descend b _ p q codePoints _ children linkFieldPos);
    try done; [left|].
  intros Hnil. apply (f_equal List.length) in Hnil.
  rewrite length_drop, length_take in Hnil. simpl in Hnil. lia.
Qed.

End Spelled.

(** The lookup from the root of a well-formed dictionary. *)
Lemma getTerminalNodePositionOfWord_found
    (NOT_A_PROBABILITY NOT_A_VALID_WORD_POS : Z) (toLowerCase : Z → Z) (fuel : nat)
    (policy : Policy) (b : Buffer) (inWord : list Z) (length : Z)
    (forceLowerCaseSearch : bool) (pos : Z) :
  wellFormed NOT_A_PROBABILITY NOT_A_VALID_WORD_POS b (getRootPosition policy) →
  length <= Z.of_nat (List.length inWord) →
  getTerminalNodePositionOfWord NOT_A_PROBABILITY NOT_A_VALID_WORD_POS toLowerCase fuel
    policy b inWord length forceLowerCaseSearch = Done pos →
  pos ≠ NOT_A_VALID_WORD_POS →
  ∃ slots linkFieldPos,
    arrays NOT_A_PROBABILITY b (getRootPosition policy) slots linkFieldPos
    ∧ spells NOT_A_PROBABILITY NOT_A_VALID_WORD_POS b slots
        ((λ c, if forceLowerCaseSearch then toLowerCase c else c)
           <$> take (Z.to_nat length) inWord) pos.
Proof.
  intros (Hinside & Hheader & Hlayout & Hchildren & slots & linkFieldPos & Harrays)
    Hlength Hrun Hpos.
  unfold getTerminalNodePositionOfWord in Hrun.
  set (searchCodePoints := (λ c, if forceLowerCaseSearch then toLowerCase c else c)
                             <$> take (Z.to_nat length) inWord) in *.
  pose proof (arrays_inside _ _ _ _ _ Harrays) as Hroot.
  rewrite initWithNodeArrayPos_enter in Hrun by lia.
  set (rh0 := mkReadingHelper false (getRootPosition policy) 0 0 NOT_A_DICT_POS
                (invalidPtNodeInfo NOT_A_PROBABILITY NOT_A_VALID_WORD_POS)) in *.
  destruct (arrays_siblingsFrom NOT_A_PROBABILITY NOT_A_VALID_WORD_POS _ _ _ _ Harrays
              (Z.to_nat (tail b)) rh0 ltac:(lia)) as (e & Hsib & _).
  assert (Hprev : mPrevTotalCodePointCount
                    (fetchUnlessEnd NOT_A_PROBABILITY NOT_A_VALID_WORD_POS b
                       (enterNodeArray (Z.to_nat (tail b)) b rh0
                          (getRootPosition policy))) = 0)
    by (by rewrite fetchUnlessEnd_prevTotal, enterNodeArray_prevTotal).
  assert (Hsearch : length <= Z.of_nat (List.length searchCodePoints)).
  { unfold searchCodePoints. rewrite length_fmap, length_take. lia. }
  pose proof (lookupLoop_spells NOT_A_PROBABILITY NOT_A_VALID_WORD_POS searchCodePoints
                length Hsearch b Hchildren fuel _ _ _ pos Hsib ltac:(rewrite Hprev; lia)
                Hrun Hpos) as Hspells.
  rewrite Hprev in Hspells. simpl in Hspells. rewrite drop_0 in Hspells.
  rewrite take_ge in Hspells
    by (unfold searchCodePoints; rewrite length_fmap, length_take; lia).
  by exists slots, linkFieldPos.
Qed.

(** X14.  On a well-formed dictionary, a position other than
    [NOT_A_VALID_WORD_POS] that [getTerminalNodePositionOfWord] returns for
    a word of [length] code points is the position of a PtNode inside the
    buffer that is not moved, and the code points searched for (the word, in
    lower case when that is asked for) are spelled from the PtNodes of the
    root array down to it: each PtNode on the way holds the next code points
    of the word and has the next PtNode among its children. *)
Theorem getTerminalNodePositionOfWord_spells
    (NOT_A_PROBABILITY NOT_A_VALID_WORD_POS : Z) (toLowerCase : Z → Z) (fuel : nat)
    (policy : Policy) (b : Buffer) (inWord : list Z) (length : Z)
    (forceLowerCaseSearch : bool) (pos : Z) :
  wellFormed NOT_A_PROBABILITY NOT_A_VALID_WORD_POS b (getRootPosition policy) →
  length <= Z.of_nat (List.length inWord) →
  getTerminalNodePositionOfWord NOT_A_PROBABILITY NOT_A_VALID_WORD_POS toLowerCase fuel
    policy b inWord length forceLowerCaseSearch = Done pos →
  pos ≠ NOT_A_VALID_WORD_POS →
  let searchCodePoints :=
    (λ c, if forceLowerCaseSearch then toLowerCase c else c)
      <$> take (Z.to_nat length) inWord in
  (∃ slots linkFieldPos,
     arrays NOT_A_PROBABILITY b (getRootPosition policy) slots linkFieldPos
     ∧ spells NOT_A_PROBABILITY NOT_A_VALID_WORD_POS b slots searchCodePoints pos)
  ∧ nodeInside b pos ∧ flagIsMoved (getFlags b pos) = false.
Proof.
  intros Hwf Hlength Hrun Hpos searchCodePoints.
  destruct (getTerminalNodePositionOfWord_found _ _ _ _ _ _ _ _ _ _ Hwf Hlength Hrun Hpos)
    as (slots & linkFieldPos & Harrays & Hspells).
  destruct (spells_lands _ _ _ _ _ _ Hspells) as [p Hlands].
  destruct (lands_last _ _ _ Hlands) as (Hin & Hmoved & _).
  split; [by exists slots, linkFieldPos|done].
Qed.

(** The theorem on the dictionary that holds [cat] and [car], for the
    prefix [ca]: the PtNode returned, at position 10, holds [ca] and is not
    terminal. *)
Lemma getTerminalNodePositionOfWord_spells_witness :
  let searchCodePoints := (λ c : Z, if false then c else c) <$> take (Z.to_nat 2) exampleCar in
  (∃ slots linkFieldPos,
     arrays (-1) exampleTrieWithCar (getRootPosition examplePolicy) slots linkFieldPos
     ∧ spells (-1) (-99) exampleTrieWithCar slots searchCodePoints 10)
  ∧ nodeInside exampleTrieWithCar 10 ∧ flagIsMoved (getFlags exampleTrieWithCar 10) = false.
Proof.
  apply (getTerminalNodePositionOfWord_spells (-1) (-99) (λ c, c) 100 examplePolicy
           exampleTrieWithCar exampleCar 2 false 10);
    [exact exampleTrieWithCar_wellFormed|simpl; lia|vm_compute; reflexivity|lia].
Defined.

(** ** The bigram list after [addBigramWords] *)

(** Modelled from the spec: the entries of the bigram list at [pos], the
    pairs of a target position and a probability, in the order the
    [BinaryDictionaryBigramsIterator] of the sources yields them; the list
    goes on while [hasNext] is set. *)
Fixpoint readBigrams (fuel : nat) (b : Buffer) (pos : Z) : list (Z * Z) :=
  match fuel with
  | O => []
  | S fuel' =>
      match cells b !! pos with
      | Some (FBigramEntry target probability hasNext) =>
          (target, probability)
          :: (if hasNext then readBigrams fuel' b (pos + 1) else [])
      | _ => []
      end
  end.

Definition bigramsAt (b : Buffer) (pos : Z) : list (Z * Z) :=
  readBigrams (listFuel b pos) b pos.

Lemma readBigrams_elem b x r :
  bigramList b x r →
  ∀ y target probability hasNext fuel,
    x <= y < r → cells b !! y = Some (FBigramEntry target probability hasNext) →
    r - x <= Z.of_nat fuel →
    (target, probability) ∈ readBigrams fuel b x.
Proof.
  induction 1 as [x t p Hcell|x r t p Hcell Hlist IH];
    intros y target probability hasNext fuel Hy Hentry Hfuel;
    (destruct fuel as [|fuel]; [try pose proof (bigramList_lt _ _ _ Hlist); lia|]);
    cbn [readBigrams]; rewrite Hcell.
  - assert (y = x) as -> by lia. rewrite Hcell in Hentry. injection Hentry as -> -> _.
    left.
  - destruct (decide (y = x)) as [->|Hne].
    + rewrite Hcell in Hentry. injection Hentry as -> -> _. left.
    + right. apply (IH y target probability hasNext); [lia|done|lia].
Qed.

Section BigramsAdded.

Variable NOT_A_PROBABILITY : Z.
Variable NOT_A_VALID_WORD_POS : Z.
Hypothesis NOT_A_VALID_WORD_POS_negative : NOT_A_VALID_WORD_POS < 0.

Abbreviation fetchNode := (fetchNodeInfoFromBuffer NOT_A_PROBABILITY NOT_A_VALID_WORD_POS).

(** What the reader holds of a PtNode a writer has left: the positions of
    its lists and its probability. *)
Lemma written_lists b wp r flags codePoints probability childrenPos :
  written b wp r flags codePoints probability childrenPos → 0 <= wp → r <= tail b →
  ∃ s, wp + 4 <= s <= r
    ∧ (if flagHasShortcutTargets flags
       then shortcutList b ((if flagIsTerminal flags then wp + 3 + 1 else wp + 3) + 1) s
       else s = (if flagIsTerminal flags then wp + 3 + 1 else wp + 3) + 1)
    ∧ (if flagHasBigrams flags then bigramList b s r else r = s)
    ∧ ∀ so lo,
        let n := readPtNode NOT_A_PROBABILITY b wp so lo in
        getBigramsPos n = (if flagHasBigrams flags then s else NOT_A_DICT_POS)
        ∧ (getShortcutPos n ≠ NOT_A_DICT_POS ↔ flagHasShortcutTargets flags = true)
        ∧ (flagIsTerminal flags = true → getProbabilityOfNode n = probability)
        ∧ (flagIsTerminal flags = false → getProbabilityOfNode n = NOT_A_PROBABILITY)
        ∧ mFlags n = flags.
Proof.
  intros (Hflags & Hcps & Hprob & Hchildren & s & Hshortcuts & Hbigrams) Hwp Hr.
  assert (Hget : getFlags b wp = flags) by (unfold getFlags; by rewrite Hflags).
  set (cf := if flagIsTerminal flags then wp + 3 + 1 else wp + 3) in *.
  assert (Hcf : wp + 3 <= cf <= wp + 4) by (unfold cf; destruct (flagIsTerminal _); lia).
  assert (Hs : cf + 1 <= s).
  { destruct (flagHasShortcutTargets flags); [|lia].
    pose proof (shortcutList_lt _ _ _ Hshortcuts). lia. }
  assert (Hsr : s <= r).
  { destruct (flagHasBigrams flags); [|lia].
    pose proof (bigramList_lt _ _ _ Hbigrams). lia. }
  exists s. split; [lia|]. split; [done|]. split; [done|].
  intros so lo. unfold readPtNode.
  cbn [getBigramsPos mBigramPos getShortcutPos mShortcutPos getProbabilityOfNode
       mProbability mFlags].
  rewrite Hget. fold cf.
  assert (Hafter : (if flagHasShortcutTargets flags
                    then skipShortcuts (listFuel b (cf + 1)) b (cf + 1)
                    else cf + 1) = s).
  { destruct (flagHasShortcutTargets flags); [|done].
    apply skipShortcuts_list; [done|unfold listFuel; lia]. }
  rewrite Hafter. split; [done|]. split.
  { unfold NOT_A_DICT_POS. destruct (flagHasShortcutTargets flags); split; try done; lia. }
  split.
  { intros Ht. rewrite Ht in *. unfold getProbability. by rewrite (Hprob eq_refl). }
  split; [by intros ->|done].
Qed.

(** [addNewBigramEntryToBigramList] on a list that ends at the tail: the
    list holds an entry for the target with the probability, the fields
    before the list are left as they were. *)
Lemma addNewBigramEntryLoop_list bigramPos probability b x r :
  bigramList b x r → r = tail b → 0 <= x →
  ∀ fuel b',
    addNewBigramEntryLoop fuel bigramPos probability x b = (b', Done tt) →
    ∃ r' y hasNext,
      bigramList b' x r' ∧ r' = tail b' ∧ x <= y < r'
      ∧ cells b' !! y = Some (FBigramEntry bigramPos probability hasNext)
      ∧ (∀ z, z < x → cells b' !! z = cells b !! z).
Proof.
  induction 1 as [x t p Hcell|x r t p Hcell Hlist IH]; intros Hr Hx fuel b' Hrun;
    (destruct fuel as [|fuel]; [done|]);
    cbn [addNewBigramEntryLoop] in Hrun; rewrite bind_current, Hcell in Hrun.
  - destruct (decide (t = bigramPos)) as [->|Hne].
    + apply bind_Done in Hrun as (b1 & w & Hwrite & Hret). injection Hret as <-.
      apply writeField_patch in Hwrite as (_ & Htail & Hcells & _); [|lia].
      exists (x + 1), x, false. rewrite Htail, Hcells.
      split; [eapply bigramList_last; by rewrite Hcells, lookup_insert_eq|].
      split; [lia|]. split; [lia|]. split; [by rewrite lookup_insert_eq|].
      intros z Hz. by rewrite lookup_insert_ne by lia.
    + apply bind_Done in Hrun as (b1 & next & Hpatch & Hrun).
      apply bind_Done in Hrun as (b2 & w & Happend & Hret). injection Hret as <-.
      apply writeField_patch in Hpatch as (-> & Htail1 & Hcells1 & _); [|lia].
      unfold writeNewBigramEntry in Happend.
      apply writeField_append in Happend as (_ & Htail2 & Hcells2); [|lia].
      exists (x + 1 + 1), (x + 1), false. rewrite Htail2.
      assert (Hnew : cells b2 !! (x + 1)
                     = Some (FBigramEntry bigramPos probability false))
        by (by rewrite Hcells2, lookup_insert_eq).
      split.
      { eapply bigramList_next; [|eapply bigramList_last; exact Hnew].
        by rewrite Hcells2, lookup_insert_ne, Hcells1, lookup_insert_eq by lia. }
      split; [done|]. split; [lia|]. split; [done|].
      intros z Hz. by rewrite Hcells2, lookup_insert_ne, Hcells1, lookup_insert_ne by lia.
  - pose proof (bigramList_lt _ _ _ Hlist) as Hlt.
    destruct (decide (t = bigramPos)) as [->|Hne].
    + apply bind_Done in Hrun as (b1 & w & Hwrite & Hret). injection Hret as <-.
      apply writeField_patch in Hwrite as (_ & Htail & Hcells & _); [|lia].
      exists r, x, true. rewrite Htail, Hcells.
      split.
      { eapply bigramList_next; [by rewrite Hcells, lookup_insert_eq|].
        apply (bigramList_ext b); [done|]. intros z Hz.
        by rewrite Hcells, lookup_insert_ne by lia. }
      split; [done|]. split; [lia|]. split; [by rewrite lookup_insert_eq|].
      intros z Hz. by rewrite lookup_insert_ne by lia.
    + destruct (IH Hr ltac:(lia) fuel b' Hrun)
        as (r' & y & hasNext & Hlist' & Hr' & Hy & Hentry & Hbelow).
      exists r', y, hasNext.
      split; [eapply bigramList_next; [by rewrite Hbelow by lia|done]|].
      split; [done|]. split; [lia|]. split; [done|].
      intros z Hz. apply Hbelow. lia.
Qed.

(** [addBigramWords] of the writing helper, for a PtNode inside the buffer
    that is not moved: the PtNode is marked as moved and the reader is led
    from it to its copy at the old tail, which ends the buffer and has a
    bigram list with the entry. *)
Lemma addBigramWordsOfHelper_copy fuel word0Pos word1Pos probability b b' :
  (∀ x, x < 0 ∨ tail b <= x → cells b !! x = None) →
  cells b !! 0 = Some FHeader →
  nodeInside b word0Pos → flagIsMoved (getFlags b word0Pos) = false →
  (hasChildren (fetchNode b word0Pos) = true →
   ∃ slots last,
     arrays NOT_A_PROBABILITY b (getChildrenPos (fetchNode b word0Pos)) slots last) →
  addBigramWordsOfHelper NOT_A_PROBABILITY NOT_A_VALID_WORD_POS fuel word0Pos word1Pos
    probability b = (b', Done tt) →
  ∃ flags' r' y hasNext codePoints,
    laid b' (tail b) r' flags' codePoints
      (getProbabilityOfNode (fetchNode b word0Pos)) (getChildrenPos (fetchNode b word0Pos))
    ∧ flagIsMoved flags' = false ∧ flagIsDeleted flags' = false
    ∧ flagHasBigrams flags' = true
    ∧ r' = tail b' ∧ tail b + 4 <= y < r'
    ∧ cells b' !! y = Some (FBigramEntry word1Pos probability hasNext)
    ∧ framed NOT_A_PROBABILITY (Some word0Pos) (Some (childrenFieldOf b word0Pos))
        None None b b'
    ∧ lands b' word0Pos (tail b)
    ∧ codePoints
      = take (Z.to_nat (getCodePointCount (fetchNode b word0Pos)))
          (take (Z.to_nat MAX_WORD_LENGTH) (mCodePoints (fetchNode b word0Pos))).
Proof.
  intros Hinside Hheader Hin Hmoved Hchildren Hrun.
  pose proof (nodeInside_range _ _ Hin) as Hq0.
  assert (Hlands : lands b word0Pos word0Pos) by (by apply lands_stop).
  destruct (fetchNode_fields NOT_A_PROBABILITY NOT_A_VALID_WORD_POS _ _ _ Hlands)
    as (Hhead & _ & _ & Hfield & _).
  set (n := fetchNode b word0Pos) in *.
  set (cf0 := childrenFieldOf b word0Pos) in *.
  assert (Hcf0 : word0Pos + 3 <= cf0 < tail b).
  { destruct Hin as (_ & _ & Hcf). fold cf0 in Hcf. split; [|done].
    unfold cf0, childrenFieldOf. destruct (flagIsTerminal _); lia. }
  unfold addBigramWordsOfHelper in Hrun. rewrite bind_current in Hrun.
  unfold fetchNodeInfoFromBufferAndGetNodeCodePoints in Hrun. cbn [fst snd] in Hrun.
  fold n in Hrun. unfold getTailPosition in Hrun.
  apply bind_Done in Hrun as (b1 & [] & Hmark & Hrun).
  apply bind_Done in Hrun as (b2 & wp & Hwrite & Hrun).
  rewrite bind_current in Hrun.
  destruct (markNodeAsMovedAndSetPosition_marking NOT_A_PROBABILITY NOT_A_VALID_WORD_POS
              NOT_A_VALID_WORD_POS_negative b word0Pos cf0 Hinside Hheader Hin Hmoved
              fuel n (tail b) (tail b) b b1 Hhead Hfield eq_refl)
    as (Hmarking & Ht1 & Hoffset & Hlinked & _); try done.
  { by rewrite Hinside by (right; lia). }
  { lia. }
  { right. lia. }
  unfold writePtNodeToBufferByCopyingPtNodeInfo in Hwrite.
  apply writePtNodeWithFullInfoToBuffer_laid in Hwrite
    as ([Hwritten [o Ho]] & Ht2 & Hbelow2); [|lia].
  set (T := tail b) in *.
  set (flags := createAndGetFlags _ _ _ _ _ _ _) in Hwritten.
  set (codePoints := take _ _) in Hwritten.
  destruct (written_read NOT_A_PROBABILITY _ _ _ _ _ _ _ Hwritten eq_refl ltac:(lia)
              ltac:(lia)) as (HlandsT2 & _ & Hr & HflagsT2 & _).
  destruct (written_lists _ _ _ _ _ _ _ Hwritten ltac:(lia) ltac:(lia))
    as (s & Hs & Hshort2 & Hlist2 & Hread2).
  assert (Hnew : fetchNode b2 T = readPtNode NOT_A_PROBABILITY b2 T None None).
  { destruct Hwritten as (Hcell & _).
    apply (fetch_not_moved_inside _ _ _ _ flags); [done|done|lia]. }
  rewrite Hnew in Hrun.
  destruct (Hread2 None None) as (Hbp & Hsp & Hprob1 & Hprob0 & Hfl). cbv zeta in *.
  (* the PtNode at the old tail in the buffer that is left, and its list *)
  assert (Hend : ∃ flags' r' y hasNext,
    laid b' T r' flags' codePoints (getProbabilityOfNode n) (getChildrenPos n)
    ∧ flagIsMoved flags' = false ∧ flagIsDeleted flags' = false
    ∧ flagHasBigrams flags' = true
    ∧ r' = tail b' ∧ T + 4 <= y < r'
    ∧ cells b' !! y = Some (FBigramEntry word1Pos probability hasNext)
    ∧ (∀ z, z < T → cells b' !! z = cells b2 !! z)).
  { rewrite Hbp in Hrun.
    destruct (flagHasBigrams flags) eqn:Hhas.
    - (* the copy has a bigram list *)
      rewrite decide_True in Hrun by (unfold NOT_A_DICT_POS; lia).
      unfold addNewBigramEntryToBigramList in Hrun. rewrite bind_current in Hrun.
      destruct (addNewBigramEntryLoop_list word1Pos probability b2 s wp Hlist2
                  ltac:(lia) ltac:(lia) _ _ Hrun)
        as (r' & y & hasNext & Hlist' & Hr' & Hy & Hentry & Hbelow).
      exists flags, r', y, hasNext.
      split; [|repeat split; try done; try lia; intros z Hz; apply Hbelow; lia].
      split; [|exists o; by rewrite Hbelow by lia].
      destruct Hwritten as (H1 & H2 & H3 & H4 & _).
      assert (Hcf : (if flagIsTerminal flags then T + 3 + 1 else T + 3) < s).
      { destruct (flagHasShortcutTargets flags);
          [pose proof (shortcutList_lt _ _ _ Hshort2)|]; lia. }
      split; [by rewrite Hbelow by lia|].
      split; [by rewrite Hbelow by lia|].
      split; [intros Ht; rewrite Hbelow by (destruct (flagIsTerminal flags); lia);
              by apply H3|].
      split; [by rewrite Hbelow by lia|].
      exists s. rewrite Hhas. split; [|done].
      destruct (flagHasShortcutTargets flags); [|done].
      apply (shortcutList_ext b2); [done|]. intros z Hz. apply Hbelow. lia.
    - (* the copy has no bigram list: an entry and the flags are written *)
      rewrite decide_False in Hrun by (intros Hn; by apply Hn).
      unfold writeNewBigramEntry, writeFlagsAndAdvancePosition in Hrun.
      apply bind_Done in Hrun as (b3 & wp3 & Hentry & Hrun).
      apply bind_Done in Hrun as (b4 & wp4 & Hpatch & Hret). injection Hret as <-.
      subst s.
      apply writeField_append in Hentry as (_ & Htail3 & Hcells3); [|lia].
      apply writeField_patch in Hpatch as (_ & Htail4 & Hcells4 & _); [|lia].
      set (flags' := createAndGetFlags _ _ _ _ true _ _) in Hcells4.
      assert (Hterminal : flagIsTerminal flags' = flagIsTerminal flags).
      { unfold flags'. cbn [createAndGetFlags flagIsTerminal].
        destruct (flagIsTerminal flags) eqn:Ht.
        - rewrite (Hprob1 eq_refl). unfold flags in Ht.
          cbn [createAndGetFlags flagIsTerminal] in Ht. done.
        - rewrite (Hprob0 eq_refl). apply bool_decide_eq_false_2. by intros Hn. }
      assert (Hshortcuts : flagHasShortcutTargets flags' = flagHasShortcutTargets flags).
      { unfold flags'. cbn [createAndGetFlags flagHasShortcutTargets].
        destruct (flagHasShortcutTargets flags) eqn:Hsh.
        - apply bool_decide_eq_true_2. by apply Hsp.
        - apply bool_decide_eq_false_2. intros Hn. apply Hsp in Hn. congruence. }
      exists flags', (wp + 1), wp, false.
      assert (Hcell : ∀ z, z ≠ T → z ≠ wp → cells b4 !! z = cells b2 !! z).
      { intros z Hz1 Hz2. by rewrite Hcells4, lookup_insert_ne, Hcells3, lookup_insert_ne. }
      destruct Hwritten as (H1 & H2 & H3 & H4 & _).
      assert (Hcf : T + 3 <= (if flagIsTerminal flags then T + 3 + 1 else T + 3) < wp).
      { split; [destruct (flagIsTerminal flags); lia|].
        destruct (flagHasShortcutTargets flags);
          [pose proof (shortcutList_lt _ _ _ Hshort2)|]; lia. }
      split.
      { split; [|exists o; by rewrite Hcell by lia].
        split; [by rewrite Hcells4, lookup_insert_eq|].
        split; [by rewrite Hcell by lia|].
        rewrite Hterminal.
        split; [intros Ht; rewrite Hcell by (destruct (flagIsTerminal flags); lia);
                by apply H3|].
        split; [by rewrite Hcell by lia|].
        exists wp. rewrite Hshortcuts. split.
        - destruct (flagHasShortcutTargets flags); [|done].
          apply (shortcutList_ext b2); [done|]. intros z Hz. apply Hcell; lia.
        - unfold flags' at 1. cbn [createAndGetFlags flagHasBigrams].
          eapply bigramList_last.
          by rewrite Hcells4, lookup_insert_ne, Hcells3, lookup_insert_eq by lia. }
      split; [done|]. split; [done|]. split; [done|]. split; [lia|]. split; [lia|].
      split; [by rewrite Hcells4, lookup_insert_ne, Hcells3, lookup_insert_eq by lia|].
      intros z Hz. apply Hcell; lia. }
  destruct Hend as (flags' & r' & y & hasNext & Hlaid' & Hmoved' & Hdeleted' & Hhas'
                    & Hr' & Hy & Hentry & Hbelow').
  pose proof Hlaid' as [Hwritten' _].
  destruct (written_read NOT_A_PROBABILITY _ _ _ _ _ _ _ Hwritten' Hmoved' ltac:(lia)
              ltac:(lia)) as (HlandsT & _).
  assert (Hframe : framed NOT_A_PROBABILITY (Some word0Pos) (Some cf0) None None b b').
  { apply (marking_framed_after NOT_A_PROBABILITY b word0Pos cf0 Hinside Hin Hmoved b1 b');
      [done|intros x Hx; rewrite Hbelow' by (unfold T; lia); apply Hbelow2; lia|lia|].
    destruct Hwritten' as (Hcell & _). fold T. by rewrite Hcell. }
  assert (HlandsQ : lands b' word0Pos T).
  { assert (Hoff : getParentOffset b' (word0Pos + 1) = T - word0Pos).
    { unfold getParentOffset. rewrite Hbelow', Hbelow2 by (unfold T; lia).
      by rewrite Hoffset. }
    apply lands_follow.
    - by apply (framed_nodeInside NOT_A_PROBABILITY _ _ _ _ _ _ Hframe).
    - destruct (framed_moved _ _ _ _ _ _ _ Hframe word0Pos eq_refl)
        as (_ & fl & _ & _ & Hcell).
      unfold getFlags. by rewrite Hcell.
    - unfold T in *. lia.
    - rewrite Hoff. by replace (word0Pos + (T - word0Pos)) with T by lia. }
  exists flags', r', y, hasNext, codePoints. repeat (split; [done|]). done.
Qed.

(** The reader is led from the PtNode to its copy, whose bigram list holds
    the entry. *)
Lemma addBigramWordsOfHelper_listed fuel word0Pos word1Pos probability b b' :
  (∀ x, x < 0 ∨ tail b <= x → cells b !! x = None) →
  cells b !! 0 = Some FHeader →
  nodeInside b word0Pos → flagIsMoved (getFlags b word0Pos) = false →
  (hasChildren (fetchNode b word0Pos) = true →
   ∃ slots last,
     arrays NOT_A_PROBABILITY b (getChildrenPos (fetchNode b word0Pos)) slots last) →
  addBigramWordsOfHelper NOT_A_PROBABILITY NOT_A_VALID_WORD_POS fuel word0Pos word1Pos
    probability b = (b', Done tt) →
  lands b' word0Pos (tail b)
  ∧ isDeleted (fetchNode b' word0Pos) = false
  ∧ tail b < getBigramsPos (fetchNode b' word0Pos)
  ∧ (word1Pos, probability) ∈ bigramsAt b' (getBigramsPos (fetchNode b' word0Pos)).
Proof.
  intros Hinside Hheader Hin Hmoved Hchildren Hrun.
  pose proof (nodeInside_range _ _ Hin) as Hq0.
  destruct (addBigramWordsOfHelper_copy _ _ _ _ _ _ Hinside Hheader Hin Hmoved Hchildren
              Hrun)
    as (flags' & r' & y & hasNext & codePoints & [Hwritten' _] & Hmoved' & Hdeleted'
        & Hhas' & Hr' & Hy & Hentry & _ & HlandsQ & _).
  set (T := tail b) in *.
  destruct (written_read NOT_A_PROBABILITY _ _ _ _ _ _ _ Hwritten' Hmoved' ltac:(lia)
              ltac:(lia)) as (HlandsT & _ & _ & HflagsT & _).
  destruct (written_lists _ _ _ _ _ _ _ Hwritten' ltac:(lia) ltac:(lia))
    as (s' & Hs' & Hshort' & Hlist' & Hread').
  rewrite Hhas' in Hlist'.
  destruct (fetchNode_read NOT_A_PROBABILITY NOT_A_VALID_WORD_POS _ _ _ HlandsQ)
    as (so & lo & Hfetch).
  destruct (Hread' so lo) as (Hbp' & _ & _ & _ & Hfl'). cbv zeta in *.
  rewrite Hhas' in Hbp'.
  split; [done|]. rewrite Hfetch.
  split; [unfold isDeleted; by rewrite Hfl'|].
  rewrite Hbp'. split; [lia|].
  unfold bigramsAt.
  apply (readBigrams_elem b' s' r' Hlist' y word1Pos probability hasNext).
  - split; [|lia]. destruct (decide (s' <= y)); [done|]. exfalso.
    (* an entry before the list would be a field of the PtNode *)
    destruct Hwritten' as (_ & _ & _ & H4 & _).
    set (cf := if flagIsTerminal flags' then T + 3 + 1 else T + 3) in *.
    assert (Hbetween : ∀ x0 r0, shortcutList b' x0 r0 → x0 <= y < r0 → False).
    { clear -Hentry. induction 1 as [x0 t p Hcell|x0 r0 t p Hcell _ IH]; intros Hy0.
      - assert (y = x0) as -> by lia. congruence.
      - destruct (decide (y = x0)) as [->|]; [congruence|]. apply IH. lia. }
    destruct (decide (y = cf)) as [->|Hycf]; [congruence|].
    assert (Hafter : cf + 1 <= y) by (unfold cf in *; destruct (flagIsTerminal flags'); lia).
    destruct (flagHasShortcutTargets flags'); [|lia].
    apply (Hbetween _ _ Hshort'). lia.
  - done.
  - unfold listFuel. lia.
Qed.

End BigramsAdded.

(** X15.  On a well-formed dictionary, after [addBigramWords(word0, word1,
    probability)] has returned true, the PtNode of [word0] (at the position
    its lookup returned before the call) has a bigram list, and the list
    holds an entry with the position of [word1] and the probability. *)
Theorem addBigramWords_then_listed
    (NOT_A_PROBABILITY NOT_A_VALID_WORD_POS : Z) (fuel : nat) (policy : Policy)
    (word0 : list Z) (length0 : Z) (word1 : list Z) (length1 probability : Z)
    (b b' : Buffer) :
  wellFormed NOT_A_PROBABILITY NOT_A_VALID_WORD_POS b (getRootPosition policy) →
  NOT_A_VALID_WORD_POS < 0 → length0 <= Z.of_nat (List.length word0) →
  addBigramWords NOT_A_PROBABILITY NOT_A_VALID_WORD_POS fuel policy word0 length0 word1
    length1 probability b = (b', Done tt) →
  ∃ word0Pos word1Pos,
    getTerminalNodePositionOfWord NOT_A_PROBABILITY NOT_A_VALID_WORD_POS (λ c, c) fuel
      policy b word0 length0 false = Done word0Pos
    ∧ getTerminalNodePositionOfWord NOT_A_PROBABILITY NOT_A_VALID_WORD_POS (λ c, c) fuel
        policy b word1 length1 false = Done word1Pos
    ∧ word0Pos ≠ NOT_A_VALID_WORD_POS ∧ word1Pos ≠ NOT_A_VALID_WORD_POS
    ∧ getBigramsPositionOfNode NOT_A_PROBABILITY NOT_A_VALID_WORD_POS b' word0Pos
      ≠ NOT_A_DICT_POS
    ∧ (word1Pos, probability)
      ∈ bigramsAt b'
          (getBigramsPositionOfNode NOT_A_PROBABILITY NOT_A_VALID_WORD_POS b' word0Pos).
Proof.
  intros Hwf Hnegative Hlength Hrun.
  unfold addBigramWords in Hrun.
  destruct (isUpdatable policy); [|done]. cbn [negb] in Hrun.
  unfold bind at 1, lookupWord at 1 in Hrun.
  destruct (getTerminalNodePositionOfWord _ _ _ fuel policy b word0 length0 false)
    as [word0Pos| |] eqn:H0; [|done|done].
  destruct (decide (word0Pos = NOT_A_VALID_WORD_POS)) as [|Hpos0]; [done|].
  unfold bind at 1, lookupWord at 1 in Hrun.
  destruct (getTerminalNodePositionOfWord _ _ _ fuel policy b word1 length1 false)
    as [word1Pos| |] eqn:H1; [|done|done].
  destruct (decide (word1Pos = NOT_A_VALID_WORD_POS)) as [|Hpos1]; [done|].
  exists word0Pos, word1Pos. do 4 (split; [done|]).
  destruct (getTerminalNodePositionOfWord_found _ _ _ _ _ _ _ _ _ _ Hwf Hlength H0 Hpos0)
    as (slots & linkFieldPos & _ & Hspells).
  destruct (spells_lands _ _ _ _ _ _ Hspells) as [p Hlands].
  destruct (lands_last _ _ _ Hlands) as (Hin & Hmoved & _).
  destruct Hwf as (Hinside & Hheader & _ & Hchildren & _).
  destruct (addBigramWordsOfHelper_listed NOT_A_PROBABILITY NOT_A_VALID_WORD_POS
              Hnegative fuel word0Pos word1Pos probability b b' Hinside Hheader Hin
              Hmoved) as (_ & Hdeleted & Hpos & Hentry); [|done|].
  { intros Hhas. apply (Hchildren word0Pos word0Pos); [by apply lands_stop|done]. }
  unfold getBigramsPositionOfNode. rewrite decide_False by done. rewrite Hdeleted.
  split; [|done]. pose proof (nodeInside_range _ _ Hin). unfold NOT_A_DICT_POS. lia.
Qed.

(** The dictionary that holds [cat] and [car] after
    [addBigramWords(cat, car, 5)]. *)
Definition exampleTrieWithBigram : Buffer :=
  (addBigramWords (-1) (-99) 100 examplePolicy exampleCat 3 exampleCar 3 5
     exampleTrieWithCar).1.

(** The theorem on that dictionary. *)
Lemma addBigramWords_then_listed_witness :
  ∃ word0Pos word1Pos,
    getTerminalNodePositionOfWord (-1) (-99) (λ c, c) 100 examplePolicy
      exampleTrieWithCar exampleCat 3 false = Done word0Pos
    ∧ getTerminalNodePositionOfWord (-1) (-99) (λ c, c) 100 examplePolicy
        exampleTrieWithCar exampleCar 3 false = Done word1Pos
    ∧ word0Pos ≠ -99 ∧ word1Pos ≠ -99
    ∧ getBigramsPositionOfNode (-1) (-99) exampleTrieWithBigram word0Pos
      ≠ NOT_A_DICT_POS
    ∧ (word1Pos, 5)
      ∈ bigramsAt exampleTrieWithBigram
          (getBigramsPositionOfNode (-1) (-99) exampleTrieWithBigram word0Pos).
Proof.
  apply (addBigramWords_then_listed (-1) (-99) 100 examplePolicy exampleCat 3
           exampleCar 3 5 exampleTrieWithCar exampleTrieWithBigram);
    [exact exampleTrieWithCar_wellFormed|lia|simpl; lia|vm_compute; reflexivity].
Defined.

(** *** A dictionary that stays well-formed *)

Section Kept.

Variable NOT_A_PROBABILITY : Z.
Variable NOT_A_VALID_WORD_POS : Z.

Abbreviation fetchNode := (fetchNodeInfoFromBuffer NOT_A_PROBABILITY NOT_A_VALID_WORD_POS).
Abbreviation arraysOf := (arrays NOT_A_PROBABILITY).

(** [b'] is the well-formed [b] after a mutation that is framed.  At and
    above the old tail a flags field is followed by a parent offset field and
    a children position field holds the position of a chain of arrays, and
    so does the children position field that is patched, unless it is the
    one of the PtNode that is marked as moved. *)
Variables (q cf lf pf : option Z) (b b' : Buffer) (root : Z).
Hypothesis frame : framed NOT_A_PROBABILITY q cf lf pf b b'.
Hypothesis b_wellFormed : wellFormed NOT_A_PROBABILITY NOT_A_VALID_WORD_POS b root.
Hypothesis b'_inside : inside b'.
Hypothesis kinds : kindsFrom b b'.
Hypothesis moved_lands : ∀ x, q = Some x → ∃ t, lands b' x t.
Hypothesis link_extended :
  ∀ x, lf = Some x →
    getForwardLinkPosition b x = NOT_A_DICT_POS
    ∧ getForwardLinkPosition b' x = tail b
    ∧ ∃ linkFieldPos, arraysOf b' (tail b) [tail b + 1] linkFieldPos.
Hypothesis new_layout :
  ∀ x flags, tail b <= x → cells b' !! x = Some (FFlags flags) →
    ∃ offset, cells b' !! (x + 1) = Some (FParentOffset offset).
Hypothesis new_children :
  ∀ x c, tail b <= x → cells b' !! x = Some (FChildrenPos c) →
    c = NOT_A_DICT_POS
    ∨ (∃ slots linkFieldPos, arraysOf b c slots linkFieldPos)
    ∨ (∃ slots linkFieldPos, arraysOf b' c slots linkFieldPos).
Hypothesis given_children :
  ∀ x, cf = Some x →
    (∃ slots linkFieldPos, arraysOf b' (readChildrenPosition b' x) slots linkFieldPos)
    ∨ (∃ x0, q = Some x0 ∧ x = childrenFieldOf b x0 ∧ nodeInside b x0).

Lemma framed_wellFormed : wellFormed NOT_A_PROBABILITY NOT_A_VALID_WORD_POS b' root.
Proof.
  destruct b_wellFormed as (Hinside & Hheader & Hlayout & Hchildren & slots & l & Hroot).
  pose proof (arrays_inside _ _ _ _ _ Hroot) as Hroot_in.
  destruct kinds as [Htail Hkinds].
  assert (Hlift : ∀ c slots0 l0, arraysOf b c slots0 l0 →
            ∃ slots' l', arraysOf b' c slots' l').
  { intros c slots0 l0 Harrays.
    destruct (framed_arrays _ _ _ _ _ _ _ frame moved_lands link_extended _ _ _ Harrays)
      as [l' Hl']. eauto. }
  assert (Hflags_b : ∀ x flags, x < tail b → cells b' !! x = Some (FFlags flags) →
            ∃ flags0, cells b !! x = Some (FFlags flags0)).
  { intros x flags Hx Hcell. destruct (decide (q = Some x)) as [Hq|Hq].
    - destruct (framed_moved _ _ _ _ _ _ _ frame x Hq) as (_ & flags0 & Hb & _). eauto.
    - pose proof (framed_flags _ _ _ _ _ _ _ frame x Hx Hq) as Hsame.
      rewrite Hcell in Hsame. simpl in Hsame.
      destruct (cells b !! x) as [[]|]; simpl in Hsame; try done. eauto. }
  split; [done|]. split.
  { destruct (Hkinds 0 FHeader ltac:(lia) Hheader) as (g' & Hg' & Hkind).
    by destruct g'. }
  split.
  { intros x flags Hcell. destruct (decide (x < tail b)) as [Hx|Hx].
    - destruct (Hflags_b x flags Hx Hcell) as [flags0 Hb].
      destruct (Hlayout _ _ Hb) as [o Ho].
      assert (Hx1 : x + 1 < tail b).
      { destruct (decide (x + 1 < tail b)); [done|].
        rewrite Hinside in Ho by (right; lia). done. }
      destruct (Hkinds _ _ Hx1 Ho) as (g' & Hg' & Hkind).
      destruct g'; try done. eauto.
    - apply (new_layout x flags); [lia|done]. }
  split; [|by apply (Hlift root slots l)].
  intros p q1 Hlands Hhas.
  destruct (fetchNode_fields NOT_A_PROBABILITY NOT_A_VALID_WORD_POS _ _ _ Hlands)
    as (_ & _ & _ & _ & Hpos).
  rewrite Hpos. unfold hasChildren in Hhas. apply bool_decide_eq_true in Hhas.
  unfold getChildrenPos in Hpos. rewrite Hpos in Hhas.
  destruct (lands_last _ _ _ Hlands) as (Hin1 & Hmoved1 & _).
  set (x := childrenFieldOf b' q1) in *.
  set (c := readChildrenPosition b' x) in *.
  assert (Hcell : cells b' !! x = Some (FChildrenPos c)).
  { unfold c, readChildrenPosition in *.
    destruct (cells b' !! x) as [[]|]; try done. }
  destruct (decide (x < tail b)) as [Hx|Hx].
  - pose proof (nodeInside_range _ _ Hin1) as Hq1.
    destruct Hin1 as ([flags1 Hflags1] & H0 & _).
    assert (Hq1x : q1 < x) by (unfold x, childrenFieldOf; destruct (flagIsTerminal _); lia).
    assert (Hq : q ≠ Some q1).
    { intros Hq. destruct (framed_moved _ _ _ _ _ _ _ frame q1 Hq) as (_ & fl & _ & _ & Hb').
      unfold getFlags in Hmoved1. rewrite Hb' in Hmoved1. done. }
    assert (Hflags : getFlags b' q1 = getFlags b q1)
      by (apply (framed_getFlags _ _ _ _ _ _ _ frame); [lia|done]).
    assert (Hfield : childrenFieldOf b q1 = x)
      by (symmetry; apply (framed_childrenFieldOf _ _ _ _ _ _ _ frame); lia).
    destruct (Hflags_b q1 flags1 ltac:(lia) Hflags1) as [flags0 Hb].
    assert (Hin_b : nodeInside b q1).
    { split; [eauto|]. split; [done|]. by rewrite Hfield. }
    destruct (decide (cf = Some x)) as [Hcf|Hcf].
    + destruct (given_children x Hcf) as [Hgiven|(x0 & Hq0 & Hx0 & Hin0)]; [done|].
      assert (q1 = x0)
        by (apply (childrenFieldOf_inj [] b Hlayout); [done|done|congruence]).
      congruence.
    + assert (Hsame : readChildrenPosition b x = c)
        by (symmetry; by apply (framed_children _ _ _ _ _ _ _ frame)).
      assert (Hlands_b : lands b q1 q1)
        by (apply lands_stop; [done|by rewrite <- Hflags]).
      destruct (fetchNode_fields NOT_A_PROBABILITY NOT_A_VALID_WORD_POS _ _ _ Hlands_b)
        as (_ & _ & _ & _ & Hpos_b).
      rewrite Hfield, Hsame in Hpos_b.
      destruct (Hchildren q1 q1 Hlands_b) as (slots0 & l0 & Harrays).
      { unfold hasChildren. unfold getChildrenPos in Hpos_b. rewrite Hpos_b.
        by apply bool_decide_eq_true_2. }
      rewrite Hpos_b in Harrays. by apply (Hlift c slots0 l0).
  - destruct (new_children x c ltac:(lia) Hcell) as [?|[(slots0 & l0 & Harrays)|?]];
      [done| |done].
    by apply (Hlift c slots0 l0).
Qed.

End Kept.

(** *** What [addUnigramWord] leaves where it stops *)

Section KeptCases.

Variable NOT_A_PROBABILITY : Z.
Variable NOT_A_VALID_WORD_POS : Z.
Hypothesis NOT_A_VALID_WORD_POS_negative : NOT_A_VALID_WORD_POS < 0.

Abbreviation fetchNode := (fetchNodeInfoFromBuffer NOT_A_PROBABILITY NOT_A_VALID_WORD_POS).
Abbreviation arraysOf := (arrays NOT_A_PROBABILITY).
Abbreviation wellFormedAt := (wellFormed NOT_A_PROBABILITY NOT_A_VALID_WORD_POS).

(** The array [createNewPtNodeArrayWithAChildPtNode] leaves at the tail
    has the parent offset field of its PtNode. *)
Lemma createNewPtNodeArrayWithAChildPtNode_offset parentPos codePoints count
    probability b b' :
  createNewPtNodeArrayWithAChildPtNode NOT_A_PROBABILITY parentPos codePoints count
    probability b = (b', Done tt) →
  offsetAt (tail b + 2) b'.
Proof.
  unfold createNewPtNodeArrayWithAChildPtNode. rewrite bind_current.
  unfold getTailPosition, writePtNodeArraySizeAndAdvancePosition, writePtNodeToBuffer.
  intros H.
  apply bind_Done in H as (b1 & p1 & H1 & H).
  apply bind_Done in H as (b2 & r & H2 & H).
  apply writeField_append in H1 as (-> & Ht1 & Hc1); [|done].
  apply writePtNodeWithFullInfoToBuffer_laid in H2 as ([Hwritten [o Ho]] & Ht2 & Hb2);
    [|lia].
  pose proof (written_ge _ _ _ _ _ _ _ Hwritten) as Hr.
  apply (always_run _ _ b2 b' (Done tt)) with (3 := H).
  - always_with (offsetAt_write (tail b + 2)).
  - split; [lia|]. exists o. by replace (tail b + 2) with (tail b + 1 + 1) by lia.
Qed.

(** The fields of a new array: the flags field of its PtNode is followed
    by a parent offset field, and its children position field holds no
    position. *)
Lemma newArray_cells b a r codePoints probability :
  newArray NOT_A_PROBABILITY b a r codePoints probability →
  offsetAt (a + 2) b → inside b →
  (∀ x flags, a <= x → cells b !! x = Some (FFlags flags) →
     ∃ offset, cells b !! (x + 1) = Some (FParentOffset offset))
  ∧ (∀ x c, a <= x → cells b !! x = Some (FChildrenPos c) → c = NOT_A_DICT_POS).
Proof.
  intros (Hsize & Hwritten & Hlink & Htail) [_ [o Ho]] Hinside.
  assert (Hlaid : laid b (a + 1) r
            (createAndGetFlags false false (bool_decide (probability ≠ NOT_A_PROBABILITY))
               false false (bool_decide (Z.of_nat (List.length codePoints) > 1))
               CHILDREN_POSITION_FIELD_SIZE)
            codePoints probability NOT_A_DICT_POS).
  { split; [done|]. exists o. by replace (a + 1 + 1) with (a + 2) by lia. }
  destruct (laid_cells _ _ _ _ _ _ _ Hlaid) as [Hflags Hchildren].
  assert (Hregion : ∀ x, a <= x → x = a ∨ a + 1 <= x < r ∨ x = r ∨ tail b <= x)
    by (intros x Hx; lia).
  split.
  - intros x flags Hx Hcell.
    destruct (Hregion x Hx) as [->|[Hin|[->|Hout]]]; [congruence| |congruence|].
    + rewrite (Hflags x flags Hin Hcell). exists o. by replace (a + 1 + 1) with (a + 2) by lia.
    + rewrite Hinside in Hcell by (by right). done.
  - intros x c Hx Hcell.
    destruct (Hregion x Hx) as [->|[Hin|[->|Hout]]]; [congruence| |congruence|].
    + by apply (Hchildren x c Hin).
    + rewrite Hinside in Hcell by (by right). done.
Qed.

(** The tail of a well-formed dictionary is after its root. *)
Lemma wellFormed_tail b root : wellFormedAt b root → 0 < tail b.
Proof.
  intros (_ & _ & _ & _ & slots & l & Hroot).
  pose proof (arrays_inside _ _ _ _ _ Hroot). lia.
Qed.

(** The word that is added, its length and its probability. *)
Variable word : list Z.
Variable length : Z.
Variable probability : Z.
Hypothesis length_word : length <= Z.of_nat (List.length word).

Abbreviation finalActionOf :=
  (finalAction NOT_A_PROBABILITY NOT_A_VALID_WORD_POS word length probability).
Abbreviation matchesOf := (matches word).
Abbreviation codePointsOf := (codePointsAt NOT_A_PROBABILITY NOT_A_VALID_WORD_POS).
Abbreviation countOf := (countAt NOT_A_PROBABILITY NOT_A_VALID_WORD_POS).

(** [b] is the well-formed dictionary before the word is added, [b'] the
    buffer the writers leave. *)
Variables (b b' : Buffer) (root : Z).
Hypothesis b_wellFormed : wellFormedAt b root.

(** createAndInsertNodeIntoPtNodeArray: a new array is chained to the last
    forward link field. *)
Lemma frame_end moveFuel parentPos linkFieldPos matched :
  0 <= matched < length → endsChain b linkFieldPos →
  finalActionOf b moveFuel (AtEnd linkFieldPos matched) parentPos b = (b', Done tt) →
  ∃ r,
    framed NOT_A_PROBABILITY None None (Some linkFieldPos) None b b'
    ∧ newArray NOT_A_PROBABILITY b' (tail b) r
        (take (Z.to_nat (length - matched)) (drop (Z.to_nat matched) word)) probability
    ∧ offsetAt (tail b + 2) b'
    ∧ getForwardLinkPosition b' linkFieldPos = tail b
    ∧ 0 < tail b.
Proof.
  intros Hmatched [Hinside Hlink] Hrun.
  pose proof b_wellFormed as (b_inside & _).
  simpl in Hrun. unfold createAndInsertNodeIntoPtNodeArray in Hrun.
  rewrite bind_current in Hrun. unfold getTailPosition in Hrun.
  apply bind_Done in Hrun as (b1 & r1 & Hwrite & Hnew).
  unfold writeForwardLinkPositionAndAdvancePosition in Hwrite.
  apply writeField_patch in Hwrite as (_ & Ht1 & Hc1 & Hpos & g & Hg & Hkind); [|lia].
  destruct g; try done.
  destruct (suffix_matches word length matched Hmatched length_word) as [Hcount _].
  pose proof (createNewPtNodeArrayWithAChildPtNode_offset _ _ _ _ _ _ Hnew) as Hoffset.
  apply createNewPtNodeArrayWithAChildPtNode_newArray in Hnew as ([r Hnew] & Hbelow);
    [|lia].
  rewrite Ht1 in Hnew, Hbelow, Hoffset.
  destruct (newArray_read NOT_A_PROBABILITY NOT_A_VALID_WORD_POS _ _ _ _ _ Hnew
              ltac:(lia)) as (_ & _ & Htail' & _).
  exists r. split; [|split; [done|split; [done|split; [|lia]]]].
  - apply framed_of_cells.
    + lia.
    + intros x Hx. apply b_inside. by right.
    + intros x Hx. rewrite Hbelow by lia. rewrite Hc1, lookup_insert_ne by lia.
      apply b_inside. by left.
    + destruct Hnew as (-> & _). done.
    + done.
    + intros x Hx. unfold cellKept. rewrite Hbelow by lia. rewrite Hc1.
      destruct (decide (x = linkFieldPos)) as [->|Hne].
      * do 4 right. left. split; [done|]. rewrite lookup_insert_eq. eauto.
      * left. by rewrite lookup_insert_ne.
  - unfold getForwardLinkPosition. rewrite Hbelow by lia.
    by rewrite Hc1, lookup_insert_eq.
Qed.

(** createChildrenPtNodeArrayAndAChildPtNode: the PtNode gets a first
    child. *)
Lemma frame_leaf moveFuel parentPos p q0 matched :
  0 <= matched < length → lands b p q0 →
  matched + countOf b p < length →
  finalActionOf b moveFuel (Leaf p matched) parentPos b = (b', Done tt) →
  ∃ r,
    framed NOT_A_PROBABILITY None (Some (childrenFieldOf b q0)) None None b b'
    ∧ newArray NOT_A_PROBABILITY b' (tail b) r
        (take (Z.to_nat (length - (matched + countOf b p)))
           (drop (Z.to_nat (matched + countOf b p)) word)) probability
    ∧ offsetAt (tail b + 2) b'
    ∧ readChildrenPosition b' (childrenFieldOf b q0) = tail b
    ∧ 0 < tail b.
Proof.
  intros Hmatched Hlands Hlen Hrun.
  pose proof b_wellFormed as (b_inside & _).
  destruct (lands_last _ _ _ Hlands) as (Hin & Hmoved & _).
  pose proof (nodeInside_range _ _ Hin) as Hq0.
  destruct (fetchNode_fields NOT_A_PROBABILITY NOT_A_VALID_WORD_POS _ _ _ Hlands)
    as (Hhead & _ & _ & Hfield & Hpos).
  set (cf0 := childrenFieldOf b q0) in *.
  assert (Hcf0 : q0 + 3 <= cf0 < tail b).
  { destruct Hin as (_ & _ & Hcf). fold cf0 in Hcf. split; [|done].
    unfold cf0, childrenFieldOf. destruct (flagIsTerminal _); lia. }
  simpl in Hrun. unfold createChildrenPtNodeArrayAndAChildPtNode in Hrun.
  rewrite bind_current in Hrun. unfold getTailPosition in Hrun. rewrite Hfield in Hrun.
  apply bind_Done in Hrun as (b1 & r1 & Hwrite & Hnew).
  unfold writeChildrenPositionAndAdvancePosition in Hwrite.
  apply writeField_patch in Hwrite as (_ & Ht1 & Hc1 & _ & g & Hg & Hkind); [|lia].
  destruct g; try done.
  assert (Hcount0 : 0 <= countOf b p) by (unfold countAt, getCodePointCount; lia).
  assert (Hmatched' : 0 <= matched + countOf b p < length) by lia.
  destruct (suffix_matches word length _ Hmatched' length_word) as [Hcount _].
  pose proof (createNewPtNodeArrayWithAChildPtNode_offset _ _ _ _ _ _ Hnew) as Hoffset.
  apply createNewPtNodeArrayWithAChildPtNode_newArray in Hnew as ([r Hnew] & Hbelow);
    [|lia].
  rewrite Ht1 in Hnew, Hbelow, Hoffset.
  destruct (newArray_read NOT_A_PROBABILITY NOT_A_VALID_WORD_POS _ _ _ _ _ Hnew
              ltac:(lia)) as (_ & _ & Htail' & _).
  exists r. split; [|split; [done|split; [done|split; [|lia]]]].
  - apply framed_of_cells.
    + lia.
    + intros x Hx. apply b_inside. by right.
    + intros x Hx. rewrite Hbelow by lia. rewrite Hc1, lookup_insert_ne by lia.
      apply b_inside. by left.
    + destruct Hnew as (-> & _). done.
    + done.
    + intros x Hx. unfold cellKept. rewrite Hbelow by lia. rewrite Hc1.
      destruct (decide (x = cf0)) as [->|Hne].
      * do 3 right. left. split; [done|]. rewrite lookup_insert_eq. eauto.
      * left. by rewrite lookup_insert_ne.
  - unfold readChildrenPosition. rewrite Hbelow by lia.
    by rewrite Hc1, lookup_insert_eq.
Qed.

(** setPtNodeProbability on a terminal: the probability is overwritten. *)
Lemma frame_terminal moveFuel parentPos p q0 matched :
  lands b p q0 → isTerminal (fetchNode b p) = true →
  finalActionOf b moveFuel (Exact p matched) parentPos b = (b', Done tt) →
  framed NOT_A_PROBABILITY None None None (Some (q0 + 3)) b b' ∧ tail b' = tail b.
Proof.
  intros Hlands Hterminal Hrun.
  pose proof b_wellFormed as (b_inside & _).
  destruct (lands_last _ _ _ Hlands) as (Hin & Hmoved & _).
  pose proof (nodeInside_range _ _ Hin) as Hq0.
  destruct (fetchNode_read NOT_A_PROBABILITY NOT_A_VALID_WORD_POS _ _ _ Hlands)
    as (s0 & l0 & Hread).
  assert (Hterminal' : flagIsTerminal (getFlags b q0) = true)
    by (by rewrite Hread in Hterminal).
  simpl in Hrun. unfold setPtNodeProbability in Hrun. rewrite Hterminal in Hrun.
  apply bind_Done in Hrun as (b1 & r & Hwrite & Hret). injection Hret as ->.
  assert (Hfield : getProbabilityFieldPos (fetchNode b p) = q0 + 3).
  { rewrite Hread. unfold getProbabilityFieldPos, readPtNode.
    cbn [mProbabilityFieldPos]. by rewrite Hterminal'. }
  rewrite Hfield in Hwrite. unfold writeProbabilityAndAdvancePosition in Hwrite.
  assert (Hcf : q0 + 3 + 1 < tail b).
  { destruct Hin as (_ & _ & Hcf). unfold childrenFieldOf in Hcf.
    by rewrite Hterminal' in Hcf. }
  apply writeField_Done in Hwrite as (_ & Hb' & [[? _]|(_ & _ & g & Hg & Hkind)]); [lia|].
  rewrite decide_False in Hb' by lia.
  destruct g; try done.
  split; [|by subst b'].
  apply framed_of_cells; subst b'; cbn [cells tail].
  - done.
  - intros x Hx. apply b_inside. by right.
  - intros x Hx. rewrite lookup_insert_ne by lia. apply b_inside. by left.
  - rewrite lookup_insert_ne by lia. by rewrite b_inside by (right; lia).
  - done.
  - intros x Hx. unfold cellKept. cbn [cells].
    destruct (decide (x = q0 + 3)) as [->|Hne].
    + do 5 right. split; [done|]. rewrite lookup_insert_eq. eauto.
    + left. by rewrite lookup_insert_ne.
Qed.

(** setPtNodeProbability on a PtNode that is not terminal: the PtNode is
    marked as moved and written again at the tail, with the probability. *)
Lemma frame_moved moveFuel parentPos p q0 matched :
  lands b p q0 → isTerminal (fetchNode b p) = false →
  finalActionOf b moveFuel (Exact p matched) parentPos b = (b', Done tt) →
  ∃ r flags,
    framed NOT_A_PROBABILITY (Some q0) (Some (childrenFieldOf b q0)) None None b b'
    ∧ lands b' q0 (tail b)
    ∧ laid b' (tail b) r flags (codePointsOf b p) probability
        (getChildrenPos (fetchNode b p))
    ∧ flagIsMoved flags = false
    ∧ tail b' = r.
Proof.
  intros Hlands Hterminal Hrun.
  pose proof b_wellFormed as (b_inside & b_header & b_layout & b_childrenLaidOut & _).
  destruct (lands_last _ _ _ Hlands) as (Hin & Hmoved & _).
  pose proof (nodeInside_range _ _ Hin) as Hq0.
  destruct (fetchNode_fields NOT_A_PROBABILITY NOT_A_VALID_WORD_POS _ _ _ Hlands)
    as (Hhead & _ & Hcps & Hfield & Hpos).
  set (n := fetchNode b p) in *.
  set (cf0 := childrenFieldOf b q0) in *.
  assert (Hcf0 : q0 + 3 <= cf0 < tail b).
  { destruct Hin as (_ & _ & Hcf). fold cf0 in Hcf. split; [|done].
    unfold cf0, childrenFieldOf. destruct (flagIsTerminal _); lia. }
  simpl in Hrun. unfold setPtNodeProbability in Hrun. fold n in Hrun.
  rewrite Hterminal in Hrun. rewrite bind_current in Hrun.
  unfold getTailPosition in Hrun.
  apply bind_Done in Hrun as (b1 & [] & Hmark & Hrun).
  apply bind_Done in Hrun as (b2 & r & Hwrite & Hret). injection Hret as ->.
  destruct (markNodeAsMovedAndSetPosition_marking NOT_A_PROBABILITY NOT_A_VALID_WORD_POS
              NOT_A_VALID_WORD_POS_negative b q0 cf0 b_inside b_header Hin Hmoved
              moveFuel n (tail b) (tail b) b b1 Hhead Hfield eq_refl)
    as (Hmarking & Ht1 & Hoffset & Hlinked & _); try done.
  { intros Hhas. by apply (b_childrenLaidOut p q0). }
  { by rewrite b_inside by (right; lia). }
  { lia. }
  { right. lia. }
  unfold writePtNodeToBufferByCopyingPtNodeInfo in Hwrite.
  apply writePtNodeWithFullInfoToBuffer_laid in Hwrite as (Hlaid & Ht' & Hbelow);
    [|lia].
  assert (Htake : take (Z.to_nat (getCodePointCount n)) (codePointsOf b p)
                  = codePointsOf b p)
    by (apply take_ge; unfold getCodePointCount, codePointsAt; fold n; lia).
  rewrite Htake in Hlaid.
  pose proof Hlaid as [Hwritten _].
  destruct (written_read NOT_A_PROBABILITY _ _ _ _ _ _ _ Hwritten eq_refl ltac:(lia)
              ltac:(lia)) as (HlandsT & _ & Hr & _).
  assert (Hframe : framed NOT_A_PROBABILITY (Some q0) (Some cf0) None None b b').
  { apply (marking_framed_after NOT_A_PROBABILITY b q0 cf0 b_inside Hin Hmoved b1 b');
      [done|intros x Hx; apply Hbelow; lia|lia|].
    destruct Hwritten as (-> & _). done. }
  eexists r, _. split; [done|]. split; [|split; [exact Hlaid|done]].
  assert (Hoff : getParentOffset b' (q0 + 1) = tail b - q0).
  { unfold getParentOffset. rewrite Hbelow by lia. by rewrite Hoffset. }
  apply lands_follow.
  - by apply (framed_nodeInside NOT_A_PROBABILITY _ _ _ _ _ _ Hframe).
  - destruct (framed_moved _ _ _ _ _ _ _ Hframe q0 eq_refl)
      as (_ & flags & _ & _ & Hcell).
    unfold getFlags. by rewrite Hcell.
  - lia.
  - rewrite Hoff. by replace (q0 + (tail b - q0)) with (tail b) by lia.
Qed.

(** What [reallocatePtNodeAndAddNewPtNodes] leaves, with the parent offset
    fields: at the tail [F] of [b] the first part of the PtNode, then at [A]
    an array with the second part and, when the word goes on, a PtNode with
    the rest of the word. *)
Lemma reallocatePtNodeAndAddNewPtNodes_laid moveFuel p q0 j newCodePoints newCount :
  lands b p q0 → 1 <= j < countOf b p →
  reallocatePtNodeAndAddNewPtNodes NOT_A_PROBABILITY NOT_A_VALID_WORD_POS moveFuel
    (fetchNode b p) (codePointsOf b p) j probability newCodePoints newCount b
  = (b', Done tt) →
  ∃ A E2 E3 flagsF flags2,
    framed NOT_A_PROBABILITY (Some q0) (Some (childrenFieldOf b q0)) None None b b'
    ∧ lands b' q0 (tail b)
    ∧ laid b' (tail b) A flagsF (take (Z.to_nat j) (codePointsOf b p))
        (if bool_decide (newCount > j) then NOT_A_PROBABILITY else probability) A
    ∧ flagIsMoved flagsF = false
    ∧ cells b' !! A
      = Some (FPtNodeArraySize (if bool_decide (newCount > j) then 2 else 1))
    ∧ laid b' (A + 1) E2 flags2 (drop (Z.to_nat j) (codePointsOf b p))
        (getProbabilityOfNode (fetchNode b p)) (getChildrenPos (fetchNode b p))
    ∧ flagIsMoved flags2 = false
    ∧ (if bool_decide (newCount > j)
       then ∃ flags3,
              laid b' E2 E3 flags3
                (take (Z.to_nat (newCount - j)) (drop (Z.to_nat j) newCodePoints))
                probability NOT_A_DICT_POS
              ∧ flagIsMoved flags3 = false
       else E3 = E2)
    ∧ cells b' !! E3 = Some (FForwardLinkPos NOT_A_DICT_POS)
    ∧ tail b' = E3 + 1.
Proof.
  intros Hlands Hj Hrun.
  pose proof b_wellFormed as (b_inside & b_header & b_layout & b_childrenLaidOut & _).
  pose proof (wellFormed_tail _ _ b_wellFormed) as Hpositive.
  destruct (lands_last _ _ _ Hlands) as (Hin & Hmoved & _).
  pose proof (nodeInside_range _ _ Hin) as Hq0.
  destruct (fetchNode_fields NOT_A_PROBABILITY NOT_A_VALID_WORD_POS _ _ _ Hlands)
    as (Hhead & _ & Hcps & Hfield & Hpos).
  set (n := fetchNode b p) in *.
  set (cf0 := childrenFieldOf b q0) in *.
  assert (Hcf0 : q0 + 3 <= cf0 < tail b).
  { destruct Hin as (_ & _ & Hcf). fold cf0 in Hcf. split; [|done].
    unfold cf0, childrenFieldOf. destruct (flagIsTerminal _); lia. }
  unfold reallocatePtNodeAndAddNewPtNodes in Hrun. rewrite bind_current in Hrun.
  unfold getTailPosition in Hrun.
  set (extra := bool_decide (newCount > j)) in *.
  set (newProbability := if extra then NOT_A_PROBABILITY else probability) in *.
  apply bind_Done in Hrun as (b1 & A & H1 & Hrun).
  apply bind_Done in Hrun as (b2 & S2 & H2 & Hrun).
  apply bind_Done in Hrun as (b3 & E2 & H3 & Hrun).
  apply bind_Done in Hrun as (b4 & E3 & H4 & Hrun).
  apply bind_Done in Hrun as (b5 & r5 & H5 & Hrun).
  apply bind_Done in Hrun as (b6 & [] & H6 & Hrun).
  rewrite bind_current in Hrun.
  apply bind_Done in Hrun as (b7 & r7 & H7 & Hret). injection Hret as ->.
  (* the first part *)
  unfold writePtNodeToBuffer in H1.
  pose proof (writePtNodeWithFullInfoToBuffer_inside _ _ _ _ _ _ _ _ _ _ _ _ _ _ H1
                ltac:(lia) ltac:(lia) b_inside) as Hi1.
  apply writePtNodeWithFullInfoToBuffer_laid in H1 as (Hw1 & Ht1 & Hb1); [|done].
  pose proof (written_ge _ _ _ _ _ _ _ (proj1 Hw1)) as HA.
  set (flagsF := createAndGetFlags false false (bool_decide (newProbability ≠ _)) _ _ _ _)
    in Hw1.
  (* the size of the array *)
  unfold writePtNodeArraySizeAndAdvancePosition in H2.
  pose proof (writeField_inside _ _ _ _ _ H2 ltac:(lia) ltac:(lia) Hi1) as Hi2.
  apply writeField_append in H2 as (-> & Ht2 & Hc2); [|lia].
  (* the second part *)
  unfold writePtNodeToBufferByCopyingPtNodeInfo in H3.
  pose proof (writePtNodeWithFullInfoToBuffer_inside _ _ _ _ _ _ _ _ _ _ _ _ _ _ H3
                ltac:(lia) ltac:(lia) Hi2) as Hi3.
  apply writePtNodeWithFullInfoToBuffer_laid in H3 as (Hw3 & Ht3 & Hb3); [|lia].
  pose proof (written_ge _ _ _ _ _ _ _ (proj1 Hw3)) as HE2.
  set (flags2 := createAndGetFlags _ _ _ _ _ _ _) in Hw3.
  assert (Htake : take (Z.to_nat (getCodePointCount n - j))
                    (drop (Z.to_nat j) (codePointsOf b p))
                  = drop (Z.to_nat j) (codePointsOf b p)).
  { apply take_ge. rewrite length_drop. unfold getCodePointCount, codePointsAt. fold n.
    unfold countAt, getCodePointCount in Hj. fold n in Hj. lia. }
  rewrite Htake in Hw3.
  (* the PtNode of the rest of the word *)
  assert (H4' : tail b4 = E3 ∧ E2 <= E3 ∧ (∀ y, y < E2 → cells b4 !! y = cells b3 !! y)
                ∧ inside b4
                ∧ (if extra
                   then ∃ flags3,
                          laid b4 E2 E3 flags3
                            (take (Z.to_nat (newCount - j))
                               (drop (Z.to_nat j) newCodePoints))
                            probability NOT_A_DICT_POS
                          ∧ flagIsMoved flags3 = false
                   else E3 = E2)).
  { destruct extra.
    - unfold writePtNodeToBuffer in H4.
      pose proof (writePtNodeWithFullInfoToBuffer_inside _ _ _ _ _ _ _ _ _ _ _ _ _ _ H4
                    ltac:(lia) ltac:(lia) Hi3) as Hi4.
      apply writePtNodeWithFullInfoToBuffer_laid in H4 as (Hw4 & Ht4 & Hb4); [|lia].
      pose proof (written_ge _ _ _ _ _ _ _ (proj1 Hw4)).
      split; [done|]. split; [lia|]. split; [done|]. split; [done|].
      eexists. split; [exact Hw4|]. done.
    - injection H4 as <- <-. split; [done|]. split; [lia|]. done. }
  destruct H4' as (Ht4 & HE3 & Hb4 & Hi4 & Hw4). clear H4.
  (* the forward link *)
  unfold writeForwardLinkPositionAndAdvancePosition in H5.
  pose proof (writeField_inside _ _ _ _ _ H5 ltac:(lia) ltac:(lia) Hi4) as Hi5.
  apply writeField_append in H5 as (_ & Ht5 & Hc5); [|lia].
  assert (Hbelow5 : ∀ y, y < E3 → cells b5 !! y = cells b4 !! y)
    by (intros y Hy; by rewrite Hc5, lookup_insert_ne by lia).
  assert (Hbelow3 : ∀ y, y < A → cells b3 !! y = cells b1 !! y).
  { intros y Hy. rewrite Hb3 by lia. by rewrite Hc2, lookup_insert_ne by lia. }
  assert (Hw1_5 : laid b5 (tail b) A flagsF (take (Z.to_nat j) (codePointsOf b p))
                    newProbability NOT_A_DICT_POS).
  { apply (laid_ext b1); [done|]. intros y Hy.
    rewrite Hbelow5, Hb4 by lia. apply Hbelow3. lia. }
  assert (HA5 : cells b5 !! A = Some (FPtNodeArraySize (if extra then 2 else 1))).
  { rewrite Hbelow5, Hb4, Hb3 by lia. by rewrite Hc2, lookup_insert_eq. }
  assert (Hw3_5 : laid b5 (A + 1) E2 flags2 (drop (Z.to_nat j) (codePointsOf b p))
                    (getProbabilityOfNode n) (getChildrenPos n)).
  { apply (laid_ext b3); [done|]. intros y Hy.
    rewrite Hbelow5 by lia. apply Hb4. lia. }
  assert (Hw4_5 : if extra
                  then ∃ flags3,
                         laid b5 E2 E3 flags3
                           (take (Z.to_nat (newCount - j))
                              (drop (Z.to_nat j) newCodePoints))
                           probability NOT_A_DICT_POS
                         ∧ flagIsMoved flags3 = false
                  else E3 = E2).
  { destruct extra; [|done]. destruct Hw4 as (flags3 & Hw4 & Hm4).
    exists flags3. split; [|done]. apply (laid_ext b4); [done|].
    intros y Hy. apply Hbelow5. lia. }
  assert (HE5 : cells b5 !! E3 = Some (FForwardLinkPos NOT_A_DICT_POS))
    by (by rewrite Hc5, lookup_insert_eq).
  (* the marking *)
  destruct (written_read NOT_A_PROBABILITY _ _ _ _ _ _ _ (proj1 Hw1_5) eq_refl
              ltac:(lia) ltac:(lia)) as (HlandsF5 & _).
  destruct (markNodeAsMovedAndSetPosition_marking NOT_A_PROBABILITY NOT_A_VALID_WORD_POS
              NOT_A_VALID_WORD_POS_negative b q0 cf0 b_inside b_header Hin Hmoved
              moveFuel n (tail b) (A + 1) b5 b6 Hhead Hfield eq_refl)
    as (Hmarking & Ht6 & Hoffset & Hlinked & Hsame6); try done.
  { intros Hhas. by apply (b_childrenLaidOut p q0). }
  { lia. }
  { intros x Hx. rewrite Hbelow5, Hb4 by lia. rewrite Hbelow3 by lia. apply Hb1. lia. }
  { destruct Hw1_5 as ((-> & _) & _). done. }
  { lia. }
  { left. split; [done|lia]. }
  assert (Hw1_6 : laid b6 (tail b) A flagsF (take (Z.to_nat j) (codePointsOf b p))
                    newProbability NOT_A_DICT_POS).
  { apply (laid_sameOrOffset b5); [done|]. intros y Hy. apply Hsame6. lia. }
  destruct (written_read NOT_A_PROBABILITY _ _ _ _ _ _ _ (proj1 Hw1_6) eq_refl
              ltac:(lia) ltac:(lia)) as (HlandsF6 & _ & _ & HflagsF6 & _).
  destruct (fetchNode_fields NOT_A_PROBABILITY NOT_A_VALID_WORD_POS _ _ _ HlandsF6)
    as (_ & _ & _ & HfieldF & _).
  unfold childrenFieldOf in HfieldF. rewrite HflagsF6 in HfieldF.
  rewrite HfieldF in H7. unfold writeChildrenPositionAndAdvancePosition in H7.
  set (cfF := if flagIsTerminal flagsF then tail b + 3 + 1 else tail b + 3) in *.
  assert (HcfF : tail b + 3 <= cfF < A).
  { split; [unfold cfF; destruct (flagIsTerminal _); lia|].
    assert (A = cfF + 1); [|lia].
    destruct Hw1 as ((_ & _ & _ & _ & s & Hs & Hr) & _). simpl in Hs, Hr.
    rewrite Hr, Hs. unfold cfF, flagsF. done. }
  apply writeField_patch in H7 as (_ & Ht7 & Hc7 & _); [|lia].
  assert (Hkeep7 : ∀ y, y ≠ cfF → cells b' !! y = cells b6 !! y)
    by (intros y Hy; by rewrite Hc7, lookup_insert_ne).
  assert (Hframe : framed NOT_A_PROBABILITY (Some q0) (Some cf0) None None b b').
  { apply (marking_framed_after NOT_A_PROBABILITY b q0 cf0 b_inside Hin Hmoved b6 b');
      [done|intros x Hx; apply Hkeep7; lia|lia|].
    rewrite Hkeep7 by lia. destruct Hw1_6 as ((-> & _) & _). done. }
  assert (Hw1_7 : laid b' (tail b) A flagsF (take (Z.to_nat j) (codePointsOf b p))
                    newProbability A)
    by (by apply (laid_children b6 _ _ _ _ _ _ NOT_A_DICT_POS)).
  destruct (written_read NOT_A_PROBABILITY _ _ _ _ _ _ _ (proj1 Hw1_7) eq_refl
              ltac:(lia) ltac:(lia)) as (HlandsF7 & _).
  exists A, E2, E3, flagsF, flags2.
  split; [done|]. split.
  { assert (Hoff : getParentOffset b' (q0 + 1) = tail b - q0).
    { unfold getParentOffset. rewrite Hkeep7 by lia. by rewrite Hoffset. }
    apply lands_follow.
    - by apply (framed_nodeInside NOT_A_PROBABILITY _ _ _ _ _ _ Hframe).
    - destruct (framed_moved _ _ _ _ _ _ _ Hframe q0 eq_refl)
        as (_ & flags & _ & _ & Hcell).
      unfold getFlags. by rewrite Hcell.
    - lia.
    - rewrite Hoff. by replace (q0 + (tail b - q0)) with (tail b) by lia. }
  split; [done|]. split; [done|].
  split.
  { rewrite Hkeep7 by lia. apply (sameOrOffset_cell b5); [apply Hsame6; lia|done|done]. }
  split.
  { apply (laid_ext b6); [|intros y Hy; apply Hkeep7; lia].
    apply (laid_sameOrOffset b5); [done|]. intros y Hy. apply Hsame6. lia. }
  split; [done|].
  split.
  { destruct extra; [|done]. destruct Hw4_5 as (flags3 & Hw & Hm).
    exists flags3. split; [|done].
    apply (laid_ext b6); [|intros y Hy; apply Hkeep7; lia].
    apply (laid_sameOrOffset b5); [done|]. intros y Hy. apply Hsame6. lia. }
  split.
  { rewrite Hkeep7 by lia. apply (sameOrOffset_cell b5); [apply Hsame6; lia|done|done]. }
  lia.
Qed.

(** The buffer that is left has no field outside, and its fields below
    the tail of [b] are of the kind they were. *)
Hypothesis b'_inside : inside b'.
Hypothesis kinds : kindsFrom b b'.

Lemma kept_end moveFuel parentPos linkFieldPos matched :
  0 <= matched < length → endsChain b linkFieldPos →
  finalActionOf b moveFuel (AtEnd linkFieldPos matched) parentPos b = (b', Done tt) →
  wellFormedAt b' root.
Proof.
  intros Hmatched Hends Hrun.
  destruct (frame_end _ _ _ _ Hmatched Hends Hrun)
    as (r & Hframe & Hnew & Hoffset & Hlink' & Hpositive).
  destruct (newArray_read NOT_A_PROBABILITY NOT_A_VALID_WORD_POS _ _ _ _ _ Hnew
              ltac:(lia)) as (Harrays' & _).
  destruct (newArray_cells _ _ _ _ _ Hnew Hoffset b'_inside) as [Hflags Hchildren].
  apply (framed_wellFormed NOT_A_PROBABILITY NOT_A_VALID_WORD_POS None None
           (Some linkFieldPos) None b b' root Hframe); try done.
  - intros x [= <-]. split; [by destruct Hends|]. split; [done|by eexists].
  - intros x c Hx Hcell. left. by apply (Hchildren x c).
Qed.

Lemma kept_leaf moveFuel parentPos p q0 matched :
  0 <= matched < length → lands b p q0 →
  matched + countOf b p < length →
  finalActionOf b moveFuel (Leaf p matched) parentPos b = (b', Done tt) →
  wellFormedAt b' root.
Proof.
  intros Hmatched Hlands Hlen Hrun.
  destruct (frame_leaf _ _ _ _ _ Hmatched Hlands Hlen Hrun)
    as (r & Hframe & Hnew & Hoffset & Hchild & Hpositive).
  destruct (newArray_read NOT_A_PROBABILITY NOT_A_VALID_WORD_POS _ _ _ _ _ Hnew
              ltac:(lia)) as (Harrays' & _).
  destruct (newArray_cells _ _ _ _ _ Hnew Hoffset b'_inside) as [Hflags Hchildren].
  apply (framed_wellFormed NOT_A_PROBABILITY NOT_A_VALID_WORD_POS None
           (Some (childrenFieldOf b q0)) None None b b' root Hframe); try done.
  - intros x c Hx Hcell. left. by apply (Hchildren x c).
  - intros x [= <-]. left. rewrite Hchild. eauto.
Qed.

Lemma kept_terminal moveFuel parentPos p q0 matched :
  lands b p q0 → isTerminal (fetchNode b p) = true →
  finalActionOf b moveFuel (Exact p matched) parentPos b = (b', Done tt) →
  wellFormedAt b' root.
Proof.
  intros Hlands Hterminal Hrun.
  destruct (frame_terminal _ _ _ _ _ Hlands Hterminal Hrun) as [Hframe Htail].
  apply (framed_wellFormed NOT_A_PROBABILITY NOT_A_VALID_WORD_POS None None None
           (Some (q0 + 3)) b b' root Hframe); try done.
  - intros x flags Hx Hcell. rewrite b'_inside in Hcell by (right; lia). done.
  - intros x c Hx Hcell. rewrite b'_inside in Hcell by (right; lia). done.
Qed.

Lemma kept_moved moveFuel parentPos p q0 matched :
  lands b p q0 → isTerminal (fetchNode b p) = false →
  finalActionOf b moveFuel (Exact p matched) parentPos b = (b', Done tt) →
  wellFormedAt b' root.
Proof.
  intros Hlands Hterminal Hrun.
  pose proof b_wellFormed as (_ & _ & _ & b_childrenLaidOut & _).
  destruct (lands_last _ _ _ Hlands) as (Hin & _).
  destruct (frame_moved _ _ _ _ _ Hlands Hterminal Hrun)
    as (r & flags & Hframe & HlandsQ & Hlaid & _ & Htail).
  destruct (laid_cells _ _ _ _ _ _ _ Hlaid) as [Hflags Hchildren].
  apply (framed_wellFormed NOT_A_PROBABILITY NOT_A_VALID_WORD_POS (Some q0)
           (Some (childrenFieldOf b q0)) None None b b' root Hframe); try done.
  - intros x [= <-]. by exists (tail b).
  - intros x fl Hx Hcell. destruct (decide (x < r)) as [Hlt|Hge].
    + rewrite (Hflags x fl ltac:(lia) Hcell). by destruct Hlaid as [_ ?].
    + rewrite b'_inside in Hcell by (right; lia). done.
  - intros x c Hx Hcell. destruct (decide (x < r)) as [Hlt|Hge].
    + rewrite (Hchildren x c ltac:(lia) Hcell).
      destruct (decide (getChildrenPos (fetchNode b p) = NOT_A_DICT_POS))
        as [Hnone|Hsome]; [by left|right; left].
      apply (b_childrenLaidOut p q0 Hlands). unfold hasChildren.
      by apply bool_decide_eq_true_2.
    + rewrite b'_inside in Hcell by (right; lia). done.
  - intros x [= <-]. right. by exists q0.
Qed.

(** reallocatePtNodeAndAddNewPtNodes *)
Lemma kept_split moveFuel parentPos p q0 matched j :
  lands b p q0 → 1 <= j < countOf b p →
  finalActionOf b moveFuel (Split p matched j) parentPos b = (b', Done tt) →
  wellFormedAt b' root.
Proof.
  intros Hlands Hj Hrun. simpl in Hrun.
  pose proof b_wellFormed as (b_inside & b_header & b_layout & b_childrenLaidOut & _).
  pose proof (wellFormed_tail _ _ b_wellFormed) as Hpositive.
  destruct (lands_last _ _ _ Hlands) as (Hin & Hmoved & _).
  destruct (reallocatePtNodeAndAddNewPtNodes_laid _ _ _ _ _ _ Hlands Hj Hrun)
    as (A & E2 & E3 & flagsF & flags2 & Hframe & HlandsQ & HwF & HmF & HA & Hw2 & Hm2
        & Hw3 & HE3 & Htail').
  clear Hrun.
  set (n := fetchNode b p) in *.
  set (extra := bool_decide (length - matched > j)) in *.
  pose proof (written_ge _ _ _ _ _ _ _ (proj1 HwF)) as HAF.
  pose proof (written_ge _ _ _ _ _ _ _ (proj1 Hw2)) as HE2.
  assert (HE3' : E2 <= E3).
  { destruct extra; [|lia]. destruct Hw3 as (? & Hw3 & _).
    pose proof (written_ge _ _ _ _ _ _ _ (proj1 Hw3)). lia. }
  destruct (written_read NOT_A_PROBABILITY _ _ _ _ _ _ _ (proj1 Hw2) Hm2 ltac:(lia)
              ltac:(lia)) as (Hlands2 & Hend2 & _).
  destruct (laid_cells _ _ _ _ _ _ _ HwF) as [HflagsF HchildrenF].
  destruct (laid_cells _ _ _ _ _ _ _ Hw2) as [Hflags2 Hchildren2].
  (* the array of the second part *)
  assert (Harray : ∃ slots linkFieldPos, arraysOf b' A slots linkFieldPos).
  { destruct extra eqn:Hextra.
    - destruct Hw3 as (flags3 & Hw3 & Hm3).
      destruct (written_read NOT_A_PROBABILITY _ _ _ _ _ _ _ (proj1 Hw3) Hm3 ltac:(lia)
                  ltac:(lia)) as (Hlands3 & Hend3 & _).
      exists [A + 1; E2], E3. apply arrays_last.
      + lia.
      + unfold getPtNodeArraySize. by rewrite HA.
      + split; [done|]. split; [by exists (A + 1)|]. rewrite Hend2.
        split; [done|]. split; [by exists E2|]. rewrite Hend3. done.
      + lia.
      + unfold getForwardLinkPosition. by rewrite HE3.
    - subst E3. exists [A + 1], E2. apply arrays_last.
      + lia.
      + unfold getPtNodeArraySize. by rewrite HA.
      + split; [done|]. split; [by exists (A + 1)|]. rewrite Hend2. done.
      + lia.
      + unfold getForwardLinkPosition. by rewrite HE3. }
  assert (Hthird : ∀ x, E2 <= x < E3 →
            (∀ flags, cells b' !! x = Some (FFlags flags) →
               ∃ offset, cells b' !! (x + 1) = Some (FParentOffset offset))
            ∧ (∀ c, cells b' !! x = Some (FChildrenPos c) → c = NOT_A_DICT_POS)).
  { intros x Hx. destruct extra; [|lia]. destruct Hw3 as (flags3 & Hw3 & _).
    destruct (laid_cells _ _ _ _ _ _ _ Hw3) as [Hflags3 Hchildren3].
    split.
    - intros flags Hcell. rewrite (Hflags3 x flags Hx Hcell). by destruct Hw3 as [_ ?].
    - intros c Hcell. by apply (Hchildren3 x c Hx). }
  assert (Hregion : ∀ x, tail b <= x →
            tail b <= x < A ∨ x = A ∨ A + 1 <= x < E2 ∨ E2 <= x < E3 ∨ x = E3
            ∨ tail b' <= x) by (intros x Hx; lia).
  apply (framed_wellFormed NOT_A_PROBABILITY NOT_A_VALID_WORD_POS (Some q0)
           (Some (childrenFieldOf b q0)) None None b b' root Hframe); try done.
  - intros x [= <-]. by exists (tail b).
  - intros x flags Hx Hcell.
    destruct (Hregion x Hx) as [Hin1|[->|[Hin2|[Hin3|[->|Hout]]]]].
    + rewrite (HflagsF x flags Hin1 Hcell). by destruct HwF as [_ ?].
    + congruence.
    + rewrite (Hflags2 x flags Hin2 Hcell). by destruct Hw2 as [_ ?].
    + by apply (proj1 (Hthird x Hin3) flags).
    + congruence.
    + rewrite b'_inside in Hcell by (by right). done.
  - intros x c Hx Hcell.
    destruct (Hregion x Hx) as [Hin1|[->|[Hin2|[Hin3|[->|Hout]]]]].
    + rewrite (HchildrenF x c Hin1 Hcell). by right; right.
    + congruence.
    + rewrite (Hchildren2 x c Hin2 Hcell).
      destruct (decide (getChildrenPos n = NOT_A_DICT_POS)) as [Hnone|Hsome];
        [by left|right; left].
      apply (b_childrenLaidOut p q0 Hlands). unfold hasChildren. fold n.
      by apply bool_decide_eq_true_2.
    + left. by apply (proj2 (Hthird x Hin3) c).
    + congruence.
    + rewrite b'_inside in Hcell by (by right). done.
  - intros x [= <-]. right. by exists q0.
Qed.

(** Whatever [addUnigramWord] does where the path stops, the dictionary
    stays well-formed. *)
Lemma finalAction_wellFormed moveFuel parentPos final :
  finalFacts NOT_A_PROBABILITY NOT_A_VALID_WORD_POS word length b final →
  finalActionOf b moveFuel final parentPos b = (b', Done tt) →
  wellFormedAt b' root.
Proof.
  destruct final as [linkFieldPos matched|p matched j|p matched|p matched];
    simpl finalFacts.
  - intros [Hmatched Hends] Hrun. by apply (kept_end moveFuel parentPos linkFieldPos matched).
  - intros (Hmatched & [q Hq] & Hfirst & Hj & Hbefore & Hat) Hrun.
    by apply (kept_split moveFuel parentPos p q matched j).
  - intros (Hmatched & [q Hq] & Hfirst & Hall & Hlen) Hrun.
    destruct (isTerminal (fetchNode b p)) eqn:Hterminal.
    + by apply (kept_terminal moveFuel parentPos p q matched).
    + by apply (kept_moved moveFuel parentPos p q matched).
  - intros (Hmatched & [q Hq] & Hfirst & Hall & Hlen & Hchildren) Hrun.
    by apply (kept_leaf moveFuel parentPos p q matched).
Qed.

End KeptCases.

(** The buffer a writer leaves from a well-formed dictionary has no field
    outside, and its fields below the old tail are of the kind they
    were. *)
Lemma wellFormed_run {A} (NOT_A_PROBABILITY NOT_A_VALID_WORD_POS : Z) (m : Write A)
    (b b' : Buffer) (root : Z) (r : Outcome A) :
  wellFormed NOT_A_PROBABILITY NOT_A_VALID_WORD_POS b root →
  always insideFrom m → always (kindsFrom b) m → m b = (b', r) →
  inside b' ∧ kindsFrom b b'.
Proof.
  intros Hwf Hinside Hkinds Hrun.
  pose proof (wellFormed_tail _ _ _ _ Hwf) as Htail.
  destruct Hwf as (Hin & _). split.
  - assert (H : insideFrom b'); [|by destruct H].
    apply (always_run _ m b b' r); [done| |done]. split; [lia|done].
  - apply (always_run _ m b b' r); [done|apply kindsFrom_refl|done].
Qed.

(** X16.  [addUnigramWord] keeps a dictionary well-formed: when it returns
    true for a word of at least one code point on a well-formed dictionary,
    the dictionary it leaves is well-formed, with the same root. *)
Theorem addUnigramWord_keeps_wellFormed (NOT_A_PROBABILITY NOT_A_VALID_WORD_POS : Z)
    (fuel : nat) (policy : Policy) (word : list Z) (length probability : Z)
    (b b' : Buffer) :
  wellFormed NOT_A_PROBABILITY NOT_A_VALID_WORD_POS b (getRootPosition policy) →
  NOT_A_VALID_WORD_POS < 0 →
  1 <= length → length <= Z.of_nat (List.length word) →
  addUnigramWord NOT_A_PROBABILITY NOT_A_VALID_WORD_POS fuel policy word length
    probability b = (b', Done tt) →
  wellFormed NOT_A_PROBABILITY NOT_A_VALID_WORD_POS b' (getRootPosition policy).
Proof.
  intros Hwf Hnegative Hlength Hword Hrun.
  destruct (wellFormed_run _ _ _ _ _ _ _ Hwf
              (always_addUnigramWord _ insideFrom_write _ _ _ _ _ _ _)
              (always_addUnigramWord _ (kindsFrom_write b) _ _ _ _ _ _ _) Hrun)
    as [Hinside' Hkinds].
  pose proof Hwf as (_ & _ & _ & Hchildren & slots & linkFieldPos & Harrays).
  unfold addUnigramWord in Hrun.
  destruct (isUpdatable policy); [|done]. cbn [negb] in Hrun.
  rewrite bind_current in Hrun.
  pose proof (arrays_inside _ _ _ _ _ Harrays) as Hroot.
  rewrite initWithNodeArrayPos_enter in Hrun by lia.
  set (rh0 := mkReadingHelper false (getRootPosition policy) 0 0 NOT_A_DICT_POS
                (invalidPtNodeInfo NOT_A_PROBABILITY NOT_A_VALID_WORD_POS)) in *.
  destruct (arrays_siblingsFrom NOT_A_PROBABILITY NOT_A_VALID_WORD_POS _ _ _ _ Harrays
              (Z.to_nat (tail b)) rh0 ltac:(lia)) as (e & Hsib & Hlink & _).
  assert (Hprev : mPrevTotalCodePointCount
                    (fetchUnlessEnd NOT_A_PROBABILITY NOT_A_VALID_WORD_POS b
                       (enterNodeArray (Z.to_nat (tail b)) b rh0
                          (getRootPosition policy))) = 0)
    by (by rewrite fetchUnlessEnd_prevTotal, enterNodeArray_prevTotal).
  unfold addUnigramWordOfHelper in Hrun.
  destruct (addUnigramWordLoop_path NOT_A_PROBABILITY NOT_A_VALID_WORD_POS word length
              probability b Hchildren fuel fuel b' _ _ _ linkFieldPos _ Hsib Hlink
              ltac:(rewrite Hprev; lia) Hrun)
    as (n & final & parentPos' & Hlevel & _ & Haction).
  rewrite Hprev in Hlevel.
  pose proof (addLevel_finalFacts _ _ _ _ b _ _ _ _ _ Hlevel
                (arrays_endsChain _ b _ _ _ Harrays) ltac:(lia)) as Hfacts.
  by apply (finalAction_wellFormed NOT_A_PROBABILITY NOT_A_VALID_WORD_POS Hnegative word
              length probability Hword b b' (getRootPosition policy) Hwf Hinside' Hkinds
              fuel parentPos' final).
Qed.

(** The theorem for [addUnigramWord(car, 180)] on the dictionary that holds
    [cat], which splits the PtNode of [cat]. *)
Lemma addUnigramWord_keeps_wellFormed_witness :
  wellFormed (-1) (-99) exampleTrieWithCar (getRootPosition examplePolicy).
Proof.
  apply (addUnigramWord_keeps_wellFormed (-1) (-99) 100 examplePolicy exampleCar 3 180
           exampleTrieWithCat exampleTrieWithCar);
    [exact exampleTrieWithCat_wellFormed|lia|lia|simpl; lia|vm_compute; reflexivity].
Defined.

(** X17.  [addBigramWords] keeps a dictionary well-formed: when it returns
    true on a well-formed dictionary, the dictionary it leaves, in which the
    PtNode of the first word is moved to the tail, is well-formed, with the
    same root. *)
Theorem addBigramWords_keeps_wellFormed (NOT_A_PROBABILITY NOT_A_VALID_WORD_POS : Z)
    (fuel : nat) (policy : Policy) (word0 : list Z) (length0 : Z) (word1 : list Z)
    (length1 probability : Z) (b b' : Buffer) :
  wellFormed NOT_A_PROBABILITY NOT_A_VALID_WORD_POS b (getRootPosition policy) →
  NOT_A_VALID_WORD_POS < 0 → length0 <= Z.of_nat (List.length word0) →
  addBigramWords NOT_A_PROBABILITY NOT_A_VALID_WORD_POS fuel policy word0 length0 word1
    length1 probability b = (b', Done tt) →
  wellFormed NOT_A_PROBABILITY NOT_A_VALID_WORD_POS b' (getRootPosition policy).
Proof.
  intros Hwf Hnegative Hlength Hrun.
  destruct (wellFormed_run _ _ _ _ _ _ _ Hwf
              (always_addBigramWords _ insideFrom_write _ _ _ _ _ _ _ _ _)
              (always_addBigramWords _ (kindsFrom_write b) _ _ _ _ _ _ _ _ _) Hrun)
    as [Hinside' Hkinds].
  unfold addBigramWords in Hrun.
  destruct (isUpdatable policy); [|done]. cbn [negb] in Hrun.
  unfold bind at 1, lookupWord at 1 in Hrun.
  destruct (getTerminalNodePositionOfWord _ _ _ fuel policy b word0 length0 false)
    as [word0Pos| |] eqn:H0; [|done|done].
  destruct (decide (word0Pos = NOT_A_VALID_WORD_POS)) as [|Hpos0]; [done|].
  unfold bind at 1, lookupWord at 1 in Hrun.
  destruct (getTerminalNodePositionOfWord _ _ _ fuel policy b word1 length1 false)
    as [word1Pos| |] eqn:H1; [|done|done].
  destruct (decide (word1Pos = NOT_A_VALID_WORD_POS)) as [|Hpos1]; [done|].
  destruct (getTerminalNodePositionOfWord_found _ _ _ _ _ _ _ _ _ _ Hwf Hlength H0 Hpos0)
    as (slots & linkFieldPos & _ & Hspells).
  destruct (spells_lands _ _ _ _ _ _ Hspells) as [p Hlands].
  destruct (lands_last _ _ _ Hlands) as (Hin & Hmoved & _).
  pose proof Hwf as (Hinside & Hheader & _ & Hchildren & _).
  assert (Hlaid_out : hasChildren
                        (fetchNodeInfoFromBuffer NOT_A_PROBABILITY NOT_A_VALID_WORD_POS
                           b word0Pos) = true →
            ∃ slots0 last,
              arrays NOT_A_PROBABILITY b
                (getChildrenPos
                   (fetchNodeInfoFromBuffer NOT_A_PROBABILITY NOT_A_VALID_WORD_POS b
                      word0Pos)) slots0 last).
  { intros Hhas. apply (Hchildren word0Pos word0Pos); [by apply lands_stop|done]. }
  destruct (addBigramWordsOfHelper_copy NOT_A_PROBABILITY NOT_A_VALID_WORD_POS
              Hnegative fuel word0Pos word1Pos probability b b' Hinside Hheader Hin
              Hmoved Hlaid_out Hrun)
    as (flags' & r' & y & hasNext & codePoints & Hlaid & _ & _ & _ & Hr' & _ & _
        & Hframe & HlandsQ & _).
  destruct (laid_cells _ _ _ _ _ _ _ Hlaid) as [Hflags Hchildren'].
  apply (framed_wellFormed NOT_A_PROBABILITY NOT_A_VALID_WORD_POS (Some word0Pos)
           (Some (childrenFieldOf b word0Pos)) None None b b' (getRootPosition policy)
           Hframe); try done.
  - intros x [= <-]. by exists (tail b).
  - intros x flags Hx Hcell. destruct (decide (x < r')) as [Hlt|Hge].
    + rewrite (Hflags x flags ltac:(lia) Hcell). by destruct Hlaid as [_ ?].
    + rewrite Hinside' in Hcell by (right; lia). done.
  - intros x c Hx Hcell. destruct (decide (x < r')) as [Hlt|Hge].
    + rewrite (Hchildren' x c ltac:(lia) Hcell).
      destruct (decide (getChildrenPos
                          (fetchNodeInfoFromBuffer NOT_A_PROBABILITY
                             NOT_A_VALID_WORD_POS b word0Pos) = NOT_A_DICT_POS))
        as [Hnone|Hsome]; [by left|right; left].
      apply Hlaid_out. unfold hasChildren. by apply bool_decide_eq_true_2.
    + rewrite Hinside' in Hcell by (right; lia). done.
  - intros x [= <-]. right. by exists word0Pos.
Qed.

(** The theorem for [addBigramWords(cat, car, 5)] on the dictionary that
    holds [cat] and [car]. *)
Lemma addBigramWords_keeps_wellFormed_witness :
  wellFormed (-1) (-99) exampleTrieWithBigram (getRootPosition examplePolicy).
Proof.
  apply (addBigramWords_keeps_wellFormed (-1) (-99) 100 examplePolicy exampleCat 3
           exampleCar 3 5 exampleTrieWithCar exampleTrieWithBigram);
    [exact exampleTrieWithCar_wellFormed|lia|simpl; lia|vm_compute; reflexivity].
Defined.

(** ** The words that are found stay found *)

Section Looks.

Variable NOT_A_PROBABILITY : Z.
Variable NOT_A_VALID_WORD_POS : Z.

(** The code points that are looked up, and their count. *)
Variable searched : list Z.
Variable count : Z.

Abbreviation fetchNode := (fetchNodeInfoFromBuffer NOT_A_PROBABILITY NOT_A_VALID_WORD_POS).
Abbreviation nextSibling := (readNextSiblingNode NOT_A_PROBABILITY NOT_A_VALID_WORD_POS).
Abbreviation fetchFrom := (fetchUnlessEnd NOT_A_PROBABILITY NOT_A_VALID_WORD_POS).
Abbreviation siblingsOf := (siblings NOT_A_PROBABILITY NOT_A_VALID_WORD_POS).
Abbreviation arraysOf := (arrays NOT_A_PROBABILITY).
Abbreviation lookup := (lookupLoop NOT_A_PROBABILITY NOT_A_VALID_WORD_POS).
Abbreviation codePointsOf := (codePointsAt NOT_A_PROBABILITY NOT_A_VALID_WORD_POS).
Abbreviation countOf := (countAt NOT_A_PROBABILITY NOT_A_VALID_WORD_POS).
Abbreviation matchesOf := (matches searched).
Abbreviation matchesAllOf :=
  (matchesAll NOT_A_PROBABILITY NOT_A_VALID_WORD_POS searched count).
Abbreviation looksAt :=
  (looksAtIn NOT_A_PROBABILITY NOT_A_VALID_WORD_POS searched count).
Abbreviation looksFrom :=
  (looksFromIn NOT_A_PROBABILITY NOT_A_VALID_WORD_POS searched count).

(** The first code point of the PtNode read from [p]. *)
Definition firstCodePoint (b : Buffer) (p : Z) : option Z := codePointsOf b p !! 0%nat.

(** The PtNodes of a chain of PtNode arrays begin with different code
    points. *)
Definition siblingsDistinct (b : Buffer) : Prop :=
  ∀ a slots linkFieldPos, arraysOf b a slots linkFieldPos →
    NoDup (firstCodePoint b <$> slots).

(** The path of a lookup that finds [r], through the siblings [slots] with
    [matched] code points matched before, in [n] steps: siblings that begin
    with another code point are passed, and so are, when [lax] is set,
    siblings with more code points than are left; the PtNode whose code
    points end the searched ones is found, and the lookup goes on in the
    children of a PtNode whose code points are matched. *)
Inductive looks (lax : bool) (b : Buffer) : Z → list Z → nat → Z → Prop :=
| looks_skip matched p rest n r :
    (∃ q, lands b p q) →
    ¬ matchesOf (codePointsOf b p) matched 0 →
    looks lax b matched rest n r →
    looks lax b matched (p :: rest) (S n) r
| looks_long matched p rest n r :
    lax = true →
    (∃ q, lands b p q) →
    matched + countOf b p > count →
    looks lax b matched rest n r →
    looks lax b matched (p :: rest) (S n) r
| looks_found matched p rest :
    (∃ q, lands b p q) →
    matchesOf (codePointsOf b p) matched 0 → matchesAllOf b p matched →
    count = matched + countOf b p →
    looks lax b matched (p :: rest) 1 (getHeadPos (fetchNode b p))
| looks_descend matched p rest slots linkFieldPos n r :
    (∃ q, lands b p q) →
    matchesOf (codePointsOf b p) matched 0 → matchesAllOf b p matched →
    matched + countOf b p < count →
    hasChildren (fetchNode b p) = true →
    arraysOf b (getChildrenPos (fetchNode b p)) slots linkFieldPos →
    looks lax b (matched + countOf b p) slots n r →
    looks lax b matched (p :: rest) (S n) r.

(** The lookup passes a PtNode with more code points than are left. *)
Lemma lookupLoop_long fuel b s :
  mPos s ≠ NOT_A_DICT_POS → getTotalCodePointCount s > count →
  lookup (S fuel) b s searched count = lookup fuel b (nextSibling b s) searched count.
Proof.
  intros Hnotend Hlong. cbn [lookupLoop]. rewrite isEnd_false by done.
  by rewrite (bool_decide_eq_true_2 _ Hlong).
Qed.

(** The PtNode a lookup finds ends the code points searched for. *)
Lemma looks_ends lax b matched slots n r :
  looks lax b matched slots n r → 0 <= matched →
  ∃ p matched', lands b p r ∧ 0 <= matched' ∧ count = matched' + countOf b p.
Proof.
  induction 1 as [matched p rest n r _ _ _ IH
                 |matched p rest n r _ _ _ _ IH
                 |matched p rest [q Hq] _ _ Hlen
                 |matched p rest slots linkFieldPos n r _ _ _ _ _ _ _ IH];
    intros Hmatched; try (by apply IH).
  - exists p, matched.
    destruct (fetchNode_fields NOT_A_PROBABILITY NOT_A_VALID_WORD_POS _ _ _ Hq)
      as (-> & _).
    done.
  - apply IH. unfold countAt, getCodePointCount. lia.
Qed.

(** Past siblings that all begin with another code point the lookup finds
    nothing. *)
Lemma lookupLoop_none b s slots e :
  siblingsOf b s slots e →
  (∀ p, p ∈ slots →
     ¬ matchesOf (codePointsOf b p) (mPrevTotalCodePointCount s) 0) →
  ∀ fuel pos, lookup fuel b s searched count = Done pos → pos = NOT_A_VALID_WORD_POS.
Proof.
  induction 1 as [e Hisend|s p rest e Hnotend Hnode Hq Hsib IH]; intros Hnone fuel pos Hrun.
  - assert (Hend : isEnd e = true) by (by apply bool_decide_eq_true_2).
    destruct fuel; cbn [lookupLoop] in Hrun; rewrite Hend in Hrun; congruence.
  - destruct fuel as [|fuel];
      [cbn [lookupLoop] in Hrun; by rewrite isEnd_false in Hrun by done|].
    rewrite lookupLoop_skip in Hrun;
      [|done|rewrite Hnode; apply Hnone; by left].
    apply (IH ltac:(intros p' Hp'; rewrite readNextSiblingNode_prevTotal;
                    apply Hnone; by right) fuel pos Hrun).
Qed.

(** The path of a lookup that finds a PtNode. *)
Lemma lookupLoop_looks lax b :
  childrenLaidOut NOT_A_PROBABILITY NOT_A_VALID_WORD_POS b →
  (lax = false → siblingsDistinct b) →
  ∀ fuel s slots e pos,
    siblingsOf b s slots e → (lax = false → NoDup (firstCodePoint b <$> slots)) →
    lookup fuel b s searched count = Done pos → pos ≠ NOT_A_VALID_WORD_POS →
    ∃ n, (n ≤ fuel)%nat ∧ looks lax b (mPrevTotalCodePointCount s) slots n pos.
Proof.
  intros Hchildren Hdistinct.
  assert (Hend : ∀ fuel' e pos,
    mPos e = NOT_A_DICT_POS → lookup fuel' b e searched count = Done pos →
    pos = NOT_A_VALID_WORD_POS).
  { intros fuel' e pos Hisend Hrun.
    assert (Hend : isEnd e = true) by (by apply bool_decide_eq_true_2).
    destruct fuel'; cbn [lookupLoop] in Hrun; rewrite Hend in Hrun; congruence. }
  induction fuel as [|fuel IH]; intros s slots e pos Hsib Hnodup Hrun Hpos;
    (destruct Hsib as [e Hisend|s p rest e Hnotend Hnode [q Hq] Hsib];
       [by destruct (Hpos (Hend _ _ _ Hisend Hrun))|]);
    [cbn [lookupLoop] in Hrun; by rewrite isEnd_false in Hrun by done|].
  set (matched := mPrevTotalCodePointCount s) in *.
  assert (Hcps : mCodePoints (mNodeReader s) = codePointsOf b p)
    by (unfold codePointsAt; by rewrite Hnode).
  assert (Hnodup' : lax = false → NoDup (firstCodePoint b <$> rest)).
  { intros Hlax. specialize (Hnodup Hlax). rewrite fmap_cons in Hnodup.
    by apply NoDup_cons in Hnodup as [_ ?]. }
  destruct (decide (matchesOf (codePointsOf b p) matched 0)) as [Hfirst|Hfirst].
  2:{ (* the next sibling *)
    rewrite lookupLoop_skip in Hrun by (done || by rewrite Hcps).
    destruct (IH _ _ e pos Hsib Hnodup' Hrun Hpos) as (n & Hn & Hlooks).
    rewrite readNextSiblingNode_prevTotal in Hlooks.
    exists (S n). split; [lia|]. apply looks_skip; eauto. }
  assert (Hothers : lax = false →
            ∀ p', p' ∈ rest → ¬ matchesOf (codePointsOf b p') matched 0).
  { intros Hlax p' Hp' [_ Hmatch]. specialize (Hnodup Hlax).
    rewrite fmap_cons in Hnodup. apply NoDup_cons in Hnodup as [Hfresh _].
    apply Hfresh.
    apply (list_elem_of_fmap_2' _ _ p'); [done|]. unfold firstCodePoint.
    destruct Hfirst as [_ Hfirst]. change (Z.to_nat 0) with 0%nat in *.
    by rewrite Hfirst, Hmatch. }
  cbn [lookupLoop] in Hrun. rewrite isEnd_false in Hrun by done.
  unfold getPrevTotalCodePointCount, getNodeReader in Hrun. fold matched in Hrun.
  rewrite isMatchedCodePoint_first in Hrun. rewrite Hcps in Hrun.
  rewrite (bool_decide_eq_true_2 _ Hfirst) in Hrun. cbn [negb] in Hrun.
  rewrite orb_false_r in Hrun.
  assert (Htotal : getTotalCodePointCount s = matched + countOf b p)
    by (unfold getTotalCodePointCount, countAt; by rewrite Hnode).
  rewrite Htotal in Hrun.
  destruct (bool_decide (matched + countOf b p > count)) eqn:Hlong.
  { apply bool_decide_eq_true in Hlong. cbn [orb] in Hrun.
    destruct lax eqn:Hlax.
    - (* a longer PtNode: the next sibling *)
      destruct (IH _ _ e pos Hsib Hnodup' Hrun Hpos) as (n & Hn & Hlooks).
      rewrite readNextSiblingNode_prevTotal in Hlooks.
      exists (S n). split; [lia|]. apply looks_long; eauto.
    - (* a longer PtNode that begins with the code point: no sibling does *)
      exfalso. apply Hpos.
      apply (lookupLoop_none b _ rest e Hsib) with (fuel := fuel); [|exact Hrun].
      intros p' Hp'. rewrite readNextSiblingNode_prevTotal. by apply Hothers. }
  apply bool_decide_eq_false in Hlong.
  destruct (mismatchFrom _ s searched matched 1) eqn:Hmismatch; [congruence|].
  pose proof (mismatchFrom_matches _ _ _ _ _ Hmismatch) as Hrest. rewrite Hcps in Hrest.
  assert (Hcount : getCodePointCount (mNodeReader s) = countOf b p)
    by (unfold countAt; by rewrite Hnode).
  rewrite Hcount in Hrest.
  assert (Hall : matchesAllOf b p matched).
  { intros j Hj. split; [lia|]. apply Hrest. lia. }
  destruct (decide (count = matched + countOf b p)) as [Hlen|Hlen].
  { injection Hrun as <-. rewrite Hnode. exists 1%nat. split; [lia|].
    apply looks_found; eauto. }
  rewrite Hnode in Hrun.
  destruct (hasChildren (fetchNode b p)) eqn:Hhas; cbn [negb] in Hrun; [|congruence].
  destruct (Hchildren p q Hq Hhas) as (children & linkFieldPos & Harrays).
  pose proof (arrays_inside _ _ _ _ _ Harrays) as Hin.
  set (child := mkReadingHelper (mIsError s) (getChildrenPos (fetchNode b p)) 0
                  (matched + countOf b p) NOT_A_DICT_POS (fetchNode b p)).
  assert (Hchild : readChildNode NOT_A_PROBABILITY NOT_A_VALID_WORD_POS b s
                   = fetchFrom b (enterNodeArray (Z.to_nat (tail b)) b child
                                    (getChildrenPos (fetchNode b p)))).
  { unfold readChildNode. rewrite Hnode, Hhas. unfold nextNodeArray. simpl.
    unfold child, countAt. done. }
  destruct (arrays_siblingsFrom NOT_A_PROBABILITY NOT_A_VALID_WORD_POS _ _ _ _ Harrays
              (Z.to_nat (tail b)) child ltac:(lia)) as (e' & Hsib' & _).
  rewrite <- Hchild in Hsib'.
  assert (Hprev : mPrevTotalCodePointCount
                    (readChildNode NOT_A_PROBABILITY NOT_A_VALID_WORD_POS b s)
                  = matched + countOf b p).
  { rewrite Hchild, fetchUnlessEnd_prevTotal, enterNodeArray_prevTotal. done. }
  destruct (IH _ _ _ pos Hsib' (λ Hlax, Hdistinct Hlax _ _ _ Harrays) Hrun Hpos)
    as (n & Hn & Hlooks).
  rewrite Hprev in Hlooks.
  exists (S n). split; [lia|]. eapply looks_descend; eauto. lia.
Qed.

(** *** The lookup in the buffer that is left *)

(** [b'] finds what [b] finds, with [n] units of fuel twice: the chains of
    PtNode arrays of [b] are chains of [b'], at most longer, and wherever a
    lookup in [b] finds a PtNode at [r] through the siblings [slots], the
    lookup in [b'] through these siblings, and others after them, finds one
    at a position [r'] with [found r r']. *)
Definition stays (lax : bool) (found : Z → Z → Prop) (b b' : Buffer) : Prop :=
  (∀ a slots linkFieldPos, arraysOf b a slots linkFieldPos →
     ∃ more linkFieldPos', arraysOf b' a (slots ++ more) linkFieldPos')
  ∧ ∀ matched slots n r, looks lax b matched slots n r →
      ∃ r', found r r'
        ∧ ∀ more s e fuel,
            siblingsOf b' s (slots ++ more) e →
            mPrevTotalCodePointCount s = matched → (2 * n ≤ fuel)%nat →
            lookup fuel b' s searched count = Done r'.

(** The position found is the same, or is in what is appended at [tail]. *)
Definition keptOrNew (tail r r' : Z) : Prop := r' = r ∨ tail <= r'.

Section Stays.

Variable lax : bool.
Variable found : Z → Z → Prop.
Variables b b' : Buffer.

Hypothesis arrays_kept :
  ∀ a slots linkFieldPos, arraysOf b a slots linkFieldPos →
    ∃ more linkFieldPos', arraysOf b' a (slots ++ more) linkFieldPos'.

Hypothesis first_kept :
  ∀ p q, lands b p q → codePointsOf b' p !! 0%nat = codePointsOf b p !! 0%nat.

Hypothesis count_kept :
  lax = true → ∀ p q, lands b p q → countOf b' p = countOf b p.

Hypothesis descend_kept :
  ∀ p q matched k r,
    lands b p q →
    matchesOf (codePointsOf b p) matched 0 → matchesAllOf b p matched →
    matched + countOf b p < count →
    hasChildren (fetchNode b p) = true →
    0 < getChildrenPos (fetchNode b p) →
    looksFrom b' (getChildrenPos (fetchNode b p)) (matched + countOf b p) k r →
    looksAt b' p matched (k + 2) r.

Hypothesis found_kept :
  ∀ p q matched,
    lands b p q →
    matchesOf (codePointsOf b p) matched 0 → matchesAllOf b p matched →
    count = matched + countOf b p →
    ∃ r, found (getHeadPos (fetchNode b p)) r ∧ looksAt b' p matched 2 r.

Lemma looks_stays : stays lax found b b'.
Proof.
  split; [exact arrays_kept|]. intros matched slots n r.
  induction 1 as [matched p rest n r [q Hq] Hfirst Hlooks IH
                 |matched p rest n r Hlax [q Hq] Hlong Hlooks IH
                 |matched p rest [q Hq] Hfirst Hall Hlen
                 |matched p rest slots linkFieldPos n r [q Hq] Hfirst Hall Hlen
                    Hchildren Harrays Hlooks IH].
  - destruct IH as (r' & Hr' & IH). exists r'. split; [done|].
    intros more s e fuel Hsib Hmatched Hfuel.
    inversion Hsib as [|? ? ? ? Hnotend Hnode _ Hsib']; subst.
    destruct fuel as [|fuel]; [lia|].
    rewrite lookupLoop_skip; [|done|].
    + apply (IH more _ e); [done|by rewrite readNextSiblingNode_prevTotal|lia].
    + rewrite Hnode. fold (codePointsOf b' p).
      by rewrite (matches_first _ _ _ _ (first_kept p q Hq)).
  - destruct IH as (r' & Hr' & IH). exists r'. split; [done|].
    intros more s e fuel Hsib Hmatched Hfuel.
    inversion Hsib as [|? ? ? ? Hnotend Hnode _ Hsib']; subst.
    destruct fuel as [|fuel]; [lia|].
    rewrite lookupLoop_long; [|done|].
    + apply (IH more _ e); [done|by rewrite readNextSiblingNode_prevTotal|lia].
    + unfold getTotalCodePointCount. rewrite Hnode. fold (countOf b' p).
      rewrite (count_kept eq_refl p q Hq). lia.
  - destruct (found_kept p q matched Hq Hfirst Hall Hlen) as (r' & Hr' & Hlooks).
    exists r'. split; [done|].
    intros more s e fuel Hsib Hmatched Hfuel.
    inversion Hsib as [|? ? ? ? Hnotend Hnode _ _]; subst.
    apply Hlooks; [done|done|done|lia].
  - destruct IH as (r' & Hr' & IH). exists r'. split; [done|].
    intros more s e fuel Hsib Hmatched Hfuel.
    inversion Hsib as [|? ? ? ? Hnotend Hnode _ _]; subst.
    pose proof (arrays_inside _ _ _ _ _ Harrays) as Hinside.
    apply (descend_kept p q _ (2 * n) r' Hq Hfirst Hall Hlen Hchildren ltac:(lia));
      [|done|done|done|lia].
    intros fuelOfArrays rh fuel0 HfuelOfArrays Hprev Hfuel0.
    destruct (arrays_kept _ _ _ Harrays) as (more' & linkFieldPos' & Harrays').
    destruct (arrays_siblingsFrom NOT_A_PROBABILITY NOT_A_VALID_WORD_POS _ _ _ _ Harrays'
                fuelOfArrays rh HfuelOfArrays) as (e' & Hsib' & _).
    apply (IH more' _ e'); [done| |done].
    by rewrite fetchUnlessEnd_prevTotal, enterNodeArray_prevTotal.
Qed.

End Stays.

(** *** After a mutation that is framed *)

Hypothesis NOT_A_VALID_WORD_POS_negative : NOT_A_VALID_WORD_POS < 0.

Section FramedStays.

Variable lax : bool.
Variable found : Z → Z → Prop.
Variables (q cf lf pf : option Z) (b b' : Buffer).

Hypothesis frame : framed NOT_A_PROBABILITY q cf lf pf b b'.
Hypothesis found_same : ∀ x, 0 <= x → q ≠ Some x → found x x.
Hypothesis moved_lands : ∀ x, q = Some x → ∃ t, lands b' x t.
Hypothesis link_extended :
  ∀ x, lf = Some x →
    getForwardLinkPosition b x = NOT_A_DICT_POS
    ∧ getForwardLinkPosition b' x = tail b
    ∧ ∃ linkFieldPos, arraysOf b' (tail b) [tail b + 1] linkFieldPos.

(** The PtNode that is marked as moved, or is given children, where a
    lookup reads it. *)
Hypothesis special_first :
  ∀ p x, q = Some x → lands b p x →
    codePointsOf b' p !! 0%nat = codePointsOf b p !! 0%nat.

Hypothesis special_count :
  lax = true → ∀ p x, q = Some x → lands b p x → countOf b' p = countOf b p.

Hypothesis special_descend :
  ∀ p q0 matched k r,
    lands b p q0 → q = Some q0 ∨ cf = Some (childrenFieldOf b q0) →
    matchesOf (codePointsOf b p) matched 0 → matchesAllOf b p matched →
    matched + countOf b p < count →
    hasChildren (fetchNode b p) = true →
    0 < getChildrenPos (fetchNode b p) →
    looksFrom b' (getChildrenPos (fetchNode b p)) (matched + countOf b p) k r →
    looksAt b' p matched (k + 2) r.

Hypothesis special_found :
  ∀ p q0 matched,
    lands b p q0 → q = Some q0 →
    matchesOf (codePointsOf b p) matched 0 → matchesAllOf b p matched →
    count = matched + countOf b p →
    ∃ r, found q0 r ∧ looksAt b' p matched 2 r.

Lemma framed_stays : stays lax found b b'.
Proof.
  apply looks_stays.
  - intros a slots linkFieldPos Harrays.
    destruct (framed_arrays NOT_A_PROBABILITY q cf lf pf b b' frame moved_lands
                link_extended _ _ _ Harrays) as (linkFieldPos' & Harrays').
    eauto.
  - intros p q0 Hlands. destruct (decide (q = Some q0)) as [Hq|Hq].
    + by apply (special_first p q0).
    + unfold codePointsAt.
      by destruct (framed_node NOT_A_PROBABILITY NOT_A_VALID_WORD_POS q cf lf pf b b'
                     frame p q0 Hlands Hq) as (-> & _).
  - intros Hlax p q0 Hlands. destruct (decide (q = Some q0)) as [Hq|Hq].
    + by apply (special_count Hlax p q0).
    + unfold countAt, getCodePointCount.
      by destruct (framed_node NOT_A_PROBABILITY NOT_A_VALID_WORD_POS q cf lf pf b b'
                     frame p q0 Hlands Hq) as (-> & _).
  - intros p q0 matched k r Hlands Hfirst Hall Hlen Hchildren Hpos Hfrom.
    destruct (decide (q = Some q0 ∨ cf = Some (childrenFieldOf b q0))) as [Hq|Hq].
    + by apply (special_descend p q0).
    + assert (Hcf : cf ≠ Some (childrenFieldOf b q0)) by (intros ?; apply Hq; by right).
      assert (Hq' : q ≠ Some q0) by (intros ?; apply Hq; by left).
      clear Hq. rename Hq' into Hq.
      destruct (framed_node NOT_A_PROBABILITY NOT_A_VALID_WORD_POS q cf lf pf b b'
                  frame p q0 Hlands Hq) as (Hcps & _ & Hc).
      specialize (Hc Hcf).
      assert (Hcount : countOf b' p = countOf b p)
        by (unfold countAt, getCodePointCount; by rewrite Hcps).
      apply (looksAtIn_more _ _ _ _ _ _ _ (k + 1)); [|lia].
      apply looksAtIn_descend.
      * unfold codePointsAt. by rewrite Hcps.
      * unfold matchesAll, codePointsAt. rewrite Hcps, Hcount. apply Hall.
      * by rewrite Hcount.
      * unfold hasChildren in *. unfold getChildrenPos in Hc. by rewrite Hc.
      * by rewrite Hc.
      * by rewrite Hc, Hcount.
  - intros p q0 matched Hlands Hfirst Hall Hlen.
    destruct (fetchNode_fields NOT_A_PROBABILITY NOT_A_VALID_WORD_POS _ _ _ Hlands)
      as (Hhead0 & _).
    rewrite Hhead0.
    destruct (decide (q = Some q0)) as [Hq|Hq]; [by apply (special_found p q0)|].
    destruct (framed_node NOT_A_PROBABILITY NOT_A_VALID_WORD_POS q cf lf pf b b'
                frame p q0 Hlands Hq) as (Hcps & Hhead & _).
    assert (Hcount : countOf b' p = countOf b p)
      by (unfold countAt, getCodePointCount; by rewrite Hcps).
    exists (getHeadPos (fetchNode b' p)). split.
    + rewrite Hhead, Hhead0.
      destruct (lands_last _ _ _ Hlands) as (Hin & _).
      pose proof (nodeInside_range _ _ Hin). apply found_same; [lia|done].
    + apply (looksAtIn_more _ _ _ _ _ _ _ 1); [|lia].
      apply looksAtIn_found.
      * unfold codePointsAt. by rewrite Hcps.
      * unfold matchesAll, codePointsAt. rewrite Hcps, Hcount. apply Hall.
      * by rewrite Hcount.
Qed.

End FramedStays.

(** *** After [addUnigramWord] *)

Section StaysCases.

(** The word that is added, its length and its probability. *)
Variable word : list Z.
Variable length : Z.
Variable probability : Z.
Hypothesis length_word : length <= Z.of_nat (List.length word).

Abbreviation finalActionOf :=
  (finalAction NOT_A_PROBABILITY NOT_A_VALID_WORD_POS word length probability).

Variables (b b' : Buffer) (root : Z).
Hypothesis b_wellFormed : wellFormed NOT_A_PROBABILITY NOT_A_VALID_WORD_POS b root.

Lemma stays_end moveFuel parentPos linkFieldPos matched :
  0 <= matched < length → endsChain b linkFieldPos →
  finalActionOf b moveFuel (AtEnd linkFieldPos matched) parentPos b = (b', Done tt) →
  stays false (keptOrNew (tail b)) b b'.
Proof.
  intros Hmatched Hends Hrun.
  destruct (frame_end _ _ _ _ _ length_word _ _ _ b_wellFormed _ _ _ _ Hmatched Hends
              Hrun) as (r & Hframe & Hnew & _ & Hlink' & Hpositive).
  destruct (newArray_read NOT_A_PROBABILITY NOT_A_VALID_WORD_POS _ _ _ _ _ Hnew
              ltac:(lia)) as (Harrays' & _).
  apply (framed_stays false (keptOrNew (tail b)) None None (Some linkFieldPos) None b b' Hframe
           (λ x _ _, or_introl eq_refl)); try done.
  - intros x [= <-]. split; [by destruct Hends|]. split; [done|by eexists].
  - by intros ? ? ? ? ? ? [?|?].
Qed.

Lemma stays_terminal moveFuel parentPos p q0 matched :
  lands b p q0 → isTerminal (fetchNode b p) = true →
  finalActionOf b moveFuel (Exact p matched) parentPos b = (b', Done tt) →
  stays false (keptOrNew (tail b)) b b'.
Proof.
  intros Hlands Hterminal Hrun.
  destruct (frame_terminal _ _ _ _ _ _ _ _ b_wellFormed _ _ _ _ _ Hlands Hterminal Hrun)
    as [Hframe _].
  apply (framed_stays false (keptOrNew (tail b)) None None None (Some (q0 + 3)) b b' Hframe
           (λ x _ _, or_introl eq_refl)); try done.
  by intros ? ? ? ? ? ? [?|?].
Qed.

Lemma stays_leaf moveFuel parentPos p q0 matched :
  0 <= matched < length → lands b p q0 →
  matched + countOf b p < length → hasChildren (fetchNode b p) = false →
  finalActionOf b moveFuel (Leaf p matched) parentPos b = (b', Done tt) →
  stays false (keptOrNew (tail b)) b b'.
Proof.
  intros Hmatched Hlands Hlen Hchildren Hrun.
  destruct (frame_leaf _ _ _ _ _ length_word _ _ _ b_wellFormed _ _ _ _ _ Hmatched
              Hlands Hlen Hrun) as (r & Hframe & _).
  destruct (fetchNode_fields NOT_A_PROBABILITY NOT_A_VALID_WORD_POS _ _ _ Hlands)
    as (_ & _ & _ & _ & Hpos).
  apply (framed_stays false (keptOrNew (tail b)) None (Some (childrenFieldOf b q0)) None None b b' Hframe
           (λ x _ _, or_introl eq_refl));
    try done.
  intros p' q' matched1 k r0 Hlands' [?|[= Hcf]] _ _ _ Hchildren' _ _; [done|].
  destruct (fetchNode_fields NOT_A_PROBABILITY NOT_A_VALID_WORD_POS _ _ _ Hlands')
    as (_ & _ & _ & _ & Hpos').
  unfold hasChildren, getChildrenPos in *. rewrite Hpos', <- Hcf in Hchildren'.
  rewrite Hpos in Hchildren. congruence.
Qed.

Lemma stays_moved moveFuel parentPos p q0 matched :
  lands b p q0 → isTerminal (fetchNode b p) = false →
  finalActionOf b moveFuel (Exact p matched) parentPos b = (b', Done tt) →
  stays false (keptOrNew (tail b)) b b'.
Proof.
  intros Hlands Hterminal Hrun.
  pose proof b_wellFormed as (_ & _ & b_layout & _).
  destruct (lands_last _ _ _ Hlands) as (Hin & _).
  pose proof (nodeInside_range _ _ Hin) as Hq0.
  destruct (frame_moved _ _ NOT_A_VALID_WORD_POS_negative _ _ _ _ _ _ b_wellFormed _ _
              _ _ _ Hlands Hterminal Hrun)
    as (r & flags & Hframe & HlandsQ & [Hwritten _] & Hmoved & Htail).
  pose proof (written_ge _ _ _ _ _ _ _ Hwritten) as Hr.
  destruct (written_read NOT_A_PROBABILITY _ _ _ _ _ _ _ Hwritten Hmoved ltac:(lia)
              ltac:(lia)) as (HlandsT & _ & _ & _ & HfieldsT).
  destruct (fetchNode_fields NOT_A_PROBABILITY NOT_A_VALID_WORD_POS _ _ _ Hlands)
    as (_ & _ & Hcps & _ & Hpos).
  assert (Hreplaced : ∀ p', lands b p' q0 →
            codePointsOf b' p' = codePointsOf b p'
            ∧ countOf b' p' = countOf b p'
            ∧ getHeadPos (fetchNode b' p') = tail b
            ∧ getChildrenPos (fetchNode b' p') = getChildrenPos (fetchNode b p')).
  { intros p' Hlands'.
    pose proof (framed_lands NOT_A_PROBABILITY _ _ _ _ _ _ Hframe p' q0 Hlands' _ HlandsQ)
      as HlandsT'.
    destruct (fetchNode_fields NOT_A_PROBABILITY NOT_A_VALID_WORD_POS _ _ _ Hlands')
      as (_ & _ & Hcps' & _ & Hpos').
    assert (Hsame : codePointsOf b' p' = codePointsOf b p').
    { unfold codePointsAt at 1.
      destruct (fetchNode_read NOT_A_PROBABILITY NOT_A_VALID_WORD_POS _ _ _ HlandsT')
        as (s' & l' & ->).
      destruct (HfieldsT s' l') as [-> _]. unfold codePointsAt.
      by rewrite Hcps, Hcps'. }
    split; [done|]. split.
    { unfold countAt, getCodePointCount. fold (codePointsOf b' p') (codePointsOf b p').
      by rewrite Hsame. }
    destruct (fetchNode_read NOT_A_PROBABILITY NOT_A_VALID_WORD_POS _ _ _ HlandsT')
      as (s' & l' & ->).
    split; [done|]. destruct (HfieldsT s' l') as [_ HpT].
    unfold getChildrenPos in *. rewrite HpT. by rewrite Hpos, Hpos'. }
  assert (Hsame : ∀ p' q', lands b p' q' →
            Some q0 = Some q' ∨ Some (childrenFieldOf b q0) = Some (childrenFieldOf b q') →
            q' = q0).
  { intros p' q' Hlands' [[= ->]|[= Hcf]]; [done|].
    destruct (lands_last _ _ _ Hlands') as (Hin' & _).
    symmetry. by apply (childrenFieldOf_inj [] b b_layout). }
  apply (framed_stays false (keptOrNew (tail b)) (Some q0) (Some (childrenFieldOf b q0)) None None b b' Hframe
           (λ x _ _, or_introl eq_refl));
    try done.
  - intros x [= <-]. by exists (tail b).
  - intros p' x [= <-] Hlands'. by destruct (Hreplaced p' Hlands') as (-> & _).
  - intros p' q' matched1 k r0 Hlands' Hq' Hfirst' Hall' Hlen' Hchildren' Hpos' Hfrom.
    rewrite (Hsame p' q' Hlands' Hq') in Hlands'.
    destruct (Hreplaced p' Hlands') as (H1 & H2 & _ & H3).
    apply (looksAtIn_more _ _ _ _ _ _ _ (k + 1)); [|lia].
    apply looksAtIn_descend.
    + by rewrite H1.
    + unfold matchesAll. rewrite H1, H2. apply Hall'.
    + by rewrite H2.
    + unfold hasChildren in *. unfold getChildrenPos in H3. by rewrite H3.
    + by rewrite H3.
    + by rewrite H3, H2.
  - intros p' q' matched1 Hlands' [= <-] Hfirst' Hall' Hlen'.
    destruct (Hreplaced p' Hlands') as (H1 & H2 & H3 & _).
    exists (tail b). split; [right; lia|].
    apply (looksAtIn_more _ _ _ _ _ _ _ 1); [|lia].
    rewrite <- H3. apply looksAtIn_found.
    + by rewrite H1.
    + unfold matchesAll. rewrite H1, H2. apply Hall'.
    + by rewrite H2.
Qed.

Lemma stays_split moveFuel parentPos p q0 matched j :
  lands b p q0 → 1 <= j < countOf b p →
  finalActionOf b moveFuel (Split p matched j) parentPos b = (b', Done tt) →
  stays false (keptOrNew (tail b)) b b'.
Proof.
  intros Hlands Hj Hrun. simpl in Hrun.
  pose proof b_wellFormed as (_ & _ & b_layout & _).
  pose proof (wellFormed_tail _ _ _ _ b_wellFormed) as Hpositive.
  destruct (lands_last _ _ _ Hlands) as (Hin & _).
  destruct (reallocatePtNodeAndAddNewPtNodes_laid _ _ NOT_A_VALID_WORD_POS_negative word
              probability b b' root b_wellFormed _ _ _ _ _ _ Hlands Hj Hrun)
    as (A & E2 & E3 & flagsF & flags2 & Hframe & HlandsQ & [HwF _] & HmF & HA
        & [Hw2 _] & Hm2 & Hw3 & HE3 & Htail').
  clear Hrun.
  set (cps := codePointsOf b p) in *.
  set (extra := bool_decide (length - matched > j)) in *.
  pose proof (written_ge _ _ _ _ _ _ _ HwF) as HAF.
  pose proof (written_ge _ _ _ _ _ _ _ Hw2) as HE2.
  assert (HE3' : E2 <= E3).
  { destruct extra; [|lia]. destruct Hw3 as (? & [Hw3 _] & _).
    pose proof (written_ge _ _ _ _ _ _ _ Hw3). lia. }
  destruct (written_fetch NOT_A_PROBABILITY NOT_A_VALID_WORD_POS _ _ _ _ _ _ _ HwF HmF
              ltac:(lia) ltac:(lia))
    as (HlandsF & HendF & HcpsF & HcountF & HheadF & HchildF & _).
  destruct (written_fetch NOT_A_PROBABILITY NOT_A_VALID_WORD_POS _ _ _ _ _ _ _ Hw2 Hm2
              ltac:(lia) ltac:(lia))
    as (Hlands2 & Hend2 & Hcps2 & Hcount2 & Hhead2 & Hchild2 & _).
  assert (Hcount_cps : countOf b p = Z.of_nat (List.length cps)) by done.
  assert (HlenF : Z.of_nat (List.length (take (Z.to_nat j) cps)) = j)
    by (rewrite length_take; lia).
  assert (Hlen2 : Z.of_nat (List.length (drop (Z.to_nat j) cps)) = countOf b p - j)
    by (rewrite length_drop; lia).
  rewrite HlenF in HcountF. rewrite Hlen2 in Hcount2.
  (* what is read from a PtNode that led to the one that is split *)
  assert (Hreplaced : ∀ p', lands b p' q0 →
            codePointsOf b' p' = take (Z.to_nat j) cps
            ∧ countOf b' p' = j
            ∧ getChildrenPos (fetchNode b' p') = A
            ∧ codePointsOf b p' = cps
            ∧ countOf b p' = countOf b p
            ∧ getChildrenPos (fetchNode b p') = getChildrenPos (fetchNode b p)).
  { intros p' Hlands'.
    pose proof (framed_lands NOT_A_PROBABILITY _ _ _ _ _ _ Hframe p' q0 Hlands' _ HlandsQ)
      as HlandsT'.
    destruct (fetchNode_fields NOT_A_PROBABILITY NOT_A_VALID_WORD_POS _ _ _ HlandsT')
      as (_ & _ & Hc' & _ & Hp').
    destruct (fetchNode_fields NOT_A_PROBABILITY NOT_A_VALID_WORD_POS _ _ _ HlandsF)
      as (_ & _ & HcF' & _ & HpF').
    destruct (fetchNode_fields NOT_A_PROBABILITY NOT_A_VALID_WORD_POS _ _ _ Hlands')
      as (_ & _ & Hc0' & _ & Hp0').
    destruct (fetchNode_fields NOT_A_PROBABILITY NOT_A_VALID_WORD_POS _ _ _ Hlands)
      as (_ & _ & Hc0 & _ & Hp0).
    assert (Hc1 : codePointsOf b' p' = take (Z.to_nat j) cps)
      by (unfold codePointsAt in *; by rewrite Hc', <- HcF').
    assert (Hc2 : codePointsOf b p' = cps)
      by (unfold cps, codePointsAt in *; by rewrite Hc0', <- Hc0).
    split; [done|]. split.
    { unfold countAt, getCodePointCount. fold (codePointsOf b' p'). by rewrite Hc1. }
    split; [by rewrite Hp', <- HpF'|]. split; [done|].
    split.
    { unfold countAt, getCodePointCount. fold (codePointsOf b p') (codePointsOf b p).
      by rewrite Hc2. }
    by rewrite Hp0', <- Hp0. }
  (* the array of the second part *)
  assert (Harray : ∃ rest linkFieldPos, arraysOf b' A ((A + 1) :: rest) linkFieldPos).
  { destruct extra eqn:Hextra.
    - destruct Hw3 as (flags3 & [Hw3 _] & Hm3).
      destruct (written_fetch NOT_A_PROBABILITY NOT_A_VALID_WORD_POS _ _ _ _ _ _ _ Hw3
                  Hm3 ltac:(lia) ltac:(lia)) as (Hlands3 & Hend3 & _).
      exists [E2], E3. apply arrays_last.
      + lia.
      + unfold getPtNodeArraySize. by rewrite HA.
      + split; [done|]. split; [by exists (A + 1)|]. rewrite Hend2.
        split; [done|]. split; [by exists E2|]. rewrite Hend3. done.
      + lia.
      + unfold getForwardLinkPosition. by rewrite HE3.
    - subst E3. exists [], E2. apply arrays_last.
      + lia.
      + unfold getPtNodeArraySize. by rewrite HA.
      + split; [done|]. split; [by exists (A + 1)|]. rewrite Hend2. done.
      + lia.
      + unfold getForwardLinkPosition. by rewrite HE3. }
  destruct Harray as (rest & linkFieldPos' & Harray).
  assert (Hsame : ∀ p' q', lands b p' q' →
            Some q0 = Some q' ∨ Some (childrenFieldOf b q0) = Some (childrenFieldOf b q') →
            q' = q0).
  { intros p' q' Hlands' [[= ->]|[= Hcf]]; [done|].
    destruct (lands_last _ _ _ Hlands') as (Hin' & _).
    symmetry. by apply (childrenFieldOf_inj [] b b_layout). }
  (* the lookup at the first part, whose code points are matched, goes on at
     the second part *)
  assert (Hsecond : ∀ p' matched1, lands b p' q0 →
            matchesOf (codePointsOf b p') matched1 0 → matchesAllOf b p' matched1 →
            matched1 + countOf b p' <= count →
            matchesOf (codePointsOf b' p') matched1 0
            ∧ matchesAllOf b' p' matched1
            ∧ matched1 + countOf b' p' < count
            ∧ hasChildren (fetchNode b' p') = true
            ∧ 0 < getChildrenPos (fetchNode b' p')
            ∧ matchesOf (codePointsOf b' (A + 1)) (matched1 + j) 0
            ∧ matchesAllOf b' (A + 1) (matched1 + j)).
  { intros p' matched1 Hlands' Hfirst' Hall' Hlen'.
    destruct (Hreplaced p' Hlands') as (Hc1 & Hn1 & Hch1 & Hc2 & Hn2 & _).
    rewrite Hc2 in Hfirst'. unfold matchesAll in Hall'. rewrite Hc2, Hn2 in Hall'.
    rewrite Hn2 in Hlen'.
    split; [rewrite Hc1; apply matches_take; [lia|done]|].
    split.
    { intros i Hi. rewrite Hn1 in Hi. destruct (Hall' i ltac:(lia)) as [? ?].
      split; [lia|]. rewrite Hc1. apply matches_take; [lia|done]. }
    split; [rewrite Hn1; lia|].
    split.
    { unfold hasChildren. unfold getChildrenPos in Hch1. rewrite Hch1.
      apply bool_decide_eq_true_2. unfold NOT_A_DICT_POS. lia. }
    split; [rewrite Hch1; lia|].
    split.
    { rewrite Hcps2. rewrite (matches_drop searched cps matched1 j 0) by lia.
      rewrite Z.add_0_r. by apply Hall'. }
    intros i Hi. rewrite Hcount2 in Hi.
    destruct (Hall' (j + i) ltac:(lia)) as [? ?]. split; [lia|].
    rewrite Hcps2. by rewrite (matches_drop searched cps matched1 j i) by lia. }
  apply (framed_stays false (keptOrNew (tail b)) (Some q0) (Some (childrenFieldOf b q0)) None None b b' Hframe
           (λ x _ _, or_introl eq_refl));
    try done.
  - intros x [= <-]. by exists (tail b).
  - intros p' x [= <-] Hlands'.
    destruct (Hreplaced p' Hlands') as (Hc1 & _ & _ & Hc2 & _).
    rewrite Hc1, Hc2. by rewrite lookup_take_lt by lia.
  - intros p' q' matched1 k r0 Hlands' Hq' Hfirst' Hall' Hlen' Hchildren' Hpos' Hfrom.
    rewrite (Hsame p' q' Hlands' Hq') in Hlands'.
    destruct (Hsecond p' matched1 Hlands' Hfirst' Hall' ltac:(lia))
      as (HfirstF & HallF & HlenF' & HhasF & HposF & Hfirst2 & Hall2).
    destruct (Hreplaced p' Hlands') as (_ & Hn1 & Hch1 & _ & Hn2 & Hch2).
    rewrite Hn2 in Hlen'. rewrite Hch2 in Hpos'. rewrite Hch2, Hn2 in Hfrom.
    unfold hasChildren in Hchildren'. unfold getChildrenPos in Hch2.
    rewrite Hch2 in Hchildren'.
    replace (k + 2)%nat with ((k + 1) + 1)%nat by lia.
    apply looksAtIn_descend; try done.
    rewrite Hch1, Hn1.
    apply (looksFromIn_first _ _ _ _ _ _ (A + 1) rest linkFieldPos'); [done|].
    apply looksAtIn_descend; try done.
    + rewrite Hcount2. lia.
    + unfold hasChildren. unfold getChildrenPos in Hchild2. by rewrite Hchild2.
    + by rewrite Hchild2.
    + rewrite Hchild2, Hcount2.
      by replace (matched1 + j + (countOf b p - j)) with (matched1 + countOf b p)
        by lia.
  - intros p' q' matched1 Hlands' [= <-] Hfirst' Hall' Hlen'.
    destruct (Hsecond p' matched1 Hlands' Hfirst' Hall' ltac:(lia))
      as (HfirstF & HallF & HlenF' & HhasF & HposF & Hfirst2 & Hall2).
    destruct (Hreplaced p' Hlands') as (_ & Hn1 & Hch1 & _ & Hn2 & _).
    exists (A + 1). split; [right; lia|].
    replace 2%nat with (1 + 1)%nat by lia.
    apply looksAtIn_descend; try done.
    rewrite Hch1, Hn1.
    apply (looksFromIn_first _ _ _ _ _ _ (A + 1) rest linkFieldPos'); [done|].
    rewrite <- Hhead2 at 2. apply looksAtIn_found; try done.
    rewrite Hcount2. lia.
Qed.

(** Whatever [addUnigramWord] does where the path of the word stops, the
    lookups that found a PtNode find one afterwards. *)
Lemma finalAction_stays moveFuel parentPos final :
  finalFacts NOT_A_PROBABILITY NOT_A_VALID_WORD_POS word length b final →
  finalActionOf b moveFuel final parentPos b = (b', Done tt) →
  stays false (keptOrNew (tail b)) b b'.
Proof.
  destruct final as [linkFieldPos matched|p matched j|p matched|p matched];
    simpl finalFacts.
  - intros [Hmatched Hends] Hrun. by apply (stays_end moveFuel parentPos linkFieldPos matched).
  - intros (Hmatched & [q Hq] & Hfirst & Hj & Hbefore & Hat) Hrun.
    by apply (stays_split moveFuel parentPos p q matched j).
  - intros (Hmatched & [q Hq] & Hfirst & Hall & Hlen) Hrun.
    destruct (isTerminal (fetchNode b p)) eqn:Hterminal.
    + by apply (stays_terminal moveFuel parentPos p q matched).
    + by apply (stays_moved moveFuel parentPos p q matched).
  - intros (Hmatched & [q Hq] & Hfirst & Hall & Hlen & Hchildren) Hrun.
    by apply (stays_leaf moveFuel parentPos p q matched).
Qed.

End StaysCases.

(** *** After [addBigramWords] *)

(** The position found once the PtNode at [q] is copied to [t]. *)
Definition copiedTo (q t r r' : Z) : Prop := (r = q → r' = t) ∧ (r ≠ q → r' = r).

(** [addBigramWords] of the writing helper, for a PtNode of at most
    [MAX_WORD_LENGTH] code points: the lookups that found that PtNode find
    its copy at the old tail, the others find what they found. *)
Lemma addBigramWordsOfHelper_stays fuel word0Pos word1Pos probability b b' root :
  wellFormed NOT_A_PROBABILITY NOT_A_VALID_WORD_POS b root →
  nodeInside b word0Pos → flagIsMoved (getFlags b word0Pos) = false →
  countOf b word0Pos <= MAX_WORD_LENGTH →
  addBigramWordsOfHelper NOT_A_PROBABILITY NOT_A_VALID_WORD_POS fuel word0Pos word1Pos
    probability b = (b', Done tt) →
  stays true (copiedTo word0Pos (tail b)) b b'.
Proof.
  intros Hwf Hin Hmoved Hshort Hrun.
  pose proof Hwf as (Hinside & Hheader & b_layout & Hchildren & _).
  pose proof (nodeInside_range _ _ Hin) as Hq0.
  assert (Hlands : lands b word0Pos word0Pos) by (by apply lands_stop).
  assert (Hlaid_out : hasChildren (fetchNode b word0Pos) = true →
            ∃ slots0 last,
              arraysOf b (getChildrenPos (fetchNode b word0Pos)) slots0 last).
  { intros Hhas. by apply (Hchildren word0Pos word0Pos). }
  destruct (addBigramWordsOfHelper_copy NOT_A_PROBABILITY NOT_A_VALID_WORD_POS
              NOT_A_VALID_WORD_POS_negative fuel word0Pos word1Pos probability b b'
              Hinside Hheader Hin Hmoved Hlaid_out Hrun)
    as (flags' & r' & y & hasNext & codePoints & [Hwritten _] & Hmoved' & _ & _ & Hr'
        & _ & _ & Hframe & HlandsQ & Hcopied).
  assert (Hwhole : codePoints = codePointsOf b word0Pos).
  { rewrite Hcopied. unfold codePointsAt.
    unfold countAt, getCodePointCount in Hshort |- *.
    rewrite (take_ge (mCodePoints (fetchNode b word0Pos)) (Z.to_nat MAX_WORD_LENGTH))
      by lia.
    apply take_ge. lia. }
  clear Hcopied. subst codePoints.
  pose proof (written_ge _ _ _ _ _ _ _ Hwritten) as Hr.
  destruct (written_read NOT_A_PROBABILITY _ _ _ _ _ _ _ Hwritten Hmoved' ltac:(lia)
              ltac:(lia)) as (HlandsT & _ & _ & _ & HfieldsT).
  destruct (fetchNode_fields NOT_A_PROBABILITY NOT_A_VALID_WORD_POS _ _ _ Hlands)
    as (_ & _ & Hcps & _ & Hpos).
  assert (Hreplaced : ∀ p', lands b p' word0Pos →
            codePointsOf b' p' = codePointsOf b p'
            ∧ countOf b' p' = countOf b p'
            ∧ getHeadPos (fetchNode b' p') = tail b
            ∧ getChildrenPos (fetchNode b' p') = getChildrenPos (fetchNode b p')).
  { intros p' Hlands'.
    pose proof (framed_lands NOT_A_PROBABILITY _ _ _ _ _ _ Hframe p' word0Pos Hlands' _
                  HlandsQ) as HlandsT'.
    destruct (fetchNode_fields NOT_A_PROBABILITY NOT_A_VALID_WORD_POS _ _ _ Hlands')
      as (_ & _ & Hcps' & _ & Hpos').
    assert (Hsame : codePointsOf b' p' = codePointsOf b p').
    { unfold codePointsAt at 1.
      destruct (fetchNode_read NOT_A_PROBABILITY NOT_A_VALID_WORD_POS _ _ _ HlandsT')
        as (s' & l' & ->).
      destruct (HfieldsT s' l') as [-> _]. unfold codePointsAt.
      by rewrite Hcps, Hcps'. }
    split; [done|]. split.
    { unfold countAt, getCodePointCount. fold (codePointsOf b' p') (codePointsOf b p').
      by rewrite Hsame. }
    destruct (fetchNode_read NOT_A_PROBABILITY NOT_A_VALID_WORD_POS _ _ _ HlandsT')
      as (s' & l' & ->).
    split; [done|]. destruct (HfieldsT s' l') as [_ HpT].
    unfold getChildrenPos in *. rewrite HpT. by rewrite Hpos, Hpos'. }
  assert (Hsame : ∀ p' q', lands b p' q' →
            Some word0Pos = Some q'
            ∨ Some (childrenFieldOf b word0Pos) = Some (childrenFieldOf b q') →
            q' = word0Pos).
  { intros p' q' Hlands' [[= ->]|[= Hcf]]; [done|].
    destruct (lands_last _ _ _ Hlands') as (Hin' & _).
    symmetry. by apply (childrenFieldOf_inj [] b b_layout). }
  apply (framed_stays true (copiedTo word0Pos (tail b)) (Some word0Pos)
           (Some (childrenFieldOf b word0Pos)) None None b b' Hframe); try done.
  - intros x _ Hx. split; [intros ->; by destruct Hx|done].
  - intros x [= <-]. by exists (tail b).
  - intros p' x [= <-] Hlands'. by destruct (Hreplaced p' Hlands') as (-> & _).
  - intros _ p' x [= <-] Hlands'. by destruct (Hreplaced p' Hlands') as (_ & -> & _).
  - intros p' q' matched1 k r0 Hlands' Hq' Hfirst' Hall' Hlen' Hchildren' Hpos' Hfrom.
    rewrite (Hsame p' q' Hlands' Hq') in Hlands'.
    destruct (Hreplaced p' Hlands') as (H1 & H2 & _ & H3).
    apply (looksAtIn_more _ _ _ _ _ _ _ (k + 1)); [|lia].
    apply looksAtIn_descend.
    + by rewrite H1.
    + unfold matchesAll. rewrite H1, H2. apply Hall'.
    + by rewrite H2.
    + unfold hasChildren in *. unfold getChildrenPos in H3. by rewrite H3.
    + by rewrite H3.
    + by rewrite H3, H2.
  - intros p' q' matched1 Hlands' [= <-] Hfirst' Hall' Hlen'.
    destruct (Hreplaced p' Hlands') as (H1 & H2 & H3 & _).
    exists (tail b). split; [by split|].
    apply (looksAtIn_more _ _ _ _ _ _ _ 1); [|lia].
    rewrite <- H3. apply looksAtIn_found.
    + by rewrite H1.
    + unfold matchesAll. rewrite H1, H2. apply Hall'.
    + by rewrite H2.
Qed.

End Looks.

(** X18.  [addUnigramWord] loses no word: on a well-formed dictionary whose
    sibling PtNodes begin with different code points, when [addUnigramWord]
    returns true for a word of at least one code point, every word that
    [getTerminalNodePositionOfWord] found before is found afterwards, at the
    same position or in what the call has appended at the tail, with twice
    the fuel at most. *)
Theorem addUnigramWord_keeps_words (NOT_A_PROBABILITY NOT_A_VALID_WORD_POS : Z)
    (toLowerCase : Z → Z) (fuel lookupFuel : nat) (policy : Policy)
    (word : list Z) (length probability : Z) (b b' : Buffer)
    (inWord : list Z) (inLength : Z) (forceLowerCaseSearch : bool) (pos : Z) :
  wellFormed NOT_A_PROBABILITY NOT_A_VALID_WORD_POS b (getRootPosition policy) →
  siblingsDistinct NOT_A_PROBABILITY NOT_A_VALID_WORD_POS b →
  NOT_A_VALID_WORD_POS < 0 →
  1 <= length → length <= Z.of_nat (List.length word) →
  addUnigramWord NOT_A_PROBABILITY NOT_A_VALID_WORD_POS fuel policy word length
    probability b = (b', Done tt) →
  getTerminalNodePositionOfWord NOT_A_PROBABILITY NOT_A_VALID_WORD_POS toLowerCase
    lookupFuel policy b inWord inLength forceLowerCaseSearch = Done pos →
  pos ≠ NOT_A_VALID_WORD_POS →
  ∃ pos', pos' ≠ NOT_A_VALID_WORD_POS
    ∧ (pos' = pos ∨ tail b <= pos')
    ∧ ∀ fuel', (2 * lookupFuel ≤ fuel')%nat →
        getTerminalNodePositionOfWord NOT_A_PROBABILITY NOT_A_VALID_WORD_POS toLowerCase
          fuel' policy b' inWord inLength forceLowerCaseSearch = Done pos'.
Proof.
  intros Hwf Hdistinct Hnegative Hlength Hword Hrun Hlookup Hpos.
  pose proof Hwf as (_ & _ & _ & Hchildren & slots & linkFieldPos & Harrays).
  pose proof (arrays_inside _ _ _ _ _ Harrays) as Hroot.
  set (rh0 := mkReadingHelper false (getRootPosition policy) 0 0 NOT_A_DICT_POS
                (invalidPtNodeInfo NOT_A_PROBABILITY NOT_A_VALID_WORD_POS)).
  destruct (arrays_siblingsFrom NOT_A_PROBABILITY NOT_A_VALID_WORD_POS _ _ _ _ Harrays
              (Z.to_nat (tail b)) rh0 ltac:(lia)) as (e & Hsib & Hlink & _).
  assert (Hprev : mPrevTotalCodePointCount
                    (fetchUnlessEnd NOT_A_PROBABILITY NOT_A_VALID_WORD_POS b
                       (enterNodeArray (Z.to_nat (tail b)) b rh0
                          (getRootPosition policy))) = 0)
    by (by rewrite fetchUnlessEnd_prevTotal, enterNodeArray_prevTotal).
  (* what the addition does *)
  assert (Hstays : ∀ searched count,
            stays NOT_A_PROBABILITY NOT_A_VALID_WORD_POS searched count false
              (keptOrNew (tail b)) b b').
  { intros searched count.
    unfold addUnigramWord in Hrun.
    destruct (isUpdatable policy); [|done]. cbn [negb] in Hrun.
    rewrite bind_current in Hrun.
    rewrite initWithNodeArrayPos_enter in Hrun by lia. fold rh0 in Hrun.
    unfold addUnigramWordOfHelper in Hrun.
    destruct (addUnigramWordLoop_path NOT_A_PROBABILITY NOT_A_VALID_WORD_POS word length
                probability b Hchildren fuel fuel b' _ _ _ linkFieldPos _ Hsib Hlink
                ltac:(rewrite Hprev; lia) Hrun)
      as (n & final & parentPos' & Hlevel & _ & Haction).
    rewrite Hprev in Hlevel.
    pose proof (addLevel_finalFacts _ _ _ _ b _ _ _ _ _ Hlevel
                  (arrays_endsChain _ b _ _ _ Harrays) ltac:(lia)) as Hfacts.
    by apply (finalAction_stays NOT_A_PROBABILITY NOT_A_VALID_WORD_POS searched count
                Hnegative word length probability Hword b b' (getRootPosition policy)
                Hwf fuel parentPos' final). }
  (* the path of the lookup *)
  unfold getTerminalNodePositionOfWord in *.
  set (searchCodePoints := (λ c, if forceLowerCaseSearch then toLowerCase c else c)
                             <$> take (Z.to_nat inLength) inWord) in *.
  rewrite initWithNodeArrayPos_enter in Hlookup by lia. fold rh0 in Hlookup.
  destruct (lookupLoop_looks NOT_A_PROBABILITY NOT_A_VALID_WORD_POS searchCodePoints
              inLength false b Hchildren (λ _, Hdistinct) lookupFuel _ slots e pos Hsib
              (λ _, Hdistinct _ _ _ Harrays) Hlookup Hpos) as (n & Hn & Hlooks).
  rewrite Hprev in Hlooks.
  destruct (looks_ends _ _ _ _ _ _ _ _ _ _ Hlooks ltac:(lia))
    as (p & _ & Hlands & _).
  destruct (lands_last _ _ _ Hlands) as (Hin & _).
  pose proof (nodeInside_range _ _ Hin) as Hrange.
  destruct (Hstays searchCodePoints inLength) as [Hkept Hfound].
  destruct (Hfound 0 slots n pos Hlooks) as (pos' & Hpos' & Hrun').
  destruct (Hkept _ _ _ Harrays) as (more & linkFieldPos' & Harrays').
  pose proof (arrays_inside _ _ _ _ _ Harrays') as Hroot'.
  exists pos'. split; [destruct Hpos' as [->|?]; lia|]. split; [done|].
  intros fuel' Hfuel'.
  rewrite initWithNodeArrayPos_enter by lia. fold rh0.
  destruct (arrays_siblingsFrom NOT_A_PROBABILITY NOT_A_VALID_WORD_POS _ _ _ _ Harrays'
              (Z.to_nat (tail b')) rh0 ltac:(lia)) as (e' & Hsib' & _).
  apply (Hrun' more _ e' fuel' Hsib'); [|lia].
  by rewrite fetchUnlessEnd_prevTotal, enterNodeArray_prevTotal.
Qed.

(** The first array of a chain, and the chain its forward link leads to. *)
Lemma arrays_first (NOT_A_PROBABILITY : Z) (b : Buffer) (a : Z) (slots : list Z)
    (linkFieldPos : Z) :
  arrays NOT_A_PROBABILITY b a slots linkFieldPos →
  ∃ ps l rest,
    slots = ps ++ rest
    ∧ getPtNodeArraySize b a = Some (Z.of_nat (List.length ps))
    ∧ slotsAt NOT_A_PROBABILITY b (a + 1) ps l
    ∧ (getForwardLinkPosition b l = NOT_A_DICT_POS ∧ rest = []
       ∨ getForwardLinkPosition b l ≠ NOT_A_DICT_POS
         ∧ arrays NOT_A_PROBABILITY b (getForwardLinkPosition b l) rest linkFieldPos).
Proof.
  destruct 1 as [a ps l _ Hsize Hslots _ Hlink
                |a ps l rest l' _ Hsize Hslots _ Hlink _ Hrest].
  - exists ps, l, []. rewrite app_nil_r. split; [done|]. split; [done|].
    split; [done|]. by left.
  - exists ps, l, rest. split; [done|]. split; [done|]. split; [done|]. by right.
Qed.

(** The field an array size is read from, and the positions of an array of
    no PtNode and of one PtNode. *)
Lemma getPtNodeArraySize_cell (b : Buffer) (a n : Z) :
  getPtNodeArraySize b a = Some n → cells b !! a = Some (FPtNodeArraySize n).
Proof.
  unfold getPtNodeArraySize. intros H.
  destruct (cells b !! a) as [[]|]; try discriminate H. by injection H as ->.
Qed.

Lemma slotsAt_none (NOT_A_PROBABILITY : Z) (b : Buffer) (pos linkFieldPos : Z) :
  slotsAt NOT_A_PROBABILITY b pos [] linkFieldPos → linkFieldPos = pos.
Proof. done. Qed.

Lemma slotsAt_one (NOT_A_PROBABILITY : Z) (b : Buffer) (pos p linkFieldPos : Z) :
  slotsAt NOT_A_PROBABILITY b pos [p] linkFieldPos →
  p = pos ∧ linkFieldPos = endOfPtNode NOT_A_PROBABILITY b p.
Proof. by intros (? & _ & ?). Qed.

(** In the dictionary that holds [cat] the chains of PtNode arrays are the
    one of the root, at position 1, and its second array, at position 3;
    both hold the one PtNode at position 4. *)
Lemma exampleTrieWithCat_siblingsDistinct :
  siblingsDistinct (-1) (-99) exampleTrieWithCat.
Proof.
  assert (Hcheck : map_Forall
            (λ x f, match f with
                    | FPtNodeArraySize _ => bool_decide (x = 1 ∨ x = 3)
                    | _ => true
                    end = true)
            (cells exampleTrieWithCat))
    by (apply (bool_decide_unpack _); vm_compute; exact I).
  assert (Hsizes : ∀ a n, getPtNodeArraySize exampleTrieWithCat a = Some n →
            a = 1 ∨ a = 3).
  { intros a n Hn. apply getPtNodeArraySize_cell in Hn. apply Hcheck in Hn.
    by apply bool_decide_eq_true in Hn. }
  assert (H1 : getPtNodeArraySize exampleTrieWithCat 1 = Some 0)
    by (vm_compute; reflexivity).
  assert (H3 : getPtNodeArraySize exampleTrieWithCat 3 = Some 1)
    by (vm_compute; reflexivity).
  assert (Hlink2 : getForwardLinkPosition exampleTrieWithCat (1 + 1) = 3)
    by (vm_compute; reflexivity).
  assert (Hlink9 : getForwardLinkPosition exampleTrieWithCat
                     (endOfPtNode (-1) exampleTrieWithCat (3 + 1)) = NOT_A_DICT_POS)
    by (vm_compute; reflexivity).
  assert (Hsecond : ∀ slots linkFieldPos,
            arrays (-1) exampleTrieWithCat 3 slots linkFieldPos → ∃ p, slots = [p]).
  { intros slots linkFieldPos Harrays.
    destruct (arrays_first _ _ _ _ _ Harrays)
      as (ps & l & rest & -> & Hsize & Hslots & Hlink).
    rewrite H3 in Hsize. injection Hsize as Hsize.
    destruct ps as [|p [|? ?]]; [simpl in Hsize; lia| |simpl in Hsize; lia].
    apply slotsAt_one in Hslots as [Hp Hl].
    destruct Hlink as [[_ ->]|[Hlink _]]; [by exists p|].
    exfalso. apply Hlink. rewrite Hl, Hp. exact Hlink9. }
  intros a slots linkFieldPos Harrays.
  assert (Hone : ∃ p, slots = [p]).
  { destruct (arrays_first _ _ _ _ _ Harrays)
      as (ps & l & rest & Hslots_eq & Hsize & Hslots & Hlink).
    destruct (Hsizes _ _ Hsize) as [Ha1|Ha3];
      [|rewrite Ha3 in Harrays; by apply (Hsecond _ _ Harrays)].
    rewrite Ha1 in Hsize, Hslots. rewrite H1 in Hsize. injection Hsize as Hsize.
    destruct ps; [|simpl in Hsize; lia]. apply slotsAt_none in Hslots.
    rewrite Hslots, Hlink2 in Hlink. rewrite Hslots_eq.
    destruct Hlink as [[Hlink _]|[_ Hrest]]; [discriminate Hlink|].
    by apply (Hsecond _ _ Hrest). }
  destruct Hone as [p ->]. rewrite list_fmap_singleton. apply NoDup_singleton.
Qed.

(** The theorem for [addUnigramWord(car, 180)] on the dictionary that holds
    [cat]: the PtNode of [cat] is split, and [cat] is found afterwards. *)
Lemma addUnigramWord_keeps_words_witness :
  ∃ pos', pos' ≠ -99
    ∧ (pos' = 4 ∨ tail exampleTrieWithCat <= pos')
    ∧ ∀ fuel', (2 * 100 ≤ fuel')%nat →
        getTerminalNodePositionOfWord (-1) (-99) (λ c, c) fuel' examplePolicy
          exampleTrieWithCar exampleCat 3 false = Done pos'.
Proof.
  apply (addUnigramWord_keeps_words (-1) (-99) (λ c, c) 100 100 examplePolicy
           exampleCar 3 180 exampleTrieWithCat exampleTrieWithCar exampleCat 3 false 4);
    [exact exampleTrieWithCat_wellFormed|exact exampleTrieWithCat_siblingsDistinct
    |lia|lia|simpl; lia|vm_compute; reflexivity|vm_compute; reflexivity|lia].
Defined.

(** X19.  [addBigramWords] loses no word: on a well-formed dictionary, when
    [addBigramWords] returns true for a first word of at most
    [MAX_WORD_LENGTH] code points, every word that
    [getTerminalNodePositionOfWord] found before is found afterwards, with
    twice the fuel at most: the first word at the old tail, where its PtNode
    is copied, every word of another PtNode at the position it had. *)
Theorem addBigramWords_keeps_words (NOT_A_PROBABILITY NOT_A_VALID_WORD_POS : Z)
    (toLowerCase : Z → Z) (fuel lookupFuel : nat) (policy : Policy)
    (word0 : list Z) (length0 : Z) (word1 : list Z) (length1 probability : Z)
    (b b' : Buffer) (inWord : list Z) (inLength : Z) (forceLowerCaseSearch : bool)
    (pos : Z) :
  wellFormed NOT_A_PROBABILITY NOT_A_VALID_WORD_POS b (getRootPosition policy) →
  NOT_A_VALID_WORD_POS < 0 →
  length0 <= MAX_WORD_LENGTH →
  addBigramWords NOT_A_PROBABILITY NOT_A_VALID_WORD_POS fuel policy word0 length0 word1
    length1 probability b = (b', Done tt) →
  getTerminalNodePositionOfWord NOT_A_PROBABILITY NOT_A_VALID_WORD_POS toLowerCase
    lookupFuel policy b inWord inLength forceLowerCaseSearch = Done pos →
  pos ≠ NOT_A_VALID_WORD_POS →
  ∃ word0Pos pos',
    getTerminalNodePositionOfWord NOT_A_PROBABILITY NOT_A_VALID_WORD_POS (λ c, c) fuel
      policy b word0 length0 false = Done word0Pos
    ∧ pos' ≠ NOT_A_VALID_WORD_POS
    ∧ (pos = word0Pos → pos' = tail b)
    ∧ (pos ≠ word0Pos → pos' = pos)
    ∧ ∀ fuel', (2 * lookupFuel ≤ fuel')%nat →
        getTerminalNodePositionOfWord NOT_A_PROBABILITY NOT_A_VALID_WORD_POS toLowerCase
          fuel' policy b' inWord inLength forceLowerCaseSearch = Done pos'.
Proof.
  intros Hwf Hnegative Hshort Hrun Hlookup Hpos.
  pose proof Hwf as (_ & _ & _ & Hchildren & slots & linkFieldPos & Harrays).
  pose proof (arrays_inside _ _ _ _ _ Harrays) as Hroot.
  set (rh0 := mkReadingHelper false (getRootPosition policy) 0 0 NOT_A_DICT_POS
                (invalidPtNodeInfo NOT_A_PROBABILITY NOT_A_VALID_WORD_POS)).
  destruct (arrays_siblingsFrom NOT_A_PROBABILITY NOT_A_VALID_WORD_POS _ _ _ _ Harrays
              (Z.to_nat (tail b)) rh0 ltac:(lia)) as (e & Hsib & _).
  assert (Hprev : mPrevTotalCodePointCount
                    (fetchUnlessEnd NOT_A_PROBABILITY NOT_A_VALID_WORD_POS b
                       (enterNodeArray (Z.to_nat (tail b)) b rh0
                          (getRootPosition policy))) = 0)
    by (by rewrite fetchUnlessEnd_prevTotal, enterNodeArray_prevTotal).
  (* the path of a lookup *)
  assert (Hpath : ∀ lower fuel0 w len force x,
            getTerminalNodePositionOfWord NOT_A_PROBABILITY NOT_A_VALID_WORD_POS lower
              fuel0 policy b w len force = Done x →
            x ≠ NOT_A_VALID_WORD_POS →
            ∃ n, (n ≤ fuel0)%nat
              ∧ looks NOT_A_PROBABILITY NOT_A_VALID_WORD_POS
                  ((λ c, if force then lower c else c) <$> take (Z.to_nat len) w) len
                  true b 0 slots n x).
  { intros lower fuel0 w len force x Hx Hfound.
    unfold getTerminalNodePositionOfWord in Hx.
    rewrite initWithNodeArrayPos_enter in Hx by lia. fold rh0 in Hx.
    destruct (lookupLoop_looks NOT_A_PROBABILITY NOT_A_VALID_WORD_POS _ len true b
                Hchildren ltac:(done) fuel0 _ slots e x Hsib ltac:(done) Hx Hfound)
      as (n & Hn & Hlooks).
    rewrite Hprev in Hlooks. eauto. }
  (* the PtNode of the first word *)
  unfold addBigramWords in Hrun.
  destruct (isUpdatable policy); [|done]. cbn [negb] in Hrun.
  unfold bind at 1, lookupWord at 1 in Hrun.
  destruct (getTerminalNodePositionOfWord _ _ _ fuel policy b word0 length0 false)
    as [word0Pos| |] eqn:H0; [|done|done].
  destruct (decide (word0Pos = NOT_A_VALID_WORD_POS)) as [|Hpos0]; [done|].
  unfold bind at 1, lookupWord at 1 in Hrun.
  destruct (getTerminalNodePositionOfWord _ _ _ fuel policy b word1 length1 false)
    as [word1Pos| |] eqn:H1; [|done|done].
  destruct (decide (word1Pos = NOT_A_VALID_WORD_POS)) as [|Hpos1]; [done|].
  destruct (Hpath _ _ _ _ _ _ H0 Hpos0) as (n0 & _ & Hlooks0).
  destruct (looks_ends _ _ _ _ _ _ _ _ _ _ Hlooks0 ltac:(lia))
    as (p0 & matched0 & Hlands0 & Hmatched0 & Hcount0).
  destruct (lands_last _ _ _ Hlands0) as (Hin0 & Hmoved0 & _).
  pose proof (nodeInside_range _ _ Hin0) as Hrange0.
  assert (Hshort0 : countAt NOT_A_PROBABILITY NOT_A_VALID_WORD_POS b word0Pos
                    <= MAX_WORD_LENGTH).
  { destruct (fetchNode_fields NOT_A_PROBABILITY NOT_A_VALID_WORD_POS _ _ _ Hlands0)
      as (_ & _ & Hc0 & _).
    destruct (fetchNode_fields NOT_A_PROBABILITY NOT_A_VALID_WORD_POS _ _ _
                (lands_stop _ _ Hin0 Hmoved0)) as (_ & _ & Hc1 & _).
    assert (Hsame : countAt NOT_A_PROBABILITY NOT_A_VALID_WORD_POS b word0Pos
                    = countAt NOT_A_PROBABILITY NOT_A_VALID_WORD_POS b p0)
      by (unfold countAt, getCodePointCount; by rewrite Hc0, Hc1).
    lia. }
  (* the lookup that is kept *)
  destruct (Hpath _ _ _ _ _ _ Hlookup Hpos) as (n & Hn & Hlooks).
  destruct (addBigramWordsOfHelper_stays NOT_A_PROBABILITY NOT_A_VALID_WORD_POS
              ((λ c, if forceLowerCaseSearch then toLowerCase c else c)
                 <$> take (Z.to_nat inLength) inWord) inLength Hnegative fuel word0Pos
              word1Pos probability b b' (getRootPosition policy) Hwf Hin0 Hmoved0
              Hshort0 Hrun) as [Hkept Hfound].
  destruct (Hfound 0 slots n pos Hlooks) as (pos' & [Hcopy Hsame] & Hrun').
  destruct (looks_ends _ _ _ _ _ _ _ _ _ _ Hlooks ltac:(lia)) as (p & _ & Hlands & _).
  destruct (lands_last _ _ _ Hlands) as (Hin & _).
  pose proof (nodeInside_range _ _ Hin) as Hrange.
  destruct (Hkept _ _ _ Harrays) as (more & linkFieldPos' & Harrays').
  pose proof (arrays_inside _ _ _ _ _ Harrays') as Hroot'.
  exists word0Pos, pos'. split; [done|]. split.
  { destruct (decide (pos = word0Pos)) as [Heq|Hne];
      [rewrite (Hcopy Heq)|rewrite (Hsame Hne)]; lia. }
  split; [done|]. split; [done|]. intros fuel' Hfuel'.
  unfold getTerminalNodePositionOfWord.
  rewrite initWithNodeArrayPos_enter by lia. fold rh0.
  destruct (arrays_siblingsFrom NOT_A_PROBABILITY NOT_A_VALID_WORD_POS _ _ _ _ Harrays'
              (Z.to_nat (tail b')) rh0 ltac:(lia)) as (e' & Hsib' & _).
  apply (Hrun' more _ e' fuel' Hsib'); [|lia].
  by rewrite fetchUnlessEnd_prevTotal, enterNodeArray_prevTotal.
Qed.

(** The theorem for [addBigramWords(cat, car, 5)] on the dictionary that
    holds [cat] and [car], and the lookup of [cat], whose PtNode, at
    position 15, is copied to the tail. *)
Lemma addBigramWords_keeps_words_witness :
  ∃ word0Pos pos',
    getTerminalNodePositionOfWord (-1) (-99) (λ c, c) 100 examplePolicy
      exampleTrieWithCar exampleCat 3 false = Done word0Pos
    ∧ pos' ≠ -99
    ∧ (15 = word0Pos → pos' = tail exampleTrieWithCar)
    ∧ (15 ≠ word0Pos → pos' = 15)
    ∧ ∀ fuel', (2 * 100 ≤ fuel')%nat →
        getTerminalNodePositionOfWord (-1) (-99) (λ c, c) fuel' examplePolicy
          exampleTrieWithBigram exampleCat 3 false = Done pos'.
Proof.
  apply (addBigramWords_keeps_words (-1) (-99) (λ c, c) 100 100 examplePolicy
           exampleCat 3 exampleCar 3 5 exampleTrieWithCar exampleTrieWithBigram
           exampleCat 3 false 15);
    [exact exampleTrieWithCar_wellFormed|lia|unfold MAX_WORD_LENGTH; lia
    |vm_compute; reflexivity|vm_compute; reflexivity|lia].
Defined.

(** ** What a mutation that returns false leaves in the buffer *)

(** A write is a position and the field written there.  It is accepted when
    [writeField] does not refuse it. *)
Definition accepted (b : Buffer) (w : Z * Field) : bool :=
  match (writeField w.2 w.1 b).2 with
  | Done _ => true
  | _ => false
  end.

(** What an accepted write of the buffer [b] leaves in a later buffer [b']:
    an append has moved the tail, a patch is the field at its position. *)
Definition holdsWrite (b b' : Buffer) (w : Z * Field) : Prop :=
  if decide (w.1 = tail b) then tail b < tail b' else cells b' !! w.1 = Some w.2.

Lemma bind_assoc {A B C} (m : Write A) (k1 : A → Write B) (k2 : B → Write C) b :
  bind (bind m k1) k2 b = bind m (λ a, bind (k1 a) k2) b.
Proof. unfold bind. by destruct (m b) as [b1 [a| |]]. Qed.

Lemma accepted_Done b w :
  accepted b w = true → ∃ b1, writeField w.2 w.1 b = (b1, Done (w.1 + 1)).
Proof.
  unfold accepted. destruct (writeField w.2 w.1 b) as [b1 [r| |]] eqn:Hw; [|done|done].
  intros _. exists b1. by apply writeField_Done in Hw as Hr; destruct Hr as (-> & _).
Qed.

Lemma accepted_Failed b w : accepted b w = false → writeField w.2 w.1 b = (b, Failed).
Proof.
  unfold accepted. destruct (writeField w.2 w.1 b) as [b1 [r| |]] eqn:Hw; [done| |].
  - intros _. by apply writeField_Failed in Hw as ->.
  - unfold writeField in Hw. repeat case_match; by simplify_eq.
Qed.

Lemma accepted_le b w : accepted b w = true → w.1 <= tail b.
Proof.
  intros [b1 Hw]%accepted_Done.
  apply writeField_Done in Hw as (_ & _ & [[-> _]|(_ & ? & _)]); lia.
Qed.

(** *** Writes that leave an accepted write alone *)

Section Held.

(** [w] is a write at or below the tail of [b], of a field that is not a
    parent offset. *)
Variable b : Buffer.
Variable w : Z * Field.
Hypothesis w_le : w.1 <= tail b.
Hypothesis w_kind : ∀ o, sameKind (FParentOffset o) w.2 = false.

Variable NOT_A_PROBABILITY : Z.
Variable NOT_A_VALID_WORD_POS : Z.

(** [w] stays, and the tail stays at or above the tail of [b]. *)
Definition held : Buffer → Prop := Inv (tail b) (λ x, holdsWrite b x w) true.

(** A write at or above the tail of [b], at another position, or of a field
    of another kind leaves [w]. *)
Lemma holdsWrite_write f pos x :
  tail b <= pos ∨ pos ≠ w.1 ∨ sameKind f w.2 = false →
  tail b <= tail x → holdsWrite b x w → holdsWrite b (writeField f pos x).1 w.
Proof.
  unfold holdsWrite. intros Hcase Htail.
  destruct (writeField_any f pos x) as (Hother & Hmono & _).
  destruct (decide (w.1 = tail b)) as [Heq|Hne]; [lia|]. intros Hx.
  destruct (decide (pos = w.1)) as [->|Hpos]; [|by rewrite Hother].
  destruct Hcase as [?|[?|Hk]]; [lia|done|].
  apply writeField_other_kind; [lia|done|done].
Qed.

Lemma held_above f pos x :
  tail b <= pos → tail b <= tail x → holdsWrite b x w →
  holdsWrite b (writeField f pos x).1 w.
Proof. intros Hpos. apply holdsWrite_write. by left. Qed.

Lemma held_parent movedPos c x :
  tail b <= tail x → holdsWrite b x w →
  holdsWrite b (writeField (FParentOffset (movedPos - c)) (c + 1) x).1 w.
Proof. apply holdsWrite_write. right. right. apply w_kind. Qed.

Lemma keeps_held_writeField f pos :
  tail b <= pos ∨ pos ≠ w.1 ∨ sameKind f w.2 = false →
  keeps held (λ _ : Z, True) (writeField f pos).
Proof.
  intros Hcase x [Htail Hx]. split; [|done].
  destruct (writeField_any f pos x) as (_ & Hmono & _).
  split; [lia|]. intros _. apply holdsWrite_write; auto.
Qed.

Lemma keeps_held_above f pos :
  tail b <= pos → keeps held (λ r : Z, tail b <= r) (writeField f pos).
Proof. apply (keeps_writeField_above _ _ held_above true). Qed.

Lemma keeps_held_writePtNodeWithFullInfoToBuffer isBlacklisted isNotAWord parentPos
    codePoints codePointCount probability childrenPos originalBigramListPos
    originalShortcutListPos writingPos :
  tail b <= writingPos →
  keeps held (λ r : Z, tail b <= r)
        (writePtNodeWithFullInfoToBuffer NOT_A_PROBABILITY isBlacklisted isNotAWord
           parentPos codePoints codePointCount probability childrenPos
           originalBigramListPos originalShortcutListPos writingPos).
Proof. apply (keeps_writePtNodeWithFullInfoToBuffer _ _ held_above). Qed.

Lemma keeps_held_createNewPtNodeArrayWithAChildPtNode parentPos codePoints count
    probability :
  keeps held (λ _ : unit, True)
        (createNewPtNodeArrayWithAChildPtNode NOT_A_PROBABILITY parentPos codePoints
           count probability).
Proof.
  unfold createNewPtNodeArrayWithAChildPtNode, writePtNodeArraySizeAndAdvancePosition,
    writePtNodeToBuffer, writeForwardLinkPositionAndAdvancePosition, getTailPosition.
  eapply keeps_bind; [apply keeps_current|intros x [Hx _]; cbv beta].
  eapply keeps_bind; [by apply keeps_held_above|intros r Hr; cbv beta].
  eapply keeps_bind;
    [by apply keeps_held_writePtNodeWithFullInfoToBuffer|intros r2 Hr2; cbv beta].
  eapply keeps_bind; [by apply keeps_held_above|intros ? _]. by apply keeps_ret.
Qed.

(** What [markNodeAsMovedAndSetPosition] does after its write of the flags,
    when [w] is that write. *)
Lemma keeps_held_marked fuel n movedPos linked r :
  r ≠ w.1 → (∀ c, sameKind (FChildrenPos c) w.2 = false) →
  keeps held (λ _ : unit, True)
    (let* writingPos := writeParentOffsetAndAdvancePosition (movedPos - getHeadPos n) r in
     let* _ := writeChildrenPositionAndAdvancePosition linked
                 (getChildrenPosFieldPos n) in
     if hasChildren n then
       let* b := current in
       updateChildrenParentLoop NOT_A_PROBABILITY NOT_A_VALID_WORD_POS fuel
         (initWithNodeArrayPos NOT_A_PROBABILITY NOT_A_VALID_WORD_POS b
            (getChildrenPos n)) movedPos
     else ret tt).
Proof.
  intros Hr Hchildren.
  unfold writeParentOffsetAndAdvancePosition, writeChildrenPositionAndAdvancePosition.
  eapply keeps_bind; [apply keeps_held_writeField; auto|intros ? _; cbv beta].
  eapply keeps_bind; [apply keeps_held_writeField; auto|intros ? _; cbv beta].
  destruct (hasChildren n); [|by apply keeps_ret].
  eapply keeps_bind; [apply keeps_current|intros x _; cbv beta].
  apply (keeps_updateChildrenParentLoop _ _ _ (held_parent movedPos)).
Qed.

Lemma keeps_held_addNewBigramEntryLoop fuel bigramPos probability pos :
  (∀ t p n, sameKind (FBigramEntry t p n) w.2 = false) →
  keeps held (λ _ : unit, True) (addNewBigramEntryLoop fuel bigramPos probability pos).
Proof.
  intros Hentry. revert pos. induction fuel as [|fuel IH]; intros pos; simpl;
    [apply keeps_outOfFuel|].
  eapply keeps_bind; [apply keeps_current|intros x _; cbv beta].
  destruct (cells x !! pos) as [[]|]; try apply keeps_fail.
  destruct (decide _).
  - eapply keeps_bind; [apply keeps_held_writeField; auto|intros ? _]. by apply keeps_ret.
  - destruct hasNext; [apply IH|].
    eapply keeps_bind; [apply keeps_held_writeField; auto|intros ? _; cbv beta].
    unfold writeNewBigramEntry.
    eapply keeps_bind; [apply keeps_held_writeField; auto|intros ? _]. by apply keeps_ret.
Qed.

End Held.

(** The buffer a writer leaves when it returns false, [w] being its first
    write: [w] is held when it was accepted, and the buffer is as before
    when it was refused. *)
Definition leftAfter (b b' : Buffer) (w : Z * Field) : Prop :=
  if accepted b w then holdsWrite b b' w else b' = b.

Lemma held_first b w b1 r : writeField w.2 w.1 b = (b1, Done r) → held b w b1.
Proof.
  intros (_ & -> & Hcase)%writeField_Done. unfold held, Inv, holdsWrite. simpl.
  destruct (decide (w.1 = tail b)); split; try lia; intros _; try lia.
  by rewrite lookup_insert_eq.
Qed.

(** A writer that starts with the write of [f] at [pos]. *)
Lemma first_write_Failed {A} f pos (K : Z → Write A) b b' :
  bind (writeField f pos) K b = (b', Failed) →
  (accepted b (pos, f) = true →
   keeps (held b (pos, f)) (λ _ : A, True) (K (pos + 1))) →
  leftAfter b b' (pos, f).
Proof.
  intros Hrun HK. unfold leftAfter. destruct (accepted b (pos, f)) eqn:Hacc.
  - destruct (accepted_Done _ _ Hacc) as [b1 Hw]. simpl in Hw.
    unfold bind in Hrun. rewrite Hw in Hrun.
    destruct (keeps_run _ _ _ _ _ _ (HK eq_refl) (held_first b (pos, f) _ _ Hw) Hrun)
      as [[_ Hheld] _].
    by apply Hheld.
  - apply accepted_Failed in Hacc. simpl in Hacc.
    unfold bind in Hrun. rewrite Hacc in Hrun. by injection Hrun as <-.
Qed.

Section FirstWrite.

Variable NOT_A_PROBABILITY : Z.
Variable NOT_A_VALID_WORD_POS : Z.

(** The first write of [markNodeAsMovedAndSetPosition]: the flags of the
    node, with isMoved. *)
Definition firstWriteOfMarking (b : Buffer) (originalNode : NodeReader) : Z * Field :=
  let pos := getHeadPos originalNode in
  (pos, FFlags (updateAndGetFlags (getFlags b pos) true false)).

(** The first write of [setPtNodeProbability]. *)
Definition firstWriteOfSetPtNodeProbability (b : Buffer) (originalPtNode : NodeReader)
    (probability : Z) : Z * Field :=
  if isTerminal originalPtNode
  then (getProbabilityFieldPos originalPtNode, FProbability probability)
  else firstWriteOfMarking b originalPtNode.

(** The first write [addUnigramWordLoop] reaches, if any: the loop only
    reads until it calls one of the four writers. *)
Fixpoint firstWriteOfAddUnigramWordLoop (fuel : nat) (rh : ReadingHelper)
    (wordCodePoints : list Z) (codePointCount probability : Z) (b : Buffer)
    : option (Z * Field) :=
  if isEnd rh then
    if isError rh then None
    else
      (* createAndInsertNodeIntoPtNodeArray *)
      Some (getPosOfLastForwardLinkField rh, FForwardLinkPos (getTailPosition b))
  else
    match fuel with
    | O => None
    | S fuel' =>
        let matchedCodePointCount := getPrevTotalCodePointCount rh in
        if negb (isMatchedCodePoint rh 0 (codePointAt wordCodePoints matchedCodePointCount))
        then
          firstWriteOfAddUnigramWordLoop fuel'
            (readNextSiblingNode NOT_A_PROBABILITY NOT_A_VALID_WORD_POS b rh)
            wordCodePoints codePointCount probability b
        else
          let nodeReader := getNodeReader rh in
          let nodeCodePointCount := getCodePointCount nodeReader in
          match findSplit (Z.to_nat (nodeCodePointCount - 1)) rh wordCodePoints
                  codePointCount matchedCodePointCount 1 with
          | Some j =>
              (* reallocatePtNodeAndAddNewPtNodes *)
              Some (getTailPosition b, FFlags noFlags)
          | None =>
              if decide (codePointCount = getTotalCodePointCount rh) then
                Some (firstWriteOfSetPtNodeProbability b nodeReader probability)
              else if negb (hasChildren nodeReader) then
                (* createChildrenPtNodeArrayAndAChildPtNode *)
                Some (getChildrenPosFieldPos nodeReader, FChildrenPos (getTailPosition b))
              else
                firstWriteOfAddUnigramWordLoop fuel'
                  (readChildNode NOT_A_PROBABILITY NOT_A_VALID_WORD_POS b rh)
                  wordCodePoints codePointCount probability b
          end
    end.

(** The write of [removeBigramLoop], if it reaches it. *)
Fixpoint firstWriteOfRemoveBigramLoop (fuel : nat) (pos targetBigramPos : Z) (b : Buffer)
    : option (Z * Field) :=
  match fuel with
  | O => None
  | S fuel' =>
      match cells b !! pos with
      | Some (FBigramEntry target probability hasNext) =>
          if decide (target = targetBigramPos) then
            Some (pos, FBigramEntry NOT_A_VALID_WORD_POS probability hasNext)
          else if hasNext then
            firstWriteOfRemoveBigramLoop fuel' (pos + 1) targetBigramPos b
          else None
      | _ => None
      end
  end.

(** The first write of [removeBigramWordsOfHelper], if it reaches one. *)
Definition firstWriteOfRemoveBigramWords (b : Buffer) (word0Pos word1Pos : Z)
    : option (Z * Field) :=
  let nodeReader := fetchNodeInfoFromBuffer NOT_A_PROBABILITY NOT_A_VALID_WORD_POS b
                      word0Pos in
  if decide (getBigramsPos nodeReader = NOT_A_DICT_POS) then None
  else
    firstWriteOfRemoveBigramLoop (S (listFuel b (getBigramsPos nodeReader)))
      (getBigramsPos nodeReader) word1Pos b.

(** The positions of the two words of a bigram, when both are found. *)
Definition lookupBoth (fuel : nat) (policy : Policy) (b : Buffer) (word0 : list Z)
    (length0 : Z) (word1 : list Z) (length1 : Z) : option (Z * Z) :=
  match getTerminalNodePositionOfWord NOT_A_PROBABILITY NOT_A_VALID_WORD_POS (λ c, c)
          fuel policy b word0 length0 false with
  | Done word0Pos =>
      if decide (word0Pos = NOT_A_VALID_WORD_POS) then None
      else
        match getTerminalNodePositionOfWord NOT_A_PROBABILITY NOT_A_VALID_WORD_POS
                (λ c, c) fuel policy b word1 length1 false with
        | Done word1Pos =>
            if decide (word1Pos = NOT_A_VALID_WORD_POS) then None
            else Some (word0Pos, word1Pos)
        | _ => None
        end
  | _ => None
  end.

(** The first write a call of a mutation reaches in the buffer [b], if it
    reaches one: what the call does before it only reads. *)
Definition firstWrite (fuel : nat) (policy : Policy) (m : PolicyMutation) (b : Buffer)
    : option (Z * Field) :=
  if negb (isUpdatable policy) then None
  else
    match m with
    | CallAddUnigramWord word length probability =>
        firstWriteOfAddUnigramWordLoop fuel
          (initWithNodeArrayPos NOT_A_PROBABILITY NOT_A_VALID_WORD_POS b
             (getRootPosition policy))
          word length probability b
    | CallAddBigramWords word0 length0 word1 length1 probability =>
        match lookupBoth fuel policy b word0 length0 word1 length1 with
        | Some (word0Pos, word1Pos) =>
            Some (firstWriteOfMarking b
                    (fetchNodeInfoFromBuffer NOT_A_PROBABILITY NOT_A_VALID_WORD_POS b
                       word0Pos))
        | None => None
        end
    | CallRemoveBigramWords word0 length0 word1 length1 =>
        match lookupBoth fuel policy b word0 length0 word1 length1 with
        | Some (word0Pos, word1Pos) => firstWriteOfRemoveBigramWords b word0Pos word1Pos
        | None => None
        end
    end.

Lemma createAndInsertNodeIntoPtNodeArray_Failed parentPos codePoints count probability
    pos b b' :
  createAndInsertNodeIntoPtNodeArray NOT_A_PROBABILITY parentPos codePoints count
    probability pos b = (b', Failed) →
  leftAfter b b' (pos, FForwardLinkPos (getTailPosition b)).
Proof.
  unfold createAndInsertNodeIntoPtNodeArray, writeForwardLinkPositionAndAdvancePosition.
  rewrite bind_current. intros Hrun. apply (first_write_Failed _ _ _ _ _ Hrun).
  intros Hacc%accepted_le. by apply keeps_held_createNewPtNodeArrayWithAChildPtNode.
Qed.

Lemma createChildrenPtNodeArrayAndAChildPtNode_Failed n probability codePoints count
    b b' :
  createChildrenPtNodeArrayAndAChildPtNode NOT_A_PROBABILITY n probability codePoints
    count b = (b', Failed) →
  leftAfter b b' (getChildrenPosFieldPos n, FChildrenPos (getTailPosition b)).
Proof.
  unfold createChildrenPtNodeArrayAndAChildPtNode,
    writeChildrenPositionAndAdvancePosition.
  rewrite bind_current. intros Hrun. apply (first_write_Failed _ _ _ _ _ Hrun).
  intros Hacc%accepted_le. by apply keeps_held_createNewPtNodeArrayWithAChildPtNode.
Qed.

Lemma setPtNodeProbability_Failed fuel n probability codePoints b b' :
  setPtNodeProbability NOT_A_PROBABILITY NOT_A_VALID_WORD_POS fuel n probability
    codePoints b = (b', Failed) →
  leftAfter b b' (firstWriteOfSetPtNodeProbability b n probability).
Proof.
  unfold setPtNodeProbability, firstWriteOfSetPtNodeProbability.
  destruct (isTerminal n).
  - unfold writeProbabilityAndAdvancePosition. intros Hrun.
    apply (first_write_Failed _ _ _ _ _ Hrun). intros _. by apply keeps_ret.
  - rewrite bind_current. unfold markNodeAsMovedAndSetPosition.
    rewrite bind_assoc, bind_current. unfold writeFlagsAndAdvancePosition.
    rewrite bind_assoc. intros Hrun.
    apply (first_write_Failed _ _ _ _ _ Hrun). intros Hacc%accepted_le.
    simpl in Hacc.
    eapply keeps_bind; [apply keeps_held_marked; simpl; [done|done|lia|done]
                       |intros ? _; cbv beta].
    unfold writePtNodeToBufferByCopyingPtNodeInfo, getTailPosition.
    eapply keeps_bind;
      [by apply keeps_held_writePtNodeWithFullInfoToBuffer|intros ? _].
    by apply keeps_ret.
Qed.

Lemma addBigramWordsOfHelper_Failed fuel word0Pos word1Pos probability b b' :
  addBigramWordsOfHelper NOT_A_PROBABILITY NOT_A_VALID_WORD_POS fuel word0Pos word1Pos
    probability b = (b', Failed) →
  leftAfter b b'
    (firstWriteOfMarking b
       (fetchNodeInfoFromBuffer NOT_A_PROBABILITY NOT_A_VALID_WORD_POS b word0Pos)).
Proof.
  unfold addBigramWordsOfHelper, fetchNodeInfoFromBufferAndGetNodeCodePoints.
  rewrite bind_current. cbv zeta. simpl fst. simpl snd.
  unfold markNodeAsMovedAndSetPosition.
  rewrite bind_assoc, bind_current. unfold writeFlagsAndAdvancePosition at 1.
  rewrite bind_assoc. intros Hrun.
  apply (first_write_Failed _ _ _ _ _ Hrun). intros Hacc%accepted_le.
  simpl in Hacc.
  eapply keeps_bind; [apply keeps_held_marked; simpl; [done|done|lia|done]
                     |intros ? _; cbv beta].
  unfold writePtNodeToBufferByCopyingPtNodeInfo, getTailPosition.
  eapply keeps_bind;
    [by apply keeps_held_writePtNodeWithFullInfoToBuffer|intros r Hr; cbv beta].
  eapply keeps_bind; [apply keeps_current|intros x _; cbv beta].
  destruct (decide _).
  - unfold addNewBigramEntryToBigramList.
    eapply keeps_bind; [apply keeps_current|intros ? _; cbv beta].
    by apply keeps_held_addNewBigramEntryLoop.
  - unfold writeNewBigramEntry, writeFlagsAndAdvancePosition.
    eapply keeps_bind;
      [apply keeps_held_writeField; simpl; [done|by right; right]
      |intros ? _; cbv beta].
    eapply keeps_bind;
      [apply keeps_held_writeField; simpl; [done|left; lia]|intros ? _].
    by apply keeps_ret.
Qed.

Lemma reallocatePtNodeAndAddNewPtNodes_Failed fuel n codePoints j probability
    newCodePoints newCount b b' :
  reallocatePtNodeAndAddNewPtNodes NOT_A_PROBABILITY NOT_A_VALID_WORD_POS fuel n
    codePoints j probability newCodePoints newCount b = (b', Failed) →
  leftAfter b b' (getTailPosition b, FFlags noFlags).
Proof.
  unfold reallocatePtNodeAndAddNewPtNodes. rewrite bind_current.
  unfold writePtNodeToBuffer at 1, writePtNodeWithFullInfoToBuffer at 1.
  rewrite bind_assoc. unfold writeFlagsAndAdvancePosition at 1, getTailPosition.
  intros Hrun. apply (first_write_Failed _ _ _ _ _ Hrun). intros _.
  assert (Hw : ∀ f pos x, held b (tail b, FFlags noFlags) x →
                 held b (tail b, FFlags noFlags) (writeField f pos x).1).
  { intros f pos x [Htail Hx]. destruct (writeField_any f pos x) as (_ & Hmono & _).
    specialize (Hx eq_refl). unfold holdsWrite in Hx. simpl in Hx.
    rewrite decide_True in Hx by done.
    split; [lia|]. intros _. unfold holdsWrite. simpl. rewrite decide_True by done. lia. }
  lazymatch goal with |- keeps ?I _ ?m => change (always I m) end.
  always_with Hw.
Qed.

Lemma addUnigramWordLoop_Failed fuel moveFuel rh word count probability parentPos b b' :
  addUnigramWordLoop NOT_A_PROBABILITY NOT_A_VALID_WORD_POS fuel moveFuel rh word count
    probability parentPos b = (b', Failed) →
  match firstWriteOfAddUnigramWordLoop fuel rh word count probability b with
  | Some w => leftAfter b b' w
  | None => b' = b
  end.
Proof.
  revert rh parentPos. induction fuel as [|fuel IH]; intros rh parentPos;
    cbn [addUnigramWordLoop firstWriteOfAddUnigramWordLoop];
    (destruct (isEnd rh);
     [destruct (isError rh);
      [by intros [= <-]|apply createAndInsertNodeIntoPtNodeArray_Failed]|]);
    [by intros [=]|].
  cbv zeta.
  destruct (negb (isMatchedCodePoint _ _ _)); [rewrite bind_current; apply IH|].
  destruct (findSplit _ _ _ _ _ _); [apply reallocatePtNodeAndAddNewPtNodes_Failed|].
  destruct (decide _); [apply setPtNodeProbability_Failed|].
  destruct (negb _); [apply createChildrenPtNodeArrayAndAChildPtNode_Failed|].
  rewrite bind_current. apply IH.
Qed.

(** [removeBigramLoop] returns false only when it reaches no write or its
    write is refused. *)
Lemma removeBigramLoop_refused fuel pos targetBigramPos b b' :
  removeBigramLoop NOT_A_VALID_WORD_POS fuel pos targetBigramPos b = (b', Failed) →
  match firstWriteOfRemoveBigramLoop fuel pos targetBigramPos b with
  | Some w => accepted b w = false
  | None => True
  end.
Proof.
  revert pos. induction fuel as [|fuel IH]; intros pos; simpl; [done|].
  rewrite bind_current. destruct (cells b !! pos) as [[]|]; try done.
  destruct (decide _).
  - unfold bind, accepted, ret. simpl.
    by destruct (writeField _ pos b) as [b1 [r| |]].
  - destruct hasNext; [apply IH|done].
Qed.

(** The two lookups of [addBigramWords] and [removeBigramWords]. *)
Lemma lookupBoth_Failed {A} fuel policy word0 length0 word1 length1
    (k : Z → Z → Write A) b b' :
  (let* word0Pos := lookupWord NOT_A_PROBABILITY NOT_A_VALID_WORD_POS fuel policy word0
                      length0 in
   if decide (word0Pos = NOT_A_VALID_WORD_POS) then fail
   else
     let* word1Pos := lookupWord NOT_A_PROBABILITY NOT_A_VALID_WORD_POS fuel policy
                        word1 length1 in
     if decide (word1Pos = NOT_A_VALID_WORD_POS) then fail
     else k word0Pos word1Pos) b = (b', Failed) →
  match lookupBoth fuel policy b word0 length0 word1 length1 with
  | Some (word0Pos, word1Pos) => k word0Pos word1Pos b = (b', Failed)
  | None => b' = b
  end.
Proof.
  unfold bind, lookupWord, lookupBoth, fail.
  destruct (getTerminalNodePositionOfWord _ _ _ _ _ _ word0 _ _) as [word0Pos| |];
    [|by intros [= <-]|by intros [=]].
  destruct (decide _); [by intros [= <-]|].
  destruct (getTerminalNodePositionOfWord _ _ _ _ _ _ word1 _ _) as [word1Pos| |];
    [|by intros [= <-]|by intros [=]].
  by destruct (decide _); [intros [= <-]|].
Qed.

(** *** The first write is what the call does first *)

Lemma first_write_refused {A} f pos (K : Z → Write A) b :
  accepted b (pos, f) = false → bind (writeField f pos) K b = (b, Failed).
Proof. intros Hacc%accepted_Failed. unfold bind. simpl in Hacc. by rewrite Hacc. Qed.

Lemma setPtNodeProbability_refused fuel n probability codePoints b :
  accepted b (firstWriteOfSetPtNodeProbability b n probability) = false →
  setPtNodeProbability NOT_A_PROBABILITY NOT_A_VALID_WORD_POS fuel n probability
    codePoints b = (b, Failed).
Proof.
  unfold setPtNodeProbability, firstWriteOfSetPtNodeProbability.
  destruct (isTerminal n).
  - unfold writeProbabilityAndAdvancePosition. apply first_write_refused.
  - rewrite bind_current. unfold markNodeAsMovedAndSetPosition.
    rewrite bind_assoc, bind_current. unfold writeFlagsAndAdvancePosition.
    rewrite bind_assoc. apply first_write_refused.
Qed.

Lemma reallocatePtNodeAndAddNewPtNodes_refused fuel n codePoints j probability
    newCodePoints newCount b :
  accepted b (getTailPosition b, FFlags noFlags) = false →
  reallocatePtNodeAndAddNewPtNodes NOT_A_PROBABILITY NOT_A_VALID_WORD_POS fuel n
    codePoints j probability newCodePoints newCount b = (b, Failed).
Proof.
  unfold reallocatePtNodeAndAddNewPtNodes. rewrite bind_current.
  unfold writePtNodeToBuffer at 1, writePtNodeWithFullInfoToBuffer at 1.
  rewrite bind_assoc. unfold writeFlagsAndAdvancePosition at 1, getTailPosition.
  apply first_write_refused.
Qed.

Lemma addBigramWordsOfHelper_refused fuel word0Pos word1Pos probability b :
  accepted b
    (firstWriteOfMarking b
       (fetchNodeInfoFromBuffer NOT_A_PROBABILITY NOT_A_VALID_WORD_POS b word0Pos))
  = false →
  addBigramWordsOfHelper NOT_A_PROBABILITY NOT_A_VALID_WORD_POS fuel word0Pos word1Pos
    probability b = (b, Failed).
Proof.
  unfold addBigramWordsOfHelper, fetchNodeInfoFromBufferAndGetNodeCodePoints.
  rewrite bind_current. cbv zeta. simpl fst. simpl snd.
  unfold markNodeAsMovedAndSetPosition.
  rewrite bind_assoc, bind_current. unfold writeFlagsAndAdvancePosition at 1.
  rewrite bind_assoc. apply first_write_refused.
Qed.

Lemma addUnigramWordLoop_reaches fuel moveFuel rh word count probability parentPos b :
  match firstWriteOfAddUnigramWordLoop fuel rh word count probability b with
  | Some w =>
      accepted b w = false →
      addUnigramWordLoop NOT_A_PROBABILITY NOT_A_VALID_WORD_POS fuel moveFuel rh word
        count probability parentPos b = (b, Failed)
  | None =>
      ∃ r, addUnigramWordLoop NOT_A_PROBABILITY NOT_A_VALID_WORD_POS fuel moveFuel rh
             word count probability parentPos b = (b, r)
           ∧ r ≠ Done tt
  end.
Proof.
  revert rh parentPos. induction fuel as [|fuel IH]; intros rh parentPos;
    cbn [addUnigramWordLoop firstWriteOfAddUnigramWordLoop];
    (destruct (isEnd rh);
     [destruct (isError rh); [by exists Failed|]|]);
    [|by exists OutOfFuel| |].
  1, 2: unfold createAndInsertNodeIntoPtNodeArray,
          writeForwardLinkPositionAndAdvancePosition;
        rewrite bind_current; apply first_write_refused.
  cbv zeta.
  destruct (negb (isMatchedCodePoint _ _ _)); [rewrite bind_current; apply IH|].
  destruct (findSplit _ _ _ _ _ _); [apply reallocatePtNodeAndAddNewPtNodes_refused|].
  destruct (decide _); [apply setPtNodeProbability_refused|].
  destruct (negb _); [|rewrite bind_current; apply IH].
  unfold createChildrenPtNodeArrayAndAChildPtNode,
    writeChildrenPositionAndAdvancePosition.
  rewrite bind_current. apply first_write_refused.
Qed.

Lemma removeBigramLoop_reaches fuel pos targetBigramPos b :
  match firstWriteOfRemoveBigramLoop fuel pos targetBigramPos b with
  | Some w =>
      accepted b w = false →
      removeBigramLoop NOT_A_VALID_WORD_POS fuel pos targetBigramPos b = (b, Failed)
  | None =>
      ∃ r, removeBigramLoop NOT_A_VALID_WORD_POS fuel pos targetBigramPos b = (b, r)
           ∧ r ≠ Done tt
  end.
Proof.
  revert pos. induction fuel as [|fuel IH]; intros pos; simpl; [by exists OutOfFuel|].
  rewrite bind_current. destruct (cells b !! pos) as [[]|]; try (by exists Failed).
  destruct (decide _); [apply first_write_refused|].
  destruct hasNext; [apply IH|by exists Failed].
Qed.

Lemma lookupBoth_reaches {A} fuel policy word0 length0 word1 length1
    (k : Z → Z → Write A) b :
  match lookupBoth fuel policy b word0 length0 word1 length1 with
  | Some (word0Pos, word1Pos) =>
      (let* word0Pos := lookupWord NOT_A_PROBABILITY NOT_A_VALID_WORD_POS fuel policy
                          word0 length0 in
       if decide (word0Pos = NOT_A_VALID_WORD_POS) then fail
       else
         let* word1Pos := lookupWord NOT_A_PROBABILITY NOT_A_VALID_WORD_POS fuel policy
                            word1 length1 in
         if decide (word1Pos = NOT_A_VALID_WORD_POS) then fail
         else k word0Pos word1Pos) b = k word0Pos word1Pos b
  | None =>
      ∃ r, (let* word0Pos := lookupWord NOT_A_PROBABILITY NOT_A_VALID_WORD_POS fuel
                               policy word0 length0 in
            if decide (word0Pos = NOT_A_VALID_WORD_POS) then fail
            else
              let* word1Pos := lookupWord NOT_A_PROBABILITY NOT_A_VALID_WORD_POS fuel
                                 policy word1 length1 in
              if decide (word1Pos = NOT_A_VALID_WORD_POS) then fail
              else k word0Pos word1Pos) b = (b, r)
           ∧ ∀ a, r ≠ Done a
  end.
Proof.
  unfold bind, lookupWord, lookupBoth, fail.
  destruct (getTerminalNodePositionOfWord _ _ _ _ _ _ word0 _ _) as [word0Pos| |];
    [|by exists Failed|by exists OutOfFuel].
  destruct (decide _); [by exists Failed|].
  destruct (getTerminalNodePositionOfWord _ _ _ _ _ _ word1 _ _) as [word1Pos| |];
    [|by exists Failed|by exists OutOfFuel].
  destruct (decide _); [by exists Failed|done].
Qed.

(** The call does nothing to the buffer before the write [firstWrite] gives:
    when there is none the call does not return true and the buffer is as
    before, and when the write is refused the call returns false. *)
Lemma firstWrite_reaches fuel policy m b :
  match firstWrite fuel policy m b with
  | Some w =>
      accepted b w = false →
      runPolicyMutation NOT_A_PROBABILITY NOT_A_VALID_WORD_POS fuel policy m b
      = (b, Failed)
  | None =>
      ∃ r, runPolicyMutation NOT_A_PROBABILITY NOT_A_VALID_WORD_POS fuel policy m b
           = (b, r)
           ∧ r ≠ Done tt
  end.
Proof.
  destruct m as [word length probability|word0 length0 word1 length1 probability
                |word0 length0 word1 length1]; unfold runPolicyMutation, firstWrite.
  - unfold addUnigramWord, addUnigramWordOfHelper.
    destruct (negb _); [by exists Failed|].
    rewrite bind_current. apply addUnigramWordLoop_reaches.
  - unfold addBigramWords.
    destruct (negb _); [by exists Failed|].
    pose proof (lookupBoth_reaches fuel policy word0 length0 word1 length1
                  (λ word0Pos word1Pos,
                     addBigramWordsOfHelper NOT_A_PROBABILITY NOT_A_VALID_WORD_POS fuel
                       word0Pos word1Pos probability) b) as Hlook.
    destruct (lookupBoth _ _ _ _ _ _ _) as [[word0Pos word1Pos]|].
    + rewrite Hlook. apply addBigramWordsOfHelper_refused.
    + destruct Hlook as (r & -> & Hr). by exists r.
  - unfold removeBigramWords.
    destruct (negb _); [by exists Failed|].
    pose proof (lookupBoth_reaches fuel policy word0 length0 word1 length1
                  (removeBigramWordsOfHelper NOT_A_PROBABILITY NOT_A_VALID_WORD_POS)
                  b) as Hlook.
    destruct (lookupBoth _ _ _ _ _ _ _) as [[word0Pos word1Pos]|].
    + rewrite Hlook. unfold removeBigramWordsOfHelper, firstWriteOfRemoveBigramWords.
      rewrite bind_current. destruct (decide _); [by exists Failed|].
      unfold removeBigram. rewrite bind_current. apply removeBigramLoop_reaches.
    + destruct Hlook as (r & -> & Hr). by exists r.
Qed.

(** C4 (amended).  A mutation (addUnigramWord, addBigramWords,
    removeBigramWords) that returns false leaves the buffer identical to its
    state before the call when the call reaches no write, and when the first
    write it reaches is refused; when that first write was accepted, the
    buffer after the call holds it: the field is at the position that was
    patched, or the tail has grown by the append.  removeBigramWords that
    returns false always leaves the buffer identical. *)
Theorem failed_mutation_leaves_buffer fuel policy m b b' :
  runPolicyMutation NOT_A_PROBABILITY NOT_A_VALID_WORD_POS fuel policy m b
  = (b', Failed) →
  match firstWrite fuel policy m b with
  | Some w => if accepted b w then holdsWrite b b' w else b' = b
  | None => b' = b
  end
  ∧ match m with
    | CallRemoveBigramWords _ _ _ _ => b' = b
    | _ => True
    end.
Proof.
  destruct m as [word length probability|word0 length0 word1 length1 probability
                |word0 length0 word1 length1]; unfold runPolicyMutation, firstWrite.
  - unfold addUnigramWord, addUnigramWordOfHelper.
    destruct (negb _); [by intros [= <-]|].
    rewrite bind_current. intros Hrun. split; [|done].
    by apply addUnigramWordLoop_Failed in Hrun.
  - unfold addBigramWords.
    destruct (negb _); [by intros [= <-]|].
    intros Hrun%lookupBoth_Failed. split; [|done].
    destruct (lookupBoth _ _ _ _ _ _ _) as [[word0Pos word1Pos]|]; [|done].
    by apply addBigramWordsOfHelper_Failed in Hrun.
  - unfold removeBigramWords.
    destruct (negb _); [by intros [= <-]|].
    intros Hrun%lookupBoth_Failed.
    destruct (lookupBoth _ _ _ _ _ _ _) as [[word0Pos word1Pos]|]; [|done].
    unfold removeBigramWordsOfHelper in Hrun. rewrite bind_current in Hrun.
    unfold firstWriteOfRemoveBigramWords.
    destruct (decide _); [by injection Hrun as <-|].
    unfold removeBigram in Hrun. rewrite bind_current in Hrun.
    pose proof (removeBigramLoop_refused _ _ _ _ _ Hrun) as Hw.
    apply removeBigramLoop_Failed in Hrun as ->. split; [|done].
    destruct (firstWriteOfRemoveBigramLoop _ _ _ _) as [w|]; [|done].
    by rewrite Hw.
Qed.

End FirstWrite.

(** [addUnigramWord(car, 180)] on the dictionary that holds [cat] with the
    tail at its cap reaches the append of the first part of the split node at
    the tail position 10, which is refused: the buffer is as before.
    [addUnigramWord(cats, 150)] first writes the children position field of
    [cat] at position 8, which is accepted, and fails after it: the field
    holds the tail position 10. *)
Lemma failed_mutation_leaves_buffer_witness :
  let car := CallAddUnigramWord exampleCar 3 180 in
  let cats := CallAddUnigramWord exampleCats 4 150 in
  let afterCats := (runPolicyMutation (-1) (-99) 100 examplePolicy cats
                      exampleFullTrie).1 in
  (runPolicyMutation (-1) (-99) 100 examplePolicy car exampleFullTrie
   = (exampleFullTrie, Failed)
   ∧ firstWrite (-1) (-99) 100 examplePolicy car exampleFullTrie
     = Some (10, FFlags noFlags)
   ∧ accepted exampleFullTrie (10, FFlags noFlags) = false
   ∧ match firstWrite (-1) (-99) 100 examplePolicy car exampleFullTrie with
     | Some w => if accepted exampleFullTrie w
                 then holdsWrite exampleFullTrie exampleFullTrie w
                 else exampleFullTrie = exampleFullTrie
     | None => exampleFullTrie = exampleFullTrie
     end)
  ∧ (runPolicyMutation (-1) (-99) 100 examplePolicy cats exampleFullTrie
     = (afterCats, Failed)
     ∧ firstWrite (-1) (-99) 100 examplePolicy cats exampleFullTrie
       = Some (8, FChildrenPos 10)
     ∧ accepted exampleFullTrie (8, FChildrenPos 10) = true
     ∧ match firstWrite (-1) (-99) 100 examplePolicy cats exampleFullTrie with
       | Some w => if accepted exampleFullTrie w
                   then holdsWrite exampleFullTrie afterCats w
                   else afterCats = exampleFullTrie
       | None => afterCats = exampleFullTrie
       end).
Proof.
  intros car cats afterCats. split.
  - split; [vm_compute; reflexivity|]. split; [vm_compute; reflexivity|].
    split; [vm_compute; reflexivity|].
    apply (failed_mutation_leaves_buffer (-1) (-99) 100 examplePolicy car
             exampleFullTrie exampleFullTrie).
    vm_compute. reflexivity.
  - split; [vm_compute; reflexivity|]. split; [vm_compute; reflexivity|].
    split; [vm_compute; reflexivity|].
    apply (failed_mutation_leaves_buffer (-1) (-99) 100 examplePolicy cats
             exampleFullTrie afterCats).
    vm_compute. reflexivity.
Defined.

End DynamicPatriciaTrie.
